(** * Phosphor signaling: the connection registry and the emission engine

    A shallow embedding of [src/index.ts].  JavaScript objects (senders,
    receivers, callbacks, signals) are identities; [Connection] and
    [ConnectionList] objects live in two arenas addressed by index, so that
    aliasing and in-place mutation are explicit; the two [WeakMap]s are
    finite maps keyed by object identity. *)

From Stdlib Require Import ZArith Lia.
From stdpp Require Import gmap list sorting.

Open Scope Z_scope.
Open Scope nat_scope.

(** ** Values *)

(** Identity of a JavaScript object (a sender, a receiver, a callback). *)
Abbreviation Obj := nat (only parsing).
(** Identity of a [Signal] object. *)
Abbreviation Sig := nat (only parsing).
(** Address of a [Connection] in the arena. *)
Abbreviation ConnId := nat (only parsing).
(** Address of a [ConnectionList] in the arena. *)
Abbreviation ListId := nat (only parsing).
(** The payload of [emit]; the engine only passes it on. *)
Abbreviation Args := nat (only parsing).

(** The falsy primitives.  The interface requires a provided [thisArg] to be
    a non-primitive object, so truthy primitives are not values of the
    model; the falsy ones are kept because the code coerces them. *)
Inductive Falsy := FFalse | FZero | FNegZero | FNaN | FEmptyString.

Inductive JsVal :=
| VUndefined
| VNull
| VFalsy (p : Falsy)
| VObj (o : Obj).

#[global] Instance Falsy_eq_dec : EqDecision Falsy.
Proof. solve_decision. Defined.
#[global] Instance JsVal_eq_dec : EqDecision JsVal.
Proof. solve_decision. Defined.

Definition truthy (v : JsVal) : bool :=
  match v with VObj _ => true | _ => false end.

(** [thisArg || void 0] *)
Definition orUndefined (v : JsVal) : JsVal :=
  if truthy v then v else VUndefined.

(** [a === b] on the primitives kept by the model. *)
Definition falsyStrictEq (a b : Falsy) : bool :=
  match a, b with
  | FFalse, FFalse => true
  | (FZero | FNegZero), (FZero | FNegZero) => true
  | FEmptyString, FEmptyString => true
  | _, _ => false
  end.

Definition strictEq (a b : JsVal) : bool :=
  match a, b with
  | VUndefined, VUndefined => true
  | VNull, VNull => true
  | VFalsy p, VFalsy q => falsyStrictEq p q
  | VObj o, VObj o' => bool_decide (o = o')
  | _, _ => false
  end.

(** ** The two record classes *)

(** [class Connection]; every field starts as [null]. *)
Record Connection := mkConnection {
  signal : option Sig;
  callback : option Obj;
  thisArg : JsVal;
  nextReceiver : option ConnId;
  nextSender : option ConnId;
  prevSender : option ConnId;
}.

(** [new Connection()] *)
Definition newConnection : Connection :=
  mkConnection None None VNull None None None.

(** [class ConnectionList] *)
Record ConnectionList := mkConnectionList {
  refs : Z;
  first : option ConnId;
  last : option ConnId;
}.

(** [new ConnectionList()] *)
Definition newConnectionList : ConnectionList :=
  mkConnectionList 0%Z None None.

Definition set_callback (v : option Obj) (r : Connection) : Connection :=
  mkConnection (signal r) v (thisArg r) (nextReceiver r) (nextSender r) (prevSender r).
Definition set_thisArg (v : JsVal) (r : Connection) : Connection :=
  mkConnection (signal r) (callback r) v (nextReceiver r) (nextSender r) (prevSender r).
Definition set_nextReceiver (v : option ConnId) (r : Connection) : Connection :=
  mkConnection (signal r) (callback r) (thisArg r) v (nextSender r) (prevSender r).
Definition set_nextSender (v : option ConnId) (r : Connection) : Connection :=
  mkConnection (signal r) (callback r) (thisArg r) (nextReceiver r) v (prevSender r).
Definition set_prevSender (v : option ConnId) (r : Connection) : Connection :=
  mkConnection (signal r) (callback r) (thisArg r) (nextReceiver r) (nextSender r) v.

Definition set_refs (v : Z) (L : ConnectionList) : ConnectionList :=
  mkConnectionList v (first L) (last L).
Definition set_first (v : option ConnId) (L : ConnectionList) : ConnectionList :=
  mkConnectionList (refs L) v (last L).
Definition set_last (v : option ConnId) (L : ConnectionList) : ConnectionList :=
  mkConnectionList (refs L) (first L) v.

(** ** The program state *)

(** The heap of [Connection] and [ConnectionList] objects and the module's
    two maps, [senderMap] and [receiverMap].  Objects are never freed: an
    object that is no longer referenced simply stays in its arena. *)
Record State := mkState {
  conns : list Connection;
  lists : list ConnectionList;
  senderMap : gmap Obj ListId;
  receiverMap : gmap Obj ConnId;
}.

(** The state when the module is loaded. *)
Definition initState : State := mkState [] [] ∅ ∅.

Definition getC (σ : State) (c : ConnId) : Connection :=
  default newConnection (conns σ !! c).
Definition getL (σ : State) (l : ListId) : ConnectionList :=
  default newConnectionList (lists σ !! l).

(** In-place update of one object. *)
Definition updC (c : ConnId) (f : Connection → Connection) (σ : State) : State :=
  mkState (alter f c (conns σ)) (lists σ) (senderMap σ) (receiverMap σ).
Definition updL (l : ListId) (f : ConnectionList → ConnectionList) (σ : State) : State :=
  mkState (conns σ) (alter f l (lists σ)) (senderMap σ) (receiverMap σ).
Definition setSenderMap (m : gmap Obj ListId) (σ : State) : State :=
  mkState (conns σ) (lists σ) m (receiverMap σ).
Definition setReceiverMap (m : gmap Obj ConnId) (σ : State) : State :=
  mkState (conns σ) (lists σ) (senderMap σ) m.
(** Allocation: the new object gets the next free address. *)
Definition allocC (r : Connection) (σ : State) : State :=
  mkState (conns σ ++ [r]) (lists σ) (senderMap σ) (receiverMap σ).
Definition allocL (L : ConnectionList) (σ : State) : State :=
  mkState (conns σ) (lists σ ++ [L]) (senderMap σ) (receiverMap σ).

(** A loop that follows pointers through the connection arena either stops
    within [loopFuel] iterations or never stops: the loops of the engine
    read a connection's link before they change the connection, so once a
    walk has made more steps than there are connections it is inside a cycle
    that it does not break.  [None] stands for such a run. *)
Definition loopFuel (σ : State) : nat := 2 + length (conns σ).

(** ** The engine *)

(** [conn.thisArg || conn.callback] *)
Definition receiverOf (r : Connection) : option Obj :=
  match thisArg r with VObj o => Some o | _ => callback r end.

(** The test of [findConnection]: [conn.signal === signal &&
    conn.callback === callback && conn.thisArg === thisArg]. *)
Definition matchesConn (sig : Sig) (cb : Obj) (this : JsVal) (r : Connection) : bool :=
  bool_decide (signal r = Some sig) && bool_decide (callback r = Some cb)
  && strictEq (thisArg r) this.

(** The body of [findConnection]'s loop, from [conn]. *)
Fixpoint findConnection_loop (n : nat) (σ : State) (conn : option ConnId)
    (sig : Sig) (cb : Obj) (this : JsVal) : option (option ConnId) :=
  match conn with
  | None => Some None
  | Some c =>
    match n with
    | 0 => None
    | S n' =>
      let r := getC σ c in
      if matchesConn sig cb this r then Some (Some c)
      else findConnection_loop n' σ (nextReceiver r) sig cb this
    end
  end.

Definition findConnection (σ : State) (l : ListId) (sig : Sig) (cb : Obj)
    (this : JsVal) : option (option ConnId) :=
  findConnection_loop (loopFuel σ) σ (first (getL σ l)) sig cb this.

(** [removeFromSendersList(conn)]: unlink [conn] from the doubly linked
    chain of its receiver. *)
Definition removeFromSendersList (conn : ConnId) (σ : State) : State :=
  match receiverOf (getC σ conn) with
  | None => σ
  | Some receiver =>
    let prev := prevSender (getC σ conn) in
    let next := nextSender (getC σ conn) in
    let σ1 :=
      match prev, next with
      | None, None => setReceiverMap (delete receiver (receiverMap σ)) σ
      | None, Some n =>
        updC n (set_prevSender None)
          (setReceiverMap (<[receiver := n]> (receiverMap σ)) σ)
      | Some p, None => updC p (set_nextSender None) σ
      | Some p, Some n =>
        updC n (set_prevSender (Some p)) (updC p (set_nextSender (Some n)) σ)
      end in
    updC conn (set_nextSender None) (updC conn (set_prevSender None) σ1)
  end.

(** [conn.callback = null; conn.thisArg = null;] *)
Definition kill (conn : ConnId) (σ : State) : State :=
  updC conn (set_thisArg VNull) (updC conn (set_callback None) σ).

(** [connect(sender, signal, callback, thisArg)] *)
Definition connect (σ : State) (sender : Obj) (sig : Sig) (cb : Obj)
    (this0 : JsVal) : option (State * bool) :=
  let this := orUndefined this0 in
  let list := senderMap σ !! sender in
  found ← match list with
          | Some l => findConnection σ l sig cb this
          | None => Some None
          end;
  match found with
  | Some _ => Some (σ, false)
  | None =>
    let conn := length (conns σ) in
    let σ1 := allocC (mkConnection (Some sig) (Some cb) this None None None) σ in
    let σ2 :=
      match list with
      | None =>
        let l := length (lists σ1) in
        setSenderMap (<[sender := l]> (senderMap σ1))
          (allocL (mkConnectionList 0%Z (Some conn) (Some conn)) σ1)
      | Some l =>
        match last (getL σ1 l) with
        | None => updL l (set_last (Some conn)) (updL l (set_first (Some conn)) σ1)
        | Some lst =>
          updL l (set_last (Some conn)) (updC lst (set_nextReceiver (Some conn)) σ1)
        end
      end in
    let receiver := match this with VObj o => o | _ => cb end in
    let σ3 :=
      match receiverMap σ2 !! receiver with
      | Some head =>
        updC conn (set_nextSender (Some head)) (updC head (set_prevSender (Some conn)) σ2)
      | None => σ2
      end in
    Some (setReceiverMap (<[receiver := conn]> (receiverMap σ3)) σ3, true)
  end.

(** [disconnect(sender, signal, callback, thisArg)] *)
Definition disconnect (σ : State) (sender : Obj) (sig : Sig) (cb : Obj)
    (this0 : JsVal) : option (State * bool) :=
  let this := orUndefined this0 in
  match senderMap σ !! sender with
  | None => Some (σ, false)
  | Some l =>
    found ← findConnection σ l sig cb this;
    match found with
    | None => Some (σ, false)
    | Some conn => Some (kill conn (removeFromSendersList conn σ), true)
    end
  end.

(** The loop of [cleanList]; [prev] is the last live connection seen. *)
Fixpoint cleanList_loop (n : nat) (l : ListId) (prev conn : option ConnId)
    (σ : State) : option (State * option ConnId) :=
  match conn with
  | None => Some (σ, prev)
  | Some c =>
    match n with
    | 0 => None
    | S n' =>
      let next := nextReceiver (getC σ c) in
      match callback (getC σ c), prev with
      | None, _ => cleanList_loop n' l prev next (updC c (set_nextReceiver None) σ)
      | Some _, None => cleanList_loop n' l (Some c) next (updL l (set_first (Some c)) σ)
      | Some _, Some p =>
        cleanList_loop n' l (Some c) next (updC p (set_nextReceiver (Some c)) σ)
      end
    end
  end.

Definition cleanList (l : ListId) (σ : State) : option State :=
  '(σ1, prev) ← cleanList_loop (loopFuel σ) l None (first (getL σ l)) σ;
  Some match prev with
       | None => updL l (set_last None) (updL l (set_first None) σ1)
       | Some p => updL l (set_last (Some p)) (updC p (set_nextReceiver None) σ1)
       end.

(** The loop of [disconnectSender]. *)
Fixpoint disconnectSender_loop (n : nat) (conn : option ConnId) (σ : State)
    : option State :=
  match conn with
  | None => Some σ
  | Some c =>
    match n with
    | 0 => None
    | S n' =>
      let σ1 := kill c (removeFromSendersList c σ) in
      disconnectSender_loop n' (nextReceiver (getC σ1 c)) σ1
    end
  end.

Definition disconnectSender (sender : Obj) (σ : State) : option State :=
  match senderMap σ !! sender with
  | None => Some σ
  | Some l =>
    σ1 ← disconnectSender_loop (loopFuel σ) (first (getL σ l)) σ;
    Some (setSenderMap (delete sender (senderMap σ1)) σ1)
  end.

(** The loop of [disconnectReceiver]. *)
Fixpoint disconnectReceiver_loop (n : nat) (conn : option ConnId) (σ : State)
    : option State :=
  match conn with
  | None => Some σ
  | Some c =>
    match n with
    | 0 => None
    | S n' =>
      let next := nextSender (getC σ c) in
      disconnectReceiver_loop n' next
        (updC c (set_nextSender None) (updC c (set_prevSender None) (kill c σ)))
    end
  end.

Definition disconnectReceiver (receiver : Obj) (σ : State) : option State :=
  match receiverMap σ !! receiver with
  | None => Some σ
  | Some head =>
    σ1 ← disconnectReceiver_loop (loopFuel σ) (Some head) σ;
    Some (setReceiverMap (delete receiver (receiverMap σ1)) σ1)
  end.

Definition clearSignalData (obj : Obj) (σ : State) : option State :=
  σ1 ← disconnectSender obj σ;
  disconnectReceiver obj σ1.

(** ** Callbacks and emission *)

(** What a callback (or the code that drives the engine) may do: keep a
    private state of type [U], call the engine, and react to the results.
    [PEmit]'s continuation is told whether the emission threw, so a program
    may catch the exception or rethrow it with [PThrow]. *)
Inductive Prog (U : Type) : Type :=
| PDone
| PThrow
| PGet (k : U → Prog U)
| PPut (u : U) (k : Prog U)
| PConnect (sender : Obj) (sig : Sig) (cb : Obj) (this : JsVal) (k : bool → Prog U)
| PDisconnect (sender : Obj) (sig : Sig) (cb : Obj) (this : JsVal) (k : bool → Prog U)
| PEmit (sender : Obj) (sig : Sig) (args : Args) (k : bool → Prog U)
| PDisconnectSender (sender : Obj) (k : Prog U)
| PDisconnectReceiver (receiver : Obj) (k : Prog U)
| PClearSignalData (obj : Obj) (k : Prog U).

Arguments PDone {U}.
Arguments PThrow {U}.
Arguments PGet {U} k.
Arguments PPut {U} u k.
Arguments PConnect {U} sender sig cb this k.
Arguments PDisconnect {U} sender sig cb this k.
Arguments PEmit {U} sender sig args k.
Arguments PDisconnectSender {U} sender k.
Arguments PDisconnectReceiver {U} receiver k.
Arguments PClearSignalData {U} obj k.

(** How a call ends: it returns, it throws, or it does not come back. *)
Inductive Outcome (A : Type) : Type :=
| Normal (a : A)
| Thrown
| Diverged.

Arguments Normal {A} a.
Arguments Thrown {A}.
Arguments Diverged {A}.

(** One [conn.callback.call(conn.thisArg, sender, args)].  [inv_conn] is the
    connection that was invoked and [inv_depth] the number of emissions
    that were already running when the emission that made the call began. *)
Record Invocation := mkInvocation {
  inv_depth : nat;
  inv_conn : ConnId;
  inv_callback : Obj;
  inv_this : JsVal;
  inv_sender : Obj;
  inv_args : Args;
}.

#[global] Instance Invocation_eq_dec : EqDecision Invocation.
Proof. solve_decision. Defined.

Record Result (U A : Type) := mkResult {
  res_state : State;
  res_user : U;
  res_trace : list Invocation;
  res_out : Outcome A;
}.

Arguments mkResult {U A} _ _ _ _.
Arguments res_state {U A} _.
Arguments res_user {U A} _.
Arguments res_trace {U A} _.
Arguments res_out {U A} _.

(** Put the calls made so far in front of the calls of the rest of a run. *)
Definition after {U A} (t : list Invocation) (r : Result U A) : Result U A :=
  mkResult (res_state r) (res_user r) (t ++ res_trace r) (res_out r).

Section Emission.

Context {U : Type}.

(** The code of each callback: what the function object [cb] does when it is
    called with [this], the sender and the arguments. *)
Variable body : Obj → JsVal → Obj → Args → Prog U.

(** Run a program; [emit_rec] is the engine's [emit]. *)
Fixpoint runProg (emit_rec : nat → State → U → Obj → Sig → Args → Result U unit)
    (d : nat) (p : Prog U) (σ : State) (u : U) : Result U unit :=
  match p with
  | PDone => mkResult σ u [] (Normal tt)
  | PThrow => mkResult σ u [] Thrown
  | PGet k => runProg emit_rec d (k u) σ u
  | PPut u' k => runProg emit_rec d k σ u'
  | PConnect sender sig cb this k =>
    match connect σ sender sig cb this with
    | None => mkResult σ u [] Diverged
    | Some (σ1, b) => runProg emit_rec d (k b) σ1 u
    end
  | PDisconnect sender sig cb this k =>
    match disconnect σ sender sig cb this with
    | None => mkResult σ u [] Diverged
    | Some (σ1, b) => runProg emit_rec d (k b) σ1 u
    end
  | PEmit sender sig args k =>
    let r := emit_rec d σ u sender sig args in
    match res_out r with
    | Normal _ => after (res_trace r) (runProg emit_rec d (k false) (res_state r) (res_user r))
    | Thrown => after (res_trace r) (runProg emit_rec d (k true) (res_state r) (res_user r))
    | Diverged => r
    end
  | PDisconnectSender sender k =>
    match disconnectSender sender σ with
    | None => mkResult σ u [] Diverged
    | Some σ1 => runProg emit_rec d k σ1 u
    end
  | PDisconnectReceiver receiver k =>
    match disconnectReceiver receiver σ with
    | None => mkResult σ u [] Diverged
    | Some σ1 => runProg emit_rec d k σ1 u
    end
  | PClearSignalData obj k =>
    match clearSignalData obj σ with
    | None => mkResult σ u [] Diverged
    | Some σ1 => runProg emit_rec d k σ1 u
    end
  end.

(** [list.refs++] and [list.refs--] *)
Definition incRefs (l : ListId) (σ : State) : State :=
  updL l (λ L, set_refs (refs L + 1)%Z L) σ.
Definition decRefs (l : ListId) (σ : State) : State :=
  updL l (λ L, set_refs (refs L - 1)%Z L) σ.

(** [emit] and the loop of [invokeList].  [fuel] bounds the number of loop
    iterations and nested emissions together; a run that needs more ends
    in [Diverged].  [lastc] is [invokeList]'s [last], read before the loop. *)
Fixpoint emit (fuel : nat) (d : nat) (σ : State) (u : U) (sender : Obj) (sig : Sig)
    (args : Args) {struct fuel} : Result U unit :=
  match fuel with
  | 0 => mkResult σ u [] Diverged
  | S f =>
    match senderMap σ !! sender with
    | None => mkResult σ u [] (Normal tt)
    | Some l =>
      let σ1 := incRefs l σ in
      let r := invokeLoop f d sender sig args (last (getL σ1 l)) false
                 (first (getL σ1 l)) σ1 u in
      match res_out r with
      | Diverged => mkResult (res_state r) (res_user r) (res_trace r) Diverged
      | Thrown => mkResult (decRefs l (res_state r)) (res_user r) (res_trace r) Thrown
      | Normal dirty =>
        let σ3 := decRefs l (res_state r) in
        if dirty && bool_decide (refs (getL σ3 l) = 0%Z) then
          match cleanList l σ3 with
          | Some σ4 => mkResult σ4 (res_user r) (res_trace r) (Normal tt)
          | None => mkResult σ3 (res_user r) (res_trace r) Diverged
          end
        else mkResult σ3 (res_user r) (res_trace r) (Normal tt)
      end
    end
  end
with invokeLoop (fuel : nat) (d : nat) (sender : Obj) (sig : Sig) (args : Args)
    (lastc : option ConnId) (dirty : bool) (conn : option ConnId) (σ : State) (u : U)
    {struct fuel} : Result U bool :=
  match conn with
  | None => mkResult σ u [] (Normal dirty)
  | Some c =>
    match fuel with
    | 0 => mkResult σ u [] Diverged
    | S f =>
      let r := getC σ c in
      let step : Result U bool :=
        match callback r with
        | None => mkResult σ u [] (Normal true)
        | Some cb =>
          if bool_decide (signal r = Some sig) then
            let rc := runProg (emit f) (S d) (body cb (thisArg r) sender args) σ u in
            mkResult (res_state rc) (res_user rc)
              (mkInvocation d c cb (thisArg r) sender args :: res_trace rc)
              match res_out rc with
              | Normal _ => Normal dirty
              | Thrown => Thrown
              | Diverged => Diverged
              end
          else mkResult σ u [] (Normal dirty)
        end in
      match res_out step with
      | Normal dirty' =>
        if bool_decide (Some c = lastc) then
          mkResult (res_state step) (res_user step) (res_trace step) (Normal dirty')
        else
          after (res_trace step)
            (invokeLoop f d sender sig args lastc dirty'
               (nextReceiver (getC (res_state step) c)) (res_state step) (res_user step))
      | Thrown => step
      | Diverged => step
      end
    end
  end.

(** [invokeList(list, sender, signal, args)] *)
Definition invokeList (fuel : nat) (d : nat) (l : ListId) (sender : Obj) (sig : Sig)
    (args : Args) (σ : State) (u : U) : Result U bool :=
  invokeLoop fuel d sender sig args (last (getL σ l)) false (first (getL σ l)) σ u.

End Emission.

(** * Verification *)

(** ** The shape of the heap *)

(** [last] of a Rocq list, as opposed to the [last] field of a list record. *)
Abbreviation list_last := (@stdpp.list_basics.list.last _) (only parsing).

(** The connections linked from [p] up to the link [q], along the link
    field [nx] ([nextReceiver] in a sender list, [nextSender] in a receiver
    chain). *)
Inductive lseg (nx : Connection → option ConnId) (h : list Connection)
  : option ConnId → list ConnId → option ConnId → Prop :=
| lseg_nil p : lseg nx h p [] p
| lseg_cons c r xs q :
    h !! c = Some r → lseg nx h (nx r) xs q → lseg nx h (Some c) (c :: xs) q.

(** The back links of a receiver chain: [prevSender] of each connection of
    [xs] is the connection before it, and [q] for the first one. *)
Fixpoint bseg (h : list Connection) (q : option ConnId) (xs : list ConnId) : Prop :=
  match xs with
  | [] => True
  | c :: xs' => (∃ r, h !! c = Some r ∧ prevSender r = q) ∧ bseg h (Some c) xs'
  end.

(** [xs] is the content of the sender list [l], in list order. *)
Definition chain (σ : State) (l : ListId) (xs : list ConnId) : Prop :=
  ∃ L, lists σ !! l = Some L ∧ lseg nextReceiver (conns σ) (first L) xs None
       ∧ last L = list_last xs.

(** The same content, computed by following the links. *)
Fixpoint chainFrom (n : nat) (h : list Connection) (p : option ConnId) : list ConnId :=
  match n, p with
  | S n', Some c =>
    c :: chainFrom n' h (nextReceiver (default newConnection (h !! c)))
  | _, _ => []
  end.

Definition chainOf (σ : State) (l : ListId) : list ConnId :=
  chainFrom (length (conns σ)) (conns σ) (first (getL σ l)).

(** A connection is live while its callback is set. *)
Definition liveb (r : Connection) : bool :=
  match callback r with Some _ => true | None => false end.

(** No two live connections of a list carry the same signal, callback and
    context. *)
Definition uniq_live (h : list Connection) (xs : list ConnId) : Prop :=
  ∀ c1 c2 r1 r2,
    c1 ∈ xs → c2 ∈ xs → h !! c1 = Some r1 → h !! c2 = Some r2 →
    liveb r1 = true → signal r1 = signal r2 → callback r1 = callback r2 →
    thisArg r1 = thisArg r2 → c1 = c2.

(** [xs] is the chain of the receiver [o]: it hangs off [receiverMap] and
    holds exactly the connections whose receiver is [o]. *)
Definition rchain (σ : State) (o : Obj) (xs : list ConnId) : Prop :=
  lseg nextSender (conns σ) (receiverMap σ !! o) xs None
  ∧ bseg (conns σ) None xs ∧ NoDup xs
  ∧ ∀ c, c ∈ xs ↔ ∃ r, conns σ !! c = Some r ∧ receiverOf r = Some o.

(** The invariant of the sender side: every list object holds a chain of
    connections in the order of their creation, no connection is in two
    lists, no emission count is negative, and no two senders share a list. *)
Record wfS (σ : State) : Prop := mkWfS {
  wfS_chain : ∀ l L, lists σ !! l = Some L →
    ∃ xs, chain σ l xs ∧ StronglySorted lt xs ∧ uniq_live (conns σ) xs;
  wfS_disj : ∀ l1 l2 xs1 xs2 c,
    chain σ l1 xs1 → chain σ l2 xs2 → c ∈ xs1 → c ∈ xs2 → l1 = l2;
  wfS_refs : ∀ l L, lists σ !! l = Some L → (0 ≤ refs L)%Z;
  wfS_smap : ∀ s l, senderMap σ !! s = Some l → l < length (lists σ);
  wfS_inj : ∀ s1 s2 l,
    senderMap σ !! s1 = Some l → senderMap σ !! s2 = Some l → s1 = s2;
}.

(** The invariant of the receiver side. *)
Definition wfR (σ : State) : Prop := ∀ o, ∃ xs, rchain σ o xs.

(** The invariant of the registry. *)
Definition wf (σ : State) : Prop := wfS σ ∧ wfR σ.

(** What any run of the engine does to a connection that exists: its signal
    never changes, and its callback and context stay as they are until the
    connection is disconnected, for good. *)
Definition keptM (r r' : Connection) : Prop :=
  signal r' = signal r
  ∧ ((callback r' = callback r ∧ thisArg r' = thisArg r)
     ∨ (callback r' = None ∧ thisArg r' = VNull)).

Definition mono (σ σ' : State) : Prop :=
  ∀ c r, conns σ !! c = Some r → ∃ r', conns σ' !! c = Some r' ∧ keptM r r'.

(** No connection is disconnected. *)
Definition keptL (r r' : Connection) : Prop :=
  signal r' = signal r ∧ callback r' = callback r ∧ thisArg r' = thisArg r.

Definition nokill (σ σ' : State) : Prop :=
  ∀ c r, conns σ !! c = Some r → ∃ r', conns σ' !! c = Some r' ∧ keptL r r'.

(** What any run of the engine does to the sender lists that exist: the
    emission count is back where it was, and a list that is being emitted
    has only grown at its tail, by connections made during the run. *)
Definition stable (σ σ' : State) : Prop :=
  ∀ l L, lists σ !! l = Some L →
    ∃ L', lists σ' !! l = Some L' ∧ refs L' = refs L
      ∧ ((0 < refs L)%Z → ∀ xs, chain σ l xs →
           ∃ ext, chain σ' l (xs ++ ext)
                  ∧ Forall (λ c, length (conns σ) ≤ c) ext).

Definition evolves (σ σ' : State) : Prop :=
  length (conns σ) ≤ length (conns σ') ∧ mono σ σ' ∧ stable σ σ'.

(** ** Frames: changes that leave one side of the registry alone *)

(** A change of a connection that keeps its place in the sender list. *)
Definition keptS (r r' : Connection) : Prop :=
  nextReceiver r' = nextReceiver r ∧ keptM r r'.

(** A change of a connection that keeps its place in the receiver chain. *)
Definition keptR (r r' : Connection) : Prop :=
  keptL r r' ∧ nextSender r' = nextSender r ∧ prevSender r' = prevSender r.

Definition sameS (σ σ' : State) : Prop :=
  lists σ' = lists σ ∧ senderMap σ' = senderMap σ
  ∧ Forall2 keptS (conns σ) (conns σ').

Definition sameR (σ σ' : State) : Prop :=
  receiverMap σ' = receiverMap σ ∧ Forall2 keptR (conns σ) (conns σ').

(** ** What the operations do to a connection *)

(** What [removeFromSendersList(c)] followed by the clearing of [c] does to
    the connection at address [x], when [c] has the links [prev] and
    [next]. *)
Definition unlinkRec (c : ConnId) (prev next : option ConnId) (x : ConnId)
    (r : Connection) : Connection :=
  let r1 := if decide (Some x = prev) then set_nextSender next r else r in
  let r2 := if decide (Some x = next) then set_prevSender prev r1 else r1 in
  if decide (x = c) then set_nextSender None (set_prevSender None r2) else r2.

Definition killRec (c : ConnId) (x : ConnId) (r : Connection) : Connection :=
  if decide (x = c) then set_thisArg VNull (set_callback None r) else r.

(** What [disconnectReceiver] does to each connection of the chain. *)
Definition clearRec (r : Connection) : Connection :=
  set_nextSender None (set_prevSender None (set_thisArg VNull (set_callback None r))).

(** The live connections relinked so far by [cleanList]'s loop: all but the
    last of them are linked from [first], and lead to the last. *)
Definition partial (σ : State) (l : ListId) (ys : list ConnId) : Prop :=
  ys = [] ∨ ∃ ys' t, ys = ys' ++ [t]
    ∧ lseg nextReceiver (conns σ) (first (getL σ l)) ys' (Some t)
    ∧ is_Some (conns σ !! t).

(** The connection that [connect] creates. *)
Definition freshConn (sig : Sig) (cb : Obj) (this : JsVal) : Connection :=
  mkConnection (Some sig) (Some cb) this None None None.

(** The block of [connect] that adds the connection to the sender's list. *)
Definition addToList (sender : Obj) (list : option ListId) (conn : ConnId)
    (σ1 : State) : State :=
  match list with
  | None =>
    let l := length (lists σ1) in
    setSenderMap (<[sender := l]> (senderMap σ1))
      (allocL (mkConnectionList 0%Z (Some conn) (Some conn)) σ1)
  | Some l =>
    match last (getL σ1 l) with
    | None => updL l (set_last (Some conn)) (updL l (set_first (Some conn)) σ1)
    | Some lst =>
      updL l (set_last (Some conn)) (updC lst (set_nextReceiver (Some conn)) σ1)
    end
  end.

(** The block of [connect] that adds the connection to the receiver's chain. *)
Definition addToChain (receiver : Obj) (conn : ConnId) (σ2 : State) : State :=
  let σ3 :=
    match receiverMap σ2 !! receiver with
    | Some head =>
      updC conn (set_nextSender (Some head)) (updC head (set_prevSender (Some conn)) σ2)
    | None => σ2
    end in
  setReceiverMap (<[receiver := conn]> (receiverMap σ3)) σ3.

(** [thisArg || callback], for a callback that is set. *)
Definition receiverId (this : JsVal) (cb : Obj) : Obj :=
  match this with VObj o => o | _ => cb end.

(** The state before the new connection was allocated, as far as the
    receiver side is concerned. *)
Definition withConns (h : list Connection) (σ : State) : State :=
  mkState h (lists σ) (senderMap σ) (receiverMap σ).

(** The state after a successful [connect]. *)
Definition connected (σ : State) (s : Obj) (sig : Sig) (cb : Obj) (this0 : JsVal)
    : State :=
  addToChain (receiverId (orUndefined this0) cb) (length (conns σ))
    (addToList s (senderMap σ !! s) (length (conns σ))
       (allocC (freshConn sig cb (orUndefined this0)) σ)).

(** The condition under which [connect] makes a connection: the list of the
    sender has no live connection for the signal, callback and context. *)
Definition noMatch (σ : State) (s : Obj) (sig : Sig) (cb : Obj) (this0 : JsVal)
    : Prop :=
  ∀ l xs c, senderMap σ !! s = Some l → chain σ l xs → c ∈ xs →
    matchesConn sig cb (orUndefined this0) (getC σ c) = false.

(** ** The connections of a sender and of a receiver *)

(** The connections in the list of the sender, first to last. *)
Definition connectionsOf (σ : State) (s : Obj) : list ConnId :=
  match senderMap σ !! s with
  | Some l => chainOf σ l
  | None => []
  end.

(** The chain of a receiver, computed by following the links. *)
Fixpoint sendersFrom (n : nat) (h : list Connection) (p : option ConnId) : list ConnId :=
  match n, p with
  | S n', Some c =>
    c :: sendersFrom n' h (nextSender (default newConnection (h !! c)))
  | _, _ => []
  end.

(** The connections in the chain of the receiver, from the head that
    [receiverMap] holds. *)
Definition connectionsTo (σ : State) (o : Obj) : list ConnId :=
  sendersFrom (length (conns σ)) (conns σ) (receiverMap σ !! o).

(** ** Traces *)

(** Every call of the trace was made by an emission that started at depth
    [d] or deeper. *)
Definition deeper (d : nat) (t : list Invocation) : Prop :=
  Forall (λ i, d ≤ inv_depth i) t.

(** Every call of the trace went to a connection that was live when the
    call was made: if the connection existed in [σ], it already had the
    callback and the context of the call there. *)
Definition sound (σ : State) (t : list Invocation) : Prop :=
  Forall (λ i, ∀ r, conns σ !! inv_conn i = Some r →
                callback r = Some (inv_callback i) ∧ thisArg r = inv_this i) t.

(** A run from [σ] to [σ'] with the trace [t]. *)
Definition step_ok (d : nat) (σ : State) (t : list Invocation) (σ' : State) : Prop :=
  wf σ' ∧ evolves σ σ' ∧ deeper d t ∧ sound σ t.

Definition good {U A} (d : nat) (σ : State) (r : Result U A) : Prop :=
  res_out r ≠ Diverged → step_ok d σ (res_trace r) (res_state r).

(** The calls of a trace that were made by an emission at depth [d] itself,
    not by an emission nested in it. *)
Definition own (d : nat) (t : list Invocation) : list Invocation :=
  filter (λ i, inv_depth i = d) t.

(** The test of [invokeList]: the connection is live and is for the signal. *)
Definition invokedb (sig : Sig) (r : Connection) : bool :=
  liveb r && bool_decide (signal r = Some sig).

(** The connections called by an emission at depth [d] itself. *)
Definition ownConns (d : nat) (t : list Invocation) : list ConnId :=
  inv_conn <$> own d t.

(** The connections of [xs] that a pass would call for the signal, in the
    state [σ]. *)
Definition snapshot (sig : Sig) (σ : State) (xs : list ConnId) : list ConnId :=
  filter (λ c, invokedb sig (getC σ c) = true) xs.

(** The call that a pass at depth [d] makes to the connection [c]. *)
Definition invocationOf (d : nat) (s : Obj) (args : Args) (σ : State) (c : ConnId)
    : Invocation :=
  mkInvocation d c (default 0 (callback (getC σ c))) (thisArg (getC σ c)) s args.

(** Some connection of [xs] is dead. *)
Definition anyDead (σ : State) (xs : list ConnId) : bool :=
  existsb (λ c, negb (liveb (getC σ c))) xs.

(** The calls of a trace that go to the callback [cb] with the context
    [this]. *)
Definition callsTo (cb : Obj) (this : JsVal) (t : list Invocation) : list Invocation :=
  filter (λ i, inv_callback i = cb ∧ inv_this i = this) t.

(** The receiver of a call: [thisArg || callback]. *)
Definition inv_receiver (i : Invocation) : Obj :=
  receiverId (inv_this i) (inv_callback i).

(** ** Callbacks *)

(** [ends cn th p]: the program [p] calls no engine function other than
    [connect], and not even that unless [cn] is set; it ends by throwing if
    [th] is set and by returning otherwise. *)
Inductive ends {U : Type} (cn th : bool) : Prog U → Prop :=
| ends_done : th = false → ends cn th PDone
| ends_throw : th = true → ends cn th PThrow
| ends_get k : (∀ u, ends cn th (k u)) → ends cn th (PGet k)
| ends_put u k : ends cn th k → ends cn th (PPut u k)
| ends_connect s sig cb this k :
    cn = true → (∀ b, ends cn th (k b)) → ends cn th (PConnect s sig cb this k).

(** A callback that may connect, and returns. *)
Abbreviation quiet := (ends true false).

(** A callback that leaves the engine alone, and returns. *)
Abbreviation passive := (ends false false).

(** A callback that leaves the engine alone, and throws. *)
Abbreviation thrower := (ends false true).

(** [spares s p]: the program [p] makes no call of [disconnectSender] and
    no call of [clearSignalData] for the object [s]. *)
Inductive spares {U : Type} (s : Obj) : Prog U → Prop :=
| spares_done : spares s PDone
| spares_throw : spares s PThrow
| spares_get k : (∀ u, spares s (k u)) → spares s (PGet k)
| spares_put u k : spares s k → spares s (PPut u k)
| spares_connect s' sig cb this k :
    (∀ b, spares s (k b)) → spares s (PConnect s' sig cb this k)
| spares_disconnect s' sig cb this k :
    (∀ b, spares s (k b)) → spares s (PDisconnect s' sig cb this k)
| spares_emit s' sig args k :
    (∀ b, spares s (k b)) → spares s (PEmit s' sig args k)
| spares_disconnectSender s' k :
    s' ≠ s → spares s k → spares s (PDisconnectSender s' k)
| spares_disconnectReceiver o k :
    spares s k → spares s (PDisconnectReceiver o k)
| spares_clearSignalData o k :
    o ≠ s → spares s k → spares s (PClearSignalData o k).

Section Passes.

Context {U : Type}.
Variable body : Obj → JsVal → Obj → Args → Prog U.

(** The body of [invokeList]'s loop for the connection [c]. *)
Definition invokeStep (f d : nat) (s : Obj) (sig : Sig) (args : Args) (dirty : bool)
    (c : ConnId) (σ : State) (u : U) : Result U bool :=
  let r := getC σ c in
  match callback r with
  | None => mkResult σ u [] (Normal true)
  | Some cb =>
    if bool_decide (signal r = Some sig) then
      let rc := runProg (emit body f) (S d) (body cb (thisArg r) s args) σ u in
      mkResult (res_state rc) (res_user rc)
        (mkInvocation d c cb (thisArg r) s args :: res_trace rc)
        match res_out rc with
        | Normal _ => Normal dirty
        | Thrown => Thrown
        | Diverged => Diverged
        end
    else mkResult σ u [] (Normal dirty)
  end.

(** Every connection of [xs] that a pass for the signal would call has a
    callback that keeps to itself. *)
Definition wellBehaved (cn : bool) (sig : Sig) (s : Obj) (args : Args) (σ : State)
    (xs : list ConnId) : Prop :=
  ∀ c cb, c ∈ xs → invokedb sig (getC σ c) = true →
    callback (getC σ c) = Some cb →
    ends cn false (body cb (thisArg (getC σ c)) s args).

End Passes.

(** ** Bound signals *)

(** [class BoundSignal]: a signal and the sender it is bound to. *)
Record BoundSignal := mkBoundSignal {
  _signal : Sig;
  _sender : Obj;
}.

(** [Signal.bind(sender)] *)
Definition bind (signal : Sig) (sender : Obj) : BoundSignal :=
  mkBoundSignal signal sender.

(** [BoundSignal.connect(callback, thisArg)]; a context that is left out is
    [undefined]. *)
Definition bound_connect (b : BoundSignal) (σ : State) (cb : Obj) (this0 : JsVal)
    : option (State * bool) :=
  connect σ (_sender b) (_signal b) cb this0.

(** [BoundSignal.disconnect(callback, thisArg)] *)
Definition bound_disconnect (b : BoundSignal) (σ : State) (cb : Obj) (this0 : JsVal)
    : option (State * bool) :=
  disconnect σ (_sender b) (_signal b) cb this0.

(** [BoundSignal.emit(args)] *)
Definition bound_emit {U} (body : Obj → JsVal → Obj → Args → Prog U) (fuel d : nat)
    (b : BoundSignal) (σ : State) (u : U) (args : Args) : Result U unit :=
  emit body fuel d σ u (_sender b) (_signal b) args.

(** ** Whether a connection exists *)

(** The list of the sender holds a live connection for the signal, the
    callback and the context; [findConnection]'s test, over the list. *)
Definition isConnected (σ : State) (s : Obj) (sig : Sig) (cb : Obj) (this0 : JsVal)
    : bool :=
  existsb (λ c, matchesConn sig cb (orUndefined this0) (getC σ c)) (connectionsOf σ s).

(** ** What a call is passed *)

(** Every call of the trace was made at depth [d] or deeper, and the calls
    made at depth [d] itself were passed the sender [s] and the arguments
    [args]. *)
Definition tagged (d : nat) (s : Obj) (args : Args) (t : list Invocation) : Prop :=
  Forall (λ i, d ≤ inv_depth i
               ∧ (inv_depth i = d → inv_sender i = s ∧ inv_args i = args)) t.

(** ** The emission counts of the lists *)

(** Every entry of [senderMap] is a list of the registry. *)
Definition smapOK (σ : State) : Prop :=
  ∀ s l, senderMap σ !! s = Some l → l < length (lists σ).

(** The registry has the lists it had, with the emission counts they had,
    and [senderMap] is what it was. *)
Definition sameCounts (σ σ' : State) : Prop :=
  length (lists σ') = length (lists σ) ∧ senderMap σ' = senderMap σ
  ∧ ∀ l, refs (getL σ' l) = refs (getL σ l).

(** The registry may have more lists than it had; a list of it has the
    emission count it had, which for a new list is zero. *)
Definition settled (σ σ' : State) : Prop :=
  smapOK σ' ∧ length (lists σ) ≤ length (lists σ')
  ∧ ∀ l, refs (getL σ' l) = refs (getL σ l).

(** ** The objects of the test suite

    [test/src/index.ts]: the senders are [TestObject]s, the three signals
    are static members of the class, and the callbacks are the methods of
    [TestHandler] (one function object each, shared by all the handlers
    through the prototype) and the closures [adder.add] and
    [remover.remove]. *)

Definition obj1 : Obj := 1.
Definition obj2 : Obj := 2.
Definition oneSignal : Sig := 1.
Definition twoSignal : Sig := 2.
Definition threeSignal : Sig := 3.
Definition handler1 : Obj := 101.
Definition handler2 : Obj := 102.
Definition handler3 : Obj := 103.
Definition adder : Obj := 106.
Definition remover : Obj := 107.
Definition onOne : Obj := 11.
Definition onTwo : Obj := 12.
Definition onThree : Obj := 13.
Definition onThrow : Obj := 50.
Definition add : Obj := 60.
Definition remove : Obj := 70.

(** What each callback does to the engine.  [onOne], [onTwo] and [onThree]
    only write to their handler or to the argument. *)
Definition testBody (cb : Obj) (this : JsVal) (sender : Obj) (args : Args) : Prog unit :=
  if decide (cb = onThrow) then PThrow
  else if decide (cb = add) then
    PConnect obj1 threeSignal onThree (VObj handler3) (λ _, PDone)
  else if decide (cb = remove) then
    PDisconnect obj1 threeSignal onThree (VObj handler3) (λ _, PDone)
  else PDone.

(** Calls made one after the other from the top level. *)
Definition run (p : Prog unit) (σ : State) : Result unit unit :=
  runProg (emit testBody 16) 0 p σ tt.

(** [obj1.one.connect(handler1.onOne, handler1)] *)
Definition withOne : State :=
  res_state (run (PConnect obj1 oneSignal onOne (VObj handler1) (λ _, PDone)) initState).

(** [obj1.one.connect(handler1.onOne, handler1);
    obj1.one.disconnect(handler1.onOne, handler1)] *)
Definition withDead : State :=
  res_state (run
    (PConnect obj1 oneSignal onOne (VObj handler1) (λ _,
     PDisconnect obj1 oneSignal onOne (VObj handler1) (λ _, PDone))) initState).

(** [obj1.one.connect(handler.onThrow, null)] *)
Definition withPlain : State := connected initState obj1 oneSignal onThrow VNull.

(** [obj1.three.connect(handler1.onThree, handler1); ...(handler2.onThree,
    handler2); ...(adder.add, adder)] *)
Definition withAdder : State :=
  res_state (run
    (PConnect obj1 threeSignal onThree (VObj handler1) (λ _,
     PConnect obj1 threeSignal onThree (VObj handler2) (λ _,
     PConnect obj1 threeSignal add (VObj adder) (λ _, PDone)))) initState).

(** [obj1.three.connect(handler1.onThree, handler1); ...(handler2.onThree,
    handler2); ...(remover.remove, remover); ...(handler3.onThree,
    handler3)] *)
Definition withRemover : State :=
  res_state (run
    (PConnect obj1 threeSignal onThree (VObj handler1) (λ _,
     PConnect obj1 threeSignal onThree (VObj handler2) (λ _,
     PConnect obj1 threeSignal remove (VObj remover) (λ _,
     PConnect obj1 threeSignal onThree (VObj handler3) (λ _, PDone))))) initState).

(** [obj1.three.connect(handler1.onThree, handler1); ...(handler2.onThrow,
    handler2); ...(handler3.onThree, handler3)] *)
Definition withThrower : State :=
  res_state (run
    (PConnect obj1 threeSignal onThree (VObj handler1) (λ _,
     PConnect obj1 threeSignal onThrow (VObj handler2) (λ _,
     PConnect obj1 threeSignal onThree (VObj handler3) (λ _, PDone)))) initState).

(** Three connections in a row, then the first is disconnected and
    connected again. *)
Definition reconnected : State :=
  res_state (run
    (PConnect obj1 threeSignal onThree (VObj handler1) (λ _,
     PConnect obj1 threeSignal onThree (VObj handler2) (λ _,
     PConnect obj1 threeSignal onThree (VObj handler3) (λ _,
     PDisconnect obj1 threeSignal onThree (VObj handler1) (λ _,
     PConnect obj1 threeSignal onThree (VObj handler1) (λ _, PDone)))))) initState).

(** [obj1.one.connect(handler1.onOne, handler1); obj1.one.connect(
    handler2.onOne, handler2); obj2.one.connect(handler1.onOne, handler1);
    obj2.one.connect(handler2.onOne, handler2)] *)
Definition twoSenders : State :=
  res_state (run
    (PConnect obj1 oneSignal onOne (VObj handler1) (λ _,
     PConnect obj1 oneSignal onOne (VObj handler2) (λ _,
     PConnect obj2 oneSignal onOne (VObj handler1) (λ _,
     PConnect obj2 oneSignal onOne (VObj handler2) (λ _, PDone))))) initState).

(** ** Further scenarios of the test suite *)

(** The test for the order of the calls, with a callback that connects and
    a callback that throws connected as well, and emissions in between. *)
Definition busyRun : Prog unit :=
  PConnect obj1 threeSignal onThree (VObj handler1) (λ _,
  PConnect obj1 threeSignal add (VObj adder) (λ _,
  PConnect obj2 threeSignal onThrow (VObj handler1) (λ _,
  PEmit obj1 threeSignal 0 (λ _,
  PEmit obj2 threeSignal 0 (λ _,
  PDisconnect obj1 threeSignal add (VObj adder) (λ _,
  PEmit obj1 threeSignal 0 (λ _, PDone))))))).

(** The run of [busyRun] without its last emission: the disconnected
    connection is still in the list of [obj1]. *)
Definition unsweptRun : Prog unit :=
  PConnect obj1 threeSignal onThree (VObj handler1) (λ _,
  PConnect obj1 threeSignal add (VObj adder) (λ _,
  PConnect obj2 threeSignal onThrow (VObj handler1) (λ _,
  PEmit obj1 threeSignal 0 (λ _,
  PEmit obj2 threeSignal 0 (λ _,
  PDisconnect obj1 threeSignal add (VObj adder) (λ _, PDone)))))).

(** Inside a pass over the list of [obj1]: the remaining connection is
    disconnected, another is made, the signal is emitted again and the
    sender is torn down. *)
Definition insidePass : Prog unit :=
  PDisconnect obj1 threeSignal onThree (VObj handler3) (λ _,
  PConnect obj1 oneSignal onOne (VObj handler1) (λ _,
  PEmit obj1 threeSignal 0 (λ _,
  PDisconnectSender obj1 PDone))).

(** The list of [obj1] after the first and the last of its three
    connections were disconnected. *)
Definition withGaps : State :=
  res_state (run
    (PConnect obj1 threeSignal onThree (VObj handler1) (λ _,
     PConnect obj1 threeSignal onThree (VObj handler2) (λ _,
     PConnect obj1 threeSignal onThree (VObj handler3) (λ _,
     PDisconnect obj1 threeSignal onThree (VObj handler1) (λ _,
     PDisconnect obj1 threeSignal onThree (VObj handler3) (λ _, PDone)))))) initState).

(** The test of [clearSignalData]: two objects that send to each other,
    to themselves and to a plain function. *)
Definition ext1 : Obj := 201.
Definition ext2 : Obj := 202.
Definition onNotify : Obj := 21.
Definition onCount : Obj := 22.

Definition withExtended : State :=
  res_state (run
    (PConnect ext1 oneSignal onNotify (VObj ext1) (λ _,
     PConnect ext1 oneSignal onNotify (VObj ext2) (λ _,
     PConnect ext1 oneSignal onCount VUndefined (λ _,
     PConnect ext2 oneSignal onNotify (VObj ext1) (λ _,
     PConnect ext2 oneSignal onNotify (VObj ext2) (λ _,
     PConnect ext2 oneSignal onCount VUndefined (λ _, PDone))))))) initState).

(** The run of the test for issue 5 with more around it: an emission on the
    emptied list, a connection for another sender, the teardown of that
    sender and of a receiver. *)
Definition aroundRun : Prog unit :=
  PEmit obj1 oneSignal 0 (λ _,
  PConnect obj2 oneSignal onOne (VObj handler1) (λ _,
  PEmit obj2 oneSignal 0 (λ _,
  PDisconnectSender obj2 (
  PClearSignalData handler1 (
  PDisconnectReceiver handler1 PDone))))).

(** ** Tactics for closed instances *)

Ltac solve_ends := vm_compute; repeat first [reflexivity | intro | constructor].

Ltac solve_elem := vm_compute; repeat first [apply list_elem_of_here | apply list_elem_of_further].

(** Settle a goal [wellBehaved body cn sig s args σ xs] on closed data by
    going through the connections of [xs]. *)
Ltac solve_wellBehaved :=
  let c := fresh "c" in let cb := fresh "cb" in
  let Hc := fresh "Hc" in let Hcb := fresh "Hcb" in
  intros c cb Hc _ Hcb;
  vm_compute in Hc;
  repeat (apply elem_of_cons in Hc as [->|Hc]);
  [ vm_compute in Hcb; try discriminate Hcb;
    injection Hcb as <-; solve_ends .. | apply elem_of_nil in Hc; destruct Hc ].

(** Go through the members of a closed list. *)
Ltac each_member H :=
  vm_compute in H;
  repeat (apply elem_of_cons in H as [->|H]);
  [ .. | apply elem_of_nil in H; destruct H ].

(** Refute the membership of a closed value in a closed list. *)
Ltac absurd_member H :=
  vm_compute in H;
  repeat (apply elem_of_cons in H as [H|H]; [discriminate H|]);
  apply elem_of_nil in H; destruct H.

(** * Lemmas *)

(** ** Segments of a sender list *)

Section Segments.

Variable nx : Connection → option ConnId.

Implicit Types (h : list Connection) (p q : option ConnId) (xs ys : list ConnId).

Lemma lseg_app h p m q xs ys :
  lseg nx h p xs m → lseg nx h m ys q → lseg nx h p (xs ++ ys) q.
Proof.
  induction 1 as [|c r xs m Hc _ IH]; intros Hys; simpl; [done|].
  econstructor; eauto.
Qed.

Lemma lseg_app_inv h p q xs ys :
  lseg nx h p (xs ++ ys) q → ∃ m, lseg nx h p xs m ∧ lseg nx h m ys q.
Proof.
  revert p. induction xs as [|x xs IH]; intros p H; simpl in *.
  - exists p. split; [constructor | done].
  - inversion H as [|c r xs' q' Hc Hrest]; subst.
    destruct (IH _ Hrest) as (m & H1 & H2).
    exists m. split; [econstructor; eauto | done].
Qed.

Lemma lseg_snoc h p c r q xs :
  lseg nx h p xs (Some c) → h !! c = Some r → nx r = q →
  lseg nx h p (xs ++ [c]) q.
Proof.
  intros H Hc Hq. eapply lseg_app; [exact H|].
  econstructor; [exact Hc|]. rewrite Hq. constructor.
Qed.

Lemma lseg_snoc_inv h p c q xs :
  lseg nx h p (xs ++ [c]) q →
  lseg nx h p xs (Some c) ∧ ∃ r, h !! c = Some r ∧ nx r = q.
Proof.
  intros H. apply lseg_app_inv in H as (m & H1 & H2).
  inversion H2 as [|c' r xs' q' Hc Hrest]; subst.
  inversion Hrest; subst. split; [done|]. eauto.
Qed.

Lemma lseg_valid h p q xs c :
  lseg nx h p xs q → c ∈ xs → is_Some (h !! c).
Proof.
  induction 1 as [|c' r xs q Hc _ IH]; intros Hin.
  - by apply elem_of_nil in Hin.
  - apply elem_of_cons in Hin as [->|Hin]; eauto.
Qed.

Lemma lseg_lt h p q xs c :
  lseg nx h p xs q → c ∈ xs → c < length h.
Proof.
  intros H Hin. destruct (lseg_valid _ _ _ _ _ H Hin) as [r Hr].
  by eapply lookup_lt_Some.
Qed.

(** A segment only depends on the links of its own connections. *)
Lemma lseg_ext h h' p q xs :
  lseg nx h p xs q →
  (∀ c r, c ∈ xs → h !! c = Some r → ∃ r', h' !! c = Some r' ∧ nx r' = nx r) →
  lseg nx h' p xs q.
Proof.
  induction 1 as [|c r xs q Hc _ IH]; intros Hext; [constructor|].
  destruct (Hext c r) as (r' & Hc' & Hn); [by left | done |].
  econstructor; [exact Hc'|]. rewrite Hn. apply IH.
  intros c0 r0 Hin. apply Hext. by right.
Qed.

(** Changing the link of the last connection of a segment. *)
Lemma lseg_retarget h h' p xs t e e' :
  lseg nx h p (xs ++ [t]) e →
  (∀ c r, c ∈ xs → h !! c = Some r → ∃ r', h' !! c = Some r' ∧ nx r' = nx r) →
  (∃ r', h' !! t = Some r' ∧ nx r' = e') →
  lseg nx h' p (xs ++ [t]) e'.
Proof.
  intros H Hext (r' & Ht & He). apply lseg_snoc_inv in H as [H _].
  eapply lseg_snoc; [|done..]. by eapply lseg_ext.
Qed.

Lemma lseg_head h p q xs :
  lseg nx h p xs q → xs ≠ [] → p = head xs.
Proof. by destruct 1. Qed.

Lemma lseg_nil_inv h p q : lseg nx h p [] q → p = q.
Proof. by inversion 1. Qed.

Lemma lseg_None_inv h q xs : lseg nx h None xs q → xs = [] ∧ q = None.
Proof. by inversion 1. Qed.

(** A segment that runs to the end of the list is determined by its start. *)
Lemma lseg_func h p xs ys :
  lseg nx h p xs None → lseg nx h p ys None → xs = ys.
Proof.
  intros H. revert ys. remember None as q eqn:Hq.
  induction H as [|c r xs q Hc _ IH]; intros ys Hys; subst.
  - by inversion Hys.
  - inversion Hys as [|c' r' ys' q' Hc' Hrest]; subst.
    rewrite Hc in Hc'. injection Hc' as <-. f_equal. by apply IH.
Qed.

(** The link of a connection inside a segment leads to the rest of it. *)
Lemma lseg_middle h p q xs c ys :
  lseg nx h p (xs ++ c :: ys) q →
  lseg nx h p xs (Some c) ∧ ∃ r, h !! c = Some r ∧ lseg nx h (nx r) ys q.
Proof.
  intros H. apply lseg_app_inv in H as (m & H1 & H).
  inversion H; subst. eauto.
Qed.

End Segments.

Lemma sorted_NoDup (xs : list nat) : StronglySorted lt xs → NoDup xs.
Proof.
  induction 1 as [|x xs _ IH Hall]; constructor; [|done].
  intros Hin. rewrite Forall_forall in Hall. specialize (Hall _ Hin). lia.
Qed.

Lemma sorted_snoc (xs : list nat) (n : nat) :
  StronglySorted lt xs → Forall (λ c, c < n) xs → StronglySorted lt (xs ++ [n]).
Proof.
  intros Hs Hall. apply StronglySorted_app. split_and!; [|done|repeat constructor].
  intros x1 x2 H1 H2. apply list_elem_of_singleton in H2 as ->.
  rewrite Forall_forall in Hall. by apply Hall.
Qed.

Lemma sorted_filter (P : nat → Prop) `{!∀ x, Decision (P x)} (xs : list nat) :
  StronglySorted lt xs → StronglySorted lt (filter P xs).
Proof.
  induction 1 as [|x xs _ IH Hall]; [constructor|].
  rewrite filter_cons. destruct (decide (P x)); [|done].
  constructor; [done|]. rewrite Forall_forall in *.
  intros y Hy. apply list_elem_of_filter in Hy as [_ Hy]. by apply Hall.
Qed.

Lemma NoDup_valid_length (h : list Connection) (xs : list nat) :
  NoDup xs → (∀ c, c ∈ xs → c < length h) → length xs ≤ length h.
Proof.
  intros Hnd Hlt.
  assert (xs ⊆ seq 0 (length h)) as Hsub.
  { intros c Hc. apply elem_of_seq. specialize (Hlt c Hc). lia. }
  pose proof (submseteq_length xs (seq 0 (length h))
                (NoDup_submseteq _ _ Hnd Hsub)) as Hlen.
  by rewrite length_seq in Hlen.
Qed.

(** ** The frame relations are preorders *)

#[global] Instance keptM_preorder : PreOrder keptM.
Proof.
  split.
  - intros r. split; [done | by left].
  - intros r1 r2 r3 [Hs1 H1] [Hs2 H2]. split; [congruence|].
    destruct H2 as [[? ?]|[? ?]]; [|by right].
    destruct H1 as [[? ?]|[? ?]]; [left | right]; split; congruence.
Qed.

#[global] Instance keptL_preorder : PreOrder keptL.
Proof.
  split.
  - by intros r.
  - intros r1 r2 r3 (?&?&?) (?&?&?). split_and!; congruence.
Qed.

#[global] Instance keptS_preorder : PreOrder keptS.
Proof.
  split.
  - by intros r.
  - intros r1 r2 r3 [? H1] [? H2]. split; [congruence | by etrans].
Qed.

#[global] Instance keptR_preorder : PreOrder keptR.
Proof.
  split.
  - by intros r.
  - intros r1 r2 r3 (H1&?&?) (H2&?&?). split_and!; [by etrans | congruence..].
Qed.

Lemma keptL_keptM r r' : keptL r r' → keptM r r'.
Proof. intros (?&?&?). split; [done | by left]. Qed.

#[global] Instance mono_preorder : PreOrder mono.
Proof.
  split.
  - intros σ c r Hc. by exists r.
  - intros σ1 σ2 σ3 H1 H2 c r Hc.
    destruct (H1 _ _ Hc) as (r2 & Hc2 & Hk2).
    destruct (H2 _ _ Hc2) as (r3 & Hc3 & Hk3).
    exists r3. split; [done | by etrans].
Qed.

#[global] Instance nokill_preorder : PreOrder nokill.
Proof.
  split.
  - intros σ c r Hc. by exists r.
  - intros σ1 σ2 σ3 H1 H2 c r Hc.
    destruct (H1 _ _ Hc) as (r2 & Hc2 & Hk2).
    destruct (H2 _ _ Hc2) as (r3 & Hc3 & Hk3).
    exists r3. split; [done | by etrans].
Qed.

Lemma nokill_mono σ σ' : nokill σ σ' → mono σ σ'.
Proof.
  intros H c r Hc. destruct (H _ _ Hc) as (r' & ? & ?).
  exists r'. split; [done | by apply keptL_keptM].
Qed.

#[global] Instance sameS_preorder : PreOrder sameS.
Proof.
  split.
  - intros σ. split_and!; [done..|]. reflexivity.
  - intros σ1 σ2 σ3 (?&?&H1) (?&?&H2). split_and!; [congruence..|]. by etrans.
Qed.

#[global] Instance sameR_preorder : PreOrder sameR.
Proof.
  split.
  - intros σ. split; [done|]. reflexivity.
  - intros σ1 σ2 σ3 (?&H1) (?&H2). split; [congruence|]. by etrans.
Qed.

Lemma getC_lookup σ c r : conns σ !! c = Some r → getC σ c = r.
Proof. unfold getC. by intros ->. Qed.

Lemma getL_lookup σ l L : lists σ !! l = Some L → getL σ l = L.
Proof. unfold getL. by intros ->. Qed.

Lemma chain_func σ l xs ys : chain σ l xs → chain σ l ys → xs = ys.
Proof.
  intros (L & HL & Hx & _) (L' & HL' & Hy & _).
  rewrite HL in HL'. injection HL' as <-. by eapply lseg_func.
Qed.

Lemma chain_lt σ l xs c : chain σ l xs → c ∈ xs → c < length (conns σ).
Proof. intros (L & _ & Hx & _) Hin. by eapply lseg_lt. Qed.

Lemma chainFrom_lseg h p xs n :
  lseg nextReceiver h p xs None → length xs ≤ n → chainFrom n h p = xs.
Proof.
  intros H. revert n. remember None as q eqn:Hq.
  induction H as [|c r xs q Hc _ IH]; intros n Hn; subst.
  - by destruct n.
  - simpl in Hn. destruct n as [|n]; [lia|]. simpl. rewrite Hc. simpl.
    f_equal. apply IH; [done | lia].
Qed.

Lemma chainOf_chain σ l xs : chain σ l xs → NoDup xs → chainOf σ l = xs.
Proof.
  intros Hch Hnd. pose proof Hch as (L & HL & Hx & _). unfold chainOf.
  rewrite (getL_lookup _ _ _ HL). apply chainFrom_lseg; [done|].
  apply NoDup_valid_length; [done|]. intros c Hc. by eapply chain_lt.
Qed.

Lemma sameS_chain σ σ' l xs : sameS σ σ' → chain σ l xs ↔ chain σ' l xs.
Proof.
  intros (Hl & _ & Hc). unfold chain. rewrite Hl.
  split; intros (L & HL & Hx & Hlast); exists L; split_and!; try done.
  - eapply lseg_ext; [done|]. intros c r _ Hr.
    destruct (Forall2_lookup_l _ _ _ _ _ Hc Hr) as (r' & ? & ? & _). eauto.
  - eapply lseg_ext; [done|]. intros c r _ Hr.
    destruct (Forall2_lookup_r _ _ _ _ _ Hc Hr) as (r' & ? & ? & _). eauto.
Qed.

Lemma sameS_mono σ σ' : sameS σ σ' → mono σ σ'.
Proof.
  intros (_ & _ & Hc) c r Hr.
  destruct (Forall2_lookup_l _ _ _ _ _ Hc Hr) as (r' & ? & _ & ?). eauto.
Qed.

Lemma uniq_live_mono σ σ' xs :
  mono σ σ' → (∀ c, c ∈ xs → c < length (conns σ)) →
  uniq_live (conns σ) xs → uniq_live (conns σ') xs.
Proof.
  intros Hm Hlt Hu c1 c2 r1' r2' Hin1 Hin2 Hc1 Hc2 Hlive Hsig Hcb Hthis.
  destruct (lookup_lt_is_Some_2 _ _ (Hlt _ Hin1)) as [r1 Hr1].
  destruct (lookup_lt_is_Some_2 _ _ (Hlt _ Hin2)) as [r2 Hr2].
  destruct (Hm _ _ Hr1) as (r1'' & Hr1'' & Hs1 & Hk1).
  destruct (Hm _ _ Hr2) as (r2'' & Hr2'' & Hs2 & Hk2).
  assert (r1'' = r1') as -> by congruence.
  assert (r2'' = r2') as -> by congruence.
  unfold liveb in Hlive. destruct (callback r1') as [cb|] eqn:Hcb1; [|done].
  destruct Hk1 as [[Hk1 Ht1]|[? _]]; [|done].
  destruct Hk2 as [[Hk2 Ht2]|[? _]]; [|congruence].
  apply (Hu c1 c2 r1 r2); try done; try congruence.
  unfold liveb. by rewrite <-Hk1.
Qed.

Lemma sameS_wfS σ σ' : wfS σ → sameS σ σ' → wfS σ'.
Proof.
  intros [Hch Hdisj Hrefs Hsm Hinj] HS.
  pose proof HS as (Hl & Hs & Hc).
  split.
  - intros l L HL. rewrite Hl in HL. destruct (Hch _ _ HL) as (xs & Hx & Hsort & Hu).
    exists xs. split_and!; [by apply (sameS_chain _ _ _ _ HS) | done |].
    eapply uniq_live_mono; [by apply sameS_mono | | done].
    intros c Hin. by eapply chain_lt.
  - intros l1 l2 xs1 xs2 c H1 H2. apply Hdisj; by apply (sameS_chain _ _ _ _ HS).
  - intros l L. rewrite Hl. apply Hrefs.
  - intros s l. rewrite Hl, Hs. apply Hsm.
  - intros s1 s2 l. rewrite Hs. apply Hinj.
Qed.

Lemma sameS_stable σ σ' : sameS σ σ' → stable σ σ'.
Proof.
  intros HS l L HL. pose proof HS as (Hl & _ & _).
  exists L. split_and!; [by rewrite Hl | done |].
  intros _ xs Hx. exists []. rewrite app_nil_r.
  split; [by apply (sameS_chain _ _ _ _ HS) | constructor].
Qed.

Lemma sameS_evolves σ σ' : sameS σ σ' → evolves σ σ'.
Proof.
  intros HS. split_and!; [|by apply sameS_mono|by apply sameS_stable].
  destruct HS as (_ & _ & Hc). by rewrite (Forall2_length _ _ _ Hc).
Qed.

Lemma keptR_receiverOf r r' : keptR r r' → receiverOf r' = receiverOf r.
Proof. intros ((_ & Hcb & Hth) & _). unfold receiverOf. by rewrite Hcb, Hth. Qed.

Lemma bseg_ext h h' q xs :
  bseg h q xs →
  (∀ c r, c ∈ xs → h !! c = Some r →
     ∃ r', h' !! c = Some r' ∧ prevSender r' = prevSender r) →
  bseg h' q xs.
Proof.
  revert q. induction xs as [|c xs IH]; intros q H Hext; [done|].
  destruct H as [(r & Hr & Hp) H]. split.
  - destruct (Hext c r) as (r' & ? & ?); [by left | done |].
    exists r'. split; [done | congruence].
  - apply IH; [done|]. intros c0 r0 Hin. apply Hext. by right.
Qed.

Lemma bseg_app h q xs ys :
  bseg h q (xs ++ ys) ↔ bseg h q xs ∧ bseg h (from_option Some q (list_last xs)) ys.
Proof.
  revert q. induction xs as [|c xs IH]; intros q; simpl.
  - tauto.
  - rewrite IH. rewrite last_cons.
    destruct (list_last xs) eqn:E; simpl; tauto.
Qed.

Lemma sameR_rchain σ σ' o xs : sameR σ σ' → rchain σ o xs ↔ rchain σ' o xs.
Proof.
  intros (Hm & Hc). unfold rchain. rewrite Hm.
  assert (∀ c, (∃ r, conns σ !! c = Some r ∧ receiverOf r = Some o)
             ↔ (∃ r, conns σ' !! c = Some r ∧ receiverOf r = Some o)) as Hiff.
  { intros c. split.
    - intros (r & Hr & Ho).
      destruct (Forall2_lookup_l _ _ _ _ _ Hc Hr) as (r' & ? & Hk).
      exists r'. split; [done|]. by rewrite (keptR_receiverOf _ _ Hk).
    - intros (r' & Hr & Ho).
      destruct (Forall2_lookup_r _ _ _ _ _ Hc Hr) as (r & ? & Hk).
      exists r. split; [done|]. by rewrite <-(keptR_receiverOf _ _ Hk). }
  split; intros (Hseg & Hb & Hnd & Hin); split_and!; try done.
  - eapply lseg_ext; [done|]. intros c r _ Hr.
    destruct (Forall2_lookup_l _ _ _ _ _ Hc Hr) as (r' & ? & ? & ? & ?). eauto.
  - eapply bseg_ext; [done|]. intros c r _ Hr.
    destruct (Forall2_lookup_l _ _ _ _ _ Hc Hr) as (r' & ? & ? & ? & ?). eauto.
  - intros c. by rewrite Hin, Hiff.
  - eapply lseg_ext; [done|]. intros c r' _ Hr.
    destruct (Forall2_lookup_r _ _ _ _ _ Hc Hr) as (r & ? & ? & ? & ?). eauto.
  - eapply bseg_ext; [done|]. intros c r' _ Hr.
    destruct (Forall2_lookup_r _ _ _ _ _ Hc Hr) as (r & ? & ? & ? & ?). eauto.
  - intros c. by rewrite Hin, Hiff.
Qed.

Lemma sameR_wfR σ σ' : wfR σ → sameR σ σ' → wfR σ'.
Proof.
  intros H HR o. destruct (H o) as [xs Hx].
  exists xs. by apply (sameR_rchain _ _ _ _ HR).
Qed.

(** ** Single updates *)

Lemma Forall2_alter_refl {A} (R : A → A → Prop) `{!PreOrder R} (f : A → A)
    (h : list A) (c : nat) :
  (∀ r, R r (f r)) → Forall2 R h (alter f c h).
Proof.
  intros Hf. apply Forall2_alter_r; [reflexivity|].
  intros x y _ _ Hxy. etrans; [exact Hxy | apply Hf].
Qed.

Lemma updC_sameS c f σ : (∀ r, keptS r (f r)) → sameS σ (updC c f σ).
Proof. intros Hf. split_and!; [done..|]. simpl. apply Forall2_alter_refl; [apply _|]. done. Qed.

Lemma updC_sameR c f σ : (∀ r, keptR r (f r)) → sameR σ (updC c f σ).
Proof. intros Hf. split; [done|]. simpl. apply Forall2_alter_refl; [apply _|]. done. Qed.

Lemma updL_sameR l f σ : sameR σ (updL l f σ).
Proof. split; [done|]. simpl. reflexivity. Qed.

Lemma setSenderMap_sameR m σ : sameR σ (setSenderMap m σ).
Proof. split; [done|]. simpl. reflexivity. Qed.

Lemma setReceiverMap_sameS m σ : sameS σ (setReceiverMap m σ).
Proof. split_and!; [done..|]. simpl. reflexivity. Qed.

Lemma set_prevSender_keptS v r : keptS r (set_prevSender v r).
Proof. split; [done|]. split; [done | by left]. Qed.
Lemma set_nextSender_keptS v r : keptS r (set_nextSender v r).
Proof. split; [done|]. split; [done | by left]. Qed.
Lemma set_nextReceiver_keptR v r : keptR r (set_nextReceiver v r).
Proof. by repeat split. Qed.

Lemma kill_sameS c σ : sameS σ (kill c σ).
Proof.
  split_and!; [done..|]. simpl. rewrite list_alter_alter_eq.
  apply Forall2_alter_refl; [apply _|]. intros r. split; [done|]. split; [done|].
  by right.
Qed.

(** ** [findConnection] *)

Lemma findConnection_loop_spec σ sig cb this p xs n :
  lseg nextReceiver (conns σ) p xs None → length xs < n →
  findConnection_loop n σ p sig cb this
  = Some (head (filter (λ c, matchesConn sig cb this (getC σ c) = true) xs)).
Proof.
  intros H. revert n. remember None as q eqn:Hq.
  induction H as [|c r xs q Hc _ IH]; intros n Hn; subst.
  - by destruct n.
  - simpl in Hn. destruct n as [|n]; [lia|]. simpl.
    rewrite filter_cons. rewrite (getC_lookup _ _ _ Hc).
    destruct (matchesConn sig cb this r) eqn:E.
    + by rewrite decide_True.
    + rewrite decide_False by done. apply IH; [done | lia].
Qed.

Lemma chain_length σ l xs :
  chain σ l xs → NoDup xs → length xs ≤ length (conns σ).
Proof.
  intros Hch Hnd. apply NoDup_valid_length; [done|].
  intros c Hc. by eapply chain_lt.
Qed.

Lemma findConnection_spec σ l sig cb this xs :
  chain σ l xs → NoDup xs →
  findConnection σ l sig cb this
  = Some (head (filter (λ c, matchesConn sig cb this (getC σ c) = true) xs)).
Proof.
  intros Hch Hnd. pose proof (chain_length _ _ _ Hch Hnd).
  destruct Hch as (L & HL & Hx & _). unfold findConnection.
  rewrite (getL_lookup _ _ _ HL). apply findConnection_loop_spec; [done|].
  unfold loopFuel. lia.
Qed.

Lemma strictEq_VUndefined v : strictEq v VUndefined = true ↔ v = VUndefined.
Proof. destruct v; simpl; naive_solver. Qed.

Lemma strictEq_VObj v o : strictEq v (VObj o) = true ↔ v = VObj o.
Proof.
  destruct v; simpl; try naive_solver.
  rewrite bool_decide_eq_true. naive_solver.
Qed.

Lemma orUndefined_cases v :
  orUndefined v = VUndefined ∨ ∃ o, orUndefined v = VObj o.
Proof. destruct v; simpl; eauto. Qed.

Lemma strictEq_orUndefined v w : strictEq v (orUndefined w) = true ↔ v = orUndefined w.
Proof.
  destruct (orUndefined_cases w) as [->|[o ->]].
  - apply strictEq_VUndefined.
  - apply strictEq_VObj.
Qed.

Lemma matchesConn_spec sig cb this r :
  matchesConn sig cb (orUndefined this) r = true
  ↔ signal r = Some sig ∧ callback r = Some cb ∧ thisArg r = orUndefined this.
Proof.
  unfold matchesConn. rewrite !andb_true_iff, !bool_decide_eq_true.
  rewrite strictEq_orUndefined. tauto.
Qed.

(** ** Unlinking a connection from its receiver chain *)

Lemma kill_lookup c σ x :
  conns (kill c σ) !! x = killRec c x <$> conns σ !! x.
Proof.
  simpl. rewrite !list_lookup_alter. unfold killRec.
  repeat case_decide; simplify_eq; try done;
    repeat match goal with
           | |- context [conns σ !! ?y] => destruct (conns σ !! y)
           end; done.
Qed.

Lemma removeFromSendersList_dead c σ :
  receiverOf (getC σ c) = None → removeFromSendersList c σ = σ.
Proof. unfold removeFromSendersList. by intros ->. Qed.

Lemma removeFromSendersList_lookup c σ o x :
  receiverOf (getC σ c) = Some o →
  conns (removeFromSendersList c σ) !! x
  = unlinkRec c (prevSender (getC σ c)) (nextSender (getC σ c)) x <$> conns σ !! x.
Proof.
  unfold removeFromSendersList. intros ->. unfold unlinkRec.
  destruct (prevSender (getC σ c)) as [p|], (nextSender (getC σ c)) as [n|];
    simpl; rewrite ?list_lookup_alter;
    repeat case_decide; simplify_eq; try done;
    repeat match goal with
           | |- context [conns σ !! ?y] => destruct (conns σ !! y)
           end; done.
Qed.

Lemma removeFromSendersList_receiverMap c σ o :
  receiverOf (getC σ c) = Some o →
  receiverMap (removeFromSendersList c σ)
  = match prevSender (getC σ c), nextSender (getC σ c) with
    | None, None => delete o (receiverMap σ)
    | None, Some n => <[o := n]> (receiverMap σ)
    | Some _, _ => receiverMap σ
    end.
Proof.
  unfold removeFromSendersList. intros ->.
  by destruct (prevSender (getC σ c)) as [p|], (nextSender (getC σ c)) as [n|].
Qed.

Lemma removeFromSendersList_sameS c σ : sameS σ (removeFromSendersList c σ).
Proof.
  unfold removeFromSendersList.
  destruct (receiverOf (getC σ c)) as [o|]; [|reflexivity].
  assert (∀ v σ0 x, sameS σ0 (updC x (set_prevSender v) σ0)) as Hp.
  { intros. apply updC_sameS. intros r. apply set_prevSender_keptS. }
  assert (∀ v σ0 x, sameS σ0 (updC x (set_nextSender v) σ0)) as Hn.
  { intros. apply updC_sameS. intros r. apply set_nextSender_keptS. }
  etrans; [|apply Hn]. etrans; [|apply Hp].
  destruct (prevSender (getC σ c)) as [p|], (nextSender (getC σ c)) as [n|].
  - etrans; [|apply Hp]. apply Hn.
  - apply Hn.
  - etrans; [|apply Hp]. apply setReceiverMap_sameS.
  - apply setReceiverMap_sameS.
Qed.

(** A receiver chain whose connections are left alone is still the chain of
    its receiver, if no other connection has been given that receiver. *)
Lemma rchain_frame σ σ' o ys :
  rchain σ o ys →
  receiverMap σ' !! o = receiverMap σ !! o →
  (∀ x r, x ∈ ys → conns σ !! x = Some r →
     ∃ r', conns σ' !! x = Some r' ∧ keptR r r') →
  (∀ x r', conns σ' !! x = Some r' → receiverOf r' = Some o →
     ∃ r, conns σ !! x = Some r ∧ receiverOf r = Some o) →
  rchain σ' o ys.
Proof.
  intros (Hseg & Hb & Hnd & Hin) Hm Hk Hnew. unfold rchain. rewrite Hm.
  split_and!; [| |done|].
  - eapply lseg_ext; [done|]. intros x r Hx Hr.
    destruct (Hk _ _ Hx Hr) as (r' & ? & _ & ? & _). eauto.
  - eapply bseg_ext; [done|]. intros x r Hx Hr.
    destruct (Hk _ _ Hx Hr) as (r' & ? & _ & _ & ?). eauto.
  - intros x. split.
    + intros Hx. pose proof Hx as Hx'. apply Hin in Hx' as (r & Hr & Ho).
      destruct (Hk _ _ Hx Hr) as (r' & ? & Hkept).
      exists r'. split; [done|]. by rewrite (keptR_receiverOf _ _ Hkept).
    + intros (r' & Hr' & Ho). apply Hin. by eapply Hnew.
Qed.

Lemma lseg_head_None nx h p xs : lseg nx h p xs None → p = head xs.
Proof. by inversion 1. Qed.

Lemma from_option_Some_id {A} (o : option A) : from_option Some None o = o.
Proof. by destruct o. Qed.

(** The connections other than [c] after [c] has been unlinked and cleared. *)
Lemma unlink_lookup_ne c σ o x r0 :
  receiverOf (getC σ c) = Some o → x ≠ c → conns σ !! x = Some r0 →
  ∃ r', conns (kill c (removeFromSendersList c σ)) !! x = Some r'
    ∧ keptL r0 r'
    ∧ nextSender r' = (if decide (Some x = prevSender (getC σ c))
                       then nextSender (getC σ c) else nextSender r0)
    ∧ prevSender r' = (if decide (Some x = nextSender (getC σ c))
                       then prevSender (getC σ c) else prevSender r0).
Proof.
  intros Ho Hne Hx. rewrite kill_lookup, (removeFromSendersList_lookup _ _ o) by done.
  rewrite Hx. simpl. eexists. split; [done|].
  unfold killRec, unlinkRec. rewrite !(decide_False (P := x = c)) by done.
  repeat case_decide; done.
Qed.

Lemma unlink_lookup_eq c σ r :
  conns σ !! c = Some r →
  ∃ r', conns (kill c (removeFromSendersList c σ)) !! c = Some r'
    ∧ callback r' = None ∧ thisArg r' = VNull ∧ signal r' = signal r
    ∧ nextReceiver r' = nextReceiver r.
Proof.
  intros Hc. rewrite kill_lookup.
  destruct (receiverOf (getC σ c)) as [o|] eqn:Ho.
  - rewrite (removeFromSendersList_lookup _ _ o) by done. rewrite Hc. simpl.
    eexists. split; [done|]. unfold killRec, unlinkRec.
    rewrite !(decide_True (P := c = c)) by done. repeat case_decide; done.
  - rewrite removeFromSendersList_dead by done. rewrite Hc. simpl.
    eexists. split; [done|]. unfold killRec. by rewrite decide_True.
Qed.

Lemma unlink_rchain σ c r o a b :
  conns σ !! c = Some r → receiverOf r = Some o → rchain σ o (a ++ c :: b) →
  rchain (kill c (removeFromSendersList c σ)) o (a ++ b).
Proof.
  intros Hc Ho (Hseg & Hb & Hnd & Hin).
  pose proof (getC_lookup _ _ _ Hc) as HgetC.
  assert (receiverOf (getC σ c) = Some o) as Ho' by by rewrite HgetC.
  set (σ' := kill c (removeFromSendersList c σ)).
  apply lseg_middle in Hseg as (Hsa & r0 & Hr0 & Hsb).
  assert (r0 = r) as -> by congruence.
  apply bseg_app in Hb as (Hba & (r0 & Hr0' & Hprev) & Hbb).
  assert (r0 = r) as -> by congruence. clear Hr0 Hr0'.
  rewrite from_option_Some_id in Hprev.
  pose proof (lseg_head_None _ _ _ _ Hsb) as Hnext.
  apply NoDup_app in Hnd as (Hnda & Hdis & Hndcb).
  apply NoDup_cons in Hndcb as (Hcb & Hndb).
  assert (c ∉ a) as Hca.
  { intros Hin'. apply (Hdis _ Hin'). by left. }
  assert (∀ x, x ∈ a → x ∉ b) as Hab.
  { intros x Hxa Hxb. apply (Hdis _ Hxa). by right. }
  (* the connections of [b] keep their forward links *)
  assert (lseg nextSender (conns σ') (nextSender r) b None) as Hsb'.
  { eapply lseg_ext; [done|]. intros x rx Hx Hrx.
    destruct (unlink_lookup_ne c σ o x rx) as (r' & Hr' & _ & Hn & _);
      [done | by intros -> | done |].
    exists r'. split; [done|]. rewrite Hn, HgetC, Hprev.
    rewrite decide_False; [done|]. intros Heq. symmetry in Heq.
    apply last_Some_elem_of in Heq. by apply (Hab x). }
  (* the connections of [a] keep their back links *)
  assert (bseg (conns σ') None a) as Hba'.
  { eapply bseg_ext; [done|]. intros x rx Hx Hrx.
    destruct (unlink_lookup_ne c σ o x rx) as (r' & Hr' & _ & _ & Hp);
      [done | by intros -> | done |].
    exists r'. split; [done|]. rewrite Hp, HgetC, Hnext.
    rewrite decide_False; [done|]. intros Heq. symmetry in Heq.
    apply head_Some_elem_of in Heq. by apply (Hab x). }
  split_and!.
  - (* forward links *)
    destruct (list_last a) as [p|] eqn:Hlast.
    + apply last_Some in Hlast as [a' ->].
      eapply lseg_app; [|exact Hsb'].
      replace (receiverMap σ' !! o) with (receiverMap σ !! o).
      2:{ unfold σ'. simpl. rewrite (removeFromSendersList_receiverMap _ _ o) by done.
          by rewrite HgetC, Hprev. }
      apply NoDup_app in Hnda as (_ & Hdis' & _).
      destruct (lseg_snoc_inv _ _ _ _ _ _ Hsa) as (_ & rp & Hrp & _).
      eapply lseg_retarget; [exact Hsa | |].
      * intros x rx Hx Hrx.
        destruct (unlink_lookup_ne c σ o x rx) as (r' & Hr' & _ & Hn & _);
          [done | | done |].
        { intros ->. apply Hca. apply elem_of_app. by left. }
        exists r'. split; [done|]. rewrite Hn, HgetC, Hprev.
        rewrite decide_False; [done|]. intros [= ->].
        apply (Hdis' _ Hx). by left.
      * destruct (unlink_lookup_ne c σ o p rp) as (r' & Hr' & _ & Hn & _);
          [done | | done |].
        { intros ->. apply Hca. apply elem_of_app. right. by left. }
        exists r'. split; [done|]. rewrite Hn, HgetC, Hprev.
        by rewrite decide_True.
    + apply last_None in Hlast as ->. simpl.
      apply lseg_nil_inv in Hsa.
      replace (receiverMap σ' !! o) with (nextSender r); [done|].
      unfold σ'. simpl. rewrite (removeFromSendersList_receiverMap _ _ o) by done.
      rewrite HgetC, Hprev. destruct (nextSender r) as [n|].
      * by rewrite lookup_insert_eq.
      * by rewrite lookup_delete_eq.
  - (* back links *)
    apply bseg_app. split; [done|]. rewrite from_option_Some_id.
    destruct b as [|n b']; [done|]. simpl in Hnext.
    destruct Hbb as ((rn & Hrn & _) & Hbb).
    apply NoDup_cons in Hndb as (Hnb' & _).
    split.
    + destruct (unlink_lookup_ne c σ o n rn) as (r' & Hr' & _ & _ & Hp);
        [done | | done |].
      { intros ->. apply Hcb. by left. }
      exists r'. split; [done|]. rewrite Hp, HgetC, Hnext.
      by rewrite decide_True.
    + eapply bseg_ext; [done|]. intros x rx Hx Hrx.
      destruct (unlink_lookup_ne c σ o x rx) as (r' & Hr' & _ & _ & Hp);
        [done | | done |].
      { intros ->. apply Hcb. by right. }
      exists r'. split; [done|]. rewrite Hp, HgetC, Hnext.
      rewrite decide_False; [done|]. by intros [= ->].
  - apply NoDup_app. split_and!; [done | | done].
    intros x Hxa Hxb. by apply (Hab x).
  - intros x. split.
    + intros Hx.
      assert (x ≠ c) as Hne.
      { intros ->. apply elem_of_app in Hx as [?|?]; done. }
      assert (x ∈ a ++ c :: b) as Hx'.
      { apply elem_of_app in Hx as [?|?]; apply elem_of_app; [by left|].
        right. by right. }
      apply Hin in Hx' as (rx & Hrx & Hox).
      destruct (unlink_lookup_ne c σ o x rx) as (r' & Hr' & (_ & Hk1 & Hk2) & _);
        [done..|].
      exists r'. split; [done|]. unfold receiverOf in *. by rewrite Hk1, Hk2.
    + intros (r' & Hr' & Hor').
      destruct (decide (x = c)) as [->|Hne].
      { destruct (unlink_lookup_eq c σ r Hc) as (r'' & Hr'' & Hcb' & Hth & _).
        assert (r'' = r') as -> by (unfold σ' in Hr'; congruence).
        unfold receiverOf in Hor'. by rewrite Hth, Hcb' in Hor'. }
      assert (is_Some (conns σ !! x)) as [rx Hrx].
      { apply lookup_lt_is_Some. apply lookup_lt_Some in Hr'. unfold σ' in Hr'.
        pose proof (sameS_evolves σ (kill c (removeFromSendersList c σ))) as He.
        destruct (kill_sameS c (removeFromSendersList c σ)) as (_ & _ & H1).
        destruct (removeFromSendersList_sameS c σ) as (_ & _ & H2).
        apply Forall2_length in H1, H2. lia. }
      destruct (unlink_lookup_ne c σ o x rx) as (r'' & Hr'' & (_ & Hk1 & Hk2) & _);
        [done..|].
      assert (r'' = r') as -> by (unfold σ' in Hr'; congruence).
      assert (x ∈ a ++ c :: b) as Hx'.
      { apply Hin. exists rx. split; [done|]. unfold receiverOf in *.
        by rewrite <-Hk1, <-Hk2. }
      apply elem_of_app in Hx' as [?|Hx']; apply elem_of_app; [by left|].
      apply elem_of_cons in Hx' as [?|?]; [done | by right].
Qed.

Lemma rchain_neighbours σ o xs c r :
  rchain σ o xs → c ∈ xs → conns σ !! c = Some r →
  (∀ p, prevSender r = Some p → p ∈ xs ∧ p ≠ c)
  ∧ (∀ n, nextSender r = Some n → n ∈ xs ∧ n ≠ c).
Proof.
  intros (Hseg & Hb & Hnd & _) Hin Hc.
  apply list_elem_of_split in Hin as (a & b & ->).
  apply lseg_middle in Hseg as (_ & r0 & Hr0 & Hsb).
  assert (r0 = r) as -> by congruence.
  apply bseg_app in Hb as (_ & (r0 & Hr0' & Hprev) & _).
  assert (r0 = r) as -> by congruence.
  rewrite from_option_Some_id in Hprev.
  apply lseg_head_None in Hsb.
  apply NoDup_app in Hnd as (_ & Hdis & Hndcb).
  apply NoDup_cons in Hndcb as (Hcb & _).
  split.
  - intros p Hp. rewrite Hp in Hprev. symmetry in Hprev.
    apply last_Some_elem_of in Hprev. split.
    + apply elem_of_app. by left.
    + intros ->. apply (Hdis _ Hprev). by left.
  - intros n Hn. rewrite Hn in Hsb. symmetry in Hsb.
    apply head_Some_elem_of in Hsb. split.
    + apply elem_of_app. right. by right.
    + by intros ->.
Qed.

Lemma unlink_length c σ :
  length (conns (kill c (removeFromSendersList c σ))) = length (conns σ).
Proof.
  destruct (kill_sameS c (removeFromSendersList c σ)) as (_ & _ & H1).
  destruct (removeFromSendersList_sameS c σ) as (_ & _ & H2).
  apply Forall2_length in H1, H2. lia.
Qed.

Lemma unlink_rchain_other σ c r o o' xs ys :
  conns σ !! c = Some r → receiverOf r = Some o → rchain σ o xs → o' ≠ o →
  rchain σ o' ys → rchain (kill c (removeFromSendersList c σ)) o' ys.
Proof.
  intros Hc Ho Hxs Hne Hys.
  pose proof (getC_lookup _ _ _ Hc) as HgetC.
  assert (receiverOf (getC σ c) = Some o) as Ho' by by rewrite HgetC.
  assert (c ∈ xs) as Hcxs.
  { destruct Hxs as (_ & _ & _ & Hin). apply Hin. eauto. }
  destruct (rchain_neighbours _ _ _ _ _ Hxs Hcxs Hc) as [Hp Hn].
  assert (∀ x, x ∈ xs → x ∉ ys) as Hdisj.
  { intros x Hx1 Hx2. destruct Hxs as (_ & _ & _ & Hin1).
    destruct Hys as (_ & _ & _ & Hin2).
    apply Hin1 in Hx1 as (r1 & Hr1 & Ho1). apply Hin2 in Hx2 as (r2 & Hr2 & Ho2).
    congruence. }
  eapply rchain_frame; [exact Hys | | |].
  - simpl. rewrite (removeFromSendersList_receiverMap _ _ o) by done.
    destruct (prevSender (getC σ c)), (nextSender (getC σ c)); try done.
    + by rewrite lookup_insert_ne.
    + by rewrite lookup_delete_ne.
  - intros x rx Hx Hrx.
    destruct (unlink_lookup_ne c σ o x rx) as (r' & Hr' & Hk & Hnx & Hpx);
      [done | | done |].
    { intros ->. by apply (Hdisj c). }
    exists r'. split; [done|]. split; [done|]. rewrite Hnx, Hpx, HgetC.
    rewrite !decide_False; [done | |].
    + intros Heq. symmetry in Heq. apply Hn in Heq as [Heq _]. by apply (Hdisj x).
    + intros Heq. symmetry in Heq. apply Hp in Heq as [Heq _]. by apply (Hdisj x).
  - intros x r' Hr' Hor'.
    destruct (decide (x = c)) as [->|Hxc].
    { destruct (unlink_lookup_eq c σ r Hc) as (r'' & Hr'' & Hcb' & Hth & _).
      assert (r'' = r') as -> by congruence.
      unfold receiverOf in Hor'. by rewrite Hth, Hcb' in Hor'. }
    assert (is_Some (conns σ !! x)) as [rx Hrx].
    { apply lookup_lt_is_Some. apply lookup_lt_Some in Hr'.
      by rewrite unlink_length in Hr'. }
    destruct (unlink_lookup_ne c σ o x rx) as (r'' & Hr'' & (_ & Hk1 & Hk2) & _);
      [done..|].
    assert (r'' = r') as -> by congruence.
    exists rx. split; [done|]. unfold receiverOf in *. by rewrite <-Hk1, <-Hk2.
Qed.

Lemma kill_rchain_dead σ c o ys :
  receiverOf (getC σ c) = None → rchain σ o ys → rchain (kill c σ) o ys.
Proof.
  intros Hdead Hys.
  assert (c ∉ ys) as Hc.
  { intros Hin. destruct Hys as (_ & _ & _ & Hin'). apply Hin' in Hin as (r & Hr & Ho).
    rewrite (getC_lookup _ _ _ Hr) in Hdead. congruence. }
  eapply rchain_frame; [exact Hys | done | |].
  - intros x rx Hx Hrx. exists rx. split; [|reflexivity].
    rewrite kill_lookup, Hrx. simpl. unfold killRec. rewrite decide_False; [done|].
    by intros ->.
  - intros x r' Hr' Hor'. rewrite kill_lookup in Hr'.
    destruct (conns σ !! x) as [rx|] eqn:Hrx; [|done]. simpl in Hr'.
    injection Hr' as <-. unfold killRec in *. case_decide; [|eauto].
    subst. unfold receiverOf in Hor'. done.
Qed.

(** Unlinking and clearing [c] takes it out of the chain of its receiver
    and leaves every other chain as it is. *)
Lemma unlink_rchain_all σ c o xs :
  wfR σ → rchain σ o xs →
  rchain (kill c (removeFromSendersList c σ)) o (filter (λ x, x ≠ c) xs).
Proof.
  intros Hwf Hxs.
  assert (∀ ys : list nat, c ∉ ys → filter (λ x, x ≠ c) ys = ys) as Hfilt.
  { intros ys Hc. induction ys as [|y ys IH]; [done|].
    apply not_elem_of_cons in Hc as [? ?]. rewrite filter_cons_True by done.
    f_equal. by apply IH. }
  destruct (receiverOf (getC σ c)) as [oc|] eqn:Hoc.
  - assert (is_Some (conns σ !! c)) as [r Hr].
    { unfold getC in Hoc. destruct (conns σ !! c); [eauto | done]. }
    rewrite (getC_lookup _ _ _ Hr) in Hoc.
    destruct (decide (o = oc)) as [->|Hne].
    + assert (c ∈ xs) as Hcxs.
      { destruct Hxs as (_ & _ & _ & Hin). apply Hin. eauto. }
      apply list_elem_of_split in Hcxs as (a & b & ->).
      pose proof Hxs as (_ & _ & Hnd & _).
      apply NoDup_app in Hnd as (_ & Hdis & Hndcb).
      apply NoDup_cons in Hndcb as (Hcb & _).
      rewrite filter_app, filter_cons_False by naive_solver.
      rewrite !Hfilt; [by eapply unlink_rchain | done |].
      intros Hin. apply (Hdis _ Hin). by left.
    + destruct (Hwf oc) as [zs Hzs].
      rewrite Hfilt; [by eapply unlink_rchain_other|].
      intros Hin. destruct Hxs as (_ & _ & _ & Hin'). apply Hin' in Hin as (r' & ? & ?).
      congruence.
  - rewrite removeFromSendersList_dead by done.
    rewrite Hfilt; [by apply kill_rchain_dead|].
    intros Hin. destruct Hxs as (_ & _ & _ & Hin'). apply Hin' in Hin as (r' & Hr' & ?).
    rewrite (getC_lookup _ _ _ Hr') in Hoc. congruence.
Qed.

Lemma unlink_wfR σ c : wfR σ → wfR (kill c (removeFromSendersList c σ)).
Proof.
  intros Hwf o. destruct (Hwf o) as [xs Hxs].
  eexists. by apply unlink_rchain_all.
Qed.

Lemma unlink_sameS σ c : sameS σ (kill c (removeFromSendersList c σ)).
Proof. etrans; [apply removeFromSendersList_sameS | apply kill_sameS]. Qed.

(** ** [disconnect] *)

Lemma wfS_chain_of σ l :
  wfS σ → l < length (lists σ) →
  ∃ xs, chain σ l xs ∧ StronglySorted lt xs ∧ uniq_live (conns σ) xs.
Proof.
  intros Hwf Hl. apply lookup_lt_is_Some in Hl as [L HL].
  by eapply wfS_chain.
Qed.

Lemma wfS_sender_chain σ s l :
  wfS σ → senderMap σ !! s = Some l →
  ∃ xs, chain σ l xs ∧ StronglySorted lt xs ∧ uniq_live (conns σ) xs.
Proof.
  intros Hwf Hs. apply wfS_chain_of; [done|]. by eapply wfS_smap.
Qed.

Lemma disconnect_None σ s sig cb this :
  senderMap σ !! s = None → disconnect σ s sig cb this = Some (σ, false).
Proof. unfold disconnect. by intros ->. Qed.

Lemma disconnect_Some σ s l xs sig cb this :
  senderMap σ !! s = Some l → chain σ l xs → NoDup xs →
  disconnect σ s sig cb this
  = Some match head (filter (λ c, matchesConn sig cb (orUndefined this) (getC σ c) = true) xs) with
         | Some c => (kill c (removeFromSendersList c σ), true)
         | None => (σ, false)
         end.
Proof.
  intros Hs Hch Hnd. unfold disconnect. rewrite Hs.
  rewrite (findConnection_spec _ _ _ _ _ xs) by done. simpl.
  by destruct (head _).
Qed.

Lemma disconnect_wf σ s sig cb this :
  wf σ → ∃ σ' b, disconnect σ s sig cb this = Some (σ', b) ∧ wf σ' ∧ sameS σ σ'.
Proof.
  intros [HS HR]. destruct (senderMap σ !! s) as [l|] eqn:Hs.
  - destruct (wfS_sender_chain _ _ _ HS Hs) as (xs & Hch & Hsort & _).
    rewrite (disconnect_Some _ _ _ xs) by (done || by apply sorted_NoDup).
    destruct (head _) as [c|]; do 2 eexists; (split; [done|]).
    + pose proof (unlink_sameS σ c). split; [|done]. split.
      * by eapply sameS_wfS.
      * by apply unlink_wfR.
    + split; [done | reflexivity].
  - rewrite disconnect_None by done. do 2 eexists. split; [done|].
    split; [done | reflexivity].
Qed.

(** ** [disconnectReceiver] *)

Lemma clear_lookup c σ x :
  conns (updC c (set_nextSender None) (updC c (set_prevSender None) (kill c σ))) !! x
  = (if decide (x = c) then clearRec else id) <$> conns σ !! x.
Proof.
  simpl. rewrite !list_lookup_alter.
  repeat case_decide; simplify_eq; try done;
    repeat match goal with
           | |- context [conns σ !! ?y] => destruct (conns σ !! y)
           end; done.
Qed.

Lemma clear_sameS c σ :
  sameS σ (updC c (set_nextSender None) (updC c (set_prevSender None) (kill c σ))).
Proof.
  etrans; [apply kill_sameS|]. etrans; apply updC_sameS; intros r.
  - apply set_prevSender_keptS.
  - apply set_nextSender_keptS.
Qed.

Lemma disconnectReceiver_loop_spec n p xs σ :
  lseg nextSender (conns σ) p xs None → NoDup xs → length xs < n →
  ∃ σ', disconnectReceiver_loop n p σ = Some σ' ∧ sameS σ σ'
    ∧ receiverMap σ' = receiverMap σ
    ∧ ∀ x, conns σ' !! x
           = (if decide (x ∈ xs) then clearRec else id) <$> conns σ !! x.
Proof.
  revert p n σ. induction xs as [|c xs IH]; intros p n σ H Hnd Hn.
  - apply lseg_head_None in H as ->. destruct n; [simpl in Hn; lia|].
    exists σ. split_and!; [done | reflexivity | done |].
    intros x. rewrite decide_False by apply not_elem_of_nil.
    by destruct (conns σ !! x).
  - inversion H as [|c' r xs' q Hc Hrest]; subst.
    destruct n as [|n]; [simpl in Hn; lia|]. simpl in Hn.
    apply NoDup_cons in Hnd as [Hcxs Hnd].
    set (σ1 := updC c (set_nextSender None) (updC c (set_prevSender None) (kill c σ))).
    destruct (IH (nextSender r) n σ1) as (σ' & Hloop & HS & Hm & Hlook); [|done|lia|].
    { eapply lseg_ext; [exact Hrest|]. intros x rx Hx Hrx.
      exists rx. split; [|done]. unfold σ1. rewrite clear_lookup, Hrx.
      rewrite decide_False; [done|]. by intros ->. }
    exists σ'. split_and!.
    + simpl. by rewrite (getC_lookup _ _ _ Hc).
    + etrans; [apply clear_sameS | exact HS].
    + by rewrite Hm.
    + intros x. rewrite Hlook. unfold σ1. rewrite clear_lookup.
      destruct (conns σ !! x) as [rx|]; [simpl|done].
      destruct (decide (x = c)) as [->|Hne].
      * rewrite decide_False by done. rewrite decide_True by by left. done.
      * destruct (decide (x ∈ xs)).
        -- rewrite decide_True by by right. done.
        -- rewrite decide_False; [done|]. by apply not_elem_of_cons.
Qed.

Lemma clearRec_receiverOf r : receiverOf (clearRec r) = None.
Proof. done. Qed.

Lemma disconnectReceiver_wf σ o :
  wf σ →
  ∃ σ', disconnectReceiver o σ = Some σ' ∧ wf σ' ∧ sameS σ σ'
    ∧ ∀ x r', conns σ' !! x = Some r' → receiverOf r' ≠ Some o.
Proof.
  intros [HS HR]. destruct (HR o) as [xs Hxs]. pose proof Hxs as (Hseg & _ & Hnd & Hin).
  unfold disconnectReceiver.
  destruct (receiverMap σ !! o) as [head|] eqn:Hhead.
  - destruct (disconnectReceiver_loop_spec (loopFuel σ) (Some head) xs σ)
      as (σ1 & Hloop & HS1 & Hm1 & Hlook); [done..| |].
    { pose proof (NoDup_valid_length (conns σ) xs Hnd) as Hlen.
      unfold loopFuel. cut (length xs ≤ length (conns σ)); [lia|].
      apply Hlen. intros c Hc. by eapply lseg_lt. }
    rewrite Hloop. simpl. eexists. split; [done|].
    assert (sameS σ (setReceiverMap (delete o (receiverMap σ1)) σ1)) as HS'.
    { etrans; [exact HS1 | apply setReceiverMap_sameS]. }
    assert (∀ x r', conns σ1 !! x = Some r' → receiverOf r' ≠ Some o) as Hno.
    { intros x r' Hr' Ho. rewrite Hlook in Hr'.
      destruct (conns σ !! x) as [rx|] eqn:Hrx; [|done]. simpl in Hr'.
      injection Hr' as <-. case_decide as Hx; [done|].
      apply Hx, Hin. eauto. }
    split_and!; [split | done | done].
    + by eapply sameS_wfS.
    + intros o'. destruct (decide (o' = o)) as [->|Hne].
      * exists []. split_and!.
        -- simpl. rewrite lookup_delete_eq. constructor.
        -- done.
        -- constructor.
        -- intros x. split; [by intros ?%elem_of_nil|].
           intros (r' & Hr' & Ho). by destruct (Hno _ _ Hr').
      * destruct (HR o') as [ys Hys]. exists ys.
        eapply rchain_frame; [exact Hys | | |].
        -- simpl. rewrite lookup_delete_ne by done. by rewrite Hm1.
        -- intros x rx Hx Hrx. exists rx. split; [|reflexivity].
           simpl. rewrite Hlook, Hrx. rewrite decide_False; [done|].
           intros Hx'. destruct Hys as (_ & _ & _ & Hin').
           apply Hin in Hx' as (r1 & ? & ?). apply Hin' in Hx as (r2 & ? & ?).
           congruence.
        -- intros x r' Hr' Ho'. simpl in Hr'. rewrite Hlook in Hr'.
           destruct (conns σ !! x) as [rx|] eqn:Hrx; [|done]. simpl in Hr'.
           injection Hr' as <-. case_decide; [done|]. eauto.
  - exists σ. split_and!; [done | done | reflexivity |].
    intros x r' Hr' Ho.
    assert (x ∈ xs) as Hx by (apply Hin; eauto).
    apply lseg_head_None in Hseg. destruct xs; [|done]. by apply elem_of_nil in Hx.
Qed.

(** ** [disconnectSender] *)

Lemma unlink_keptL c σ x r :
  x ≠ c → conns σ !! x = Some r →
  ∃ r', conns (kill c (removeFromSendersList c σ)) !! x = Some r' ∧ keptL r r'.
Proof.
  intros Hne Hr. destruct (receiverOf (getC σ c)) as [o|] eqn:Ho.
  - destruct (unlink_lookup_ne c σ o x r) as (r' & ? & ? & _); eauto.
  - rewrite removeFromSendersList_dead by done. exists r. split; [|reflexivity].
    rewrite kill_lookup, Hr. simpl. unfold killRec. by rewrite decide_False.
Qed.

Lemma sameS_dead σ σ' c :
  sameS σ σ' → c < length (conns σ) → callback (getC σ c) = None →
  callback (getC σ' c) = None.
Proof.
  intros HS Hlt Hdead. apply lookup_lt_is_Some in Hlt as [r Hr].
  rewrite (getC_lookup _ _ _ Hr) in Hdead.
  destruct (sameS_mono _ _ HS _ _ Hr) as (r' & Hr' & _ & Hk).
  rewrite (getC_lookup _ _ _ Hr'). destruct Hk as [[-> _]|[-> _]]; done.
Qed.

Lemma disconnectSender_loop_spec n p xs σ :
  wfR σ → lseg nextReceiver (conns σ) p xs None → length xs < n →
  ∃ σ', disconnectSender_loop n p σ = Some σ' ∧ sameS σ σ' ∧ wfR σ'
    ∧ (∀ c, c ∈ xs → callback (getC σ' c) = None)
    ∧ (∀ x r, x ∉ xs → conns σ !! x = Some r →
         ∃ r', conns σ' !! x = Some r' ∧ keptL r r').
Proof.
  revert p n σ. induction xs as [|c xs IH]; intros p n σ HR H Hn.
  - apply lseg_head_None in H as ->. destruct n; [simpl in Hn; lia|].
    exists σ. split_and!; [done | reflexivity | done | |].
    + by intros c ?%elem_of_nil.
    + intros x r _ Hr. exists r. split; [done | reflexivity].
  - inversion H as [|c' r xs' q Hc Hrest]; subst.
    destruct n as [|n]; [simpl in Hn; lia|]. simpl in Hn.
    set (σ1 := kill c (removeFromSendersList c σ)).
    pose proof (unlink_sameS σ c) as HS1. fold σ1 in HS1.
    destruct (unlink_lookup_eq c σ r Hc) as (r1 & Hr1 & Hcb1 & _ & _ & Hnx1).
    fold σ1 in Hr1.
    destruct (IH (nextReceiver r) n σ1) as (σ' & Hloop & HS & HR' & Hdead & Hkept);
      [by apply unlink_wfR | | lia |].
    { eapply lseg_ext; [exact Hrest|]. intros x rx _ Hrx.
      destruct HS1 as (_ & _ & HF).
      destruct (Forall2_lookup_l _ _ _ _ _ HF Hrx) as (r' & ? & ? & _). eauto. }
    exists σ'. split_and!.
    + simpl. fold σ1. by rewrite (getC_lookup _ _ _ Hr1), Hnx1.
    + by etrans.
    + done.
    + intros x Hx. apply elem_of_cons in Hx as [->|Hx]; [|by apply Hdead].
      eapply sameS_dead; [exact HS | by eapply lookup_lt_Some |].
      by rewrite (getC_lookup _ _ _ Hr1).
    + intros x rx Hx Hrx. apply not_elem_of_cons in Hx as [Hne Hx].
      destruct (unlink_keptL c σ x rx Hne Hrx) as (r' & Hr' & Hk).
      destruct (Hkept x r' Hx Hr') as (r'' & Hr'' & Hk').
      exists r''. split; [done | by etrans].
Qed.

Lemma wfS_delete_sender σ s :
  wfS σ → wfS (setSenderMap (delete s (senderMap σ)) σ).
Proof.
  intros [Hch Hdisj Hrefs Hsm Hinj]. split; try done.
  - intros s' l. simpl. rewrite lookup_delete_Some. intros [_ ?]. by eapply Hsm.
  - intros s1 s2 l. simpl. rewrite !lookup_delete_Some.
    intros [_ ?] [_ ?]. by eapply Hinj.
Qed.

Lemma disconnectSender_None σ s :
  senderMap σ !! s = None → disconnectSender s σ = Some σ.
Proof. unfold disconnectSender. by intros ->. Qed.

Lemma disconnectSender_Some σ s l xs :
  wf σ → senderMap σ !! s = Some l → chain σ l xs →
  ∃ σ1, disconnectSender s σ = Some (setSenderMap (delete s (senderMap σ)) σ1)
    ∧ sameS σ σ1 ∧ wf (setSenderMap (delete s (senderMap σ)) σ1)
    ∧ (∀ c, c ∈ xs → callback (getC σ1 c) = None)
    ∧ (∀ x r, x ∉ xs → conns σ !! x = Some r →
         ∃ r', conns σ1 !! x = Some r' ∧ keptL r r').
Proof.
  intros [HS HR] Hs Hch.
  destruct (wfS_sender_chain _ _ _ HS Hs) as (xs' & Hch' & Hsort & _).
  assert (xs' = xs) as -> by by eapply chain_func.
  pose proof (chain_length _ _ _ Hch (sorted_NoDup _ Hsort)) as Hlen.
  destruct Hch as (L & HL & Hseg & _).
  destruct (disconnectSender_loop_spec (loopFuel σ) (first L) xs σ)
    as (σ1 & Hloop & HS1 & HR1 & Hdead & Hkept); [done.. | unfold loopFuel; lia |].
  exists σ1. unfold disconnectSender. rewrite Hs, (getL_lookup _ _ _ HL), Hloop.
  simpl. pose proof HS1 as (_ & -> & _). split_and!; try done.
  split.
  - pose proof (sameS_wfS _ _ HS HS1) as HS1'.
    pose proof HS1 as (_ & Hsm & _). rewrite <-Hsm. by apply wfS_delete_sender.
  - exact HR1.
Qed.

Lemma disconnectSender_wf σ s :
  wf σ → ∃ σ', disconnectSender s σ = Some σ' ∧ wf σ' ∧ evolves σ σ'.
Proof.
  intros Hwf. destruct (senderMap σ !! s) as [l|] eqn:Hs.
  - destruct (wfS_sender_chain _ _ _ (proj1 Hwf) Hs) as (xs & Hch & _).
    destruct (disconnectSender_Some _ _ _ _ Hwf Hs Hch) as (σ1 & -> & HS1 & Hwf' & _).
    eexists. split_and!; [done..|]. exact (sameS_evolves _ _ HS1).
  - rewrite disconnectSender_None by done. exists σ.
    split_and!; [done..|]. apply sameS_evolves. reflexivity.
Qed.

(** ** [cleanList] *)

Lemma sameR_getC σ σ' x : sameR σ σ' → keptR (getC σ x) (getC σ' x).
Proof.
  intros (_ & HF). unfold getC.
  destruct (conns σ !! x) as [r|] eqn:Hr.
  - destruct (Forall2_lookup_l _ _ _ _ _ HF Hr) as (r' & -> & ?). done.
  - apply lookup_ge_None in Hr. rewrite (Forall2_length _ _ _ HF) in Hr.
    apply lookup_ge_None in Hr. rewrite Hr. reflexivity.
Qed.

Lemma sameR_liveb σ σ' x : sameR σ σ' → liveb (getC σ' x) = liveb (getC σ x).
Proof.
  intros H. destruct (sameR_getC _ _ x H) as ((_ & Hcb & _) & _).
  unfold liveb. by rewrite Hcb.
Qed.

Lemma sameR_nokill σ σ' : sameR σ σ' → nokill σ σ'.
Proof.
  intros (_ & HF) c r Hr.
  destruct (Forall2_lookup_l _ _ _ _ _ HF Hr) as (r' & ? & ? & _). eauto.
Qed.

Lemma sameR_length σ σ' : sameR σ σ' → length (conns σ') = length (conns σ).
Proof. intros (_ & HF). by rewrite (Forall2_length _ _ _ HF). Qed.

Lemma set_nextReceiver_sameR c v σ : sameR σ (updC c (set_nextReceiver v) σ).
Proof. apply updC_sameR. intros r. apply set_nextReceiver_keptR. Qed.

Lemma updC_lookup_ne c f σ x : x ≠ c → conns (updC c f σ) !! x = conns σ !! x.
Proof. intros Hne. simpl. by rewrite list_lookup_alter_ne. Qed.

Lemma updC_lookup_eq c f σ r :
  conns σ !! c = Some r → conns (updC c f σ) !! c = Some (f r).
Proof. intros Hr. simpl. by rewrite list_lookup_alter_eq, Hr. Qed.

Lemma updL_lookup_ne l f σ x : x ≠ l → lists (updL l f σ) !! x = lists σ !! x.
Proof. intros Hne. simpl. by rewrite list_lookup_alter_ne. Qed.

Lemma updL_lookup_eq l f σ L :
  lists σ !! l = Some L → lists (updL l f σ) !! l = Some (f L).
Proof. intros Hr. simpl. by rewrite list_lookup_alter_eq, Hr. Qed.

Lemma updL_getL_eq l f σ :
  is_Some (lists σ !! l) → getL (updL l f σ) l = f (getL σ l).
Proof.
  intros [L HL]. by rewrite (getL_lookup _ _ _ (updL_lookup_eq _ f _ _ HL)),
    (getL_lookup _ _ _ HL).
Qed.

Lemma cleanList_loop_spec lv l suf : ∀ n prev conn σ ys,
  (∀ x, liveb (getC σ x) = lv x) →
  is_Some (lists σ !! l) →
  lseg nextReceiver (conns σ) conn suf None →
  NoDup (ys ++ suf) → length suf < n →
  prev = list_last ys → partial σ l ys →
  ∃ σ', cleanList_loop n l prev conn σ
        = Some (σ', list_last (ys ++ filter (λ x, lv x = true) suf))
    ∧ partial σ' l (ys ++ filter (λ x, lv x = true) suf)
    ∧ sameR σ σ' ∧ senderMap σ' = senderMap σ
    ∧ (∀ x, x ∉ ys → x ∉ suf → conns σ' !! x = conns σ !! x)
    ∧ (∀ l', l' ≠ l → lists σ' !! l' = lists σ !! l')
    ∧ is_Some (lists σ' !! l)
    ∧ refs (getL σ' l) = refs (getL σ l) ∧ last (getL σ' l) = last (getL σ l).
Proof.
  induction suf as [|c suf IH]; intros n prev conn σ ys Hlv Hl Hseg Hnd Hn Hprev Hpart.
  - apply lseg_head_None in Hseg as ->. destruct n; [simpl in Hn; lia|].
    rewrite filter_nil, app_nil_r. exists σ. subst prev.
    split_and!; done || reflexivity.
  - inversion Hseg as [|c' r suf' q Hc Hrest]; subst.
    destruct n as [|n]; [simpl in Hn; lia|]. simpl in Hn.
    apply NoDup_app in Hnd as (Hndy & Hdis & Hndc).
    apply NoDup_cons in Hndc as (Hcs & Hnds).
    assert (c ∉ ys) as Hcy.
    { intros Hin. apply (Hdis _ Hin). by left. }
    simpl. rewrite (getC_lookup _ _ _ Hc). rewrite filter_cons.
    pose proof (Hlv c) as Hlvc. rewrite (getC_lookup _ _ _ Hc) in Hlvc.
    unfold liveb in Hlvc.
    destruct (callback r) as [cb|] eqn:Hcb.
    + (* a live connection: link it after [prev] *)
      rewrite decide_True by done.
      assert (NoDup ((ys ++ [c]) ++ suf)) as Hnd'.
      { rewrite <-app_assoc. simpl. apply NoDup_app. split_and!; [done..|].
        by apply NoDup_cons. }
      destruct (list_last ys) as [p|] eqn:Hlast.
      * destruct Hpart as [->|(ys' & t & -> & Hys' & [rt Hrt])]; [done|].
        rewrite last_snoc in Hlast. injection Hlast as ->.
        assert (p ≠ c) as Hpc.
        { intros ->. apply Hcy. apply elem_of_app. right. by left. }
        apply NoDup_app in Hndy as (_ & Hdis' & _).
        set (σ1 := updC p (set_nextReceiver (Some c)) σ).
        pose proof (set_nextReceiver_sameR p (Some c) σ) as HR1. fold σ1 in HR1.
        destruct (IH n (Some c) (nextReceiver r) σ1 ((ys' ++ [p]) ++ [c]))
          as (σ' & Hloop & Hpart' & HR & Hsm & Hfr & Hls & Hl' & Hrefs & Hlst);
          [| done | | done | lia | by rewrite last_snoc | |].
        { intros x. by rewrite (sameR_liveb _ _ _ HR1). }
        { eapply lseg_ext; [exact Hrest|]. intros x rx Hx Hrx.
          exists rx. split; [|done]. unfold σ1. rewrite updC_lookup_ne; [done|].
          intros ->. apply (Hdis p); [|by right].
          apply elem_of_app. right. by left. }
        { right. exists (ys' ++ [p]), c. split_and!; [done | |].
          - eapply lseg_snoc.
            + eapply lseg_ext; [exact Hys'|]. intros x rx Hx Hrx.
              exists rx. split; [|done]. unfold σ1. rewrite updC_lookup_ne; [done|].
              intros ->. apply (Hdis' _ Hx). by left.
            + unfold σ1. by apply updC_lookup_eq.
            + done.
          - unfold σ1. rewrite updC_lookup_ne by done. eauto. }
        exists σ'. rewrite <-!app_assoc in *. simpl in *.
        split_and!; try done.
        -- by etrans.
        -- intros x Hx1 Hx2. apply not_elem_of_cons in Hx2 as [? ?].
           rewrite Hfr; [| |done].
           ++ unfold σ1. apply updC_lookup_ne. intros ->. apply Hx1.
              apply elem_of_app. right. by left.
           ++ rewrite !not_elem_of_app, !not_elem_of_cons in *. naive_solver.
      * apply last_None in Hlast as ->. simpl in *.
        set (σ1 := updL l (set_first (Some c)) σ).
        pose proof (updL_sameR l (set_first (Some c)) σ) as HR1. fold σ1 in HR1.
        destruct (IH n (Some c) (nextReceiver r) σ1 [c])
          as (σ' & Hloop & Hpart' & HR & Hsm & Hfr & Hls & Hl' & Hrefs & Hlst);
          [| | done | by apply NoDup_cons | lia | done | |].
        { intros x. by rewrite (sameR_liveb _ _ _ HR1). }
        { destruct Hl as [L HL]. exists (set_first (Some c) L).
          by apply updL_lookup_eq. }
        { right. exists [], c. split_and!; [done | | by eauto].
          unfold σ1. rewrite updL_getL_eq by done. simpl. constructor. }
        exists σ'. simpl in *. split_and!; try done.
        -- intros x Hx1 Hx2. apply not_elem_of_cons in Hx2 as [? ?].
           rewrite Hfr; [done | | done]. by apply not_elem_of_cons.
        -- intros l' Hne. rewrite Hls by done. unfold σ1. by apply updL_lookup_ne.
        -- rewrite Hrefs. unfold σ1. by rewrite updL_getL_eq.
        -- rewrite Hlst. unfold σ1. by rewrite updL_getL_eq.
    + (* a dead connection: drop it *)
      rewrite decide_False by (rewrite <-Hlvc; done).
      set (σ1 := updC c (set_nextReceiver None) σ).
      pose proof (set_nextReceiver_sameR c None σ) as HR1. fold σ1 in HR1.
      destruct (IH n (list_last ys) (nextReceiver r) σ1 ys)
        as (σ' & Hloop & Hpart' & HR & Hsm & Hfr & Hls & Hl' & Hrefs & Hlst);
        [| done | | | lia | done | |].
      { intros x. by rewrite (sameR_liveb _ _ _ HR1). }
      { eapply lseg_ext; [exact Hrest|]. intros x rx Hx Hrx.
        exists rx. split; [|done]. unfold σ1. rewrite updC_lookup_ne; [done|].
        by intros ->. }
      { apply NoDup_app. split_and!; [done | | done].
        intros x Hx1 Hx2. apply (Hdis _ Hx1). by right. }
      { destruct Hpart as [->|(ys' & t & -> & Hys' & [rt Hrt])]; [by left|].
        right. exists ys', t. split_and!; [done | |].
        - eapply lseg_ext; [exact Hys'|]. intros x rx Hx Hrx.
          exists rx. split; [|done]. unfold σ1. rewrite updC_lookup_ne; [done|].
          intros ->. apply Hcy. apply elem_of_app. by left.
        - unfold σ1. rewrite updC_lookup_ne; [eauto|].
          intros ->. apply Hcy. apply elem_of_app. right. by left. }
      exists σ'. split_and!; try done.
      * by etrans.
      * intros x Hx1 Hx2. apply not_elem_of_cons in Hx2 as [? ?].
        rewrite Hfr by done. unfold σ1. by apply updC_lookup_ne.
Qed.

Lemma cleanList_spec σ l xs :
  chain σ l xs → NoDup xs →
  ∃ σ', cleanList l σ = Some σ'
    ∧ chain σ' l (filter (λ x, liveb (getC σ x) = true) xs)
    ∧ sameR σ σ' ∧ senderMap σ' = senderMap σ
    ∧ (∀ x, x ∉ xs → conns σ' !! x = conns σ !! x)
    ∧ (∀ l', l' ≠ l → lists σ' !! l' = lists σ !! l')
    ∧ refs (getL σ' l) = refs (getL σ l).
Proof.
  intros Hch Hnd. pose proof (chain_length _ _ _ Hch Hnd) as Hlen.
  destruct Hch as (L & HL & Hseg & _).
  destruct (cleanList_loop_spec (λ x, liveb (getC σ x)) l xs (loopFuel σ) None
              (first L) σ [])
    as (σ1 & Hloop & Hpart & HR & Hsm & Hfr & Hls & [L1 HL1] & Hrefs & _);
    [done | by eauto | done | done | unfold loopFuel; lia | done | by left |].
  rewrite app_nil_l in Hloop, Hpart. set (zs := filter _ xs) in *.
  unfold cleanList. rewrite (getL_lookup _ _ _ HL), Hloop. simpl.
  rewrite (getL_lookup _ _ _ HL1) in Hrefs.
  destruct Hpart as [Hzs|(zs' & t & Hzs & Hseg' & [rt Hrt])]; rewrite Hzs.
  - simpl. eexists. split; [done|]. split_and!.
    + eexists. split; [by apply updL_lookup_eq, updL_lookup_eq|].
      simpl. split; [constructor | done].
    + etrans; [exact HR|]. etrans; apply updL_sameR.
    + done.
    + intros x Hx. apply Hfr; [apply not_elem_of_nil | done].
    + intros l' Hne. rewrite !updL_lookup_ne by done. by apply Hls.
    + rewrite (getL_lookup (updL l (set_last None) (updL l (set_first None) σ1)) l
                 (set_last None (set_first None L1)));
        [simpl; by rewrite Hrefs, (getL_lookup _ _ _ HL)|].
      by apply updL_lookup_eq, updL_lookup_eq.
  - rewrite last_snoc. eexists. split; [done|].
    assert (NoDup (zs' ++ [t])) as Hndz.
    { rewrite <-Hzs. by apply NoDup_filter. }
    apply NoDup_app in Hndz as (_ & Hdis & _).
    rewrite (getL_lookup _ _ _ HL1) in Hseg'.
    split_and!.
    + eexists. split; [by apply updL_lookup_eq|]. simpl. split; [|by rewrite last_snoc].
      eapply lseg_snoc; [| by rewrite list_lookup_alter_eq, Hrt | done].
      eapply lseg_ext; [exact Hseg'|]. intros x rx Hx Hrx.
      exists rx. split; [|done]. rewrite list_lookup_alter_ne; [done|].
      intros ->. apply (Hdis _ Hx). by left.
    + etrans; [exact HR|]. etrans; [apply set_nextReceiver_sameR | apply updL_sameR].
    + done.
    + intros x Hx. simpl. rewrite list_lookup_alter_ne.
      * apply Hfr; [apply not_elem_of_nil | done].
      * intros <-. apply Hx.
        assert (t ∈ zs) as Ht by (rewrite Hzs; apply elem_of_app; right; by left).
        unfold zs in Ht. by apply list_elem_of_filter in Ht as [_ ?].
    + intros l' Hne. rewrite updL_lookup_ne by done. by apply Hls.
    + rewrite (getL_lookup _ l (set_last (Some t) L1));
        [simpl; by rewrite Hrefs, (getL_lookup _ _ _ HL)|].
      by apply updL_lookup_eq.
Qed.

(** The chains of the other lists after a change that is confined to the
    connections of one list. *)
Lemma chain_frame σ σ' l xs :
  chain σ l xs →
  lists σ' !! l = lists σ !! l →
  (∀ x, x ∈ xs → conns σ' !! x = conns σ !! x) →
  chain σ' l xs.
Proof.
  intros (L & HL & Hseg & Hlast) Hl Hx. exists L. rewrite Hl.
  split_and!; [done | | done].
  eapply lseg_ext; [exact Hseg|]. intros x rx Hin Hrx.
  exists rx. by rewrite Hx.
Qed.

Lemma uniq_live_nokill σ σ' xs ys :
  nokill σ σ' → ys ⊆ xs → (∀ c, c ∈ xs → c < length (conns σ)) →
  length (conns σ') = length (conns σ) →
  uniq_live (conns σ) xs → uniq_live (conns σ') ys.
Proof.
  intros Hk Hsub Hlt Hlen Hu c1 c2 r1 r2 H1 H2 Hr1 Hr2.
  eapply (uniq_live_mono σ σ' xs); eauto using nokill_mono.
Qed.

Lemma cleanList_wfS σ l xs σ' :
  wfS σ → chain σ l xs → cleanList l σ = Some σ' →
  wfS σ'
  ∧ (∀ l' ys, l' ≠ l → chain σ l' ys ↔ chain σ' l' ys).
Proof.
  intros HS Hch Hclean.
  assert (StronglySorted lt xs ∧ uniq_live (conns σ) xs) as [Hsort Hu].
  { pose proof Hch as (L & HL & _).
    destruct (wfS_chain _ HS _ _ HL) as (xs' & Hch' & ? & ?).
    by rewrite <-(chain_func _ _ _ _ Hch' Hch). }
  destruct (cleanList_spec σ l xs Hch (sorted_NoDup _ Hsort))
    as (σ'' & Hclean' & Hch' & HR & Hsm & Hfr & Hls & Hrefs).
  assert (σ'' = σ') as -> by congruence.
  assert (∀ l' ys, l' ≠ l → chain σ l' ys ↔ chain σ' l' ys) as Hother.
  { intros l' ys Hne. split; intros Hys.
    - eapply chain_frame; [exact Hys | by apply Hls |].
      intros x Hx. apply Hfr. intros Hx'.
      by apply Hne, (wfS_disj _ HS l' l ys xs x).
    - assert (l' < length (lists σ)) as Hl'.
      { destruct Hys as (L' & HL' & _). rewrite Hls in HL' by done.
        by eapply lookup_lt_Some. }
      destruct (wfS_chain_of _ _ HS Hl') as (ys' & Hys' & _).
      assert (chain σ' l' ys') as Hys''.
      { eapply chain_frame; [exact Hys' | by apply Hls |].
        intros x Hx. apply Hfr. intros Hx'.
        by apply Hne, (wfS_disj _ HS l' l ys' xs x). }
      by rewrite (chain_func _ _ _ _ Hys Hys''). }
  split; [|done]. split.
  - intros l0 L0 HL0. destruct (decide (l0 = l)) as [->|Hne].
    + eexists. split_and!; [exact Hch' | by apply sorted_filter |].
      eapply uniq_live_nokill; [by apply sameR_nokill | apply list_subseteq_filter
                                | | by apply sameR_length | done].
      intros c Hc. by eapply chain_lt.
    + rewrite Hls in HL0 by done.
      destruct (wfS_chain _ HS _ _ HL0) as (ys & Hys & Hsorty & Huy).
      exists ys. split_and!; [by apply Hother | done |].
      eapply uniq_live_nokill; [by apply sameR_nokill | done | | by apply sameR_length
                                | done].
      intros c Hc. by eapply chain_lt.
  - intros l1 l2 xs1 xs2 c H1 H2 Hc1 Hc2.
    destruct (decide (l1 = l)) as [->|Hne1], (decide (l2 = l)) as [->|Hne2]; [done|..].
    + rewrite (chain_func _ _ _ _ H1 Hch') in Hc1.
      apply list_elem_of_filter in Hc1 as [_ Hc1].
      apply Hother in H2; [|done]. by eapply (wfS_disj _ HS).
    + rewrite (chain_func _ _ _ _ H2 Hch') in Hc2.
      apply list_elem_of_filter in Hc2 as [_ Hc2].
      apply Hother in H1; [|done]. by eapply (wfS_disj _ HS).
    + apply Hother in H1; [|done]. apply Hother in H2; [|done].
      by eapply (wfS_disj _ HS).
  - intros l0 L0 HL0. destruct (decide (l0 = l)) as [->|Hne].
    + rewrite (getL_lookup _ _ _ HL0) in Hrefs. rewrite Hrefs.
      destruct Hch as (L & HL & _). rewrite (getL_lookup _ _ _ HL).
      by eapply wfS_refs.
    + rewrite Hls in HL0 by done. by eapply wfS_refs.
  - intros s l0. rewrite Hsm. intros Hs. apply (wfS_smap _ HS) in Hs.
    destruct (decide (l0 = l)) as [->|Hne].
    + destruct Hch' as (L' & HL' & _). by eapply lookup_lt_Some.
    + apply lookup_lt_is_Some. rewrite Hls by done. by apply lookup_lt_is_Some.
  - intros s1 s2 l0. rewrite Hsm. by apply (wfS_inj _ HS).
Qed.

(** ** [connect] *)

Lemma connect_unfold σ s sig cb this0 :
  connect σ s sig cb this0
  = found ← match senderMap σ !! s with
            | Some l => findConnection σ l sig cb (orUndefined this0)
            | None => Some None
            end;
    match found with
    | Some _ => Some (σ, false)
    | None =>
      Some (addToChain (receiverId (orUndefined this0) cb) (length (conns σ))
              (addToList s (senderMap σ !! s) (length (conns σ))
                 (allocC (freshConn sig cb (orUndefined this0)) σ)), true)
    end.
Proof. done. Qed.

Lemma freshConn_receiverOf sig cb this :
  receiverOf (freshConn sig cb this) = Some (receiverId this cb).
Proof. by destruct this. Qed.

Lemma lookup_snoc_lt {A} (h : list A) (r : A) (x : nat) (rx : A) :
  h !! x = Some rx → (h ++ [r]) !! x = Some rx.
Proof. apply lookup_app_l_Some. Qed.

Lemma lookup_snoc_eq {A} (h : list A) (r : A) : (h ++ [r]) !! length h = Some r.
Proof. by rewrite lookup_app_r, Nat.sub_diag by lia. Qed.

Lemma strictEq_refl_orUndefined v : strictEq (orUndefined v) (orUndefined v) = true.
Proof. by apply strictEq_orUndefined. Qed.

(** The sender side after the connection has been added to the list:
    the list of [s] has the new connection at its tail. *)
Lemma addToList_chain σ s sig cb this l xs :
  wfS σ → senderMap σ !! s = Some l → chain σ l xs →
  chain (addToList s (Some l) (length (conns σ))
           (allocC (freshConn sig cb this) σ)) l (xs ++ [length (conns σ)]).
Proof.
  intros HS Hs Hch. pose proof Hch as (L & HL & Hseg & Hlast).
  destruct (wfS_chain _ HS _ _ HL) as (xs' & Hch' & Hsort & _).
  rewrite (chain_func _ _ _ _ Hch' Hch) in Hsort. clear xs' Hch'.
  apply sorted_NoDup in Hsort as Hnd.
  set (n := length (conns σ)). set (rec := freshConn sig cb this).
  assert (getL (allocC rec σ) l = L) as HgetL by by apply getL_lookup.
  unfold addToList. rewrite HgetL.
  destruct (last L) as [lst|] eqn:HlastL.
  - symmetry in Hlast. apply last_Some in Hlast as [xs' ->].
    exists (set_last (Some n) L). split_and!.
    + simpl. by rewrite list_lookup_alter_eq, HL.
    + simpl. apply NoDup_app in Hnd as (_ & Hdis & _).
      destruct (lseg_snoc_inv _ _ _ _ _ _ Hseg) as (_ & rl & Hrl & _).
      eapply (lseg_snoc _ _ _ n rec); [| | done].
      * eapply lseg_retarget; [exact Hseg | |].
        -- intros x rx Hx Hrx. exists rx. split; [|done].
           rewrite list_lookup_alter_ne; [by apply lookup_snoc_lt|].
           intros ->. apply (Hdis _ Hx). by left.
        -- exists (set_nextReceiver (Some n) rl). split; [|done].
           by rewrite list_lookup_alter_eq, (lookup_snoc_lt _ _ _ _ Hrl).
      * rewrite list_lookup_alter_ne; [apply lookup_snoc_eq|].
        intros ->. apply lookup_lt_Some in Hrl. unfold n in Hrl. lia.
    + simpl. by rewrite last_snoc.
  - symmetry in Hlast. apply last_None in Hlast as ->.
    exists (set_last (Some n) (set_first (Some n) L)). split_and!.
    + simpl. by rewrite !list_lookup_alter_eq, HL.
    + simpl. econstructor; [apply lookup_snoc_eq|]. constructor.
    + done.
Qed.

(** The connections that existed are touched by [addToList] only in their
    [nextReceiver] link. *)
Lemma addToList_conns σ s list rec :
  (∀ l, list = Some l → ∀ lst, last (getL σ l) = Some lst → lst < length (conns σ)) →
  ∃ h, conns (addToList s list (length (conns σ)) (allocC rec σ)) = h ++ [rec]
    ∧ Forall2 keptR (conns σ) h
    ∧ (∀ x, (∀ l, list = Some l → last (getL σ l) ≠ Some x) → h !! x = conns σ !! x).
Proof.
  intros Hlst. unfold addToList. destruct list as [l|].
  - replace (getL (allocC rec σ) l) with (getL σ l) by done.
    destruct (last (getL σ l)) as [lst|] eqn:Hlast.
    + exists (alter (set_nextReceiver (Some (length (conns σ)))) lst (conns σ)).
      split_and!.
      * simpl. apply list_eq. intros i.
        destruct (decide (i = lst)) as [->|Hne].
        -- rewrite list_lookup_alter_eq.
           specialize (Hlst l eq_refl lst Hlast).
           rewrite !lookup_app_l by (by rewrite ?length_alter).
           by rewrite list_lookup_alter_eq.
        -- rewrite list_lookup_alter_ne by done.
           destruct (decide (i < length (conns σ))).
           ++ rewrite !lookup_app_l by (by rewrite ?length_alter).
              by rewrite list_lookup_alter_ne.
           ++ rewrite !lookup_app_r by (rewrite ?length_alter; lia).
              by rewrite length_alter.
      * apply Forall2_alter_refl; [apply _|]. intros r. apply set_nextReceiver_keptR.
      * intros x Hx. rewrite list_lookup_alter_ne; [done|].
        intros ->. by apply (Hx l).
    + exists (conns σ). split_and!; [done | reflexivity | done].
  - exists (conns σ). split_and!; [done | reflexivity | done].
Qed.

Lemma chain_last_elem σ l xs lst :
  chain σ l xs → last (getL σ l) = Some lst → lst ∈ xs.
Proof.
  intros (L & HL & _ & Hlast). rewrite (getL_lookup _ _ _ HL), Hlast.
  apply last_Some_elem_of.
Qed.

Lemma addToList_lists_other σ s list n rec l' :
  list ≠ Some l' → l' < length (lists σ) →
  lists (addToList s list n (allocC rec σ)) !! l' = lists σ !! l'.
Proof.
  intros Hne Hlt. unfold addToList. destruct list as [l|].
  - assert (l ≠ l') by congruence.
    destruct (last (getL (allocC rec σ) l)); simpl;
      by rewrite ?list_lookup_alter_ne.
  - simpl. by rewrite lookup_app_l.
Qed.

Lemma addToList_chain_other σ s sig cb this l' ys :
  wfS σ → chain σ l' ys → senderMap σ !! s ≠ Some l' →
  chain (addToList s (senderMap σ !! s) (length (conns σ))
           (allocC (freshConn sig cb this) σ)) l' ys.
Proof.
  intros HS Hys Hne. set (rec := freshConn sig cb this).
  destruct (addToList_conns σ s (senderMap σ !! s) rec) as (h & Hh & _ & Hsame).
  { intros l Hl lst Hlst. destruct (wfS_sender_chain _ _ _ HS Hl) as (xs & Hxs & _).
    eapply chain_lt; [exact Hxs|]. by eapply chain_last_elem. }
  pose proof Hys as (L' & HL' & _).
  eapply chain_frame; [exact Hys | |].
  - apply addToList_lists_other; [done|]. by eapply lookup_lt_Some.
  - intros x Hx. fold rec. rewrite Hh.
    assert (h !! x = conns σ !! x) as Hx'.
    { apply Hsame. intros l Hl Hlst.
      destruct (wfS_sender_chain _ _ _ HS Hl) as (xs & Hxs & _).
      apply Hne. rewrite Hl. f_equal.
      eapply (wfS_disj _ HS l l' xs ys x); [done..| |done].
      by eapply chain_last_elem. }
    pose proof (chain_lt _ _ _ _ Hys Hx) as Hlt.
    apply lookup_lt_is_Some in Hlt as [rx Hrx].
    rewrite Hrx in Hx'. by rewrite (lookup_snoc_lt _ _ _ _ Hx'), Hrx.
Qed.

Lemma addToList_chain_new σ s sig cb this :
  senderMap σ !! s = None →
  chain (addToList s None (length (conns σ)) (allocC (freshConn sig cb this) σ))
    (length (lists σ)) [length (conns σ)].
Proof.
  intros Hs. eexists. split_and!.
  - simpl. apply lookup_snoc_eq.
  - simpl. econstructor; [apply lookup_snoc_eq|]. constructor.
  - done.
Qed.

(** Every chain after [addToList], in terms of the chains before. *)
Lemma addToList_chains σ s sig cb this l0 ys :
  wfS σ →
  chain (addToList s (senderMap σ !! s) (length (conns σ))
           (allocC (freshConn sig cb this) σ)) l0 ys →
  (∃ xs, chain σ l0 xs ∧ senderMap σ !! s = Some l0
         ∧ ys = xs ++ [length (conns σ)])
  ∨ (chain σ l0 ys ∧ senderMap σ !! s ≠ Some l0)
  ∨ (senderMap σ !! s = None ∧ l0 = length (lists σ) ∧ ys = [length (conns σ)]).
Proof.
  intros HS Hys. set (σ2 := addToList _ _ _ _) in *.
  destruct (decide (l0 < length (lists σ))) as [Hlt|Hge].
  - destruct (wfS_chain_of _ _ HS Hlt) as (xs & Hxs & _).
    destruct (decide (senderMap σ !! s = Some l0)) as [Hs|Hs].
    + left. exists xs. split_and!; [done..|].
      eapply chain_func; [exact Hys|]. unfold σ2. rewrite Hs.
      by apply addToList_chain.
    + right. left. split; [|done].
      assert (ys = xs) as ->; [|done].
      eapply chain_func; [exact Hys|]. by apply addToList_chain_other.
  - right. right. destruct Hys as (L0 & HL0 & Hseg & Hlast).
    apply lookup_lt_Some in HL0 as Hlt'.
    destruct (senderMap σ !! s) as [l|] eqn:Hs.
    + exfalso. apply Hge. unfold σ2, addToList in Hlt'.
      destruct (last (getL _ l)); simpl in Hlt'; by rewrite !length_alter in Hlt'.
    + assert (l0 = length (lists σ)) as ->.
      { unfold σ2, addToList in Hlt'. simpl in Hlt'. rewrite length_app in Hlt'.
        simpl in Hlt'. lia. }
      split_and!; [done..|].
      eapply chain_func; [by exists L0|]. by apply addToList_chain_new.
Qed.

Lemma snoc_lookup_old h0 h rec x r' :
  Forall2 keptR h0 h → x < length h0 → (h ++ [rec]) !! x = Some r' →
  ∃ r0, h0 !! x = Some r0 ∧ keptR r0 r'.
Proof.
  intros HF Hlt Hr'. rewrite lookup_app_l in Hr'
    by by rewrite <-(Forall2_length _ _ _ HF).
  by apply (Forall2_lookup_r _ _ _ _ _ HF).
Qed.

Lemma uniq_live_old h0 h rec xs :
  Forall2 keptR h0 h → (∀ c, c ∈ xs → c < length h0) →
  uniq_live h0 xs → uniq_live (h ++ [rec]) xs.
Proof.
  intros HF Hlt Hu c1 c2 r1 r2 H1 H2 Hr1 Hr2 Hlive Hsig Hcb Hthis.
  destruct (snoc_lookup_old _ _ _ _ _ HF (Hlt _ H1) Hr1) as (q1 & Hq1 & (Hs1 & Hc1 & Ht1) & _).
  destruct (snoc_lookup_old _ _ _ _ _ HF (Hlt _ H2) Hr2) as (q2 & Hq2 & (Hs2 & Hc2 & Ht2) & _).
  apply (Hu c1 c2 q1 q2); try done; try congruence.
  unfold liveb in *. by rewrite <-Hc1.
Qed.

Lemma uniq_live_snoc σ h sig cb this xs :
  Forall2 keptR (conns σ) h → (∀ c, c ∈ xs → c < length (conns σ)) →
  strictEq this this = true →
  (∀ c, c ∈ xs → matchesConn sig cb this (getC σ c) = false) →
  uniq_live (conns σ) xs →
  uniq_live (h ++ [freshConn sig cb this]) (xs ++ [length (conns σ)]).
Proof.
  intros HF Hlt Hrefl Hnone Hu.
  assert (∀ c r, c ∈ xs → (h ++ [freshConn sig cb this]) !! c = Some r →
            ¬ (signal r = Some sig ∧ callback r = Some cb ∧ thisArg r = this)) as Hno.
  { intros c r Hc Hr (Hs & Hcb & Hth).
    destruct (snoc_lookup_old _ _ _ _ _ HF (Hlt _ Hc) Hr) as (q & Hq & (Hs1 & Hc1 & Ht1) & _).
    specialize (Hnone c Hc). rewrite (getC_lookup _ _ _ Hq) in Hnone.
    unfold matchesConn in Hnone. rewrite <-Hs1, <-Hc1, <-Ht1, Hs, Hcb, Hth in Hnone.
    by rewrite !bool_decide_eq_true_2, Hrefl in Hnone. }
  assert (length h = length (conns σ)) as Hlen by by rewrite (Forall2_length _ _ _ HF).
  intros c1 c2 r1 r2 H1 H2 Hr1 Hr2 Hlive Hsig Hcb Hthis.
  apply elem_of_app in H1 as [H1|H1], H2 as [H2|H2].
  - eapply (uniq_live_old (conns σ) h); eauto.
  - apply list_elem_of_singleton in H2 as ->. exfalso.
    rewrite <-Hlen, lookup_snoc_eq in Hr2. injection Hr2 as <-.
    apply (Hno c1 r1 H1 Hr1). by rewrite Hsig, Hcb, Hthis.
  - apply list_elem_of_singleton in H1 as ->. exfalso.
    rewrite <-Hlen, lookup_snoc_eq in Hr1. injection Hr1 as <-.
    apply (Hno c2 r2 H2 Hr2). by rewrite <-Hsig, <-Hcb, <-Hthis.
  - apply list_elem_of_singleton in H1 as ->.
    by apply list_elem_of_singleton in H2 as ->.
Qed.

Lemma addToList_wfS σ s sig cb this :
  wfS σ → strictEq this this = true →
  (∀ l xs c, senderMap σ !! s = Some l → chain σ l xs → c ∈ xs →
     matchesConn sig cb this (getC σ c) = false) →
  wfS (addToList s (senderMap σ !! s) (length (conns σ))
         (allocC (freshConn sig cb this) σ)).
Proof.
  intros HS Hrefl Hnone. set (n := length (conns σ)).
  set (rec := freshConn sig cb this).
  set (σ2 := addToList _ _ _ _).
  destruct (addToList_conns σ s (senderMap σ !! s) rec) as (h & Hh & HF & _).
  { intros l Hl lst Hlst. destruct (wfS_sender_chain _ _ _ HS Hl) as (xs & Hxs & _).
    eapply chain_lt; [exact Hxs|]. by eapply chain_last_elem. }
  fold n σ2 in Hh.
  assert (∀ l0 ys, chain σ2 l0 ys →
            StronglySorted lt ys ∧ uniq_live (conns σ2) ys) as Hprops.
  { intros l0 ys Hys. rewrite Hh.
    destruct (addToList_chains _ _ _ _ _ _ _ HS Hys)
      as [(xs & Hxs & Hs & ->)|[(Hxs & Hs)|(Hs & -> & ->)]].
    - pose proof Hxs as (L & HL & _).
      destruct (wfS_chain _ HS _ _ HL) as (xs' & Hxs' & Hsort & Hu).
      rewrite (chain_func _ _ _ _ Hxs' Hxs) in Hsort, Hu. split.
      + apply sorted_snoc; [done|]. apply Forall_forall. intros c Hc.
        exact (chain_lt _ _ _ _ Hxs Hc).
      + apply uniq_live_snoc; try done.
        * intros c Hc. exact (chain_lt _ _ _ _ Hxs Hc).
        * intros c Hc. exact (Hnone _ _ _ Hs Hxs Hc).
    - pose proof Hxs as (L & HL & _).
      destruct (wfS_chain _ HS _ _ HL) as (xs' & Hxs' & Hsort & Hu).
      rewrite (chain_func _ _ _ _ Hxs' Hxs) in Hsort, Hu. split; [done|].
      eapply uniq_live_old; [done | | done].
      intros c Hc. exact (chain_lt _ _ _ _ Hxs Hc).
    - split; [repeat constructor|].
      intros c1 c2 r1 r2 H1 H2 _ _ _ _ _ _.
      apply list_elem_of_singleton in H1 as ->.
      by apply list_elem_of_singleton in H2 as ->. }
  split.
  - intros l0 L0 HL0.
    assert (∃ ys, chain σ2 l0 ys) as [ys Hys].
    { destruct (decide (l0 < length (lists σ))) as [Hlt|Hge].
      - destruct (wfS_chain_of _ _ HS Hlt) as (xs & Hxs & _).
        destruct (decide (senderMap σ !! s = Some l0)) as [Hs|Hs].
        + eexists. unfold σ2. rewrite Hs. by apply addToList_chain.
        + eexists. by apply addToList_chain_other.
      - apply lookup_lt_Some in HL0 as Hlt'.
        destruct (senderMap σ !! s) as [l|] eqn:Hs.
        + exfalso. apply Hge. unfold σ2, addToList in Hlt'.
          destruct (last (getL _ l)); simpl in Hlt'; by rewrite !length_alter in Hlt'.
        + assert (l0 = length (lists σ)) as ->.
          { unfold σ2, addToList in Hlt'. simpl in Hlt'. rewrite length_app in Hlt'.
            simpl in Hlt'. lia. }
          eexists. by apply addToList_chain_new. }
    exists ys. split; [done|]. by eapply Hprops.
  - intros l1 l2 ys1 ys2 c H1 H2 Hc1 Hc2.
    assert (∀ l xs, chain σ l xs → n ∉ xs) as Hn.
    { intros l xs Hxs Hin. apply (chain_lt _ _ _ _ Hxs) in Hin. unfold n in Hin. lia. }
    destruct (addToList_chains _ _ _ _ _ _ _ HS H1)
      as [(xs1 & Hxs1 & Hs1 & ->)|[(Hxs1 & Hs1)|(Hs1 & -> & ->)]];
    destruct (addToList_chains _ _ _ _ _ _ _ HS H2)
      as [(xs2 & Hxs2 & Hs2 & ->)|[(Hxs2 & Hs2)|(Hs2 & -> & ->)]];
      try congruence.
    + apply elem_of_app in Hc1 as [Hc1|Hc1].
      * by eapply (wfS_disj _ HS l1 l2 xs1 ys2 c).
      * apply list_elem_of_singleton in Hc1 as ->. by destruct (Hn _ _ Hxs2).
    + apply elem_of_app in Hc2 as [Hc2|Hc2].
      * by eapply (wfS_disj _ HS l1 l2 ys1 xs2 c).
      * apply list_elem_of_singleton in Hc2 as ->. by destruct (Hn _ _ Hxs1).
    + by eapply (wfS_disj _ HS l1 l2 ys1 ys2 c).
    + apply list_elem_of_singleton in Hc2 as ->. by destruct (Hn _ _ Hxs1).
    + apply list_elem_of_singleton in Hc1 as ->. by destruct (Hn _ _ Hxs2).
  - intros l0 L0 HL0. unfold σ2, addToList in HL0.
    destruct (senderMap σ !! s) as [l|] eqn:Hs.
    + destruct (last (getL _ l)); simpl in HL0.
      * rewrite list_lookup_alter in HL0. case_decide; subst.
        -- destruct (lists σ !! l0) as [L|] eqn:HL; [|done].
           injection HL0 as <-. simpl. exact (wfS_refs _ HS _ _ HL).
        -- exact (wfS_refs _ HS _ _ HL0).
      * rewrite !list_lookup_alter in HL0. repeat case_decide; subst; try done.
        -- destruct (lists σ !! l0) as [L|] eqn:HL; [|done].
           injection HL0 as <-. simpl. exact (wfS_refs _ HS _ _ HL).
        -- exact (wfS_refs _ HS _ _ HL0).
    + simpl in HL0. apply lookup_app_Some in HL0 as [HL0|[_ HL0]].
      * exact (wfS_refs _ HS _ _ HL0).
      * destruct (l0 - length (lists σ)); [|done]. by injection HL0 as <-.
  - intros s0 l0. unfold σ2, addToList.
    destruct (senderMap σ !! s) as [l|] eqn:Hs.
    + destruct (last (getL _ l)); simpl; rewrite !length_alter; by apply wfS_smap.
    + simpl. rewrite length_app. simpl. rewrite lookup_insert.
      case_decide; [intros [= <-]; lia|].
      intros H'. apply (wfS_smap _ HS) in H'. lia.
  - intros s1 s2 l0. unfold σ2, addToList.
    destruct (senderMap σ !! s) as [l|] eqn:Hs.
    + destruct (last (getL _ l)); simpl; by apply wfS_inj.
    + simpl. rewrite !lookup_insert.
      repeat case_decide; subst; try done.
      * intros [= <-] H'. apply (wfS_smap _ HS) in H'. lia.
      * intros H' [= <-]. apply (wfS_smap _ HS) in H'. lia.
      * by apply wfS_inj.
Qed.

Lemma addToChain_lookup σ2 h rec o :
  conns σ2 = h ++ [rec] → nextSender rec = None →
  (∀ hd, receiverMap σ2 !! o = Some hd → hd < length h) →
  (∀ x rx, h !! x = Some rx →
     conns (addToChain o (length h) σ2) !! x
     = Some (if decide (receiverMap σ2 !! o = Some x)
             then set_prevSender (Some (length h)) rx else rx))
  ∧ conns (addToChain o (length h) σ2) !! length h
    = Some (set_nextSender (receiverMap σ2 !! o) rec)
  ∧ length (conns (addToChain o (length h) σ2)) = S (length h)
  ∧ receiverMap (addToChain o (length h) σ2) = <[o := length h]> (receiverMap σ2).
Proof.
  intros Hh Hnx Hhd. unfold addToChain.
  destruct (receiverMap σ2 !! o) as [hd|] eqn:Hhead; simpl.
  - specialize (Hhd hd eq_refl). rewrite Hh. split_and!; [| | |done].
    + intros x rx Hrx. apply lookup_lt_Some in Hrx as Hlt.
      rewrite list_lookup_alter_ne by lia. rewrite list_lookup_alter.
      repeat case_decide; simplify_eq; by rewrite (lookup_snoc_lt _ _ _ _ Hrx).
    + rewrite list_lookup_alter_eq, list_lookup_alter_ne by lia.
      by rewrite lookup_snoc_eq.
    + rewrite !length_alter, length_app. simpl. lia.
  - rewrite Hh. split_and!; [| | |done].
    + intros x rx Hrx. rewrite (lookup_snoc_lt _ _ _ _ Hrx).
      by repeat case_decide.
    + rewrite lookup_snoc_eq. f_equal. destruct rec. simpl in *. by subst.
    + rewrite length_app. simpl. lia.
Qed.

Lemma addToChain_sameS o n σ2 : sameS σ2 (addToChain o n σ2).
Proof.
  unfold addToChain. etrans; [|apply setReceiverMap_sameS].
  destruct (receiverMap σ2 !! o); [|reflexivity].
  etrans; apply updC_sameS; intros r.
  - apply set_prevSender_keptS.
  - apply set_nextSender_keptS.
Qed.

Lemma rchain_valid σ o xs c : rchain σ o xs → c ∈ xs → c < length (conns σ).
Proof. intros (Hseg & _) Hc. by eapply lseg_lt. Qed.

Lemma addToChain_rchain σ2 h rec o ys :
  conns σ2 = h ++ [rec] → nextSender rec = None → prevSender rec = None →
  receiverOf rec = Some o →
  rchain (withConns h σ2) o ys →
  rchain (addToChain o (length h) σ2) o (length h :: ys).
Proof.
  intros Hh Hnx Hpv Ho Hys. pose proof Hys as (Hseg & Hb & Hnd & Hin).
  simpl in Hseg, Hb, Hin.
  assert (∀ x, x ∈ ys → x < length h) as Hlt.
  { intros x Hx. exact (rchain_valid _ _ _ _ Hys Hx). }
  pose proof (lseg_head_None _ _ _ _ Hseg) as Hhead.
  destruct (addToChain_lookup σ2 h rec o Hh Hnx) as (Hold & Hnew & Hlen & Hmap).
  { intros hd Hhd. apply Hlt. rewrite Hhead in Hhd. by apply head_Some_elem_of. }
  assert (length h ∉ ys) as Hnys.
  { intros Hx. apply Hlt in Hx. lia. }
  split_and!.
  - rewrite Hmap, lookup_insert_eq. econstructor; [exact Hnew|]. simpl.
    eapply lseg_ext; [exact Hseg|]. intros x rx Hx Hrx.
    eexists. split; [by apply Hold|]. by case_decide.
  - split; [exists (set_nextSender (receiverMap σ2 !! o) rec); by split|].
    destruct ys as [|hd ys']; [done|]. simpl in Hhead.
    destruct Hb as ((rhd & Hrhd & _) & Hb). apply NoDup_cons in Hnd as [Hhd' _].
    split.
    + eexists. split; [by apply Hold|]. by rewrite decide_True.
    + eapply bseg_ext; [exact Hb|]. intros x rx Hx Hrx.
      eexists. split; [by apply Hold|]. rewrite decide_False; [done|].
      rewrite Hhead. by intros [= ->].
  - by apply NoDup_cons.
  - intros x. rewrite elem_of_cons. split.
    + intros [->|Hx].
      * eexists. split; [exact Hnew|]. unfold receiverOf in *. by destruct rec.
      * apply Hin in Hx as (rx & Hrx & Hox).
        eexists. split; [by apply Hold|]. by case_decide.
    + intros (r' & Hr' & Hor'). destruct (decide (x = length h)) as [->|Hne]; [by left|].
      right. apply Hin. apply lookup_lt_Some in Hr' as Hlt'.
      assert (is_Some (h !! x)) as [rx Hrx] by (apply lookup_lt_is_Some; lia).
      rewrite (Hold _ _ Hrx) in Hr'. injection Hr' as <-.
      exists rx. split; [done|]. by case_decide.
Qed.

Lemma addToChain_rchain_other σ2 h rec o o' ys :
  conns σ2 = h ++ [rec] → nextSender rec = None →
  receiverOf rec = Some o → o' ≠ o →
  (∃ zs, rchain (withConns h σ2) o zs) →
  rchain (withConns h σ2) o' ys →
  rchain (addToChain o (length h) σ2) o' ys.
Proof.
  intros Hh Hnx Ho Hne [zs Hzs] Hys.
  destruct (addToChain_lookup σ2 h rec o Hh Hnx) as (Hold & Hnew & Hlen & Hmap).
  { intros hd Hhd. destruct Hzs as (Hseg & _). simpl in Hseg.
    eapply lseg_lt; [exact Hseg|]. apply lseg_head_None in Hseg.
    rewrite Hseg in Hhd. by apply head_Some_elem_of. }
  eapply rchain_frame; [exact Hys | | |].
  - rewrite Hmap. simpl. by rewrite lookup_insert_ne.
  - intros x rx Hx Hrx. simpl in Hrx. eexists. split; [by apply Hold|].
    rewrite decide_False; [reflexivity|]. intros Hhd.
    destruct Hzs as (Hseg & _ & _ & Hin1). destruct Hys as (_ & _ & _ & Hin2).
    simpl in *. apply lseg_head_None in Hseg. rewrite Hseg in Hhd.
    apply head_Some_elem_of in Hhd. apply Hin1 in Hhd as (r1 & ? & ?).
    apply Hin2 in Hx as (r2 & ? & ?). congruence.
  - intros x r' Hr' Hor'. simpl.
    destruct (decide (x = length h)) as [->|Hxn].
    { rewrite Hnew in Hr'. injection Hr' as <-.
      unfold receiverOf in *. destruct rec. simpl in *. congruence. }
    apply lookup_lt_Some in Hr' as Hlt'.
    assert (is_Some (h !! x)) as [rx Hrx] by (apply lookup_lt_is_Some; lia).
    rewrite (Hold _ _ Hrx) in Hr'. injection Hr' as <-.
    exists rx. split; [done|]. by case_decide.
Qed.

Lemma addToChain_wfR σ2 h rec o :
  conns σ2 = h ++ [rec] → nextSender rec = None → prevSender rec = None →
  receiverOf rec = Some o →
  wfR (withConns h σ2) → wfR (addToChain o (length h) σ2).
Proof.
  intros Hh Hnx Hpv Ho HR o'. destruct (HR o') as [ys Hys].
  destruct (decide (o' = o)) as [->|Hne].
  - eexists. by eapply addToChain_rchain.
  - exists ys. eapply addToChain_rchain_other; eauto.
Qed.

Lemma head_filter_None {A} (P : A → Prop) `{!∀ x, Decision (P x)} (xs : list A) :
  head (filter P xs) = None ↔ ∀ x, x ∈ xs → ¬ P x.
Proof.
  split.
  - intros Hh x Hx HP. assert (x ∈ filter P xs) as Hin by by apply list_elem_of_filter.
    destruct (filter P xs); [by apply elem_of_nil in Hin | done].
  - intros Hh. destruct (filter P xs) as [|y ys] eqn:E; [done|].
    assert (y ∈ filter P xs) as Hy by (rewrite E; by left).
    apply list_elem_of_filter in Hy as [HP Hy]. by destruct (Hh y Hy).
Qed.

Lemma connect_found σ s sig cb this0 l xs c :
  wfS σ → senderMap σ !! s = Some l → chain σ l xs → c ∈ xs →
  matchesConn sig cb (orUndefined this0) (getC σ c) = true →
  connect σ s sig cb this0 = Some (σ, false).
Proof.
  intros HS Hs Hxs Hc Hm. rewrite connect_unfold, Hs.
  destruct (wfS_sender_chain _ _ _ HS Hs) as (xs' & Hxs' & Hsort & _).
  rewrite (chain_func _ _ _ _ Hxs' Hxs) in Hsort.
  rewrite (findConnection_spec _ _ _ _ _ xs) by (done || by apply sorted_NoDup).
  simpl. destruct (head _) as [c'|] eqn:Hhead; [done|].
  exfalso. by eapply head_filter_None in Hhead.
Qed.

Lemma connect_fresh σ s sig cb this0 :
  wfS σ → noMatch σ s sig cb this0 →
  connect σ s sig cb this0 = Some (connected σ s sig cb this0, true).
Proof.
  intros HS Hno. rewrite connect_unfold. unfold connected.
  destruct (senderMap σ !! s) as [l|] eqn:Hs; [|done].
  destruct (wfS_sender_chain _ _ _ HS Hs) as (xs & Hxs & Hsort & _).
  rewrite (findConnection_spec _ _ _ _ _ xs) by (done || by apply sorted_NoDup).
  simpl. destruct (head _) as [c'|] eqn:Hhead.
  - exfalso. apply head_Some_elem_of, list_elem_of_filter in Hhead as [Hm Hc].
    by rewrite (Hno l xs c') in Hm.
  - done.
Qed.

(** [connect] either finds a connection or makes one. *)
Lemma connect_cases σ s sig cb this0 :
  wfS σ →
  (connect σ s sig cb this0 = Some (σ, false)
   ∧ ∃ l xs c, senderMap σ !! s = Some l ∧ chain σ l xs ∧ c ∈ xs
       ∧ matchesConn sig cb (orUndefined this0) (getC σ c) = true)
  ∨ (connect σ s sig cb this0 = Some (connected σ s sig cb this0, true)
     ∧ noMatch σ s sig cb this0).
Proof.
  intros HS. destruct (senderMap σ !! s) as [l|] eqn:Hs.
  - destruct (wfS_sender_chain _ _ _ HS Hs) as (xs & Hxs & Hsort & _).
    destruct (head (filter (λ c, matchesConn sig cb (orUndefined this0) (getC σ c) = true) xs))
      as [c|] eqn:Hhead.
    + apply head_Some_elem_of, list_elem_of_filter in Hhead as [Hm Hc].
      left. split; [by eapply connect_found|]. by exists l, xs, c.
    + right. assert (noMatch σ s sig cb this0) as Hno.
      { intros l' xs' c Hs' Hxs' Hc. assert (l' = l) as -> by congruence.
        rewrite (chain_func _ _ _ _ Hxs' Hxs) in Hc.
        eapply head_filter_None in Hhead; [|exact Hc].
        by destruct (matchesConn _ _ _ _). }
      split; [by apply connect_fresh | done].
  - right. assert (noMatch σ s sig cb this0) as Hno.
    { intros l xs c Hs'. congruence. }
    split; [by apply connect_fresh | done].
Qed.

Section Connected.

Variables (σ : State) (s : Obj) (sig : Sig) (cb : Obj) (this0 : JsVal).
Hypothesis Hwf : wf σ.
Hypothesis Hno : noMatch σ s sig cb this0.

Let n := length (conns σ).
Let rec := freshConn sig cb (orUndefined this0).
Let σ2 := addToList s (senderMap σ !! s) n (allocC rec σ).
Let o := receiverId (orUndefined this0) cb.

Lemma connected_heap :
  ∃ h, conns σ2 = h ++ [rec] ∧ Forall2 keptR (conns σ) h.
Proof.
  destruct (addToList_conns σ s (senderMap σ !! s) rec) as (h & Hh & HF & _).
  { intros l Hl lst Hlst.
    destruct (wfS_sender_chain _ _ _ (proj1 Hwf) Hl) as (xs & Hxs & _).
    eapply chain_lt; [exact Hxs|]. by eapply chain_last_elem. }
  by exists h.
Qed.

Lemma connected_wf : wf (connected σ s sig cb this0).
Proof.
  destruct Hwf as [HS HR]. destruct connected_heap as (h & Hh & HF).
  assert (length h = n) as Hlen by by rewrite <-(Forall2_length _ _ _ HF).
  split.
  - eapply sameS_wfS; [|apply addToChain_sameS].
    apply addToList_wfS; [done | apply strictEq_refl_orUndefined | exact Hno].
  - unfold connected. fold n rec σ2 o. rewrite <-Hlen.
    eapply addToChain_wfR; [exact Hh | done | done | apply freshConn_receiverOf |].
    eapply sameR_wfR; [exact HR|]. split; [|done].
    unfold σ2, addToList. destruct (senderMap σ !! s) as [l|]; [|done].
    by destruct (last (getL _ l)).
Qed.

Lemma connected_lookup :
  ∃ h, Forall2 keptR (conns σ) h
    ∧ (∀ x rx, h !! x = Some rx →
         conns (connected σ s sig cb this0) !! x
         = Some (if decide (receiverMap σ !! o = Some x)
                 then set_prevSender (Some n) rx else rx))
    ∧ conns (connected σ s sig cb this0) !! n
      = Some (set_nextSender (receiverMap σ !! o) rec)
    ∧ length (conns (connected σ s sig cb this0)) = S n
    ∧ receiverMap (connected σ s sig cb this0) = <[o := n]> (receiverMap σ).
Proof.
  destruct Hwf as [HS HR]. destruct connected_heap as (h & Hh & HF).
  assert (length h = n) as Hlen by by rewrite <-(Forall2_length _ _ _ HF).
  assert (receiverMap σ2 = receiverMap σ) as Hm.
  { unfold σ2, addToList. destruct (senderMap σ !! s) as [l|]; [|done].
    by destruct (last (getL _ l)). }
  exists h. split; [done|]. unfold connected. fold n rec σ2 o.
  rewrite <-Hlen, <-Hm. apply addToChain_lookup; [done..|].
  intros hd Hhd. rewrite Hm in Hhd. rewrite Hlen.
  destruct (HR o) as [ys Hys]. eapply rchain_valid; [exact Hys|].
  destruct Hys as (Hseg & _). apply lseg_head_None in Hseg.
  rewrite Hseg in Hhd. by apply head_Some_elem_of.
Qed.

Lemma connected_length : length (conns (connected σ s sig cb this0)) = S n.
Proof. by destruct connected_lookup as (h & _ & _ & _ & ? & _). Qed.

(** The new connection. *)
Lemma connected_new :
  ∃ r, conns (connected σ s sig cb this0) !! n = Some r
    ∧ signal r = Some sig ∧ callback r = Some cb ∧ thisArg r = orUndefined this0
    ∧ nextReceiver r = None.
Proof.
  destruct connected_lookup as (h & _ & _ & Hn & _).
  eexists. split; [exact Hn|]. done.
Qed.

Lemma connected_nokill : nokill σ (connected σ s sig cb this0).
Proof.
  destruct connected_lookup as (h & HF & Hold & _).
  intros c r Hr. destruct (Forall2_lookup_l _ _ _ _ _ HF Hr) as (r' & Hr' & Hk & _).
  eexists. split; [by apply Hold|]. by case_decide.
Qed.

(** The list of the sender has the new connection at its tail; the other
    lists are as they were. *)
Lemma connected_chain l xs :
  chain σ l xs →
  chain (connected σ s sig cb this0) l
    (xs ++ if decide (senderMap σ !! s = Some l) then [n] else []).
Proof.
  intros Hxs. apply (sameS_chain σ2); [apply addToChain_sameS|].
  case_decide as Hs.
  - unfold σ2. rewrite Hs. apply addToList_chain; [apply Hwf | done..].
  - rewrite app_nil_r. apply addToList_chain_other; [apply Hwf | done..].
Qed.

Lemma connected_chain_new :
  senderMap σ !! s = None →
  chain (connected σ s sig cb this0) (length (lists σ)) [n]
  ∧ senderMap (connected σ s sig cb this0) !! s = Some (length (lists σ)).
Proof.
  intros Hs. split.
  - apply (sameS_chain σ2); [apply addToChain_sameS|].
    unfold σ2. rewrite Hs. by apply addToList_chain_new.
  - change (connected σ s sig cb this0) with (addToChain o n σ2).
    destruct (addToChain_sameS o n σ2) as (_ & -> & _).
    unfold σ2. rewrite Hs. simpl. apply lookup_insert_eq.
Qed.

Lemma connected_senderMap l :
  senderMap σ !! s = Some l → senderMap (connected σ s sig cb this0) = senderMap σ.
Proof.
  intros Hs. change (connected σ s sig cb this0) with (addToChain o n σ2).
  destruct (addToChain_sameS o n σ2) as (_ & -> & _).
  unfold σ2, addToList. rewrite Hs. by destruct (last (getL _ l)).
Qed.

Lemma connected_refs l L :
  lists σ !! l = Some L →
  ∃ L', lists (connected σ s sig cb this0) !! l = Some L' ∧ refs L' = refs L.
Proof.
  intros HL. change (connected σ s sig cb this0) with (addToChain o n σ2).
  destruct (addToChain_sameS o n σ2) as (-> & _).
  unfold σ2, addToList. destruct (senderMap σ !! s) as [l0|].
  - destruct (last (getL _ l0)); simpl; rewrite !list_lookup_alter;
      repeat case_decide; subst; rewrite ?HL; eauto.
  - simpl. exists L. split; [|done]. by apply lookup_app_l_Some.
Qed.

Lemma connected_evolves : evolves σ (connected σ s sig cb this0).
Proof.
  split_and!.
  - rewrite connected_length. lia.
  - apply nokill_mono, connected_nokill.
  - intros l L HL. destruct (connected_refs l L HL) as (L' & HL' & Hrefs).
    exists L'. split_and!; [done..|]. intros _ xs Hxs.
    eexists. split; [by apply connected_chain|].
    case_decide; repeat constructor.
Qed.

End Connected.

Lemma connect_wf σ s sig cb this0 :
  wf σ →
  ∃ σ' b, connect σ s sig cb this0 = Some (σ', b) ∧ wf σ' ∧ evolves σ σ'
    ∧ nokill σ σ'.
Proof.
  intros Hwf. destruct (connect_cases σ s sig cb this0 (proj1 Hwf))
    as [[-> _]|[-> Hno]].
  - exists σ, false. split_and!; [done..| |reflexivity].
    apply sameS_evolves. reflexivity.
  - eexists _, true. split_and!; [done | | |].
    + by apply connected_wf.
    + by apply connected_evolves.
    + by apply connected_nokill.
Qed.

(** ** The emission count *)

Lemma updL_refs_chain σ l z l' xs :
  chain (updL l (λ L, set_refs (z L) L) σ) l' xs ↔ chain σ l' xs.
Proof.
  unfold chain. simpl. split.
  - intros (L' & HL' & Hseg & Hlast). rewrite list_lookup_alter in HL'.
    case_decide; subst; [|by exists L'].
    destruct (lists σ !! l') as [L|] eqn:HL; [|done]. injection HL' as <-.
    by exists L.
  - intros (L & HL & Hseg & Hlast). rewrite list_lookup_alter.
    case_decide; subst; [|by exists L]. rewrite HL. by eexists.
Qed.

Lemma updL_refs_wfS σ l z :
  wfS σ → (∀ L, lists σ !! l = Some L → (0 ≤ z L)%Z) →
  wfS (updL l (λ L, set_refs (z L) L) σ).
Proof.
  intros [Hch Hdisj Hrefs Hsm Hinj] Hz. split.
  - intros l0 L0 HL0. simpl in HL0. rewrite list_lookup_alter in HL0.
    assert (∃ L, lists σ !! l0 = Some L) as [L HL].
    { case_decide; subst; [|eauto]. destruct (lists σ !! l0); [eauto | done]. }
    destruct (Hch _ _ HL) as (xs & Hxs & Hsort & Hu).
    exists xs. split_and!; [by apply updL_refs_chain | done..].
  - intros l1 l2 xs1 xs2 c H1%updL_refs_chain H2%updL_refs_chain. by apply Hdisj.
  - intros l0 L0 HL0. simpl in HL0. rewrite list_lookup_alter in HL0.
    case_decide; subst; [|by eapply Hrefs].
    destruct (lists σ !! l0) as [L|] eqn:HL; [|done]. injection HL0 as <-.
    simpl. by apply Hz.
  - intros s l0. simpl. rewrite length_alter. apply Hsm.
  - done.
Qed.

Lemma incRefs_wf σ l : wf σ → wf (incRefs l σ).
Proof.
  intros [HS HR]. split; [|done]. apply updL_refs_wfS; [done|].
  intros L HL. pose proof (wfS_refs _ HS _ _ HL). lia.
Qed.

Lemma decRefs_wf σ l :
  wf σ → (0 < refs (getL σ l))%Z → wf (decRefs l σ).
Proof.
  intros [HS HR] Hpos. split; [|done]. apply updL_refs_wfS; [done|].
  intros L HL. rewrite (getL_lookup _ _ _ HL) in Hpos. lia.
Qed.

Lemma incRefs_refs σ l L :
  lists σ !! l = Some L → refs (getL (incRefs l σ) l) = (refs L + 1)%Z.
Proof. intros HL. unfold incRefs. rewrite updL_getL_eq by eauto.
  by rewrite (getL_lookup _ _ _ HL). Qed.

(** ** Composition of runs *)

#[global] Instance evolves_preorder : PreOrder evolves.
Proof.
  split.
  - intros σ. split_and!; [done | reflexivity |].
    intros l L HL. exists L. split_and!; [done..|]. intros _ xs Hxs.
    exists []. rewrite app_nil_r. split; [done | constructor].
  - intros σ1 σ2 σ3 (Hl1 & Hm1 & H1) (Hl2 & Hm2 & H2).
    split_and!; [lia | by etrans |]. intros l L HL.
    destruct (H1 _ _ HL) as (L2 & HL2 & Hr2 & Hc2).
    destruct (H2 _ _ HL2) as (L3 & HL3 & Hr3 & Hc3).
    exists L3. split_and!; [done | congruence |]. intros Hpos xs Hxs.
    destruct (Hc2 Hpos xs Hxs) as (e1 & Hx1 & He1).
    assert (0 < refs L2)%Z as Hpos2 by (rewrite Hr2; done).
    destruct (Hc3 Hpos2 _ Hx1) as (e2 & Hx2 & He2).
    exists (e1 ++ e2). rewrite app_assoc. split; [done|].
    apply Forall_app. split; [done|].
    eapply Forall_impl; [exact He2|]. intros c Hc. simpl in *. lia.
Qed.

Lemma cleanList_evolves σ l xs σ' :
  wfS σ → chain σ l xs → refs (getL σ l) = 0%Z → cleanList l σ = Some σ' →
  evolves σ σ' ∧ sameR σ σ'.
Proof.
  intros HS Hxs Hrefs Hclean.
  destruct (cleanList_wfS _ _ _ _ HS Hxs Hclean) as [HS' Hother].
  assert (StronglySorted lt xs) as Hsort.
  { pose proof Hxs as (L & HL & _).
    destruct (wfS_chain _ HS _ _ HL) as (xs' & Hxs' & ? & _).
    by rewrite <-(chain_func _ _ _ _ Hxs' Hxs). }
  destruct (cleanList_spec σ l xs Hxs (sorted_NoDup _ Hsort))
    as (σ'' & Hclean' & Hch' & HR & Hsm & Hfr & Hls & Hrefs').
  assert (σ'' = σ') as -> by congruence.
  split; [|done]. split_and!.
  - by rewrite (sameR_length _ _ HR).
  - by apply nokill_mono, sameR_nokill.
  - intros l0 L0 HL0. destruct (decide (l0 = l)) as [->|Hne].
    + destruct Hch' as (L' & HL' & _). exists L'. split; [done|].
      rewrite (getL_lookup _ _ _ HL') in Hrefs'.
      rewrite (getL_lookup _ _ _ HL0) in Hrefs, Hrefs'.
      split; [congruence|]. intros Hpos. lia.
    + exists L0. split_and!; [by rewrite Hls | done |].
      intros _ ys Hys. exists []. rewrite app_nil_r.
      split; [by apply Hother | constructor].
Qed.

Lemma cleanList_wf σ l xs :
  wf σ → chain σ l xs → refs (getL σ l) = 0%Z →
  ∃ σ', cleanList l σ = Some σ' ∧ wf σ' ∧ evolves σ σ'
    ∧ chain σ' l (filter (λ x, liveb (getC σ x) = true) xs).
Proof.
  intros [HS HR] Hxs Hrefs.
  assert (StronglySorted lt xs) as Hsort.
  { pose proof Hxs as (L & HL & _).
    destruct (wfS_chain _ HS _ _ HL) as (xs' & Hxs' & ? & _).
    by rewrite <-(chain_func _ _ _ _ Hxs' Hxs). }
  destruct (cleanList_spec σ l xs Hxs (sorted_NoDup _ Hsort))
    as (σ' & Hclean & Hch' & HR' & _).
  exists σ'. split; [done|].
  destruct (cleanList_wfS _ _ _ _ HS Hxs Hclean) as [HS' _].
  destruct (cleanList_evolves _ _ _ _ HS Hxs Hrefs Hclean) as [He _].
  split_and!; [split | ..]; try done. by eapply sameR_wfR.
Qed.

(** ** Runs of the engine *)

Lemma step_ok_refl d σ : wf σ → step_ok d σ [] σ.
Proof. intros Hwf. split_and!; [done | reflexivity | constructor..]. Qed.

Lemma sound_mono σ σ1 t : mono σ σ1 → sound σ1 t → sound σ t.
Proof.
  intros Hm Hs. eapply Forall_impl; [exact Hs|]. intros i Hi r Hr. simpl in *.
  destruct (Hm _ _ Hr) as (r1 & Hr1 & _ & Hk).
  destruct (Hi _ Hr1) as [Hcb Hth].
  destruct Hk as [[? ?]|[? _]]; [split; congruence | congruence].
Qed.

Lemma step_ok_trans d σ σ1 σ2 t1 t2 :
  step_ok d σ t1 σ1 → step_ok d σ1 t2 σ2 → step_ok d σ (t1 ++ t2) σ2.
Proof.
  intros (_ & He1 & Hd1 & Hs1) (Hwf2 & He2 & Hd2 & Hs2).
  split_and!; [done | by etrans | by apply Forall_app |].
  apply Forall_app. split; [done|].
  eapply sound_mono; [|exact Hs2]. apply He1.
Qed.

Lemma deeper_le d d' t : d ≤ d' → deeper d' t → deeper d t.
Proof.
  intros Hle Hd. eapply Forall_impl; [exact Hd|]. intros i Hi. simpl in *. lia.
Qed.

Lemma step_ok_le d d' σ t σ' : d ≤ d' → step_ok d' σ t σ' → step_ok d σ t σ'.
Proof.
  intros Hle (? & ? & ? & ?). split_and!; try done. by eapply deeper_le.
Qed.

Lemma good_after {U A} d σ σ1 t1 (r : Result U A) :
  step_ok d σ t1 σ1 → good d σ1 r → good d σ (after t1 r).
Proof. intros H1 H2 Hout. eapply step_ok_trans; [exact H1 | by apply H2]. Qed.

Lemma good_pre {U A} d σ σ1 (r : Result U A) :
  step_ok d σ [] σ1 → good d σ1 r → good d σ r.
Proof.
  intros H1 H2 Hout. exact (step_ok_trans _ _ _ _ _ _ H1 (H2 Hout)).
Qed.

Lemma sameS_step_ok d σ σ' : wf σ' → sameS σ σ' → step_ok d σ [] σ'.
Proof.
  intros Hwf HS. split_and!; [done | by apply sameS_evolves | constructor..].
Qed.

Lemma clearSignalData_wf σ obj :
  wf σ → ∃ σ', clearSignalData obj σ = Some σ' ∧ wf σ' ∧ evolves σ σ'.
Proof.
  intros Hwf. unfold clearSignalData.
  destruct (disconnectSender_wf σ obj Hwf) as (σ1 & -> & Hwf1 & He1). simpl.
  destruct (disconnectReceiver_wf σ1 obj Hwf1) as (σ2 & -> & Hwf2 & HS2 & _).
  exists σ2. split_and!; [done..|]. etrans; [exact He1 | by apply sameS_evolves].
Qed.

Lemma sublist_filter_impl {A} (P Q : A → Prop) `{!∀ x, Decision (P x)}
    `{!∀ x, Decision (Q x)} (l : list A) :
  (∀ x, x ∈ l → P x → Q x) → sublist (filter P l) (filter Q l).
Proof.
  induction l as [|x l IH]; intros Himp; [constructor|].
  rewrite !filter_cons.
  assert (sublist (filter P l) (filter Q l)) as Hsub.
  { apply IH. intros y Hy. apply Himp. by right. }
  destruct (decide (P x)) as [HP|HP].
  - rewrite decide_True by (apply Himp; [by left | done]). by apply sublist_skip.
  - destruct (decide (Q x)); [by apply sublist_cons | done].
Qed.

Section Runs.

Context {U : Type}.
Variable body : Obj → JsVal → Obj → Args → Prog U.

Lemma invokeLoop_S f d s sig args lastc dirty c σ u :
  invokeLoop body (S f) d s sig args lastc dirty (Some c) σ u
  = let step := invokeStep body f d s sig args dirty c σ u in
    match res_out step with
    | Normal dirty' =>
      if bool_decide (Some c = lastc) then
        mkResult (res_state step) (res_user step) (res_trace step) (Normal dirty')
      else
        after (res_trace step)
          (invokeLoop body f d s sig args lastc dirty'
             (nextReceiver (getC (res_state step) c)) (res_state step) (res_user step))
    | Thrown => step
    | Diverged => step
    end.
Proof. done. Qed.

Lemma own_app d t1 t2 : own d (t1 ++ t2) = own d t1 ++ own d t2.
Proof. apply filter_app. Qed.

Lemma own_deeper d t : deeper (S d) t → own d t = [].
Proof.
  induction 1 as [|i t Hi _ IH]; [done|]. unfold own in *.
  rewrite filter_cons_False by lia. done.
Qed.

Lemma runProg_good (emit_rec : nat → State → U → Obj → Sig → Args → Result U unit) d :
  (∀ σ u s sig args, wf σ → good d σ (emit_rec d σ u s sig args)) →
  ∀ p σ u, wf σ → good d σ (runProg emit_rec d p σ u).
Proof.
  intros Hemit p. induction p as [| |k IH|u' k IH|s sig cb this k IH
    |s sig cb this k IH|s sig args k IH|s k IH|o k IH|o k IH]; intros σ u Hwf; simpl.
  - intros _. by apply step_ok_refl.
  - intros _. by apply step_ok_refl.
  - by apply IH.
  - by apply IH.
  - destruct (connect_wf σ s sig cb this Hwf) as (σ' & b & -> & Hwf' & He & _).
    eapply good_pre; [|by apply IH].
    split_and!; [done | done | constructor..].
  - destruct (disconnect_wf σ s sig cb this Hwf) as (σ' & b & -> & Hwf' & HS).
    eapply good_pre; [by apply sameS_step_ok | by apply IH].
  - pose proof (Hemit σ u s sig args Hwf) as Hr.
    destruct (res_out (emit_rec d σ u s sig args)) eqn:Hout.
    + assert (step_ok d σ (res_trace (emit_rec d σ u s sig args))
                (res_state (emit_rec d σ u s sig args))) as Hok.
      { apply Hr. by rewrite Hout. }
      eapply good_after; [exact Hok|]. apply IH, Hok.
    + assert (step_ok d σ (res_trace (emit_rec d σ u s sig args))
                (res_state (emit_rec d σ u s sig args))) as Hok.
      { apply Hr. by rewrite Hout. }
      eapply good_after; [exact Hok|]. apply IH, Hok.
    + intros Hne. by rewrite Hout in Hne.
  - destruct (disconnectSender_wf σ s Hwf) as (σ' & -> & Hwf' & He).
    eapply good_pre; [|by apply IH].
    split_and!; [done | done | constructor..].
  - destruct (disconnectReceiver_wf σ o Hwf) as (σ' & -> & Hwf' & HS & _).
    eapply good_pre; [by apply sameS_step_ok | by apply IH].
  - destruct (clearSignalData_wf σ o Hwf) as (σ' & -> & Hwf' & He).
    eapply good_pre; [|by apply IH].
    split_and!; [done | done | constructor..].
Qed.

Lemma ownConns_app d t1 t2 : ownConns d (t1 ++ t2) = ownConns d t1 ++ ownConns d t2.
Proof. unfold ownConns. by rewrite own_app, fmap_app. Qed.

Lemma ownConns_deeper d t : deeper (S d) t → ownConns d t = [].
Proof. intros H. unfold ownConns. by rewrite own_deeper. Qed.

Lemma snapshot_mono sig σ σ1 xs :
  mono σ σ1 → (∀ c, c ∈ xs → c < length (conns σ)) →
  sublist (snapshot sig σ1 xs) (snapshot sig σ xs).
Proof.
  intros Hm Hlt. apply sublist_filter_impl. intros c Hc.
  destruct (lookup_lt_is_Some_2 _ _ (Hlt c Hc)) as [r Hr].
  destruct (Hm _ _ Hr) as (r1 & Hr1 & Hs & Hk).
  rewrite (getC_lookup _ _ _ Hr), (getC_lookup _ _ _ Hr1).
  unfold invokedb, liveb. rewrite Hs.
  destruct Hk as [[-> _]|[-> _]]; simpl; [tauto | intros [=]].
Qed.

Lemma emit_S f d σ u s sig args :
  emit body (S f) d σ u s sig args
  = match senderMap σ !! s with
    | None => mkResult σ u [] (Normal tt)
    | Some l =>
      let σ1 := incRefs l σ in
      let r := invokeLoop body f d s sig args (last (getL σ1 l)) false
                 (first (getL σ1 l)) σ1 u in
      match res_out r with
      | Diverged => mkResult (res_state r) (res_user r) (res_trace r) Diverged
      | Thrown => mkResult (decRefs l (res_state r)) (res_user r) (res_trace r) Thrown
      | Normal dirty =>
        let σ3 := decRefs l (res_state r) in
        if dirty && bool_decide (refs (getL σ3 l) = 0%Z) then
          match cleanList l σ3 with
          | Some σ4 => mkResult σ4 (res_user r) (res_trace r) (Normal tt)
          | None => mkResult σ3 (res_user r) (res_trace r) Diverged
          end
        else mkResult σ3 (res_user r) (res_trace r) (Normal tt)
      end
    end.
Proof. done. Qed.

(** An emission that has counted itself in and out leaves the counts as
    they were. *)
Lemma incdec_evolves σ l L σ2 :
  lists σ !! l = Some L → (0 ≤ refs L)%Z → evolves (incRefs l σ) σ2 →
  evolves σ (decRefs l σ2)
  ∧ (0 < refs (getL σ2 l))%Z
  ∧ refs (getL (decRefs l σ2) l) = refs L.
Proof.
  intros HL Hnn (Hlen & Hm & Hst).
  assert (lists (incRefs l σ) !! l = Some (set_refs (refs L + 1) L)) as HL1.
  { by apply (updL_lookup_eq l (λ L, set_refs (refs L + 1) L)). }
  destruct (Hst _ _ HL1) as (L2 & HL2 & Hr2 & _). simpl in Hr2.
  split_and!.
  - split_and!; [done | done |].
    intros l0 L0 HL0.
    assert (∃ L0' L3, lists (incRefs l σ) !! l0 = Some L0'
              ∧ (refs L0 ≤ refs L0')%Z
              ∧ ∀ L2', lists σ2 !! l0 = Some L2' → refs L2' = refs L0' →
                  lists (decRefs l σ2) !! l0 = Some (L3 L2') ∧ refs (L3 L2') = refs L0)
      as (L0' & L3f & HL0' & Hle & HL3).
    { simpl. rewrite !list_lookup_alter. destruct (decide (l = l0)) as [->|Hne].
      - rewrite HL0. simpl. exists (set_refs (refs L0 + 1) L0).
        exists (λ L2', set_refs (refs L2' - 1) L2').
        split_and!; [done | simpl; lia |]. intros L2' -> Hr. simpl in *.
        split; [done | lia].
      - exists L0, (λ L2', L2'). split_and!; [done | lia |]. by intros L2' -> Hr. }
    destruct (Hst _ _ HL0') as (L2' & HL2' & Hr2' & Hc2').
    destruct (HL3 _ HL2' Hr2') as (HL3' & Hr3).
    exists (L3f L2'). split_and!; [done..|]. intros Hpos xs Hxs.
    destruct (Hc2' ltac:(lia) xs) as (ext & Hext & Hall).
    { by apply updL_refs_chain. }
    exists ext. split; [|done]. by apply updL_refs_chain.
  - rewrite (getL_lookup _ _ _ HL2), Hr2. lia.
  - unfold decRefs. rewrite updL_getL_eq by eauto.
    rewrite (getL_lookup _ _ _ HL2). simpl. lia.
Qed.

Lemma invokeStep_good f d s sig args dirty c σ u rc :
  (∀ d' σ' u' s' sig' args', wf σ' →
     good d' σ' (emit body f d' σ' u' s' sig' args')) →
  wf σ → conns σ !! c = Some rc →
  good d σ (invokeStep body f d s sig args dirty c σ u)
  ∧ (res_out (invokeStep body f d s sig args dirty c σ u) ≠ Diverged →
       ownConns d (res_trace (invokeStep body f d s sig args dirty c σ u))
       = if invokedb sig rc then [c] else []).
Proof.
  intros IHe Hwf Hc. unfold invokeStep, invokedb, liveb.
  rewrite (getC_lookup _ _ _ Hc).
  destruct (callback rc) as [cb|] eqn:Hcb; simpl.
  - destruct (bool_decide (signal rc = Some sig)) eqn:Hsig; simpl.
    + pose proof (runProg_good (emit body f) (S d) (λ σ' u' s' sig' args' Hwf',
                    IHe (S d) σ' u' s' sig' args' Hwf')
                    (body cb (thisArg rc) s args) σ u Hwf) as Hrun.
      set (rr := runProg _ _ _ _ _) in *.
      assert (res_out rr ≠ Diverged → step_ok (S d) σ (res_trace rr) (res_state rr))
        as Hrun' by exact Hrun.
      split.
      * intros Hout. simpl in *.
        destruct Hrun' as (Hwf1 & He1 & Hd1 & Hs1).
        { intros Heq. by rewrite Heq in Hout. }
        split_and!; [done | done | |].
        -- constructor; [simpl; lia|]. eapply deeper_le; [|exact Hd1]. lia.
        -- constructor; [|done]. simpl. intros r Hr.
           assert (r = rc) as -> by congruence. done.
      * intros Hout. simpl in *.
        destruct Hrun' as (_ & _ & Hd1 & _).
        { intros Heq. by rewrite Heq in Hout. }
        unfold ownConns, own. rewrite filter_cons_True by done. simpl.
        f_equal. by apply ownConns_deeper.
    + split; [intros _; by apply step_ok_refl | done].
  - split; [intros _; by apply step_ok_refl | done].
Qed.

Lemma snapshot_cons sig σ c rc xs :
  conns σ !! c = Some rc →
  snapshot sig σ (c :: xs)
  = (if invokedb sig rc then [c] else []) ++ snapshot sig σ xs.
Proof.
  intros Hc. unfold snapshot. rewrite filter_cons, (getC_lookup _ _ _ Hc).
  destruct (invokedb sig rc); by simpl.
Qed.

Lemma emit_invoke_good fuel :
  (∀ d σ u s sig args, wf σ →
     good d σ (emit body fuel d σ u s sig args)
     ∧ ∀ l xs, senderMap σ !! s = Some l → chain σ l xs →
         res_out (emit body fuel d σ u s sig args) ≠ Diverged →
         sublist (ownConns d (res_trace (emit body fuel d σ u s sig args)))
           (snapshot sig σ xs))
  ∧ (∀ d s sig args lastc dirty conn σ u l pre suf ext,
       wf σ → chain σ l (pre ++ suf ++ ext) → (0 < refs (getL σ l))%Z →
       lastc = list_last suf → conn = head suf →
       good d σ (invokeLoop body fuel d s sig args lastc dirty conn σ u)
       ∧ (res_out (invokeLoop body fuel d s sig args lastc dirty conn σ u)
            ≠ Diverged →
          sublist
            (ownConns d
               (res_trace (invokeLoop body fuel d s sig args lastc dirty conn σ u)))
            (snapshot sig σ suf))).
Proof.
  induction fuel as [|f [IHe IHl]].
  { split.
    - intros d σ u s sig args Hwf. split; [by intros Hout|]. by intros l xs _ _ Hout.
    - intros d s sig args lastc dirty conn σ u l pre suf ext Hwf Hch Hrefs -> ->.
      destruct suf as [|c rest]; simpl.
      + split; [intros _; by apply step_ok_refl | intros _; constructor].
      + split; by intros Hout. }
  split.
  - (* emit *)
    intros d σ u s sig args Hwf. rewrite emit_S. cbv zeta.
    destruct (senderMap σ !! s) as [l|] eqn:Hs.
    2:{ split; [intros _; by apply step_ok_refl | by intros l xs [=]]. }
    destruct (wfS_sender_chain _ _ _ (proj1 Hwf) Hs) as (xs & Hxs & _).
    pose proof Hxs as (L & HL & Hseg & Hlast).
    pose proof (wfS_refs _ (proj1 Hwf) _ _ HL) as Hnn.
    set (σ1 := incRefs l σ).
    assert (lists σ1 !! l = Some (set_refs (refs L + 1) L)) as HL1.
    { by apply (updL_lookup_eq l (λ L, set_refs (refs L + 1) L)). }
    rewrite (getL_lookup _ _ _ HL1). simpl.
    destruct (IHl d s sig args (last L) false (first L) σ1 u l [] xs [])
      as [Hgood Hsub].
    { by apply incRefs_wf. }
    { simpl. rewrite app_nil_r. by apply updL_refs_chain. }
    { rewrite (getL_lookup _ _ _ HL1). simpl. lia. }
    { done. }
    { by apply lseg_head_None in Hseg. }
    set (r := invokeLoop _ _ _ _ _ _ _ _ _ _ _) in *.
    assert (res_out r ≠ Diverged →
            step_ok d σ (res_trace r) (decRefs l (res_state r))
            ∧ refs (getL (decRefs l (res_state r)) l) = refs L) as Hdec.
    { intros Hout. destruct (Hgood Hout) as (Hwf2 & He2 & Hd2 & Hs2).
      destruct (incdec_evolves σ l L (res_state r) HL Hnn He2) as (He & Hpos & Hr).
      split; [|done]. split_and!; [by apply decRefs_wf | done..]. }
    assert (∀ o, res_out r = o → o ≠ Diverged →
              sublist (ownConns d (res_trace r)) (snapshot sig σ xs)) as Hsub'.
    { intros o Ho Hne. apply Hsub. by rewrite Ho. }
    destruct (res_out r) as [dirty| |] eqn:Hout.
    + destruct Hdec as [Hok Hrefs]; [done|].
      assert (∀ l' xs', Some l = Some l' → chain σ l' xs' →
                sublist (ownConns d (res_trace r)) (snapshot sig σ xs')) as Hs'.
      { intros l' xs' [= <-] Hxs'. rewrite (chain_func _ _ _ _ Hxs' Hxs).
        by apply (Hsub' _ eq_refl). }
      destruct (dirty && bool_decide (refs (getL (decRefs l (res_state r)) l) = 0%Z))
        eqn:Hclean.
      * apply andb_true_iff in Hclean as [_ Hz%bool_decide_eq_true].
        destruct Hok as (Hwf3 & He3 & Hd3 & Hs3).
        assert (l < length (lists (decRefs l (res_state r)))) as Hlt.
        { destruct He3 as (_ & _ & Hst). destruct (Hst _ _ HL) as (L3 & HL3 & _).
          by eapply lookup_lt_Some. }
        destruct (wfS_chain_of _ _ (proj1 Hwf3) Hlt) as (ys & Hys & _).
        destruct (cleanList_wf _ l ys Hwf3 Hys Hz) as (σ4 & -> & Hwf4 & He4 & _).
        simpl. split; [|by intros; eapply Hs'].
        intros _. simpl. split_and!; [done | by etrans | done..].
      * simpl. split; [by intros _ | by intros; eapply Hs'].
    + destruct Hdec as [Hok Hrefs]; [done|]. simpl.
      split; [by intros _|]. intros l' xs' [= <-] Hxs' _.
      rewrite (chain_func _ _ _ _ Hxs' Hxs). by apply (Hsub' _ eq_refl).
    + simpl. split; [by intros Hne | by intros l' xs' _ _ Hne].
  - (* invokeLoop *)
    intros d s sig args lastc dirty conn σ u l pre suf ext Hwf Hch Hrefs -> ->.
    destruct suf as [|c rest].
    { simpl. split; [intros _; by apply step_ok_refl | intros _; constructor]. }
    change (head (c :: rest)) with (Some c). rewrite invokeLoop_S.
    assert (c ∈ pre ++ (c :: rest) ++ ext) as Hcin.
    { apply elem_of_app. right. by left. }
    destruct (lookup_lt_is_Some_2 _ _ (chain_lt _ _ _ _ Hch Hcin)) as [rc Hrc].
    destruct (invokeStep_good f d s sig args dirty c σ u rc
                (λ d' σ' u' s' sig' args' Hwf', proj1 (IHe d' σ' u' s' sig' args' Hwf'))
                Hwf Hrc) as [Hsgood Hsown].
    set (st := invokeStep body f d s sig args dirty c σ u) in *.
    rewrite (snapshot_cons _ _ _ rc) by done.
    cbv zeta.
    destruct (res_out st) as [dirty'| |] eqn:Hout.
    + destruct Hsgood as (Hwf1 & He1 & Hd1 & Hs1); [by rewrite Hout|].
      specialize (Hsown ltac:(done)).
      destruct (bool_decide (Some c = list_last (c :: rest))) eqn:Hlast.
      * simpl. split; [by intros _|]. intros _. rewrite Hsown.
        by apply sublist_inserts_r.
      * apply bool_decide_eq_false in Hlast.
        destruct rest as [|c2 rest']; [done|].
        (* the list being walked has only grown at its tail *)
        pose proof Hch as (L & HL & _).
        destruct He1 as (Hlen1 & Hm1 & Hst1).
        destruct (Hst1 _ _ HL) as (L1 & HL1 & Hr1 & Hc1).
        rewrite (getL_lookup _ _ _ HL) in Hrefs.
        destruct (Hc1 Hrefs _ Hch) as (ext1 & Hch1 & Hext1).
        assert (chain (res_state st) l
                  ((pre ++ [c]) ++ (c2 :: rest') ++ (ext ++ ext1))) as Hch1'.
        { by rewrite <-!app_assoc in *. }
        assert (nextReceiver (getC (res_state st) c) = Some c2) as Hnext.
        { destruct Hch1' as (L1' & _ & Hseg1 & _).
          rewrite <-app_assoc in Hseg1. simpl in Hseg1.
          apply lseg_middle in Hseg1 as (_ & r1 & Hr1' & Hseg1).
          rewrite (getC_lookup _ _ _ Hr1'). by inversion Hseg1. }
        rewrite Hnext.
        destruct (IHl d s sig args (list_last (c :: c2 :: rest')) dirty' (Some c2)
                    (res_state st) (res_user st) l (pre ++ [c]) (c2 :: rest')
                    (ext ++ ext1)) as [Hlgood Hlsub]; [done | done | | | done |].
        { rewrite (getL_lookup _ _ _ HL1). by rewrite Hr1. }
        { by rewrite last_cons_cons. }
        split.
        -- apply (good_after d σ (res_state st)); [|done]. by split_and!.
        -- intros Hne. simpl. rewrite ownConns_app, Hsown.
           apply sublist_app; [done|].
           etrans; [by apply Hlsub|]. apply snapshot_mono; [done|].
           intros x Hx. eapply chain_lt; [exact Hch|].
           apply elem_of_app. right. apply elem_of_app. left. by right.
    + split.
      * intros _. apply Hsgood. by rewrite Hout.
      * intros _. rewrite Hsown by done. by apply sublist_inserts_r.
    + split; by intros Hne.
Qed.

End Runs.

(** ** Callbacks that keep to themselves *)

Lemma ends_weaken {U} th (p : Prog U) : ends false th p → ends true th p.
Proof. induction 1; by constructor. Qed.

Lemma run_ends {U} cn th (p : Prog U) :
  ends cn th p →
  ∀ emit_rec d σ u, wf σ →
    res_out (runProg emit_rec d p σ u) = (if th then Thrown else Normal tt)
    ∧ res_trace (runProg emit_rec d p σ u) = []
    ∧ wf (res_state (runProg emit_rec d p σ u))
    ∧ evolves σ (res_state (runProg emit_rec d p σ u))
    ∧ nokill σ (res_state (runProg emit_rec d p σ u))
    ∧ (∀ s l, senderMap σ !! s = Some l →
         senderMap (res_state (runProg emit_rec d p σ u)) !! s = Some l)
    ∧ (cn = false → res_state (runProg emit_rec d p σ u) = σ).
Proof.
  induction 1 as [Hth|Hth|k _ IH|u' k _ IH|s sig cb this k Hcn _ IH];
    intros emit_rec d σ u Hwf; simpl.
  - subst. split_and!; done || reflexivity.
  - subst. split_and!; done || reflexivity.
  - by apply IH.
  - by apply IH.
  - destruct (connect_cases σ s sig cb this (proj1 Hwf)) as [[-> _]|[-> Hno]].
    + destruct (IH false emit_rec d σ u Hwf) as (? & ? & ? & ? & ? & ? & ?).
      by split_and!.
    + pose proof (connected_wf σ s sig cb this Hwf Hno) as Hwf'.
      destruct (IH true emit_rec d _ u Hwf') as (? & ? & ? & He & Hk & Hsm & _).
      split_and!; try done.
      * etrans; [by apply connected_evolves | done].
      * etrans; [by apply connected_nokill | done].
      * intros s0 l0 Hs0. apply Hsm.
        destruct (senderMap σ !! s) as [l|] eqn:Hs.
        -- by rewrite (connected_senderMap σ s sig cb this l).
        -- destruct (connected_chain_new σ s sig cb this Hs) as [_ Hnew].
           unfold connected, addToChain, addToList in *. rewrite Hs in *.
           simpl in *. destruct (decide (s = s0)) as [->|Hne]; [congruence|].
           destruct (receiverMap σ !! _); simpl; by rewrite lookup_insert_ne.
      * intros Hcn'. by rewrite Hcn in Hcn'.
Qed.

Lemma nokill_getC σ σ' c :
  nokill σ σ' → c < length (conns σ) → keptL (getC σ c) (getC σ' c).
Proof.
  intros Hk Hlt. destruct (lookup_lt_is_Some_2 _ _ Hlt) as [r Hr].
  destruct (Hk _ _ Hr) as (r' & Hr' & Hkept).
  by rewrite (getC_lookup _ _ _ Hr), (getC_lookup _ _ _ Hr').
Qed.

Lemma decinc σ l : decRefs l (incRefs l σ) = σ.
Proof.
  destruct σ as [cs ls sm rm]. unfold decRefs, incRefs, updL. simpl. f_equal.
  rewrite list_alter_alter_eq. apply list_alter_id.
  intros [z a b]. unfold set_refs. simpl. f_equal. lia.
Qed.

Section Quiet.

Context {U : Type}.
Variable body : Obj → JsVal → Obj → Args → Prog U.

Lemma nokill_snapshot sig σ σ' xs :
  nokill σ σ' → (∀ c, c ∈ xs → c < length (conns σ)) →
  snapshot sig σ' xs = snapshot sig σ xs
  ∧ anyDead σ' xs = anyDead σ xs
  ∧ (∀ d s args c, c ∈ xs → invocationOf d s args σ' c = invocationOf d s args σ c)
  ∧ (∀ cn s args, wellBehaved body cn sig s args σ xs → wellBehaved body cn sig s args σ' xs).
Proof.
  intros Hk Hlt.
  assert (∀ c, c ∈ xs → keptL (getC σ c) (getC σ' c)) as Hkept.
  { intros c Hc. apply nokill_getC; [done | by apply Hlt]. }
  split_and!.
  - unfold snapshot. clear Hlt. induction xs as [|x xs IH]; [done|].
    rewrite !filter_cons. destruct (Hkept x) as (Hs & Hcb & _); [by left|].
    unfold invokedb, liveb in *. rewrite Hs, Hcb.
    rewrite IH; [done|]. intros c Hc. apply Hkept. by right.
  - unfold anyDead. clear Hlt. induction xs as [|x xs IH]; [done|]. simpl.
    destruct (Hkept x) as (Hs & Hcb & _); [by left|].
    unfold liveb in *. rewrite Hcb. f_equal. apply IH.
    intros c Hc. apply Hkept. by right.
  - intros d s args c Hc. destruct (Hkept c Hc) as (Hs & Hcb & Hth).
    unfold invocationOf. by rewrite Hcb, Hth.
  - intros cn s args Hwb c cb Hc Hinv Hcb.
    destruct (Hkept c Hc) as (Hs & Hcb' & Hth).
    rewrite Hth. apply Hwb; [done | | congruence].
    unfold invokedb, liveb in *. by rewrite <-Hs, <-Hcb'.
Qed.

(** One step of a pass over a connection whose callback keeps to itself. *)
Lemma invokeStep_ends cn f d s sig args dirty c σ u rc :
  wf σ → conns σ !! c = Some rc →
  wellBehaved body cn sig s args σ [c] →
  res_out (invokeStep body f d s sig args dirty c σ u)
  = Normal (dirty || negb (liveb rc))
  ∧ res_trace (invokeStep body f d s sig args dirty c σ u)
    = (if invokedb sig rc then [invocationOf d s args σ c] else [])
  ∧ wf (res_state (invokeStep body f d s sig args dirty c σ u))
  ∧ evolves σ (res_state (invokeStep body f d s sig args dirty c σ u))
  ∧ nokill σ (res_state (invokeStep body f d s sig args dirty c σ u))
  ∧ (∀ s0 l0, senderMap σ !! s0 = Some l0 →
       senderMap (res_state (invokeStep body f d s sig args dirty c σ u)) !! s0
       = Some l0)
  ∧ (cn = false → res_state (invokeStep body f d s sig args dirty c σ u) = σ).
Proof.
  intros Hwf Hc Hwb. specialize (Hwb c). unfold invokeStep, invocationOf in *.
  rewrite (getC_lookup _ _ _ Hc) in *. unfold invokedb, liveb in *.
  destruct (callback rc) as [cb|] eqn:Hcb; simpl.
  - destruct (bool_decide (signal rc = Some sig)) eqn:Hsig; simpl.
    + specialize (Hwb cb ltac:(by left) eq_refl eq_refl).
      destruct (run_ends _ _ _ Hwb (emit body f) (S d) σ u Hwf)
        as (-> & -> & ? & ? & ? & ? & ?).
      rewrite orb_false_r. by split_and!.
    + rewrite orb_false_r. split_and!; done || reflexivity.
  - rewrite orb_true_r. split_and!; done || reflexivity.
Qed.

Lemma walk_quiet cn suf : ∀ fuel d s sig args lastc dirty conn σ u l pre ext,
  wf σ → chain σ l (pre ++ suf ++ ext) → (0 < refs (getL σ l))%Z →
  lastc = list_last suf → conn = head suf →
  wellBehaved body cn sig s args σ suf → length suf ≤ fuel →
  res_out (invokeLoop body fuel d s sig args lastc dirty conn σ u)
  = Normal (dirty || anyDead σ suf)
  ∧ res_trace (invokeLoop body fuel d s sig args lastc dirty conn σ u)
    = invocationOf d s args σ <$> snapshot sig σ suf
  ∧ wf (res_state (invokeLoop body fuel d s sig args lastc dirty conn σ u))
  ∧ evolves σ (res_state (invokeLoop body fuel d s sig args lastc dirty conn σ u))
  ∧ nokill σ (res_state (invokeLoop body fuel d s sig args lastc dirty conn σ u))
  ∧ (∀ s0 l0, senderMap σ !! s0 = Some l0 →
       senderMap (res_state (invokeLoop body fuel d s sig args lastc dirty conn σ u))
         !! s0 = Some l0)
  ∧ (cn = false →
       res_state (invokeLoop body fuel d s sig args lastc dirty conn σ u) = σ).
Proof.
  induction suf as [|c rest IH];
    intros fuel d s sig args lastc dirty conn σ u l pre ext Hwf Hch Hrefs -> -> Hwb Hlen.
  { destruct fuel; simpl; rewrite orb_false_r; split_and!; done || reflexivity. }
  destruct fuel as [|f]; [simpl in Hlen; lia|]. simpl in Hlen.
  change (head (c :: rest)) with (Some c). rewrite invokeLoop_S. cbv zeta.
  assert (c ∈ pre ++ (c :: rest) ++ ext) as Hcin.
  { apply elem_of_app. right. by left. }
  destruct (lookup_lt_is_Some_2 _ _ (chain_lt _ _ _ _ Hch Hcin)) as [rc Hrc].
  destruct (invokeStep_ends cn f d s sig args dirty c σ u rc Hwf Hrc)
    as (Hout & Htr & Hwf1 & He1 & Hk1 & Hsm1 & Hst1).
  { intros c' cb' ->%list_elem_of_singleton. apply Hwb. by left. }
  set (st := invokeStep body f d s sig args dirty c σ u) in *.
  rewrite Hout. rewrite (snapshot_cons _ _ _ rc) by done.
  unfold anyDead. simpl. fold (anyDead σ rest). rewrite (getC_lookup _ _ _ Hrc).
  destruct (bool_decide (Some c = list_last (c :: rest))) eqn:Hlast.
  - apply bool_decide_eq_true in Hlast.
    assert (rest = []) as ->.
    { destruct rest as [|c2 rest']; [done|]. exfalso.
      rewrite last_cons_cons in Hlast. symmetry in Hlast.
      apply last_Some_elem_of in Hlast.
      pose proof Hch as (L & HL & _).
      destruct (wfS_chain _ (proj1 Hwf) _ _ HL) as (xs' & Hxs' & Hsort & _).
      rewrite (chain_func _ _ _ _ Hxs' Hch) in Hsort.
      apply sorted_NoDup, NoDup_app in Hsort as (_ & _ & Hnd).
      apply NoDup_app in Hnd as (Hnd & _). apply NoDup_cons in Hnd as [Hnd _].
      done. }
    simpl. rewrite orb_false_r, Htr, app_nil_r.
    split_and!; try done. by destruct (invokedb sig rc).
  - apply bool_decide_eq_false in Hlast.
    destruct rest as [|c2 rest']; [done|].
    pose proof Hch as (L & HL & _).
    pose proof He1 as (Hlen1 & Hm1 & Hstab1).
    destruct (Hstab1 _ _ HL) as (L1 & HL1 & Hr1 & Hc1).
    rewrite (getL_lookup _ _ _ HL) in Hrefs.
    destruct (Hc1 Hrefs _ Hch) as (ext1 & Hch1 & Hext1).
    assert (chain (res_state st) l
              ((pre ++ [c]) ++ (c2 :: rest') ++ (ext ++ ext1))) as Hch1'.
    { by rewrite <-!app_assoc in *. }
    assert (nextReceiver (getC (res_state st) c) = Some c2) as Hnext.
    { destruct Hch1' as (L1' & _ & Hseg1 & _).
      rewrite <-app_assoc in Hseg1. simpl in Hseg1.
      apply lseg_middle in Hseg1 as (_ & r1 & Hr1' & Hseg1).
      rewrite (getC_lookup _ _ _ Hr1'). by inversion Hseg1. }
    rewrite Hnext.
    assert (∀ x, x ∈ c2 :: rest' → x < length (conns σ)) as Hvalid.
    { intros x Hx. eapply chain_lt; [exact Hch|].
      apply elem_of_app. right. apply elem_of_app. left. by right. }
    destruct (nokill_snapshot sig σ (res_state st) (c2 :: rest') Hk1 Hvalid)
      as (Hsnap & Hdead & Hinv & Hwb').
    rewrite last_cons_cons.
    destruct (IH f d s sig args (list_last (c2 :: rest'))
                (dirty || negb (liveb rc)) (Some c2) (res_state st) (res_user st)
                l (pre ++ [c]) (ext ++ ext1))
      as (Hout2 & Htr2 & Hwf2 & He2 & Hk2 & Hsm2 & Hst2);
      [done | done | | done | done | | lia |].
    { rewrite (getL_lookup _ _ _ HL1). by rewrite Hr1. }
    { apply Hwb'. intros c' cb' Hc'. apply Hwb. by right. }
    unfold after. cbn [res_out res_trace res_state res_user].
    rewrite Hout2, Htr2, Htr, Hsnap, Hdead.
    split_and!.
    + by rewrite orb_assoc.
    + rewrite fmap_app. f_equal.
      * by destruct (invokedb sig rc).
      * apply list_fmap_ext. intros i x Hx. apply Hinv.
        apply list_elem_of_lookup_2 in Hx.
        unfold snapshot in Hx. by apply list_elem_of_filter in Hx as [_ ?].
    + done.
    + by etrans.
    + by etrans.
    + intros s0 l0 Hs0. by apply Hsm2, Hsm1.
    + intros Hcn. rewrite Hst2 by done. by apply Hst1.
Qed.

Lemma chain_sorted σ l xs : wf σ → chain σ l xs → StronglySorted lt xs.
Proof.
  intros [HS _] Hxs. pose proof Hxs as (L & HL & _).
  destruct (wfS_chain _ HS _ _ HL) as (xs' & Hxs' & Hsort & _).
  by rewrite <-(chain_func _ _ _ _ Hxs' Hxs).
Qed.

Lemma chain_NoDup σ l xs : wf σ → chain σ l xs → NoDup xs.
Proof. intros Hwf Hxs. by eapply sorted_NoDup, chain_sorted. Qed.

(** An emission to callbacks that keep to themselves calls exactly the live
    connections for the signal, in list order, and returns. *)
Lemma emit_quiet cn fuel d σ u s sig args l xs :
  wf σ → senderMap σ !! s = Some l → chain σ l xs →
  wellBehaved body cn sig s args σ xs → length xs < fuel →
  res_out (emit body fuel d σ u s sig args) = Normal tt
  ∧ res_trace (emit body fuel d σ u s sig args)
    = invocationOf d s args σ <$> snapshot sig σ xs
  ∧ wf (res_state (emit body fuel d σ u s sig args))
  ∧ evolves σ (res_state (emit body fuel d σ u s sig args))
  ∧ (∀ s0 l0, senderMap σ !! s0 = Some l0 →
       senderMap (res_state (emit body fuel d σ u s sig args)) !! s0 = Some l0)
  ∧ (cn = false →
       Some (res_state (emit body fuel d σ u s sig args))
       = if anyDead σ xs && bool_decide (refs (getL σ l) = 0%Z)
         then cleanList l σ else Some σ).
Proof.
  intros Hwf Hs Hxs Hwb Hfuel. destruct fuel as [|f]; [lia|].
  rewrite emit_S. cbv zeta. rewrite Hs.
  pose proof Hxs as (L & HL & Hseg & Hlast).
  pose proof (wfS_refs _ (proj1 Hwf) _ _ HL) as Hnn.
  set (σ1 := incRefs l σ).
  assert (lists σ1 !! l = Some (set_refs (refs L + 1) L)) as HL1.
  { by apply (updL_lookup_eq l (λ L, set_refs (refs L + 1) L)). }
  rewrite (getL_lookup _ _ _ HL1). simpl first. simpl last.
  destruct (walk_quiet cn xs f d s sig args (last L) false (first L) σ1 u l [] [])
    as (Hout & Htr & Hwf2 & He2 & Hk2 & Hsm2 & Hst2).
  { by apply incRefs_wf. }
  { simpl. rewrite app_nil_r. by apply updL_refs_chain. }
  { rewrite (getL_lookup _ _ _ HL1). simpl. lia. }
  { done. }
  { by apply lseg_head_None in Hseg. }
  { exact Hwb. }
  { lia. }
  set (r := invokeLoop _ _ _ _ _ _ _ _ _ _ _) in *.
  change (anyDead σ1 xs) with (anyDead σ xs) in Hout.
  change (snapshot sig σ1 xs) with (snapshot sig σ xs) in Htr.
  rewrite Hout. simpl orb.
  destruct (incdec_evolves σ l L (res_state r) HL Hnn He2) as (He & Hpos & Hr).
  assert (wf (decRefs l (res_state r))) as Hwf3 by by apply decRefs_wf.
  rewrite Hr, <-(getL_lookup _ _ _ HL).
  assert (cn = false → decRefs l (res_state r) = σ) as Hst3.
  { intros Hcn. rewrite Hst2 by done. apply decinc. }
  destruct (anyDead σ xs && bool_decide (refs (getL σ l) = 0%Z)) eqn:Hclean.
  - apply andb_true_iff in Hclean as [_ Hz%bool_decide_eq_true].
    assert (l < length (lists (decRefs l (res_state r)))) as Hlt.
    { destruct He as (_ & _ & Hstab). destruct (Hstab _ _ HL) as (L3 & HL3 & _).
      by eapply lookup_lt_Some. }
    destruct (wfS_chain_of _ _ (proj1 Hwf3) Hlt) as (ys & Hys & _).
    destruct (cleanList_wf _ l ys Hwf3 Hys) as (σ4 & Hcl & Hwf4 & He4 & _).
    { rewrite Hr. by rewrite (getL_lookup _ _ _ HL) in Hz. }
    rewrite Hcl. simpl. split_and!; try done.
    + by etrans.
    + intros s0 l0 Hs0.
      destruct (cleanList_spec _ l ys Hys) as (σ4' & Hcl' & _ & _ & Hsm4 & _).
      { exact (chain_NoDup _ _ _ Hwf3 Hys). }
      assert (σ4' = σ4) as -> by congruence. rewrite Hsm4. by apply Hsm2.
    + intros Hcn. rewrite <-Hcl. by rewrite Hst3.
  - simpl. split_and!; try done.
    intros Hcn. by rewrite Hst3.
Qed.

(** A pass that reaches a callback that throws. *)
Lemma walk_throw a : ∀ fuel d s sig args lastc dirty conn σ u l pre c cb b ext,
  wf σ → chain σ l (pre ++ (a ++ c :: b) ++ ext) →
  lastc = list_last (a ++ c :: b) → conn = head (a ++ c :: b) →
  wellBehaved body false sig s args σ a →
  invokedb sig (getC σ c) = true → callback (getC σ c) = Some cb →
  thrower (body cb (thisArg (getC σ c)) s args) → length a < fuel →
  res_out (invokeLoop body fuel d s sig args lastc dirty conn σ u) = Thrown
  ∧ res_trace (invokeLoop body fuel d s sig args lastc dirty conn σ u)
    = (invocationOf d s args σ <$> snapshot sig σ a) ++ [invocationOf d s args σ c]
  ∧ res_state (invokeLoop body fuel d s sig args lastc dirty conn σ u) = σ.
Proof.
  induction a as [|x a IH];
    intros fuel d s sig args lastc dirty conn σ u l pre c cb b ext Hwf Hch -> ->
      Hwb Hinv Hcb Hthr Hlen.
  - destruct fuel as [|f]; [simpl in Hlen; lia|].
    change (head ([] ++ c :: b)) with (Some c). rewrite invokeLoop_S. cbv zeta.
    unfold invokeStep. cbv zeta. rewrite Hcb. unfold invokedb, liveb in Hinv.
    rewrite Hcb in Hinv. simpl in Hinv. rewrite Hinv.
    destruct (run_ends _ _ _ Hthr (emit body f) (S d) σ u Hwf)
      as (Ho & Ht & _ & _ & _ & _ & Hst).
    rewrite Ho, Ht, Hst by done. cbn [res_out res_trace res_state].
    split_and!; try done.
    unfold invocationOf. by rewrite Hcb.
  - destruct fuel as [|f]; [simpl in Hlen; lia|]. simpl in Hlen.
    change (head ((x :: a) ++ c :: b)) with (Some x). rewrite invokeLoop_S. cbv zeta.
    assert (x ∈ pre ++ ((x :: a) ++ c :: b) ++ ext) as Hxin.
    { apply elem_of_app. right. by left. }
    destruct (lookup_lt_is_Some_2 _ _ (chain_lt _ _ _ _ Hch Hxin)) as [rx Hrx].
    destruct (invokeStep_ends false f d s sig args dirty x σ u rx Hwf Hrx)
      as (Hout & Htr & _ & _ & _ & _ & Hst1).
    { intros c' cb' ->%list_elem_of_singleton. apply Hwb. by left. }
    specialize (Hst1 eq_refl).
    set (st := invokeStep body f d s sig args dirty x σ u) in *.
    rewrite Hout, Hst1. rewrite (snapshot_cons _ _ _ rx) by done.
    pose proof (chain_NoDup _ _ _ Hwf Hch) as Hnd.
    apply NoDup_app in Hnd as (_ & _ & Hnd). apply NoDup_app in Hnd as (Hnd & _).
    simpl in Hnd. apply NoDup_cons in Hnd as [Hxa _].
    rewrite bool_decide_eq_false_2.
    2:{ intros Heq. simpl in Heq. rewrite last_cons in Heq.
        destruct (list_last (a ++ c :: b)) as [y|] eqn:Hlast.
        - injection Heq as ->. by apply last_Some_elem_of in Hlast.
        - apply last_None in Hlast. by destruct a. }
    assert (nextReceiver (getC σ x) = head (a ++ c :: b)) as Hnext.
    { destruct Hch as (L & _ & Hseg & _). simpl in Hseg.
      apply lseg_middle in Hseg as (_ & r1 & Hr1 & Hseg).
      rewrite (getC_lookup _ _ _ Hr1).
      rewrite <-app_assoc in Hseg.
      destruct a; simpl in *; by inversion Hseg. }
    rewrite Hnext.
    destruct (IH f d s sig args (list_last ((x :: a) ++ c :: b))
                (dirty || negb (liveb rx)) (head (a ++ c :: b)) σ (res_user st) l
                (pre ++ [x]) c cb b ext) as (Hout2 & Htr2 & Hst2); try done.
    { by rewrite <-!app_assoc in *. }
    { simpl. rewrite last_cons. destruct (list_last (a ++ c :: b)) eqn:Hlast; [done|].
      apply last_None in Hlast. by destruct a. }
    { intros c' cb' Hc'. apply Hwb. by right. }
    { lia. }
    unfold after. cbn [res_out res_trace res_state res_user].
    rewrite Hout2, Htr2, Htr, Hst2. split_and!; try done.
    rewrite fmap_app, <-app_assoc. f_equal. by destruct (invokedb sig rx).
Qed.

(** An emission that reaches a callback that throws: the callbacks before
    it are called, the exception comes out of [emit], and the registry is
    as it was, emission count included. *)
Lemma emit_throw fuel d σ u s sig args l a c cb b :
  wf σ → senderMap σ !! s = Some l → chain σ l (a ++ c :: b) →
  wellBehaved body false sig s args σ a →
  invokedb sig (getC σ c) = true → callback (getC σ c) = Some cb →
  thrower (body cb (thisArg (getC σ c)) s args) → S (length a) < fuel →
  res_out (emit body fuel d σ u s sig args) = Thrown
  ∧ res_trace (emit body fuel d σ u s sig args)
    = (invocationOf d s args σ <$> snapshot sig σ a) ++ [invocationOf d s args σ c]
  ∧ res_state (emit body fuel d σ u s sig args) = σ.
Proof.
  intros Hwf Hs Hxs Hwb Hinv Hcb Hthr Hfuel. destruct fuel as [|f]; [lia|].
  rewrite emit_S. cbv zeta. rewrite Hs.
  pose proof Hxs as (L & HL & Hseg & Hlast).
  set (σ1 := incRefs l σ).
  assert (lists σ1 !! l = Some (set_refs (refs L + 1) L)) as HL1.
  { by apply (updL_lookup_eq l (λ L, set_refs (refs L + 1) L)). }
  rewrite (getL_lookup _ _ _ HL1). simpl first. simpl last.
  destruct (walk_throw a f d s sig args (last L) false (first L) σ1 u l [] c cb b [])
    as (Hout & Htr & Hst); try done.
  { by apply incRefs_wf. }
  { simpl. rewrite app_nil_r. by apply updL_refs_chain. }
  { by apply lseg_head_None in Hseg. }
  { lia. }
  rewrite Hout. cbn [res_out res_trace res_state]. rewrite Htr, Hst.
  split_and!; [done | done | apply decinc].
Qed.

End Quiet.

(** ** The registry stays well formed *)

Lemma wf_initState : wf initState.
Proof.
  split.
  - split; try done.
    + intros l1 l2 xs1 xs2 c (L & HL & _). done.
  - intros o. exists []. split_and!; try done.
    + simpl. rewrite lookup_empty. constructor.
    + constructor.
    + intros c. split; [by intros ?%elem_of_nil|]. by intros (r & Hr & _).
Qed.

Section TopLevel.

Context {U : Type}.
Variable body : Obj → JsVal → Obj → Args → Prog U.

Lemma emit_good fuel d σ u s sig args :
  wf σ → good d σ (emit body fuel d σ u s sig args).
Proof. intros Hwf. by apply (emit_invoke_good body fuel). Qed.

Lemma emit_own fuel d σ u s sig args l xs :
  wf σ → senderMap σ !! s = Some l → chain σ l xs →
  res_out (emit body fuel d σ u s sig args) ≠ Diverged →
  sublist (ownConns d (res_trace (emit body fuel d σ u s sig args)))
    (snapshot sig σ xs).
Proof.
  intros Hwf Hs Hxs Hout.
  by apply (proj2 (proj1 (emit_invoke_good body fuel) d σ u s sig args Hwf) l xs).
Qed.

Lemma run_good fuel d p σ u :
  wf σ → good d σ (runProg (emit body fuel) d p σ u).
Proof.
  intros Hwf. apply runProg_good; [|done].
  intros σ' u' s sig args Hwf'. by apply emit_good.
Qed.

(** Whatever the callbacks do, a run that comes back leaves the registry
    well formed. *)
Lemma run_wf fuel d p σ u :
  wf σ → res_out (runProg (emit body fuel) d p σ u) ≠ Diverged →
  wf (res_state (runProg (emit body fuel) d p σ u)).
Proof. intros Hwf Hout. by apply (run_good fuel d p σ u Hwf). Qed.

Lemma emit_None fuel d σ u s sig args :
  senderMap σ !! s = None → fuel ≠ 0 →
  emit body fuel d σ u s sig args = mkResult σ u [] (Normal tt).
Proof. intros Hs Hf. destruct fuel; [done|]. rewrite emit_S. by rewrite Hs. Qed.

Lemma chainOf_wf σ l xs : wf σ → chain σ l xs → chainOf σ l = xs.
Proof. intros Hwf Hxs. apply chainOf_chain; [done|]. by eapply chain_NoDup. Qed.

Lemma chain_chainOf σ s l : wf σ → senderMap σ !! s = Some l → chain σ l (chainOf σ l).
Proof.
  intros Hwf Hs. destruct (wfS_sender_chain _ _ _ (proj1 Hwf) Hs) as (xs & Hxs & _).
  by rewrite (chainOf_wf _ _ _ Hwf Hxs).
Qed.

End TopLevel.

(** ** What [connect] and [disconnect] return *)

Lemma connect_true σ s sig cb this0 σ' :
  wf σ → connect σ s sig cb this0 = Some (σ', true) →
  noMatch σ s sig cb this0 ∧ σ' = connected σ s sig cb this0.
Proof.
  intros [HS HR] Hc.
  destruct (connect_cases σ s sig cb this0 HS) as [[H _]|[H Hno]];
    rewrite H in Hc; by simplify_eq.
Qed.

Lemma chainOf_fresh σ : chainOf σ (length (lists σ)) = [].
Proof.
  unfold chainOf, getL. rewrite lookup_ge_None_2 by done. simpl.
  by destruct (length (conns σ)).
Qed.

(** A connection that [connect] makes is the last of the sender's list. *)
Lemma connected_chainOf σ s sig cb this0 :
  wf σ → noMatch σ s sig cb this0 →
  ∃ l, senderMap (connected σ s sig cb this0) !! s = Some l
    ∧ (senderMap σ !! s = Some l
       ∨ senderMap σ !! s = None ∧ l = length (lists σ))
    ∧ chainOf (connected σ s sig cb this0) l = chainOf σ l ++ [length (conns σ)].
Proof.
  intros Hwf Hno.
  pose proof (connected_wf σ s sig cb this0 Hwf Hno) as Hwf'.
  destruct (senderMap σ !! s) as [l|] eqn:Hs.
  - exists l. rewrite (connected_senderMap σ s sig cb this0 l Hs), Hs.
    split_and!; [done | by left |].
    pose proof (chain_chainOf σ s l Hwf Hs) as Hch.
    pose proof (connected_chain σ s sig cb this0 Hwf l _ Hch) as Hch'.
    rewrite decide_True in Hch' by done.
    by apply chainOf_wf.
  - destruct (connected_chain_new σ s sig cb this0 Hs) as [Hch' Hs'].
    exists (length (lists σ)). split_and!; [done | by right |].
    rewrite chainOf_fresh. by apply chainOf_wf.
Qed.

Lemma run_wf_init p :
  res_out (run p initState) ≠ Diverged → wf (res_state (run p initState)).
Proof. apply run_wf, wf_initState. Qed.

(** C1 (snapshot isolation).  An emission that comes back has itself called
    only connections that existed when it began: a connection made while it
    runs has a later address, and is left out even though it is appended to
    the list being walked.  Such a connection, if it is still live in the
    list of the sender when the emission is over, is called by the next
    emission of the signal (for callbacks that return and at most connect,
    so that the next pass is neither cut short nor changed under way). *)
Theorem emit_snapshot_isolation {U} (body : Obj → JsVal → Obj → Args → Prog U)
    fuel d σ u s sig args :
  wf σ → res_out (emit body fuel d σ u s sig args) ≠ Diverged →
  let σ' := res_state (emit body fuel d σ u s sig args) in
  (∀ i, i ∈ res_trace (emit body fuel d σ u s sig args) → inv_depth i = d →
     inv_conn i < length (conns σ))
  ∧ ∀ l c, senderMap σ' !! s = Some l → length (conns σ) ≤ c →
      c ∈ snapshot sig σ' (chainOf σ' l) →
      ∀ fuel' d' u' args',
        wellBehaved body true sig s args' σ' (chainOf σ' l) →
        length (chainOf σ' l) < fuel' →
        res_out (emit body fuel' d' σ' u' s sig args') = Normal tt
        ∧ invocationOf d' s args' σ' c
          ∈ res_trace (emit body fuel' d' σ' u' s sig args').
Proof.
  intros Hwf Hout σ'. split.
  - intros i Hi Hd.
    destruct (senderMap σ !! s) as [l|] eqn:Hs.
    + pose proof (chain_chainOf σ s l Hwf Hs) as Hch.
      pose proof (emit_own body fuel d σ u s sig args l _ Hwf Hs Hch Hout) as Hsub.
      assert (inv_conn i ∈ ownConns d (res_trace (emit body fuel d σ u s sig args))) as Hin.
      { unfold ownConns, own. apply list_elem_of_fmap_2. by apply list_elem_of_filter. }
      apply (elem_of_sublist _ _ _ Hin) in Hsub.
      rename Hsub into Hin'. clear Hin. rename Hin' into Hin.
      apply list_elem_of_filter in Hin as [_ Hin].
      exact (chain_lt _ _ _ _ Hch Hin).
    + destruct fuel as [|f]; [done|].
      rewrite emit_None in Hi by done. by apply elem_of_nil in Hi.
  - intros l c Hs' Hc Hin fuel' d' u' args' Hwb Hf.
    assert (wf σ') as Hwf' by by apply (emit_good body fuel d σ u s sig args Hwf).
    pose proof (chain_chainOf σ' s l Hwf' Hs') as Hch.
    destruct (emit_quiet body true fuel' d' σ' u' s sig args' l _ Hwf' Hs' Hch Hwb Hf)
      as (Ho & Ht & _).
    split; [done|]. rewrite Ht. by apply list_elem_of_fmap_2.
Qed.

Lemma emit_snapshot_isolation_witness :
  let r := emit testBody 16 0 withAdder tt obj1 threeSignal 0 in
  (∀ i, i ∈ res_trace r → inv_depth i = 0 → inv_conn i < 3)
  ∧ res_out (emit testBody 16 0 (res_state r) tt obj1 threeSignal 0) = Normal tt
  ∧ invocationOf 0 obj1 0 (res_state r) 3
    ∈ res_trace (emit testBody 16 0 (res_state r) tt obj1 threeSignal 0).
Proof.
  assert (wf withAdder) as Hwf by (apply run_wf_init; vm_compute; congruence).
  assert (res_out (emit testBody 16 0 withAdder tt obj1 threeSignal 0) ≠ Diverged)
    as Hout by (vm_compute; congruence).
  destruct (emit_snapshot_isolation testBody 16 0 withAdder tt obj1 threeSignal 0
              Hwf Hout) as [Ha Hb].
  split; [exact Ha|].
  apply (Hb 0 3).
  - vm_compute. reflexivity.
  - vm_compute. lia.
  - solve_elem.
  - solve_wellBehaved.
  - vm_compute. lia.
Defined.

(** What a [disconnect] that returns [true] has done: it has cleared the
    first live connection of the sender's list that matches, and has left
    the list itself and every other connection as they were. *)
Lemma disconnect_true σ s sig cb this0 σ' l :
  wf σ → senderMap σ !! s = Some l →
  disconnect σ s sig cb this0 = Some (σ', true) →
  ∃ c, c ∈ chainOf σ l
    ∧ signal (getC σ c) = Some sig ∧ callback (getC σ c) = Some cb
    ∧ thisArg (getC σ c) = orUndefined this0
    ∧ σ' = kill c (removeFromSendersList c σ)
    ∧ wf σ' ∧ sameS σ σ'
    ∧ chain σ' l (chainOf σ l)
    ∧ callback (getC σ' c) = None ∧ thisArg (getC σ' c) = VNull
    ∧ signal (getC σ' c) = Some sig
    ∧ (∀ x, x ≠ c → x < length (conns σ) → keptL (getC σ x) (getC σ' x)).
Proof.
  intros Hwf Hs Hd.
  pose proof (chain_chainOf σ s l Hwf Hs) as Hch.
  pose proof (chain_NoDup σ l _ Hwf Hch) as Hnd.
  rewrite (disconnect_Some σ s l _ sig cb this0 Hs Hch Hnd) in Hd.
  destruct (head _) as [c|] eqn:Hh; [|by simplify_eq].
  injection Hd as <-. exists c.
  apply head_Some_elem_of, list_elem_of_filter in Hh as [Hm Hc].
  apply matchesConn_spec in Hm as (Hsig & Hcb & Hth).
  pose proof (chain_lt _ _ _ _ Hch Hc) as Hlt.
  destruct (lookup_lt_is_Some_2 _ _ Hlt) as [r Hr].
  pose proof (unlink_sameS σ c) as Hsame.
  assert (conns (kill c (removeFromSendersList c σ)) !! c
          = Some (set_thisArg VNull (set_callback None
              (unlinkRec c (prevSender (getC σ c)) (nextSender (getC σ c)) c r))))
    as Hrc.
  { rewrite kill_lookup.
    destruct (receiverOf (getC σ c)) as [o|] eqn:Ho.
    - rewrite (removeFromSendersList_lookup c σ o c Ho), Hr. simpl.
      unfold killRec. by rewrite decide_True.
    - unfold receiverOf in Ho. by rewrite Hcb in Ho; destruct (thisArg _). }
  split_and!; try done.
  - split; [exact (sameS_wfS _ _ (proj1 Hwf) Hsame) | exact (unlink_wfR _ _ (proj2 Hwf))].
  - by apply (sameS_chain _ _ _ _ Hsame).
  - by rewrite (getC_lookup _ _ _ Hrc).
  - by rewrite (getC_lookup _ _ _ Hrc).
  - rewrite (getC_lookup _ _ _ Hrc). rewrite <- Hsig, (getC_lookup _ _ _ Hr).
    unfold unlinkRec. by repeat case_decide.
  - intros x Hx Hxlt. destruct (lookup_lt_is_Some_2 _ _ Hxlt) as [rx Hrx].
    destruct (unlink_keptL c σ x rx Hx Hrx) as (r' & Hr' & Hk).
    by rewrite (getC_lookup _ _ _ Hrx), (getC_lookup _ _ _ Hr').
Qed.

(** C2 (live-removal isolation).  A [disconnect] that returns [true]
    clears a connection of the sender's list for the signal, callback and
    context, and leaves it linked in the list.  From then on no pass calls
    that connection: wherever a pass over the list stands ([suf] is what it
    still has to walk, [ext] what was appended since it began) and whatever
    has happened to the registry since the [disconnect], the calls of the
    rest of the pass, nested emissions included, go to other connections. *)
Theorem disconnect_live_removal {U} (body : Obj → JsVal → Obj → Args → Prog U)
    σ0 s sig cb this0 σ1 l :
  wf σ0 → senderMap σ0 !! s = Some l →
  disconnect σ0 s sig cb this0 = Some (σ1, true) →
  ∃ c, c ∈ chainOf σ0 l
    ∧ signal (getC σ0 c) = Some sig ∧ callback (getC σ0 c) = Some cb
    ∧ thisArg (getC σ0 c) = orUndefined this0
    ∧ chainOf σ1 l = chainOf σ0 l
    ∧ liveb (getC σ1 c) = false
    ∧ ∀ σ fuel d args lastc dirty conn u pre suf ext,
        wf σ → mono σ1 σ →
        chain σ l (pre ++ suf ++ ext) → (0 < refs (getL σ l))%Z →
        lastc = list_last suf → conn = head suf →
        res_out (invokeLoop body fuel d s sig args lastc dirty conn σ u) ≠ Diverged →
        ∀ i, i ∈ res_trace (invokeLoop body fuel d s sig args lastc dirty conn σ u) →
          inv_conn i ≠ c.
Proof.
  intros Hwf Hs Hd.
  destruct (disconnect_true _ _ _ _ _ _ _ Hwf Hs Hd)
    as (c & Hc & Hsig & Hcb & Hth & -> & Hwf1 & Hsame & Hch1 & Hdead & _).
  exists c. split_and!; try done.
  - by apply chainOf_wf.
  - unfold liveb. by rewrite Hdead.
  - intros σ fuel d args lastc dirty conn u pre suf ext Hwfσ Hmono Hch Hrefs Hl Hcn Hout i Hi Hic.
    destruct (proj2 (emit_invoke_good body fuel) d s sig args lastc dirty conn σ u l
                pre suf ext Hwfσ Hch Hrefs Hl Hcn) as [Hgood _].
    destruct (Hgood Hout) as (_ & _ & _ & Hsound).
    unfold sound in Hsound. rewrite Forall_forall in Hsound.
    pose proof (chain_lt _ _ _ _ Hch1 Hc) as Hlt.
    destruct (lookup_lt_is_Some_2 _ _ Hlt) as [r1 Hr1].
    destruct (Hmono _ _ Hr1) as (r & Hr & _ & Hk).
    rewrite (getC_lookup _ _ _ Hr1) in Hdead.
    rewrite <- Hic in Hr.
    destruct (Hsound i Hi r Hr) as [Hcbi _].
    destruct Hk as [[Hk _]|[Hk _]]; congruence.
Qed.

Lemma disconnect_keeps_wf σ s sig cb this0 σ' b :
  wf σ → disconnect σ s sig cb this0 = Some (σ', b) → wf σ'.
Proof.
  intros Hwf Hd. destruct (disconnect_wf σ s sig cb this0 Hwf) as (σ2 & b2 & Hd2 & Hwf2 & _).
  congruence.
Qed.

Lemma connect_keeps_wf σ s sig cb this0 σ' b :
  wf σ → connect σ s sig cb this0 = Some (σ', b) → wf σ'.
Proof.
  intros Hwf Hd. destruct (connect_wf σ s sig cb this0 Hwf) as (σ2 & b2 & Hd2 & Hwf2 & _).
  congruence.
Qed.

Lemma disconnect_live_removal_witness :
  let σ0 := incRefs 0 withRemover in
  let σ1 := kill 3 (removeFromSendersList 3 σ0) in
  disconnect σ0 obj1 threeSignal onThree (VObj handler3) = Some (σ1, true)
  ∧ ∀ i, i ∈ res_trace (invokeLoop testBody 16 0 obj1 threeSignal 0 (Some 3) false
                          (Some 3) σ1 tt) →
      inv_conn i ≠ 3.
Proof.
  intros σ0 σ1.
  assert (wf σ0) as Hwf0.
  { apply incRefs_wf, run_wf_init. vm_compute. congruence. }
  assert (senderMap σ0 !! obj1 = Some 0) as Hs by (vm_compute; reflexivity).
  assert (disconnect σ0 obj1 threeSignal onThree (VObj handler3) = Some (σ1, true))
    as Hd by (vm_compute; reflexivity).
  split; [exact Hd|].
  destruct (disconnect_live_removal testBody σ0 obj1 threeSignal onThree
              (VObj handler3) σ1 0 Hwf0 Hs Hd)
    as (c & Hc & _ & _ & Hth & _ & _ & Hrest).
  assert (c = 3) as ->.
  { each_member Hc; vm_compute in Hth; first [discriminate Hth | reflexivity]. }
  assert (wf σ1) as Hwf1 by exact (disconnect_keeps_wf _ _ _ _ _ _ _ Hwf0 Hd).
  apply (Hrest σ1 16 0 0 (Some 3) false (Some 3) tt [0; 1; 2] [3] []).
  - exact Hwf1.
  - intros x r Hr. exists r. split; [exact Hr|]. split; [reflexivity|]. left.
    split; reflexivity.
  - replace ([0; 1; 2] ++ [3] ++ []) with (chainOf σ1 0) by (vm_compute; reflexivity).
    apply (chain_chainOf σ1 obj1 0 Hwf1). vm_compute. reflexivity.
  - vm_compute. reflexivity.
  - reflexivity.
  - reflexivity.
  - vm_compute. congruence.
Defined.

(** ** Disconnecting a live connection *)

Lemma wf_uniq_live σ l xs : wf σ → chain σ l xs → uniq_live (conns σ) xs.
Proof.
  intros [HS _] Hch. destruct Hch as (L & HL & Hseg) eqn:E.
  destruct (wfS_chain_of σ l HS (lookup_lt_Some _ _ _ HL)) as (ys & Hys & _ & Hu).
  by rewrite (chain_func _ _ _ _ Hch Hys).
Qed.

(** The connection that [disconnect] finds for a signal, callback and
    context is the live connection of the list that carries them: there is
    only one. *)
Lemma disconnect_live σ s l c sig cb this0 :
  wf σ → senderMap σ !! s = Some l → c ∈ chainOf σ l →
  signal (getC σ c) = Some sig → callback (getC σ c) = Some cb →
  thisArg (getC σ c) = orUndefined this0 →
  disconnect σ s sig cb this0 = Some (kill c (removeFromSendersList c σ), true).
Proof.
  intros Hwf Hs Hc Hsig Hcb Hth.
  pose proof (chain_chainOf σ s l Hwf Hs) as Hch.
  pose proof (chain_NoDup σ l _ Hwf Hch) as Hnd.
  pose proof (wf_uniq_live σ l _ Hwf Hch) as Hu.
  rewrite (disconnect_Some σ s l _ sig cb this0 Hs Hch Hnd).
  assert (c ∈ filter (λ c, matchesConn sig cb (orUndefined this0) (getC σ c) = true)
                (chainOf σ l)) as Hin.
  { apply list_elem_of_filter. split; [|done]. by apply matchesConn_spec. }
  destruct (filter _ _) as [|x rest] eqn:Hf; [by apply elem_of_nil in Hin|].
  assert (x ∈ filter (λ c, matchesConn sig cb (orUndefined this0) (getC σ c) = true)
                (chainOf σ l)) as Hx by (rewrite Hf; left).
  apply list_elem_of_filter in Hx as [Hm Hx].
  apply matchesConn_spec in Hm as (Hsigx & Hcbx & Hthx).
  pose proof (chain_lt _ _ _ _ Hch Hc) as Hlt.
  pose proof (chain_lt _ _ _ _ Hch Hx) as Hltx.
  destruct (lookup_lt_is_Some_2 _ _ Hlt) as [r Hr].
  destruct (lookup_lt_is_Some_2 _ _ Hltx) as [rx Hrx].
  rewrite (getC_lookup _ _ _ Hr) in Hsig, Hcb, Hth.
  rewrite (getC_lookup _ _ _ Hrx) in Hsigx, Hcbx, Hthx.
  assert (c = x) as ->; [|done].
  apply (Hu c x r rx); try done; try congruence.
  unfold liveb. by rewrite Hcb.
Qed.

Lemma filter_ext_in {A} (P Q : A → Prop) `{!∀ x, Decision (P x)}
    `{!∀ x, Decision (Q x)} (l : list A) :
  (∀ x, x ∈ l → P x ↔ Q x) → filter P l = filter Q l.
Proof.
  induction l as [|a l IH]; intros Hpq; [done|].
  rewrite !filter_cons. rewrite IH by (intros x Hx; apply Hpq; by right).
  destruct (decide (P a)) as [Hp|Hp], (decide (Q a)) as [Hq|Hq]; try done.
  - exfalso. apply Hq, Hpq; [left | done].
  - exfalso. apply Hp, Hpq; [left | done].
Qed.

(** What the disconnection of [c] does to the passes over a list. *)
Lemma unlink_snapshot σ c sig xs :
  (∀ x, x ∈ xs → x < length (conns σ)) →
  snapshot sig (kill c (removeFromSendersList c σ)) xs
  = filter (λ x, x ≠ c) (snapshot sig σ xs).
Proof.
  intros Hlt. unfold snapshot. rewrite list_filter_filter.
  apply filter_ext_in. intros x Hx.
  destruct (lookup_lt_is_Some_2 _ _ (Hlt x Hx)) as [r Hr].
  destruct (decide (x = c)) as [->|Hne].
  - split; [|by intros [? _]]. intros Hinv. exfalso.
    assert (callback (getC (kill c (removeFromSendersList c σ)) c) = None) as Hdead.
    { assert (is_Some (conns (removeFromSendersList c σ) !! c)) as [r1 Hr1].
      { apply lookup_lt_is_Some.
        destruct (unlink_sameS σ c) as (_ & _ & HF). apply Forall2_length in HF.
        pose proof (Hlt c Hx) as Hc. rewrite HF in Hc.
        unfold kill in Hc. simpl in Hc. by rewrite !length_alter in Hc. }
      erewrite getC_lookup; [|rewrite kill_lookup, Hr1; done].
      unfold killRec. by rewrite decide_True. }
    unfold invokedb, liveb in Hinv. by rewrite Hdead in Hinv.
  - destruct (unlink_keptL c σ x r Hne Hr) as (r' & Hr' & Hsig & Hcb & Hth).
    rewrite (getC_lookup _ _ _ Hr), (getC_lookup _ _ _ Hr').
    unfold invokedb, liveb. rewrite Hsig, Hcb.
    split; [by intros ?; split | by intros [_ ?]].
Qed.

Lemma unlink_invocationOf σ c d s args x :
  x ≠ c → x < length (conns σ) →
  invocationOf d s args (kill c (removeFromSendersList c σ)) x
  = invocationOf d s args σ x.
Proof.
  intros Hne Hlt. destruct (lookup_lt_is_Some_2 _ _ Hlt) as [r Hr].
  destruct (unlink_keptL c σ x r Hne Hr) as (r' & Hr' & Hsig & Hcb & Hth).
  unfold invocationOf. rewrite (getC_lookup _ _ _ Hr), (getC_lookup _ _ _ Hr').
  by rewrite Hcb, Hth.
Qed.

Lemma unlink_getL σ c l : getL (kill c (removeFromSendersList c σ)) l = getL σ l.
Proof. unfold getL. by rewrite (proj1 (unlink_sameS σ c)). Qed.

Lemma three_split {A} (a b : list A) (c1 c2 c3 : A) :
  a ++ c2 :: b = [c1; c2; c3] → c2 ∉ a → c2 ∉ b → a = [c1] ∧ b = [c3].
Proof.
  intros E Ha Hb.
  destruct a as [|x [|y [|z a]]]; simplify_eq/=; try done.
  - exfalso. apply Hb. left.
  - exfalso. apply Ha. right. left.
  - by destruct a.
Qed.

Lemma snapshot_app sig σ xs ys :
  snapshot sig σ (xs ++ ys) = snapshot sig σ xs ++ snapshot sig σ ys.
Proof. unfold snapshot. by rewrite filter_app. Qed.

Lemma snapshot_elem sig σ xs c :
  c ∈ snapshot sig σ xs ↔ invokedb sig (getC σ c) = true ∧ c ∈ xs.
Proof. unfold snapshot. by rewrite list_elem_of_filter. Qed.

(** C3 (fault propagation).  The list of the sender holds three live
    connections for the signal, [c1], [c2] and [c3] in this order; the
    callbacks of the first and the third return, the callback of the
    second throws.  Then [emit] calls the first and the second, throws, and
    leaves the registry exactly as it was: the emission count of the list,
    raised for the pass, is back at its value.  After the failing callback
    is disconnected, the next [emit] returns and calls the first and the
    third. *)
Theorem emit_fault_propagation {U} (body : Obj → JsVal → Obj → Args → Prog U)
    σ s sig l c1 c2 c3 cb1 cb2 cb3 this2 args fuel d u :
  wf σ → senderMap σ !! s = Some l →
  snapshot sig σ (chainOf σ l) = [c1; c2; c3] →
  callback (getC σ c1) = Some cb1 → callback (getC σ c2) = Some cb2 →
  callback (getC σ c3) = Some cb3 →
  thisArg (getC σ c2) = orUndefined this2 →
  passive (body cb1 (thisArg (getC σ c1)) s args) →
  thrower (body cb2 (thisArg (getC σ c2)) s args) →
  passive (body cb3 (thisArg (getC σ c3)) s args) →
  length (chainOf σ l) < fuel →
  let r1 := emit body fuel d σ u s sig args in
  res_out r1 = Thrown
  ∧ res_trace r1 = [invocationOf d s args σ c1; invocationOf d s args σ c2]
  ∧ res_state r1 = σ
  ∧ refs (getL (res_state r1) l) = refs (getL σ l)
  ∧ ∃ σ2, disconnect (res_state r1) s sig cb2 this2 = Some (σ2, true)
      ∧ res_out (emit body fuel d σ2 (res_user r1) s sig args) = Normal tt
      ∧ res_trace (emit body fuel d σ2 (res_user r1) s sig args)
        = [invocationOf d s args σ c1; invocationOf d s args σ c3].
Proof.
  intros Hwf Hs Hsnap Hcb1 Hcb2 Hcb3 Hth2 Hp1 Hp2 Hp3 Hfuel r1.
  pose proof (chain_chainOf σ s l Hwf Hs) as Hch.
  pose proof (chain_NoDup σ l _ Hwf Hch) as Hnd.
  assert (c2 ∈ snapshot sig σ (chainOf σ l)) as Hc2 by (rewrite Hsnap; right; left).
  apply snapshot_elem in Hc2 as [Hinv2 Hc2].
  destruct (list_elem_of_split _ _ Hc2) as (a & b & Hab).
  rewrite Hab in Hnd, Hsnap, Hch, Hfuel.
  apply NoDup_app in Hnd as (_ & Hna & Hnb). apply NoDup_cons in Hnb as [Hnb _].
  assert (c2 ∉ a) as Hna' by (intros ?; by apply (Hna c2); [|left]).
  rewrite snapshot_app in Hsnap.
  assert (snapshot sig σ (c2 :: b) = c2 :: snapshot sig σ b) as Hcons.
  { unfold snapshot. by rewrite filter_cons_True. }
  rewrite Hcons in Hsnap.
  apply three_split in Hsnap as [Ha Hb].
  2: { intros [_ ?]%snapshot_elem. done. }
  2: { intros [_ ?]%snapshot_elem. done. }
  assert (wellBehaved body false sig s args σ a) as Hwa.
  { intros c cb Hc Hinv Hcb.
    assert (c ∈ snapshot sig σ a) as Hin by by apply snapshot_elem.
    rewrite Ha in Hin. apply list_elem_of_singleton in Hin as ->. congruence. }
  assert (S (length a) < fuel) as Hfa.
  { rewrite length_app in Hfuel. simpl in Hfuel. lia. }
  destruct (emit_throw body fuel d σ u s sig args l a c2 cb2 b Hwf Hs Hch Hwa Hinv2
              Hcb2 Hp2 Hfa) as (Ho1 & Ht1 & Hst1).
  fold r1 in Ho1, Ht1, Hst1. rewrite Ha in Ht1.
  split_and!; [done | done | done | by rewrite Hst1 |].
  rewrite Hst1.
  assert (signal (getC σ c2) = Some sig) as Hsig2.
  { unfold invokedb in Hinv2. apply andb_true_iff in Hinv2 as [_ H2].
    by apply bool_decide_eq_true in H2. }
  exists (kill c2 (removeFromSendersList c2 σ)).
  pose proof (disconnect_live σ s l c2 sig cb2 this2 Hwf Hs Hc2 Hsig2 Hcb2 Hth2) as Hd.
  split; [done|].
  pose proof (disconnect_keeps_wf _ _ _ _ _ _ _ Hwf Hd) as Hwf2.
  pose proof (unlink_sameS σ c2) as Hsame.
  assert (senderMap (kill c2 (removeFromSendersList c2 σ)) !! s = Some l) as Hs2.
  { by rewrite (proj1 (proj2 Hsame)). }
  pose proof (proj1 (sameS_chain _ _ _ _ Hsame) Hch) as Hch2.
  assert (∀ x, x ∈ a ++ c2 :: b → x < length (conns σ)) as Hlt.
  { intros x Hx. exact (chain_lt _ _ _ _ Hch Hx). }
  assert (snapshot sig (kill c2 (removeFromSendersList c2 σ)) (a ++ c2 :: b)
          = [c1; c3]) as Hsnap2.
  { rewrite (unlink_snapshot σ c2 sig _ Hlt), snapshot_app, Hcons, Ha, Hb.
    assert (c1 ≠ c2) as Hn1.
    { intros ->. apply Hna'. eapply (proj1 (snapshot_elem sig σ a c2)).
      rewrite Ha. left. }
    assert (c3 ≠ c2) as Hn3.
    { intros ->. apply Hnb. eapply (proj1 (snapshot_elem sig σ b c2)).
      rewrite Hb. left. }
    simpl. rewrite filter_cons_True by done. rewrite filter_cons_False by (by intros ?).
    by rewrite filter_cons_True. }
  assert (c1 ∈ a ++ c2 :: b ∧ c1 ≠ c2 ∧ c3 ∈ a ++ c2 :: b ∧ c3 ≠ c2)
    as (Hc1 & Hn1 & Hc3 & Hn3).
  { assert (c1 ∈ snapshot sig σ a) as H1 by (rewrite Ha; left).
    assert (c3 ∈ snapshot sig σ b) as H3 by (rewrite Hb; left).
    apply snapshot_elem in H1 as [_ H1]. apply snapshot_elem in H3 as [_ H3].
    split_and!.
    - apply elem_of_app. by left.
    - intros ->. by apply Hna'.
    - apply elem_of_app. right. by right.
    - by intros ->. }
  assert (wellBehaved body false sig s args (kill c2 (removeFromSendersList c2 σ))
            (a ++ c2 :: b)) as Hwb2.
  { intros c cb Hc Hinv Hcb.
    assert (c ∈ snapshot sig (kill c2 (removeFromSendersList c2 σ)) (a ++ c2 :: b))
      as Hin by by apply snapshot_elem.
    rewrite Hsnap2 in Hin.
    assert (c ≠ c2) as Hne.
    { intros ->. apply elem_of_cons in Hin as [?|Hin]; [congruence|].
      apply list_elem_of_singleton in Hin. congruence. }
    pose proof (unlink_invocationOf σ c2 0 s args c Hne (Hlt c Hc)) as Hi.
    unfold invocationOf in Hi. rewrite Hcb in Hi. injection Hi as Hi1 Hi2.
    rewrite Hi2.
    apply elem_of_cons in Hin as [->|Hin].
    - rewrite Hcb1 in Hi1. simpl in Hi1. by rewrite Hi1.
    - apply list_elem_of_singleton in Hin as ->.
      rewrite Hcb3 in Hi1. simpl in Hi1. by rewrite Hi1. }
  assert (length (a ++ c2 :: b) < fuel) as Hf2 by done.
  destruct (emit_quiet body false fuel d _ (res_user r1) s sig args l _ Hwf2 Hs2 Hch2
              Hwb2 Hf2) as (Ho2 & Ht2 & _).
  split; [done|]. rewrite Ht2, Hsnap2. simpl.
  by rewrite !unlink_invocationOf by (try done; by apply Hlt).
Qed.

Lemma emit_fault_propagation_witness :
  let r1 := emit testBody 16 0 withThrower tt obj1 threeSignal 0 in
  res_out r1 = Thrown
  ∧ res_trace r1 = [invocationOf 0 obj1 0 withThrower 0;
                    invocationOf 0 obj1 0 withThrower 1]
  ∧ res_state r1 = withThrower
  ∧ refs (getL (res_state r1) 0) = refs (getL withThrower 0)
  ∧ ∃ σ2, disconnect (res_state r1) obj1 threeSignal onThrow (VObj handler2)
          = Some (σ2, true)
      ∧ res_out (emit testBody 16 0 σ2 (res_user r1) obj1 threeSignal 0) = Normal tt
      ∧ res_trace (emit testBody 16 0 σ2 (res_user r1) obj1 threeSignal 0)
        = [invocationOf 0 obj1 0 withThrower 0; invocationOf 0 obj1 0 withThrower 2].
Proof.
  apply (emit_fault_propagation testBody withThrower obj1 threeSignal 0 0 1 2
           onThree onThrow onThree (VObj handler2) 0 16 0 tt).
  - apply run_wf_init. vm_compute. congruence.
  - vm_compute. reflexivity.
  - vm_compute. reflexivity.
  - vm_compute. reflexivity.
  - vm_compute. reflexivity.
  - vm_compute. reflexivity.
  - vm_compute. reflexivity.
  - solve_ends.
  - solve_ends.
  - solve_ends.
  - vm_compute. lia.
Defined.

(** ** The connections of a sender *)

Lemma connectionsOf_Some σ s l :
  senderMap σ !! s = Some l → connectionsOf σ s = chainOf σ l.
Proof. unfold connectionsOf. by intros ->. Qed.

Lemma sameS_connectionsOf σ σ' s :
  wf σ → wf σ' → sameS σ σ' → connectionsOf σ' s = connectionsOf σ s.
Proof.
  intros Hwf Hwf' Hsame. unfold connectionsOf.
  rewrite (proj1 (proj2 Hsame)).
  destruct (senderMap σ !! s) as [l|] eqn:Hs; [|done].
  pose proof (chain_chainOf σ s l Hwf Hs) as Hch.
  apply (chainOf_wf _ _ _ Hwf'). by apply (sameS_chain _ _ _ _ Hsame).
Qed.

Lemma connect_connectionsOf σ s sig cb this0 σ' :
  wf σ → connect σ s sig cb this0 = Some (σ', true) →
  connectionsOf σ' s = connectionsOf σ s ++ [length (conns σ)].
Proof.
  intros Hwf Hc. destruct (connect_true _ _ _ _ _ _ Hwf Hc) as [Hno ->].
  destruct (connected_chainOf σ s sig cb this0 Hwf Hno) as (l & Hs' & Hs & Hch).
  unfold connectionsOf. rewrite Hs', Hch.
  destruct Hs as [->|[-> ->]]; [done|]. by rewrite chainOf_fresh.
Qed.

(** C4 (order preservation).  Connections are numbered in the order in
    which they are made, and the list of a sender holds its connections in
    that order, in every well-formed state of the registry: whatever
    connects, disconnects and emissions came before.  [connect] puts the
    connection it makes, which has the next number, at the tail, also when
    the same callback was connected and disconnected before; [disconnect]
    moves nothing.  The calls that an emission itself makes go to live
    connections of the list for the signal, in the order of the list, and
    for callbacks that return and at most connect they go to all of
    them. *)
Theorem emit_connection_order {U} (body : Obj → JsVal → Obj → Args → Prog U) σ s :
  wf σ →
  StronglySorted lt (connectionsOf σ s)
  ∧ (∀ sig cb this0 σ', connect σ s sig cb this0 = Some (σ', true) →
       wf σ' ∧ connectionsOf σ' s = connectionsOf σ s ++ [length (conns σ)])
  ∧ (∀ sig cb this0 σ' b, disconnect σ s sig cb this0 = Some (σ', b) →
       wf σ' ∧ connectionsOf σ' s = connectionsOf σ s)
  ∧ (∀ sig fuel d u args,
       res_out (emit body fuel d σ u s sig args) ≠ Diverged →
       wf (res_state (emit body fuel d σ u s sig args))
       ∧ sublist (ownConns d (res_trace (emit body fuel d σ u s sig args)))
           (snapshot sig σ (connectionsOf σ s)))
  ∧ (∀ sig fuel d u args,
       wellBehaved body true sig s args σ (connectionsOf σ s) →
       length (connectionsOf σ s) < fuel →
       res_out (emit body fuel d σ u s sig args) = Normal tt
       ∧ res_trace (emit body fuel d σ u s sig args)
         = invocationOf d s args σ <$> snapshot sig σ (connectionsOf σ s)).
Proof.
  intros Hwf. split_and!.
  - unfold connectionsOf. destruct (senderMap σ !! s) as [l|] eqn:Hs; [|constructor].
    exact (chain_sorted σ l _ Hwf (chain_chainOf σ s l Hwf Hs)).
  - intros sig cb this0 σ' Hc. split.
    + exact (connect_keeps_wf _ _ _ _ _ _ _ Hwf Hc).
    + exact (connect_connectionsOf _ _ _ _ _ _ Hwf Hc).
  - intros sig cb this0 σ' b Hd.
    destruct (disconnect_wf σ s sig cb this0 Hwf) as (σ2 & b2 & Hd2 & Hwf2 & Hsame).
    rewrite Hd in Hd2. injection Hd2 as <- <-.
    split; [done|]. by apply sameS_connectionsOf.
  - intros sig fuel d u args Hout. split.
    + by apply (emit_good body fuel d σ u s sig args Hwf).
    + unfold connectionsOf. destruct (senderMap σ !! s) as [l|] eqn:Hs.
      * exact (emit_own body fuel d σ u s sig args l _ Hwf Hs
                 (chain_chainOf σ s l Hwf Hs) Hout).
      * destruct fuel; [done|]. by rewrite emit_None.
  - intros sig fuel d u args Hwb Hf. unfold connectionsOf in *.
    destruct (senderMap σ !! s) as [l|] eqn:Hs.
    + destruct (emit_quiet body true fuel d σ u s sig args l _ Hwf Hs
                  (chain_chainOf σ s l Hwf Hs) Hwb Hf) as (Ho & Ht & _).
      done.
    + destruct fuel; [simpl in Hf; lia|]. by rewrite emit_None.
Qed.

Lemma emit_connection_order_witness :
  StronglySorted lt (connectionsOf reconnected obj1)
  ∧ connectionsOf reconnected obj1 = [0; 1; 2; 3]
  ∧ inv_this <$> res_trace (emit testBody 16 0 reconnected tt obj1 threeSignal 0)
    = [VObj handler2; VObj handler3; VObj handler1].
Proof.
  assert (wf reconnected) as Hwf by (apply run_wf_init; vm_compute; congruence).
  destruct (emit_connection_order testBody reconnected obj1 Hwf)
    as (Hsorted & _ & _ & _ & Hquiet).
  split; [exact Hsorted|]. split; [vm_compute; reflexivity|].
  destruct (Hquiet threeSignal 16 0 tt 0) as [_ Ht].
  - solve_wellBehaved.
  - vm_compute. lia.
  - etransitivity; [exact (f_equal (fmap inv_this) Ht)|]. vm_compute. reflexivity.
Defined.

(** ** Counting calls *)

Lemma filter_fmap_comm {A B} (f : A → B) (P : B → Prop) `{!∀ y, Decision (P y)}
    (l : list A) :
  filter P (f <$> l) = f <$> filter (λ x, P (f x)) l.
Proof.
  induction l as [|a l IH]; [done|].
  rewrite fmap_cons, !filter_cons, IH. simpl. by destruct (decide (P (f a))).
Qed.

Lemma filter_None {A} (P : A → Prop) `{!∀ x, Decision (P x)} (l : list A) :
  (∀ x, x ∈ l → ¬ P x) → filter P l = [].
Proof.
  induction l as [|a l IH]; intros Hn; [done|].
  rewrite filter_cons_False by (apply Hn; left).
  apply IH. intros x Hx. apply Hn. by right.
Qed.

Lemma filter_the_one {A} (P : A → Prop) `{!∀ x, Decision (P x)} (l : list A) c :
  c ∈ l → P c → (∀ x, x ∈ l → P x → x = c) → NoDup l → filter P l = [c].
Proof.
  intros Hc Hp Hone Hnd.
  destruct (list_elem_of_split _ _ Hc) as (a & b & ->).
  apply NoDup_app in Hnd as (_ & Hna & Hnb). apply NoDup_cons in Hnb as [Hnb _].
  rewrite filter_app, filter_cons_True by done.
  rewrite !filter_None; [done | |].
  - intros x Hx HP. apply Hnb. rewrite <- (Hone x); [done | | done].
    apply elem_of_app. right. by right.
  - intros x Hx HP. apply (Hna x Hx). rewrite (Hone x); [left | | done].
    apply elem_of_app. by left.
Qed.

Lemma connectionsOf_elem σ s c :
  c ∈ connectionsOf σ s → ∃ l, senderMap σ !! s = Some l ∧ c ∈ chainOf σ l.
Proof.
  unfold connectionsOf. destruct (senderMap σ !! s) as [l|]; [by exists l|].
  by intros ?%elem_of_nil.
Qed.

(** Among the calls of a pass that runs to its end, the calls to a callback
    with a context are the call to the one live connection that carries
    them. *)
Lemma callsTo_snapshot σ l d s args sig cb this c :
  wf σ → chain σ l (chainOf σ l) → c ∈ chainOf σ l →
  signal (getC σ c) = Some sig → callback (getC σ c) = Some cb →
  thisArg (getC σ c) = this →
  callsTo cb this (invocationOf d s args σ <$> snapshot sig σ (chainOf σ l))
  = [invocationOf d s args σ c].
Proof.
  intros Hwf Hch Hc Hsig Hcb Hth. unfold callsTo.
  rewrite filter_fmap_comm.
  pose proof (wf_uniq_live σ l _ Hwf Hch) as Hu.
  pose proof (chain_lt _ _ _ _ Hch Hc) as Hlt.
  destruct (lookup_lt_is_Some_2 _ _ Hlt) as [r Hr].
  rewrite (getC_lookup _ _ _ Hr) in Hsig, Hcb, Hth.
  rewrite (filter_the_one _ (snapshot sig σ (chainOf σ l)) c); [done|..].
  - apply snapshot_elem. split; [|done]. rewrite (getC_lookup _ _ _ Hr).
    unfold invokedb, liveb. rewrite Hcb, Hsig. simpl. by apply bool_decide_eq_true.
  - simpl. by rewrite (getC_lookup _ _ _ Hr), Hcb.
  - intros x [Hinv Hx]%snapshot_elem [Hxcb Hxth]. simpl in Hxcb, Hxth.
    pose proof (chain_lt _ _ _ _ Hch Hx) as Hltx.
    destruct (lookup_lt_is_Some_2 _ _ Hltx) as [rx Hrx].
    rewrite (getC_lookup _ _ _ Hrx) in Hinv, Hxcb, Hxth.
    unfold invokedb, liveb in Hinv. apply andb_true_iff in Hinv as [Hlive Hsigx].
    apply bool_decide_eq_true in Hsigx.
    destruct (callback rx) as [cbx|] eqn:Hcbx; [|done]. simpl in Hxcb.
    symmetry. apply (Hu c x r rx); try done; try congruence.
    unfold liveb. by rewrite Hcb.
  - apply NoDup_filter. exact (chain_NoDup _ _ _ Hwf Hch).
Qed.

(** C5 (uniqueness).  When the list of the sender holds a live connection
    for the signal, callback and context, [connect] returns [false] and
    leaves the registry as it is: no connection is made.  An emission of
    the signal that runs to its end then calls the callback with that
    context once, through that connection. *)
Theorem connect_duplicate {U} (body : Obj → JsVal → Obj → Args → Prog U)
    σ s sig cb this0 c :
  wf σ → c ∈ connectionsOf σ s →
  signal (getC σ c) = Some sig → callback (getC σ c) = Some cb →
  thisArg (getC σ c) = orUndefined this0 →
  connect σ s sig cb this0 = Some (σ, false)
  ∧ ∀ fuel d u args,
      wellBehaved body true sig s args σ (connectionsOf σ s) →
      length (connectionsOf σ s) < fuel →
      res_out (emit body fuel d σ u s sig args) = Normal tt
      ∧ callsTo cb (orUndefined this0) (res_trace (emit body fuel d σ u s sig args))
        = [invocationOf d s args σ c].
Proof.
  intros Hwf Hc Hsig Hcb Hth.
  destruct (connectionsOf_elem _ _ _ Hc) as (l & Hs & Hcl).
  rewrite (connectionsOf_Some _ _ _ Hs).
  pose proof (chain_chainOf σ s l Hwf Hs) as Hch.
  split.
  - apply (connect_found σ s sig cb this0 l _ c (proj1 Hwf) Hs Hch Hcl).
    by apply matchesConn_spec.
  - intros fuel d u args Hwb Hf.
    destruct (emit_quiet body true fuel d σ u s sig args l _ Hwf Hs Hch Hwb Hf)
      as (Ho & Ht & _).
    split; [done|]. rewrite Ht. by apply (callsTo_snapshot σ l).
Qed.

Lemma connect_duplicate_witness :
  connect withOne obj1 oneSignal onOne (VObj handler1) = Some (withOne, false)
  ∧ res_out (emit testBody 16 0 withOne tt obj1 oneSignal 0) = Normal tt
  ∧ callsTo onOne (VObj handler1)
      (res_trace (emit testBody 16 0 withOne tt obj1 oneSignal 0))
    = [invocationOf 0 obj1 0 withOne 0].
Proof.
  assert (wf withOne) as Hwf by (apply run_wf_init; vm_compute; congruence).
  destruct (connect_duplicate testBody withOne obj1 oneSignal onOne (VObj handler1) 0
              Hwf) as [Hc He].
  - solve_elem.
  - vm_compute. reflexivity.
  - vm_compute. reflexivity.
  - vm_compute. reflexivity.
  - split; [exact Hc|]. apply (He 16 0 tt 0).
    + solve_wellBehaved.
    + vm_compute. lia.
Defined.

(** ** Lists that hold dead connections *)

Lemma anyDead_true σ xs :
  xs ≠ [] → (∀ c, c ∈ xs → liveb (getC σ c) = false) → anyDead σ xs = true.
Proof.
  intros Hne Hdead. destruct xs as [|c xs]; [done|].
  unfold anyDead. simpl. rewrite (Hdead c) by left. done.
Qed.

(** ** Bulk teardown *)

(** Connections that a change has kept are called as before. *)
Lemma kept_snapshot {U} (body : Obj → JsVal → Obj → Args → Prog U) sig σ σ' xs :
  (∀ c, c ∈ xs → keptL (getC σ c) (getC σ' c)) →
  snapshot sig σ' xs = snapshot sig σ xs
  ∧ (∀ d s args c, c ∈ xs → invocationOf d s args σ' c = invocationOf d s args σ c)
  ∧ (∀ cn s args, wellBehaved body cn sig s args σ xs →
       wellBehaved body cn sig s args σ' xs).
Proof.
  intros Hkept. split_and!.
  - apply filter_ext_in. intros c Hc. destruct (Hkept c Hc) as (Hs & Hcb & _).
    unfold invokedb, liveb. by rewrite Hs, Hcb.
  - intros d s args c Hc. destruct (Hkept c Hc) as (Hs & Hcb & Hth).
    unfold invocationOf. by rewrite Hcb, Hth.
  - intros cn s args Hwb c cb Hc Hinv Hcb.
    destruct (Hkept c Hc) as (Hs & Hcb' & Hth).
    rewrite Hth. apply Hwb; [done | | congruence].
    unfold invokedb, liveb in *. by rewrite <-Hs, <-Hcb'.
Qed.

(** A connection that is dead is never called again, whatever is run. *)
Lemma dead_never_called {U} (body : Obj → JsVal → Obj → Args → Prog U) σ c fuel d p u :
  wf σ → c < length (conns σ) → callback (getC σ c) = None →
  res_out (runProg (emit body fuel) d p σ u) ≠ Diverged →
  ∀ i, i ∈ res_trace (runProg (emit body fuel) d p σ u) → inv_conn i ≠ c.
Proof.
  intros Hwf Hlt Hdead Hout i Hi Hic.
  destruct (run_good body fuel d p σ u Hwf Hout) as (_ & _ & _ & Hsound).
  unfold sound in Hsound. rewrite Forall_forall in Hsound.
  destruct (lookup_lt_is_Some_2 _ _ Hlt) as [r Hr].
  rewrite (getC_lookup _ _ _ Hr) in Hdead. rewrite <- Hic in Hr.
  destruct (Hsound i Hi r Hr) as [Hcb _]. congruence.
Qed.

(** The receiver of a call to a connection that existed before the run is
    the receiver that the connection had then. *)
Lemma called_receiver {U} (body : Obj → JsVal → Obj → Args → Prog U) σ fuel d p u i r :
  wf σ → res_out (runProg (emit body fuel) d p σ u) ≠ Diverged →
  i ∈ res_trace (runProg (emit body fuel) d p σ u) →
  conns σ !! inv_conn i = Some r →
  receiverOf r = Some (receiverId (inv_this i) (inv_callback i)).
Proof.
  intros Hwf Hout Hi Hr.
  destruct (run_good body fuel d p σ u Hwf Hout) as (_ & _ & _ & Hsound).
  unfold sound in Hsound. rewrite Forall_forall in Hsound.
  destruct (Hsound i Hi r Hr) as [Hcb Hth].
  unfold receiverOf, receiverId. rewrite Hcb, Hth. by destruct (inv_this i).
Qed.

Lemma disconnectReceiver_lookup σ o σ' :
  wf σ → disconnectReceiver o σ = Some σ' →
  ∀ x, conns σ' !! x
       = (λ r, if decide (receiverOf r = Some o) then clearRec r else r) <$> conns σ !! x.
Proof.
  intros [HS HR] Hd x. destruct (HR o) as [xs Hxs].
  pose proof Hxs as (Hseg & _ & Hnd & Hin).
  unfold disconnectReceiver in Hd.
  destruct (receiverMap σ !! o) as [head|] eqn:Hhead.
  - destruct (disconnectReceiver_loop_spec (loopFuel σ) (Some head) xs σ)
      as (σ1 & Hloop & HS1 & Hm1 & Hlook); [done..| |].
    { pose proof (NoDup_valid_length (conns σ) xs Hnd) as Hlen.
      unfold loopFuel. cut (length xs ≤ length (conns σ)); [lia|].
      apply Hlen. intros c Hc. by eapply lseg_lt. }
    rewrite Hloop in Hd. simpl in Hd. injection Hd as <-. simpl.
    rewrite Hlook. destruct (conns σ !! x) as [r|] eqn:Hr; [|done]. simpl.
    destruct (decide (x ∈ xs)) as [Hx|Hx].
    + apply Hin in Hx as (r' & Hr' & Ho). simplify_eq. by rewrite decide_True.
    + rewrite decide_False; [done|]. intros Ho. apply Hx, Hin. eauto.
  - injection Hd as <-.
    apply lseg_None_inv in Hseg as [-> _].
    destruct (conns σ !! x) as [r|] eqn:Hr; [|done]. simpl.
    rewrite decide_False; [done|]. intros Ho.
    assert (x ∈ @nil nat) as Hx by (apply Hin; eauto). by apply elem_of_nil in Hx.
Qed.

Lemma connectionsOf_lt σ s c : wf σ → c ∈ connectionsOf σ s → c < length (conns σ).
Proof.
  intros Hwf (l & Hs & Hc)%connectionsOf_elem.
  exact (chain_lt _ _ _ _ (chain_chainOf σ s l Hwf Hs) Hc).
Qed.

(** No connection is in the lists of two senders. *)
Lemma connectionsOf_disj σ s1 s2 c :
  wf σ → c ∈ connectionsOf σ s1 → c ∈ connectionsOf σ s2 → s1 = s2.
Proof.
  intros Hwf (l1 & Hs1 & Hc1)%connectionsOf_elem (l2 & Hs2 & Hc2)%connectionsOf_elem.
  pose proof (chain_chainOf σ s1 l1 Hwf Hs1) as Hch1.
  pose proof (chain_chainOf σ s2 l2 Hwf Hs2) as Hch2.
  pose proof (wfS_disj σ (proj1 Hwf) l1 l2 _ _ c Hch1 Hch2 Hc1 Hc2) as ->.
  exact (wfS_inj σ (proj1 Hwf) s1 s2 l2 Hs1 Hs2).
Qed.

Lemma disconnectSender_frame σ s :
  wf σ →
  ∃ σ', disconnectSender s σ = Some σ' ∧ wf σ'
    ∧ senderMap σ' !! s = None
    ∧ length (conns σ') = length (conns σ)
    ∧ (∀ c, c ∈ connectionsOf σ s → callback (getC σ' c) = None)
    ∧ ∀ s', s' ≠ s →
        senderMap σ' !! s' = senderMap σ !! s'
        ∧ connectionsOf σ' s' = connectionsOf σ s'
        ∧ ∀ c, c ∈ connectionsOf σ s' → keptL (getC σ c) (getC σ' c).
Proof.
  intros Hwf. destruct (senderMap σ !! s) as [l|] eqn:Hs.
  - pose proof (chain_chainOf σ s l Hwf Hs) as Hch.
    destruct (disconnectSender_Some σ s l _ Hwf Hs Hch)
      as (σ1 & Hd & Hsame & Hwf' & Hdead & Hkept).
    eexists. split; [exact Hd|]. split; [exact Hwf'|]. split_and!.
    + simpl. apply lookup_delete_eq.
    + simpl. destruct Hsame as (_ & _ & HF). by rewrite (Forall2_length _ _ _ HF).
    + intros c Hc. rewrite (connectionsOf_Some _ _ _ Hs) in Hc. exact (Hdead c Hc).
    + intros s' Hne. split; [simpl; by rewrite lookup_delete_ne|]. split.
      * unfold connectionsOf at 1 2. simpl. rewrite lookup_delete_ne by done.
        destruct (senderMap σ !! s') as [l'|] eqn:Hs'; [|done].
        apply (chainOf_wf _ _ _ Hwf').
        pose proof (chain_chainOf σ s' l' Hwf Hs') as Hch'.
        apply (sameS_chain _ _ _ _ Hsame) in Hch'. exact Hch'.
      * intros c Hc.
        pose proof (connectionsOf_lt _ _ _ Hwf Hc) as Hlt.
        destruct (lookup_lt_is_Some_2 _ _ Hlt) as [r Hr].
        destruct (Hkept c r) as (r' & Hr' & Hk); [|done|].
        { intros Hc'. apply Hne. apply (connectionsOf_disj σ s' s c Hwf Hc).
          by rewrite (connectionsOf_Some _ _ _ Hs). }
        rewrite (getC_lookup _ _ _ Hr).
        by rewrite (getC_lookup (setSenderMap (delete s (senderMap σ)) σ1) c r').
  - exists σ. split; [by apply disconnectSender_None|]. split_and!; try done.
    intros c Hc. unfold connectionsOf in Hc. rewrite Hs in Hc.
    by apply elem_of_nil in Hc.
Qed.

Lemma disconnectReceiver_frame σ o :
  wf σ →
  ∃ σ', disconnectReceiver o σ = Some σ' ∧ wf σ'
    ∧ length (conns σ') = length (conns σ)
    ∧ (∀ s, connectionsOf σ' s = connectionsOf σ s)
    ∧ (∀ c, c < length (conns σ) →
         getC σ' c = if decide (receiverOf (getC σ c) = Some o)
                     then clearRec (getC σ c) else getC σ c).
Proof.
  intros Hwf.
  destruct (disconnectReceiver_wf σ o Hwf) as (σ' & Hd & Hwf' & Hsame & _).
  exists σ'. split; [done|]. split; [done|]. split_and!.
  - destruct Hsame as (_ & _ & HF). by rewrite (Forall2_length _ _ _ HF).
  - intros s. by apply sameS_connectionsOf.
  - intros c Hlt. destruct (lookup_lt_is_Some_2 _ _ Hlt) as [r Hr].
    rewrite (getC_lookup _ _ _ Hr).
    apply getC_lookup. by rewrite (disconnectReceiver_lookup σ o σ' Hwf Hd c), Hr.
Qed.

Lemma receiverOf_live r cb :
  callback r = Some cb → receiverOf r = Some (receiverId (thisArg r) cb).
Proof. intros Hcb. unfold receiverOf, receiverId. rewrite Hcb. by destruct (thisArg r). Qed.

(** What [disconnectReceiver] does to the passes over a list. *)
Lemma disconnectReceiver_snapshot σ σ' o sig d s args xs :
  (∀ c, c ∈ xs → c < length (conns σ)) →
  (∀ c, c < length (conns σ) →
     getC σ' c = if decide (receiverOf (getC σ c) = Some o)
                 then clearRec (getC σ c) else getC σ c) →
  invocationOf d s args σ' <$> snapshot sig σ' xs
  = filter (λ i, inv_receiver i ≠ o) (invocationOf d s args σ <$> snapshot sig σ xs).
Proof.
  intros Hlt Hget. rewrite filter_fmap_comm. unfold snapshot at 2.
  rewrite list_filter_filter.
  assert (snapshot sig σ' xs
          = filter (λ c, inv_receiver (invocationOf d s args σ c) ≠ o
                         ∧ invokedb sig (getC σ c) = true) xs) as ->.
  { apply filter_ext_in. intros c Hc. rewrite (Hget c (Hlt c Hc)).
    unfold inv_receiver, invocationOf. simpl.
    destruct (callback (getC σ c)) as [cb|] eqn:Hcb.
    - rewrite (receiverOf_live _ _ Hcb). simpl. case_decide as Ho.
      + split; [done|]. intros [Hn _]. by injection Ho.
      + split; [|by intros [_ ?]]. intros ?. split; [|done].
        intros Heq. apply Ho. by rewrite Heq.
    - assert (invokedb sig (getC σ c) = false) as Hf.
      { unfold invokedb, liveb. by rewrite Hcb. }
      case_decide; [|rewrite Hf; split; [done | by intros [_ ?]]].
      split; [done|]. rewrite Hf. by intros [_ ?]. }
  apply Forall_fmap_ext_1, Forall_forall. intros c [[Hn Hinv] Hc]%list_elem_of_filter.
  unfold invocationOf. rewrite (Hget c (Hlt c Hc)).
  rewrite decide_False; [done|]. intros Ho. apply Hn.
  unfold inv_receiver, invocationOf. simpl.
  unfold invokedb, liveb in Hinv.
  destruct (callback (getC σ c)) as [cb|] eqn:Hcb; [|done].
  rewrite (receiverOf_live _ _ Hcb) in Ho. by injection Ho.
Qed.

(** C7 (bulk teardown).  [disconnectSender s] returns, and afterwards an
    emission of any signal on [s] calls nothing and changes nothing; no
    connection that was in the list of [s] is ever called again, whatever
    is run; and for any other sender the list is as it was, its
    connections carry what they carried, and an emission of callbacks that
    return and at most connect makes the calls it would have made.
    [disconnectReceiver o] returns, and afterwards no call to a connection
    that existed goes to the receiver [o], whatever is run; the lists of
    all senders are as they were, every connection of another receiver is
    untouched, and such an emission makes the calls it would have made
    less the calls to [o]. *)
Theorem bulk_teardown {U} (body : Obj → JsVal → Obj → Args → Prog U) σ :
  wf σ →
  (∀ s, ∃ σ', disconnectSender s σ = Some σ'
     ∧ (∀ fuel d u sig args,
          emit body (S fuel) d σ' u s sig args = mkResult σ' u [] (Normal tt))
     ∧ (∀ fuel d p u i,
          res_out (runProg (emit body fuel) d p σ' u) ≠ Diverged →
          i ∈ res_trace (runProg (emit body fuel) d p σ' u) →
          inv_conn i ∉ connectionsOf σ s)
     ∧ ∀ s', s' ≠ s →
         connectionsOf σ' s' = connectionsOf σ s'
         ∧ (∀ c, c ∈ connectionsOf σ s' → keptL (getC σ c) (getC σ' c))
         ∧ ∀ fuel d u sig args,
             wellBehaved body true sig s' args σ (connectionsOf σ s') →
             length (connectionsOf σ s') < fuel →
             res_out (emit body fuel d σ' u s' sig args) = Normal tt
             ∧ res_trace (emit body fuel d σ' u s' sig args)
               = res_trace (emit body fuel d σ u s' sig args))
  ∧ (∀ o, ∃ σ', disconnectReceiver o σ = Some σ'
     ∧ (∀ fuel d p u i,
          res_out (runProg (emit body fuel) d p σ' u) ≠ Diverged →
          i ∈ res_trace (runProg (emit body fuel) d p σ' u) →
          inv_conn i < length (conns σ) → inv_receiver i ≠ o)
     ∧ (∀ s, connectionsOf σ' s = connectionsOf σ s)
     ∧ (∀ c, c < length (conns σ) → receiverOf (getC σ c) ≠ Some o →
          getC σ' c = getC σ c)
     ∧ ∀ s fuel d u sig args,
         wellBehaved body true sig s args σ (connectionsOf σ s) →
         length (connectionsOf σ s) < fuel →
         res_out (emit body fuel d σ' u s sig args) = Normal tt
         ∧ res_trace (emit body fuel d σ' u s sig args)
           = filter (λ i, inv_receiver i ≠ o)
               (res_trace (emit body fuel d σ u s sig args))).
Proof.
  intros Hwf. split.
  - intros s.
    destruct (disconnectSender_frame σ s Hwf)
      as (σ' & Hd & Hwf' & Hnone & Hlen & Hdead & Hother).
    exists σ'. split; [done|]. split_and!.
    + intros fuel d u sig args. by apply emit_None.
    + intros fuel d p u i Hout Hi Hc.
      apply (dead_never_called body σ' (inv_conn i) fuel d p u Hwf') with (i := i);
        try done.
      * rewrite Hlen. by eapply connectionsOf_lt.
      * by apply Hdead.
    + intros s' Hne. destruct (Hother s' Hne) as (Hs' & Hco & Hkept).
      split; [done|]. split; [done|].
      intros fuel d u sig args Hwb Hf.
      destruct (kept_snapshot body sig σ σ' _ Hkept) as (Hsnap & Hinv & Hwb').
      unfold connectionsOf in Hco, Hwb, Hf, Hsnap, Hinv, Hwb', Hkept.
      rewrite Hs' in Hco.
      destruct (senderMap σ !! s') as [l'|] eqn:Hs.
      * pose proof (chain_chainOf σ s' l' Hwf Hs) as Hch.
        pose proof (chain_chainOf σ' s' l' Hwf' Hs') as Hch'. rewrite Hco in Hch'.
        destruct (emit_quiet body true fuel d σ u s' sig args l' _ Hwf Hs Hch Hwb Hf)
          as (_ & Ht & _).
        destruct (emit_quiet body true fuel d σ' u s' sig args l' _ Hwf' Hs' Hch'
                    (Hwb' _ _ _ Hwb) Hf) as (Ho' & Ht' & _).
        split; [done|]. rewrite Ht, Ht', Hsnap.
        apply Forall_fmap_ext_1, Forall_forall.
        intros c [_ Hc]%snapshot_elem. by apply Hinv.
      * destruct fuel; [simpl in Hf; lia|]. by rewrite !emit_None.
  - intros o.
    destruct (disconnectReceiver_frame σ o Hwf) as (σ' & Hd & Hwf' & Hlen & Hco & Hget).
    exists σ'. split; [done|]. split_and!.
    + intros fuel d p u i Hout Hi Hlt Ho.
      rewrite <- Hlen in Hlt. destruct (lookup_lt_is_Some_2 _ _ Hlt) as [r Hr].
      pose proof (called_receiver body σ' fuel d p u i r Hwf' Hout Hi Hr) as Hrec.
      fold (inv_receiver i) in Hrec. rewrite Ho in Hrec.
      destruct (disconnectReceiver_wf σ o Hwf) as (σ2 & Hd2 & _ & _ & Hno).
      rewrite Hd in Hd2. injection Hd2 as <-. exact (Hno _ _ Hr Hrec).
    + done.
    + intros c Hlt Ho. rewrite (Hget c Hlt). by rewrite decide_False.
    + intros s fuel d u sig args Hwb Hf.
      assert (senderMap σ' = senderMap σ) as Hsm.
      { destruct (disconnectReceiver_wf σ o Hwf) as (σ2 & Hd2 & _ & Hsame & _).
        rewrite Hd in Hd2. injection Hd2 as <-. exact (proj1 (proj2 Hsame)). }
      specialize (Hco s). unfold connectionsOf in Hco, Hwb, Hf. rewrite Hsm in Hco.
      destruct (senderMap σ !! s) as [l|] eqn:Hs.
      * pose proof (chain_chainOf σ s l Hwf Hs) as Hch.
        assert (senderMap σ' !! s = Some l) as Hs' by by rewrite Hsm.
        pose proof (chain_chainOf σ' s l Hwf' Hs') as Hch'. rewrite Hco in Hch'.
        assert (∀ c, c ∈ chainOf σ l → c < length (conns σ)) as Hlt.
        { intros c Hc. exact (chain_lt _ _ _ _ Hch Hc). }
        assert (wellBehaved body true sig s args σ' (chainOf σ l)) as Hwb'.
        { intros c cb Hc Hinv Hcb. rewrite (Hget c (Hlt c Hc)) in Hinv, Hcb |- *.
          case_decide; [done|]. by apply Hwb. }
        destruct (emit_quiet body true fuel d σ u s sig args l _ Hwf Hs Hch Hwb Hf)
          as (_ & Ht & _).
        destruct (emit_quiet body true fuel d σ' u s sig args l _ Hwf' Hs' Hch' Hwb' Hf)
          as (Ho' & Ht' & _).
        split; [done|]. rewrite Ht, Ht'.
        by apply disconnectReceiver_snapshot.
      * assert (senderMap σ' !! s = None) as Hs' by by rewrite Hsm.
        destruct fuel; [simpl in Hf; lia|]. by rewrite !emit_None.
Qed.

Lemma bulk_teardown_witness :
  (∃ σ', disconnectSender obj1 twoSenders = Some σ'
     ∧ res_trace (emit testBody 16 0 σ' tt obj1 oneSignal 0) = []
     ∧ res_trace (emit testBody 16 0 σ' tt obj2 oneSignal 0)
       = res_trace (emit testBody 16 0 twoSenders tt obj2 oneSignal 0))
  ∧ (∃ σ', disconnectReceiver handler1 twoSenders = Some σ'
     ∧ res_trace (emit testBody 16 0 σ' tt obj2 oneSignal 0)
       = filter (λ i, inv_receiver i ≠ handler1)
           (res_trace (emit testBody 16 0 twoSenders tt obj2 oneSignal 0))).
Proof.
  assert (wf twoSenders) as Hwf by (apply run_wf_init; vm_compute; congruence).
  destruct (bulk_teardown testBody twoSenders Hwf) as [HS HR]. split.
  - destruct (HS obj1) as (σ' & Hd & He & _ & Ho).
    exists σ'. split; [exact Hd|]. split.
    + exact (f_equal res_trace (He 15 0 tt oneSignal 0)).
    + destruct (Ho obj2) as (_ & _ & Hq); [vm_compute; congruence|].
      apply Hq.
      * solve_wellBehaved.
      * vm_compute. lia.
  - destruct (HR handler1) as (σ' & Hd & _ & _ & _ & Hq).
    exists σ'. split; [exact Hd|]. apply Hq.
    + solve_wellBehaved.
    + vm_compute. lia.
Defined.

(** ** The connections of a receiver *)

Lemma sendersFrom_lseg h p xs n :
  lseg nextSender h p xs None → length xs ≤ n → sendersFrom n h p = xs.
Proof.
  intros H. revert n. remember None as q eqn:Hq.
  induction H as [|c r xs q Hc _ IH]; intros n Hn; subst.
  - by destruct n.
  - simpl in Hn. destruct n as [|n]; [lia|]. simpl. rewrite Hc. simpl.
    f_equal. apply IH; [done | lia].
Qed.

Lemma rchain_connectionsTo σ o xs : rchain σ o xs → connectionsTo σ o = xs.
Proof.
  intros Hx. pose proof Hx as (Hseg & _ & Hnd & _). unfold connectionsTo.
  apply sendersFrom_lseg; [done|].
  apply NoDup_valid_length; [done|]. intros c Hc. by eapply rchain_valid.
Qed.

Lemma connectionsTo_rchain σ o : wf σ → rchain σ o (connectionsTo σ o).
Proof.
  intros [_ HR]. destruct (HR o) as [xs Hxs].
  by rewrite (rchain_connectionsTo _ _ _ Hxs).
Qed.

Lemma connectionsTo_elem σ o c :
  wf σ → c ∈ connectionsTo σ o ↔ c < length (conns σ) ∧ receiverOf (getC σ c) = Some o.
Proof.
  intros Hwf. destruct (connectionsTo_rchain σ o Hwf) as (_ & _ & _ & Hin).
  rewrite Hin. split.
  - intros (r & Hr & Ho). split; [by eapply lookup_lt_Some|].
    by rewrite (getC_lookup _ _ _ Hr).
  - intros [Hlt Ho]. destruct (lookup_lt_is_Some_2 _ _ Hlt) as [r Hr].
    exists r. by rewrite (getC_lookup _ _ _ Hr) in Ho.
Qed.

Lemma unlink_links σ c :
  c < length (conns σ) → is_Some (receiverOf (getC σ c)) →
  nextSender (getC (kill c (removeFromSendersList c σ)) c) = None
  ∧ prevSender (getC (kill c (removeFromSendersList c σ)) c) = None.
Proof.
  intros Hlt [o Ho]. destruct (lookup_lt_is_Some_2 _ _ Hlt) as [r Hr].
  assert (conns (kill c (removeFromSendersList c σ)) !! c
          = Some (killRec c c
              (unlinkRec c (prevSender (getC σ c)) (nextSender (getC σ c)) c r)))
    as Hrc.
  { by rewrite kill_lookup, (removeFromSendersList_lookup c σ o c Ho), Hr. }
  rewrite (getC_lookup _ _ _ Hrc). unfold killRec, unlinkRec.
  rewrite !decide_True by done. done.
Qed.

Lemma anyDead_elem σ xs c :
  c ∈ xs → liveb (getC σ c) = false → anyDead σ xs = true.
Proof.
  intros Hc Hd. unfold anyDead. apply existsb_exists. exists c.
  split; [by apply list_elem_of_In|]. by rewrite Hd.
Qed.

(** An emission of callbacks that leave the engine alone, on a list that
    no other emission is walking, leaves the live connections of the list,
    in their order. *)
Lemma emit_compacts {U} (body : Obj → JsVal → Obj → Args → Prog U)
    fuel d σ u s sig args l c :
  wf σ → senderMap σ !! s = Some l → refs (getL σ l) = 0%Z →
  c ∈ chainOf σ l → liveb (getC σ c) = false →
  wellBehaved body false sig s args σ (chainOf σ l) → length (chainOf σ l) < fuel →
  connectionsOf (res_state (emit body fuel d σ u s sig args)) s
  = filter (λ x, liveb (getC σ x) = true) (chainOf σ l).
Proof.
  intros Hwf Hs Hrefs Hc Hdead Hwb Hf.
  pose proof (chain_chainOf σ s l Hwf Hs) as Hch.
  destruct (emit_quiet body false fuel d σ u s sig args l _ Hwf Hs Hch Hwb Hf)
    as (_ & _ & Hwf' & _ & Hsm & Hst).
  specialize (Hst eq_refl). specialize (Hsm s l Hs).
  rewrite (anyDead_elem σ _ c Hc Hdead), Hrefs in Hst.
  rewrite bool_decide_eq_true_2 in Hst by done. simpl in Hst.
  destruct (cleanList_spec σ l _ Hch (chain_NoDup _ _ _ Hwf Hch)) as (σ2 & Hcl & Hch2 & _).
  rewrite Hcl in Hst. injection Hst as Hst. rewrite <- Hst in Hch2.
  rewrite (connectionsOf_Some _ _ _ Hsm). by apply chainOf_wf.
Qed.

(** C8 (membership).  No connection is in the lists of two senders or in
    the chains of two receivers, and none is twice in a list or a chain.
    A [disconnect] that returns [true] has taken its connection out of
    the chain of its receiver: the chain is the old one less the
    connection, with the links of the neighbours set accordingly, the
    links of the connection are cleared, and a receiver whose chain held
    nothing else has no entry in [receiverMap] any more.  The list of the
    sender still holds the connection: it goes when an emission compacts
    the list, or when [disconnectSender] drops the list. *)
Theorem connection_membership {U} (body : Obj → JsVal → Obj → Args → Prog U) σ :
  wf σ →
  (∀ c s1 s2, c ∈ connectionsOf σ s1 → c ∈ connectionsOf σ s2 → s1 = s2)
  ∧ (∀ c o1 o2, c ∈ connectionsTo σ o1 → c ∈ connectionsTo σ o2 → o1 = o2)
  ∧ (∀ s, NoDup (connectionsOf σ s))
  ∧ (∀ o, NoDup (connectionsTo σ o))
  ∧ ∀ s sig cb this0 σ', disconnect σ s sig cb this0 = Some (σ', true) →
      let o := receiverId (orUndefined this0) cb in
      ∃ c, c ∈ connectionsOf σ s ∧ c ∈ connectionsTo σ o
        ∧ wf σ'
        ∧ (∀ o', rchain σ' o' (filter (λ x, x ≠ c) (connectionsTo σ o'))
                 ∧ connectionsTo σ' o' = filter (λ x, x ≠ c) (connectionsTo σ o'))
        ∧ (connectionsTo σ o = [c] → receiverMap σ' !! o = None)
        ∧ nextSender (getC σ' c) = None ∧ prevSender (getC σ' c) = None
        ∧ connectionsOf σ' s = connectionsOf σ s
        ∧ (∀ l fuel d u sig' args,
             senderMap σ' !! s = Some l → refs (getL σ' l) = 0%Z →
             wellBehaved body false sig' s args σ' (connectionsOf σ' s) →
             length (connectionsOf σ' s) < fuel →
             connectionsOf (res_state (emit body fuel d σ' u s sig' args)) s
             = filter (λ x, x ≠ c)
                 (filter (λ x, liveb (getC σ x) = true) (connectionsOf σ s)))
        ∧ ∃ σ'', disconnectSender s σ' = Some σ'' ∧ connectionsOf σ'' s = [].
Proof.
  intros Hwf. split_and!.
  - intros c s1 s2. by apply connectionsOf_disj.
  - intros c o1 o2 [_ H1]%connectionsTo_elem [_ H2]%connectionsTo_elem; [|done..].
    congruence.
  - intros s. unfold connectionsOf. destruct (senderMap σ !! s) as [l|] eqn:Hs.
    + exact (chain_NoDup _ _ _ Hwf (chain_chainOf σ s l Hwf Hs)).
    + constructor.
  - intros o. by destruct (connectionsTo_rchain σ o Hwf) as (_ & _ & Hnd & _).
  - intros s sig cb this0 σ' Hd o.
    destruct (senderMap σ !! s) as [l|] eqn:Hs.
    2: { rewrite (disconnect_None _ _ _ _ _ Hs) in Hd. by simplify_eq. }
    destruct (disconnect_true _ _ _ _ _ _ _ Hwf Hs Hd)
      as (c & Hc & Hsig & Hcb & Hth & -> & Hwf' & Hsame & Hch' & Hdead & _ & _ & Hkept).
    set (σ' := kill c (removeFromSendersList c σ)) in *.
    pose proof (chain_chainOf σ s l Hwf Hs) as Hch.
    pose proof (chain_lt _ _ _ _ Hch Hc) as Hlt.
    assert (receiverOf (getC σ c) = Some o) as Ho.
    { rewrite (receiverOf_live _ _ Hcb). by rewrite Hth. }
    assert (∀ o', rchain σ' o' (filter (λ x, x ≠ c) (connectionsTo σ o'))) as Hr'.
    { intros o'. apply unlink_rchain_all; [exact (proj2 Hwf)|].
      by apply connectionsTo_rchain. }
    assert (senderMap σ' !! s = Some l) as Hs' by by rewrite (proj1 (proj2 Hsame)).
    assert (connectionsOf σ' s = connectionsOf σ s) as Hco.
    { by apply sameS_connectionsOf. }
    exists c. split_and!.
    + by rewrite (connectionsOf_Some _ _ _ Hs).
    + by apply connectionsTo_elem.
    + done.
    + intros o'. split; [done|]. by apply rchain_connectionsTo.
    + intros Hone. destruct (Hr' o) as (Hseg & _). rewrite Hone in Hseg.
      rewrite filter_cons_False in Hseg by (by intros ?).
      by apply lseg_nil_inv in Hseg.
    + by apply unlink_links.
    + by apply unlink_links.
    + done.
    + intros l0 fuel d u sig' args Hs0 Hrefs Hwb Hf.
      rewrite Hs' in Hs0. injection Hs0 as <-.
      rewrite (connectionsOf_Some _ _ _ Hs') in Hwb, Hf.
      rewrite (connectionsOf_Some _ _ _ Hs).
      assert (chainOf σ' l = chainOf σ l) as Heq by by apply chainOf_wf.
      rewrite (emit_compacts body fuel d σ' u s sig' args l c); try done.
      * rewrite Heq, list_filter_filter. apply filter_ext_in. intros x Hx.
        destruct (decide (x = c)) as [->|Hne].
        -- unfold liveb at 1. rewrite Hdead. split; [done | by intros [? _]].
        -- destruct (Hkept x Hne (chain_lt _ _ _ _ Hch Hx)) as (_ & Hcbx & _).
           unfold liveb. rewrite Hcbx. split; [done | by intros [_ ?]].
      * by rewrite Heq.
      * unfold liveb. by rewrite Hdead.
    + destruct (disconnectSender_frame σ' s Hwf') as (σ'' & Hd' & _ & Hnone & _).
      exists σ''. split; [done|]. unfold connectionsOf. by rewrite Hnone.
Qed.

Lemma connection_membership_witness :
  let σ' := kill 0 (removeFromSendersList 0 twoSenders) in
  disconnect twoSenders obj1 oneSignal onOne (VObj handler1) = Some (σ', true)
  ∧ connectionsTo twoSenders handler1 = [2; 0]
  ∧ connectionsTo σ' handler1 = filter (λ x, x ≠ 0) (connectionsTo twoSenders handler1)
  ∧ connectionsOf σ' obj1 = connectionsOf twoSenders obj1
  ∧ connectionsOf (res_state (emit testBody 16 0 σ' tt obj1 oneSignal 0)) obj1
    = filter (λ x, x ≠ 0)
        (filter (λ x, liveb (getC twoSenders x) = true) (connectionsOf twoSenders obj1)).
Proof.
  intros σ'.
  assert (wf twoSenders) as Hwf by (apply run_wf_init; vm_compute; congruence).
  assert (disconnect twoSenders obj1 oneSignal onOne (VObj handler1) = Some (σ', true))
    as Hd by (vm_compute; reflexivity).
  destruct (connection_membership testBody twoSenders Hwf) as (_ & _ & _ & _ & H).
  destruct (H obj1 oneSignal onOne (VObj handler1) σ' Hd)
    as (c & Hc & Hc' & _ & Hto & _ & _ & _ & Hof & Hemit & _).
  assert (c = 0) as ->.
  { each_member Hc; [reflexivity|]. absurd_member Hc'. }
  split; [exact Hd|]. split; [vm_compute; reflexivity|].
  split; [exact (proj2 (Hto handler1))|]. split; [exact Hof|].
  apply (Hemit 0 16 0 tt oneSignal 0).
  - vm_compute. reflexivity.
  - vm_compute. reflexivity.
  - solve_wellBehaved.
  - vm_compute. lia.
Defined.

(** ** The context of a connection *)

Lemma orUndefined_falsy v : truthy v = false → orUndefined v = VUndefined.
Proof. intros Hf. unfold orUndefined. by rewrite Hf. Qed.

(** C9 (falsy context).  With a context that is [null] or another falsy
    value, [connect] and [disconnect] do what they do with the context left
    out, on every registry.  The connection that such a [connect] makes
    carries the context [undefined], its receiver is its callback, whose
    chain it heads, and a [connect] for the same sender, signal and
    callback with the context left out, or with [null], then finds it and
    returns [false]. *)
Theorem falsy_thisArg σ s sig cb v :
  wf σ → truthy v = false →
  connect σ s sig cb v = connect σ s sig cb VUndefined
  ∧ disconnect σ s sig cb v = disconnect σ s sig cb VUndefined
  ∧ ∀ σ', connect σ s sig cb v = Some (σ', true) →
      let c := length (conns σ) in
      thisArg (getC σ' c) = VUndefined
      ∧ callback (getC σ' c) = Some cb
      ∧ receiverOf (getC σ' c) = Some cb
      ∧ receiverMap σ' !! cb = Some c
      ∧ c ∈ connectionsTo σ' cb
      ∧ connect σ' s sig cb VUndefined = Some (σ', false)
      ∧ connect σ' s sig cb VNull = Some (σ', false).
Proof.
  intros Hwf Hf. pose proof (orUndefined_falsy v Hf) as Hv. split_and!.
  - unfold connect. by rewrite Hv.
  - unfold disconnect. by rewrite Hv.
  - intros σ' Hc c.
    pose proof (connect_keeps_wf _ _ _ _ _ _ _ Hwf Hc) as Hwf'.
    pose proof (connect_connectionsOf _ _ _ _ _ _ Hwf Hc) as Hco.
    destruct (connect_true _ _ _ _ _ _ Hwf Hc) as [Hno ->].
    destruct (connected_new σ s sig cb v Hwf) as (r & Hr & Hsig & Hcb & Hth & _).
    destruct (connected_lookup σ s sig cb v Hwf) as (_ & _ & _ & _ & Hlen & Hrm).
    fold c in Hr, Hco. rewrite Hv in Hth.
    rewrite Hv in Hrm. change (receiverId VUndefined cb) with cb in Hrm.
    rewrite (getC_lookup _ _ _ Hr).
    assert (receiverOf r = Some cb) as Hrec.
    { rewrite (receiverOf_live _ _ Hcb). by rewrite Hth. }
    assert (c ∈ connectionsOf (connected σ s sig cb v) s) as Hin.
    { rewrite Hco. apply elem_of_app. right. left. }
    assert (∀ w, truthy w = false →
              connect (connected σ s sig cb v) s sig cb w
              = Some (connected σ s sig cb v, false)) as Hdup.
    { intros w Hw. destruct (connectionsOf_elem _ _ _ Hin) as (l & Hs & Hcl).
      apply (connect_found _ s sig cb w l _ c (proj1 Hwf') Hs
               (chain_chainOf _ s l Hwf' Hs) Hcl).
      apply matchesConn_spec. rewrite (getC_lookup _ _ _ Hr).
      by rewrite (orUndefined_falsy w Hw). }
    split_and!; try done.
    + rewrite Hrm. apply lookup_insert_eq.
    + apply connectionsTo_elem; [done|]. split.
      * by eapply lookup_lt_Some.
      * by rewrite (getC_lookup _ _ _ Hr).
    + by apply Hdup.
    + by apply Hdup.
Qed.

Lemma falsy_thisArg_witness :
  connect initState obj1 oneSignal onThrow VNull = Some (withPlain, true)
  ∧ connect initState obj1 oneSignal onThrow VNull
    = connect initState obj1 oneSignal onThrow VUndefined
  ∧ thisArg (getC withPlain 0) = VUndefined
  ∧ callback (getC withPlain 0) = Some onThrow
  ∧ receiverOf (getC withPlain 0) = Some onThrow
  ∧ receiverMap withPlain !! onThrow = Some 0
  ∧ 0 ∈ connectionsTo withPlain onThrow
  ∧ connect withPlain obj1 oneSignal onThrow VUndefined = Some (withPlain, false)
  ∧ connect withPlain obj1 oneSignal onThrow VNull = Some (withPlain, false).
Proof.
  assert (connect initState obj1 oneSignal onThrow VNull = Some (withPlain, true))
    as Hc by (vm_compute; reflexivity).
  destruct (falsy_thisArg initState obj1 oneSignal onThrow VNull wf_initState eq_refl)
    as (H1 & _ & H3).
  split; [exact Hc|]. split; [exact H1|]. exact (H3 withPlain Hc).
Defined.

(** ** Connecting again *)

Lemma matchesConn_dead sig cb this r :
  callback r = None → matchesConn sig cb this r = false.
Proof.
  intros Hd. unfold matchesConn. rewrite Hd.
  rewrite (bool_decide_eq_false_2 (None = Some cb)) by done.
  by rewrite andb_false_r.
Qed.

(** After a [disconnect] that returned [true], the list of the sender has
    no live connection for the signal, callback and context. *)
Lemma disconnect_noMatch σ s sig cb this0 σ1 :
  wf σ → disconnect σ s sig cb this0 = Some (σ1, true) →
  noMatch σ1 s sig cb this0.
Proof.
  intros Hwf Hd.
  destruct (senderMap σ !! s) as [l|] eqn:Hs.
  2: { rewrite (disconnect_None _ _ _ _ _ Hs) in Hd. by simplify_eq. }
  destruct (disconnect_true _ _ _ _ _ _ _ Hwf Hs Hd)
    as (c & Hc & Hsig & Hcb & Hth & Hσ1 & Hwf1 & Hsame & Hch1 & Hdead & _ & _ & Hkept).
  pose proof (chain_chainOf σ s l Hwf Hs) as Hch.
  pose proof (wf_uniq_live σ l _ Hwf Hch) as Hu.
  intros l0 xs x Hs0 Hxs Hx.
  rewrite (proj1 (proj2 Hsame)), Hs in Hs0. injection Hs0 as <-.
  rewrite <- (chain_func _ _ _ _ Hch1 Hxs) in Hx.
  destruct (decide (x = c)) as [->|Hne]; [by apply matchesConn_dead|].
  apply not_true_is_false. intros Hm.
  apply matchesConn_spec in Hm as (Hsigx & Hcbx & Hthx).
  pose proof (chain_lt _ _ _ _ Hch Hx) as Hltx.
  pose proof (chain_lt _ _ _ _ Hch Hc) as Hlt.
  destruct (Hkept x Hne Hltx) as (Hk1 & Hk2 & Hk3).
  destruct (lookup_lt_is_Some_2 _ _ Hlt) as [r Hr].
  destruct (lookup_lt_is_Some_2 _ _ Hltx) as [rx Hrx].
  rewrite (getC_lookup _ _ _ Hr) in Hsig, Hcb, Hth.
  rewrite (getC_lookup _ _ _ Hrx) in Hk1, Hk2, Hk3.
  apply Hne. symmetry. apply (Hu c x r rx); try done; try congruence.
  unfold liveb. by rewrite Hcb.
Qed.

(** C10 (connecting again).  After a [disconnect] that returned [true] the
    dead connection is still in the list of the sender, and yet a
    [connect] for the same sender, signal, callback and context returns
    [true]: it makes a connection, which goes to the tail of the list,
    behind the dead one.  An emission of the signal that runs to its end
    then calls the callback with that context once, through the new
    connection. *)
Theorem connect_after_disconnect {U} (body : Obj → JsVal → Obj → Args → Prog U)
    σ s sig cb this0 σ1 :
  wf σ → disconnect σ s sig cb this0 = Some (σ1, true) →
  ∃ c σ2,
    c ∈ connectionsOf σ1 s ∧ liveb (getC σ1 c) = false
    ∧ connectionsOf σ1 s = connectionsOf σ s
    ∧ connect σ1 s sig cb this0 = Some (σ2, true)
    ∧ connectionsOf σ2 s = connectionsOf σ s ++ [length (conns σ1)]
    ∧ c < length (conns σ1)
    ∧ ∀ fuel d u args,
        wellBehaved body true sig s args σ2 (connectionsOf σ2 s) →
        length (connectionsOf σ2 s) < fuel →
        res_out (emit body fuel d σ2 u s sig args) = Normal tt
        ∧ callsTo cb (orUndefined this0) (res_trace (emit body fuel d σ2 u s sig args))
          = [invocationOf d s args σ2 (length (conns σ1))].
Proof.
  intros Hwf Hd. pose proof (disconnect_noMatch _ _ _ _ _ _ Hwf Hd) as Hno.
  destruct (senderMap σ !! s) as [l|] eqn:Hs.
  2: { rewrite (disconnect_None _ _ _ _ _ Hs) in Hd. by simplify_eq. }
  destruct (disconnect_true _ _ _ _ _ _ _ Hwf Hs Hd)
    as (c & Hc & Hsig & Hcb & Hth & Hσ1 & Hwf1 & Hsame & Hch1 & Hdead & _).
  pose proof (sameS_connectionsOf σ σ1 s Hwf Hwf1 Hsame) as Hco1.
  pose proof (connect_fresh σ1 s sig cb this0 (proj1 Hwf1) Hno) as Hcn.
  pose proof (connect_keeps_wf _ _ _ _ _ _ _ Hwf1 Hcn) as Hwf2.
  pose proof (connect_connectionsOf _ _ _ _ _ _ Hwf1 Hcn) as Hco2.
  destruct (connected_new σ1 s sig cb this0 Hwf1) as (r & Hr & Hsig2 & Hcb2 & Hth2 & _).
  exists c, (connected σ1 s sig cb this0). split_and!.
  - by rewrite Hco1, (connectionsOf_Some _ _ _ Hs).
  - unfold liveb. by rewrite Hdead.
  - done.
  - done.
  - by rewrite Hco2, Hco1.
  - exact (chain_lt _ _ _ _ Hch1 Hc).
  - intros fuel d u args Hwb Hf.
    assert (length (conns σ1) ∈ connectionsOf (connected σ1 s sig cb this0) s) as Hin.
    { rewrite Hco2. apply elem_of_app. right. left. }
    destruct (connectionsOf_elem _ _ _ Hin) as (l2 & Hs2 & Hin2).
    rewrite (connectionsOf_Some _ _ _ Hs2) in Hwb, Hf.
    pose proof (chain_chainOf _ s l2 Hwf2 Hs2) as Hch2.
    destruct (emit_quiet body true fuel d _ u s sig args l2 _ Hwf2 Hs2 Hch2 Hwb Hf)
      as (Ho & Ht & _).
    split; [done|]. rewrite Ht.
    apply (callsTo_snapshot _ l2); try done; by rewrite (getC_lookup _ _ _ Hr).
Qed.

Lemma connect_after_disconnect_witness :
  let σ2 := connected withDead obj1 oneSignal onOne (VObj handler1) in
  connectionsOf withDead obj1 = [0] ∧ liveb (getC withDead 0) = false
  ∧ connect withDead obj1 oneSignal onOne (VObj handler1) = Some (σ2, true)
  ∧ connectionsOf σ2 obj1 = [0; 1]
  ∧ res_out (emit testBody 16 0 σ2 tt obj1 oneSignal 0) = Normal tt
  ∧ callsTo onOne (VObj handler1) (res_trace (emit testBody 16 0 σ2 tt obj1 oneSignal 0))
    = [invocationOf 0 obj1 0 σ2 1].
Proof.
  intros σ2.
  assert (wf withOne) as Hwf by (apply run_wf_init; vm_compute; congruence).
  assert (disconnect withOne obj1 oneSignal onOne (VObj handler1) = Some (withDead, true))
    as Hd by (vm_compute; reflexivity).
  destruct (connect_after_disconnect testBody withOne obj1 oneSignal onOne
              (VObj handler1) withDead Hwf Hd)
    as (c & σ2' & Hc & Hdead & _ & Hcn & _ & _ & He).
  assert (σ2' = σ2) as ->.
  { assert (connect withDead obj1 oneSignal onOne (VObj handler1) = Some (σ2, true))
      as Hcn' by (vm_compute; reflexivity).
    rewrite Hcn in Hcn'. by injection Hcn'. }
  split; [vm_compute; reflexivity|]. split; [vm_compute; reflexivity|].
  split; [exact Hcn|]. split; [vm_compute; reflexivity|].
  apply (He 16 0 tt 0).
  - solve_wellBehaved.
  - vm_compute. lia.
Defined.

(** * Further properties of the engine *)

(** ** The invariant, read through the lists and the chains *)

Lemma wf_first_last σ s l :
  wf σ → senderMap σ !! s = Some l →
  first (getL σ l) = head (connectionsOf σ s)
  ∧ last (getL σ l) = list_last (connectionsOf σ s).
Proof.
  intros Hwf Hs. rewrite (connectionsOf_Some _ _ _ Hs).
  destruct (chain_chainOf σ s l Hwf Hs) as (L & HL & Hseg & Hlast).
  rewrite (getL_lookup _ _ _ HL). split; [|done].
  by apply lseg_head_None in Hseg.
Qed.

Lemma wf_unique σ s c1 c2 :
  wf σ → c1 ∈ connectionsOf σ s → c2 ∈ connectionsOf σ s →
  liveb (getC σ c1) = true → signal (getC σ c1) = signal (getC σ c2) →
  callback (getC σ c1) = callback (getC σ c2) →
  thisArg (getC σ c1) = thisArg (getC σ c2) → c1 = c2.
Proof.
  intros Hwf (l & Hs & H1)%connectionsOf_elem H2 Hl Hsig Hcb Hth.
  rewrite (connectionsOf_Some _ _ _ Hs) in H2.
  pose proof (chain_chainOf σ s l Hwf Hs) as Hch.
  pose proof (wf_uniq_live σ l _ Hwf Hch) as Hu.
  destruct (lookup_lt_is_Some_2 _ _ (chain_lt _ _ _ _ Hch H1)) as [r1 Hr1].
  destruct (lookup_lt_is_Some_2 _ _ (chain_lt _ _ _ _ Hch H2)) as [r2 Hr2].
  rewrite (getC_lookup _ _ _ Hr1) in Hl, Hsig, Hcb, Hth.
  rewrite (getC_lookup _ _ _ Hr2) in Hsig, Hcb, Hth.
  by apply (Hu c1 c2 r1 r2).
Qed.

Lemma wf_refs σ l : wf σ → (0 ≤ refs (getL σ l))%Z.
Proof.
  intros [HS _]. unfold getL. destruct (lists σ !! l) as [L|] eqn:HL; [|done].
  exact (wfS_refs σ HS l L HL).
Qed.

(** X1 (the invariant of the registry).  Start from the empty registry and
    run any sequence of calls of the engine, with any callbacks: callbacks
    that connect, disconnect, emit again, tear down or throw.  If the run
    comes back, the registry is well formed.  For every sender, the list
    holds its connections once each, in the order of their creation, from
    [first] to [last], and no two live connections of it carry the same
    signal, callback and context; no connection is in the lists of two
    senders; the chain of every receiver holds exactly the connections
    whose receiver it is, which are live; and no emission count is
    negative. *)
Theorem registry_invariant {U} (body : Obj → JsVal → Obj → Args → Prog U) fuel d p u :
  res_out (runProg (emit body fuel) d p initState u) ≠ Diverged →
  let σ := res_state (runProg (emit body fuel) d p initState u) in
  wf σ
  ∧ (∀ s, StronglySorted lt (connectionsOf σ s))
  ∧ (∀ s l, senderMap σ !! s = Some l →
       first (getL σ l) = head (connectionsOf σ s)
       ∧ last (getL σ l) = list_last (connectionsOf σ s))
  ∧ (∀ s c1 c2, c1 ∈ connectionsOf σ s → c2 ∈ connectionsOf σ s →
       liveb (getC σ c1) = true → signal (getC σ c1) = signal (getC σ c2) →
       callback (getC σ c1) = callback (getC σ c2) →
       thisArg (getC σ c1) = thisArg (getC σ c2) → c1 = c2)
  ∧ (∀ c s1 s2, c ∈ connectionsOf σ s1 → c ∈ connectionsOf σ s2 → s1 = s2)
  ∧ (∀ o c, c ∈ connectionsTo σ o
            ↔ c < length (conns σ) ∧ receiverOf (getC σ c) = Some o)
  ∧ (∀ o, NoDup (connectionsTo σ o))
  ∧ (∀ l, (0 ≤ refs (getL σ l))%Z).
Proof.
  intros Hout σ.
  assert (wf σ) as Hwf by exact (run_wf body fuel d p initState u wf_initState Hout).
  split_and!.
  - done.
  - intros s. unfold connectionsOf. destruct (senderMap σ !! s) as [l|] eqn:Hs.
    + exact (chain_sorted σ l _ Hwf (chain_chainOf σ s l Hwf Hs)).
    + constructor.
  - intros s l. by apply wf_first_last.
  - intros s c1 c2. by apply wf_unique.
  - intros c s1 s2. by apply connectionsOf_disj.
  - intros o c. by apply connectionsTo_elem.
  - intros o. by destruct (connectionsTo_rchain σ o Hwf) as (_ & _ & Hnd & _).
  - intros l. by apply wf_refs.
Qed.

Lemma registry_invariant_witness :
  let σ := res_state (runProg (emit testBody 16) 0 busyRun initState tt) in
  wf σ
  ∧ (∀ s, StronglySorted lt (connectionsOf σ s))
  ∧ (∀ s l, senderMap σ !! s = Some l →
       first (getL σ l) = head (connectionsOf σ s)
       ∧ last (getL σ l) = list_last (connectionsOf σ s))
  ∧ (∀ s c1 c2, c1 ∈ connectionsOf σ s → c2 ∈ connectionsOf σ s →
       liveb (getC σ c1) = true → signal (getC σ c1) = signal (getC σ c2) →
       callback (getC σ c1) = callback (getC σ c2) →
       thisArg (getC σ c1) = thisArg (getC σ c2) → c1 = c2)
  ∧ (∀ c s1 s2, c ∈ connectionsOf σ s1 → c ∈ connectionsOf σ s2 → s1 = s2)
  ∧ (∀ o c, c ∈ connectionsTo σ o
            ↔ c < length (conns σ) ∧ receiverOf (getC σ c) = Some o)
  ∧ (∀ o, NoDup (connectionsTo σ o))
  ∧ (∀ l, (0 ≤ refs (getL σ l))%Z).
Proof.
  apply (registry_invariant testBody 16 0 busyRun tt). vm_compute. congruence.
Defined.

(** ** What an emission never does *)

Lemma evolves_getC σ σ' c :
  evolves σ σ' → c < length (conns σ) → keptM (getC σ c) (getC σ' c).
Proof.
  intros (_ & Hm & _) Hlt. destruct (lookup_lt_is_Some_2 _ _ Hlt) as [r Hr].
  destruct (Hm c r Hr) as (r' & Hr' & Hk).
  by rewrite (getC_lookup _ _ _ Hr), (getC_lookup _ _ _ Hr').
Qed.

Lemma evolves_refs σ σ' l :
  evolves σ σ' → l < length (lists σ) →
  l < length (lists σ') ∧ refs (getL σ' l) = refs (getL σ l).
Proof.
  intros (_ & _ & Hst) Hlt. destruct (lookup_lt_is_Some_2 _ _ Hlt) as [L HL].
  destruct (Hst l L HL) as (L' & HL' & Hr & _).
  rewrite (getL_lookup _ _ _ HL), (getL_lookup _ _ _ HL').
  split; [by eapply lookup_lt_Some | done].
Qed.

(** X2 (an emission only adds and disconnects).  Whatever the callbacks
    do, when [emit] returns or throws, the registry is well formed; every
    connection that existed still exists, with its signal, and with its
    callback and context unless it was disconnected meanwhile, in which
    case both are cleared: no connection is revived or given another
    callback; and every list that existed has the emission count that it
    had, also when a callback threw. *)
Theorem emit_monotone {U} (body : Obj → JsVal → Obj → Args → Prog U)
    fuel d σ u s sig args :
  wf σ → res_out (emit body fuel d σ u s sig args) ≠ Diverged →
  let σ' := res_state (emit body fuel d σ u s sig args) in
  wf σ'
  ∧ length (conns σ) ≤ length (conns σ')
  ∧ (∀ c, c < length (conns σ) →
       signal (getC σ' c) = signal (getC σ c)
       ∧ ((callback (getC σ' c) = callback (getC σ c)
           ∧ thisArg (getC σ' c) = thisArg (getC σ c))
          ∨ (callback (getC σ' c) = None ∧ thisArg (getC σ' c) = VNull)))
  ∧ (∀ l, l < length (lists σ) →
       l < length (lists σ') ∧ refs (getL σ' l) = refs (getL σ l)).
Proof.
  intros Hwf Hout σ'.
  destruct (emit_good body fuel d σ u s sig args Hwf Hout) as (Hwf' & Hev & _).
  fold σ' in Hwf', Hev. split_and!.
  - done.
  - by destruct Hev.
  - intros c Hc. exact (evolves_getC _ _ _ Hev Hc).
  - intros l Hl. exact (evolves_refs _ _ _ Hev Hl).
Qed.

Lemma emit_monotone_witness :
  let σ' := res_state (emit testBody 16 0 withThrower tt obj1 threeSignal 0) in
  res_out (emit testBody 16 0 withThrower tt obj1 threeSignal 0) = Thrown
  ∧ wf σ'
  ∧ length (conns withThrower) ≤ length (conns σ')
  ∧ (∀ c, c < length (conns withThrower) →
       signal (getC σ' c) = signal (getC withThrower c)
       ∧ ((callback (getC σ' c) = callback (getC withThrower c)
           ∧ thisArg (getC σ' c) = thisArg (getC withThrower c))
          ∨ (callback (getC σ' c) = None ∧ thisArg (getC σ' c) = VNull)))
  ∧ (∀ l, l < length (lists withThrower) →
       l < length (lists σ') ∧ refs (getL σ' l) = refs (getL withThrower l)).
Proof.
  split; [vm_compute; reflexivity|].
  apply (emit_monotone testBody 16 0 withThrower tt obj1 threeSignal 0).
  - apply run_wf_init. vm_compute. congruence.
  - vm_compute. congruence.
Defined.

(** X3 (a list that is being walked only grows).  While an emission is
    running on a list, its emission count is positive.  Whatever is run
    from such a state, callbacks and nested emissions included, and even a
    [disconnectSender] for the sender of the list, the list keeps every
    connection it holds, in place: when the run comes back the list is the
    old list followed by connections made during the run. *)
Theorem walked_list_only_grows {U} (body : Obj → JsVal → Obj → Args → Prog U)
    fuel d p σ u l :
  wf σ → l < length (lists σ) → (0 < refs (getL σ l))%Z →
  res_out (runProg (emit body fuel) d p σ u) ≠ Diverged →
  ∃ ext,
    chainOf (res_state (runProg (emit body fuel) d p σ u)) l = chainOf σ l ++ ext
    ∧ Forall (λ c, length (conns σ) ≤ c) ext.
Proof.
  intros Hwf Hl Hrefs Hout.
  destruct (run_good body fuel d p σ u Hwf Hout) as (Hwf' & (_ & _ & Hst) & _).
  destruct (lookup_lt_is_Some_2 _ _ Hl) as [L HL].
  destruct (wfS_chain_of σ l (proj1 Hwf) Hl) as (xs & Hxs & _).
  destruct (Hst l L HL) as (L' & HL' & _ & Hgrow).
  rewrite (getL_lookup _ _ _ HL) in Hrefs.
  destruct (Hgrow Hrefs xs Hxs) as (ext & Hch' & Hext).
  exists ext. split; [|done].
  by rewrite (chainOf_wf _ _ _ Hwf Hxs), (chainOf_wf _ _ _ Hwf' Hch').
Qed.

Lemma walked_list_only_grows_witness :
  let σ := incRefs 0 withRemover in
  chainOf σ 0 = [0; 1; 2; 3]
  ∧ ∃ ext,
      chainOf (res_state (runProg (emit testBody 16) 1 insidePass σ tt)) 0
      = chainOf σ 0 ++ ext
      ∧ Forall (λ c, length (conns σ) ≤ c) ext.
Proof.
  intros σ. split; [vm_compute; reflexivity|].
  apply (walked_list_only_grows testBody 16 1 insidePass σ tt 0).
  - apply incRefs_wf, run_wf_init. vm_compute. congruence.
  - vm_compute. lia.
  - vm_compute. reflexivity.
  - vm_compute. congruence.
Defined.

(** ** What [connect] and [disconnect] return, in every state *)

Lemma isConnected_true σ s sig cb this0 :
  isConnected σ s sig cb this0 = true
  ↔ ∃ c, c ∈ connectionsOf σ s
       ∧ matchesConn sig cb (orUndefined this0) (getC σ c) = true.
Proof.
  unfold isConnected. rewrite existsb_exists.
  split; intros (c & Hc & Hm); exists c; split; try done; by apply list_elem_of_In.
Qed.

Lemma isConnected_noMatch σ s sig cb this0 :
  wf σ → isConnected σ s sig cb this0 = false ↔ noMatch σ s sig cb this0.
Proof.
  intros Hwf. split.
  - intros Hf l xs c Hs Hxs Hc. apply not_true_is_false. intros Hm.
    assert (isConnected σ s sig cb this0 = true) as Ht; [|congruence].
    apply isConnected_true. exists c. split; [|done].
    by rewrite (connectionsOf_Some _ _ _ Hs), (chainOf_wf _ _ _ Hwf Hxs).
  - intros Hno. apply not_true_is_false. intros (c & Hc & Hm)%isConnected_true.
    destruct (connectionsOf_elem _ _ _ Hc) as (l & Hs & Hcl).
    by rewrite (Hno l _ c Hs (chain_chainOf σ s l Hwf Hs) Hcl) in Hm.
Qed.

(** X4 ([connect] and [disconnect], in every state).  On a well-formed
    registry both calls return: their loops end.  [connect] returns
    [false] and changes nothing when the list of the sender holds a live
    connection for the signal, callback and context, and otherwise returns
    [true]; either way such a connection exists afterwards.  [disconnect]
    returns [true] when one exists, and otherwise returns [false] and
    changes nothing; either way none exists afterwards.  So a second
    [connect] in a row returns [false], and so does a second
    [disconnect]. *)
Theorem connect_disconnect_decided σ s sig cb this0 :
  wf σ →
  (∃ σ', connect σ s sig cb this0 = Some (σ', negb (isConnected σ s sig cb this0))
     ∧ wf σ' ∧ isConnected σ' s sig cb this0 = true
     ∧ (isConnected σ s sig cb this0 = true → σ' = σ)
     ∧ connect σ' s sig cb this0 = Some (σ', false))
  ∧ (∃ σ', disconnect σ s sig cb this0 = Some (σ', isConnected σ s sig cb this0)
       ∧ wf σ' ∧ isConnected σ' s sig cb this0 = false
       ∧ (isConnected σ s sig cb this0 = false → σ' = σ)
       ∧ disconnect σ' s sig cb this0 = Some (σ', false)).
Proof.
  intros Hwf.
  assert (∀ σ0, wf σ0 → isConnected σ0 s sig cb this0 = true →
            connect σ0 s sig cb this0 = Some (σ0, false)) as Hfound.
  { intros σ0 Hwf0 (c & Hc & Hm)%isConnected_true.
    destruct (connectionsOf_elem _ _ _ Hc) as (l & Hs & Hcl).
    exact (connect_found σ0 s sig cb this0 l _ c (proj1 Hwf0) Hs
             (chain_chainOf σ0 s l Hwf0 Hs) Hcl Hm). }
  assert (∀ σ0, wf σ0 → isConnected σ0 s sig cb this0 = false →
            disconnect σ0 s sig cb this0 = Some (σ0, false)) as Hnone.
  { intros σ0 Hwf0 Hf. destruct (senderMap σ0 !! s) as [l|] eqn:Hs.
    - pose proof (chain_chainOf σ0 s l Hwf0 Hs) as Hch.
      rewrite (disconnect_Some σ0 s l _ sig cb this0 Hs Hch (chain_NoDup _ _ _ Hwf0 Hch)).
      rewrite filter_None; [done|]. intros c Hc Hm.
      apply (proj1 (isConnected_noMatch _ _ _ _ _ Hwf0) Hf l _ c Hs Hch) in Hc.
      congruence.
    - by apply disconnect_None. }
  split.
  - destruct (isConnected σ s sig cb this0) eqn:Hi.
    + exists σ. split_and!; try done; by apply Hfound.
    + apply isConnected_noMatch in Hi; [|done].
      pose proof (connect_fresh σ s sig cb this0 (proj1 Hwf) Hi) as Hc.
      pose proof (connect_keeps_wf _ _ _ _ _ _ _ Hwf Hc) as Hwf'.
      assert (isConnected (connected σ s sig cb this0) s sig cb this0 = true) as Hi'.
      { apply isConnected_true. exists (length (conns σ)). split.
        - rewrite (connect_connectionsOf _ _ _ _ _ _ Hwf Hc).
          apply elem_of_app. right. left.
        - destruct (connected_new σ s sig cb this0 Hwf) as (r & Hr & ? & ? & ? & _).
          apply matchesConn_spec. by rewrite (getC_lookup _ _ _ Hr). }
      exists (connected σ s sig cb this0). split_and!; try done. by apply Hfound.
  - destruct (isConnected σ s sig cb this0) eqn:Hi.
    + pose proof Hi as (c & Hc & Hm)%isConnected_true.
      destruct (connectionsOf_elem _ _ _ Hc) as (l & Hs & Hcl).
      apply matchesConn_spec in Hm as (Hsig & Hcb & Hth).
      pose proof (disconnect_live σ s l c sig cb this0 Hwf Hs Hcl Hsig Hcb Hth) as Hd.
      pose proof (disconnect_keeps_wf _ _ _ _ _ _ _ Hwf Hd) as Hwf'.
      assert (isConnected (kill c (removeFromSendersList c σ)) s sig cb this0 = false)
        as Hi'.
      { apply isConnected_noMatch; [done|].
        exact (disconnect_noMatch σ s sig cb this0 _ Hwf Hd). }
      eexists. split; [exact Hd|]. split_and!; try done. by apply Hnone.
    + exists σ. split_and!; try done; by apply Hnone.
Qed.

Lemma connect_disconnect_decided_witness :
  isConnected withOne obj1 oneSignal onOne (VObj handler1) = true
  ∧ isConnected withOne obj1 oneSignal onOne (VObj handler2) = false
  ∧ (∃ σ', connect withOne obj1 oneSignal onOne (VObj handler2)
           = Some (σ', negb (isConnected withOne obj1 oneSignal onOne (VObj handler2)))
       ∧ wf σ' ∧ isConnected σ' obj1 oneSignal onOne (VObj handler2) = true
       ∧ (isConnected withOne obj1 oneSignal onOne (VObj handler2) = true → σ' = withOne)
       ∧ connect σ' obj1 oneSignal onOne (VObj handler2) = Some (σ', false))
  ∧ (∃ σ', disconnect withOne obj1 oneSignal onOne (VObj handler1)
           = Some (σ', isConnected withOne obj1 oneSignal onOne (VObj handler1))
       ∧ wf σ' ∧ isConnected σ' obj1 oneSignal onOne (VObj handler1) = false
       ∧ (isConnected withOne obj1 oneSignal onOne (VObj handler1) = false → σ' = withOne)
       ∧ disconnect σ' obj1 oneSignal onOne (VObj handler1) = Some (σ', false)).
Proof.
  assert (wf withOne) as Hwf by (apply run_wf_init; vm_compute; congruence).
  split; [vm_compute; reflexivity|]. split; [vm_compute; reflexivity|]. split.
  - exact (proj1 (connect_disconnect_decided withOne obj1 oneSignal onOne
                    (VObj handler2) Hwf)).
  - exact (proj2 (connect_disconnect_decided withOne obj1 oneSignal onOne
                    (VObj handler1) Hwf)).
Defined.

(** ** What a new connection does to the rest of the registry *)

Lemma connected_rchain σ s sig cb this0 o' :
  wf σ →
  rchain (connected σ s sig cb this0) o'
    (if decide (o' = receiverId (orUndefined this0) cb)
     then length (conns σ) :: connectionsTo σ o' else connectionsTo σ o').
Proof.
  intros Hwf. destruct (connected_heap σ s sig cb this0 Hwf) as (h & Hh & HF).
  assert (length h = length (conns σ)) as Hlen by by rewrite <-(Forall2_length _ _ _ HF).
  set (σ2 := addToList s (senderMap σ !! s) (length (conns σ))
               (allocC (freshConn sig cb (orUndefined this0)) σ)) in *.
  assert (sameR σ (withConns h σ2)) as HR.
  { split; [|done]. unfold σ2, addToList. destruct (senderMap σ !! s) as [l|]; [|done].
    by destruct (last (getL _ l)). }
  assert (∀ o, rchain (withConns h σ2) o (connectionsTo σ o)) as Hold.
  { intros o. apply (sameR_rchain _ _ _ _ HR). by apply connectionsTo_rchain. }
  unfold connected. fold σ2. rewrite <- Hlen.
  case_decide as Ho.
  - subst o'. eapply addToChain_rchain; [exact Hh | done | done | | apply Hold].
    apply freshConn_receiverOf.
  - eapply addToChain_rchain_other; [exact Hh | done | | exact Ho | | apply Hold].
    + apply freshConn_receiverOf.
    + eexists. apply Hold.
Qed.

Lemma connected_senderMap_ne σ s sig cb this0 s' :
  s' ≠ s → senderMap (connected σ s sig cb this0) !! s' = senderMap σ !! s'.
Proof.
  intros Hne. unfold connected.
  rewrite (proj1 (proj2 (addToChain_sameS _ _ _))).
  unfold addToList. destruct (senderMap σ !! s) as [l|] eqn:Hs.
  - by destruct (last (getL _ l)).
  - simpl. by rewrite lookup_insert_ne.
Qed.

(** X5 (what a new connection touches).  A [connect] that returns [true]
    makes one connection, with the signal, the callback and the context
    given, the context [undefined] standing for a falsy one.  The
    connection becomes the head of the chain of its receiver, in front of
    the connections the chain held; the chains of the other receivers and
    the lists of the other senders are as they were; every connection that
    existed keeps its signal, callback and context; and no emission count
    changes. *)
Theorem connect_frame σ s sig cb this0 σ' :
  wf σ → connect σ s sig cb this0 = Some (σ', true) →
  let n := length (conns σ) in
  let o := receiverId (orUndefined this0) cb in
  length (conns σ') = S n
  ∧ signal (getC σ' n) = Some sig ∧ callback (getC σ' n) = Some cb
  ∧ thisArg (getC σ' n) = orUndefined this0
  ∧ receiverMap σ' !! o = Some n
  ∧ connectionsTo σ' o = n :: connectionsTo σ o
  ∧ (∀ o', o' ≠ o → connectionsTo σ' o' = connectionsTo σ o')
  ∧ (∀ s', s' ≠ s → connectionsOf σ' s' = connectionsOf σ s')
  ∧ (∀ c, c < n → keptL (getC σ c) (getC σ' c))
  ∧ (∀ l, l < length (lists σ) → refs (getL σ' l) = refs (getL σ l)).
Proof.
  intros Hwf Hc n o.
  pose proof (connect_keeps_wf _ _ _ _ _ _ _ Hwf Hc) as Hwf'.
  destruct (connect_true _ _ _ _ _ _ Hwf Hc) as [Hno ->].
  destruct (connected_new σ s sig cb this0 Hwf) as (r & Hr & Hsig & Hcb & Hth & _).
  destruct (connected_lookup σ s sig cb this0 Hwf) as (_ & _ & _ & _ & Hlen & Hrm).
  fold n in Hr, Hlen. fold o in Hrm. rewrite (getC_lookup _ _ _ Hr).
  split_and!; try done.
  - rewrite Hrm. apply lookup_insert_eq.
  - pose proof (connected_rchain σ s sig cb this0 o Hwf) as Hch.
    rewrite decide_True in Hch by done. by apply rchain_connectionsTo.
  - intros o' Hne. pose proof (connected_rchain σ s sig cb this0 o' Hwf) as Hch.
    rewrite decide_False in Hch by done. by apply rchain_connectionsTo.
  - intros s' Hne. unfold connectionsOf. rewrite connected_senderMap_ne by done.
    destruct (senderMap σ !! s') as [l'|] eqn:Hs'; [|done].
    pose proof (chain_chainOf σ s' l' Hwf Hs') as Hch.
    apply (connected_chain σ s sig cb this0 Hwf) in Hch.
    rewrite decide_False in Hch.
    + rewrite app_nil_r in Hch. by apply chainOf_wf.
    + intros Hs. apply Hne. exact (wfS_inj σ (proj1 Hwf) s' s l' Hs' Hs).
  - intros c Hlt. apply nokill_getC; [|done]. by apply connected_nokill.
  - intros l Hl. destruct (lookup_lt_is_Some_2 _ _ Hl) as [L HL].
    destruct (connected_refs σ s sig cb this0 l L HL) as (L' & HL' & Hrefs).
    by rewrite (getL_lookup _ _ _ HL), (getL_lookup _ _ _ HL').
Qed.

Lemma connect_frame_witness :
  let σ' := connected twoSenders obj1 twoSignal onTwo (VObj handler1) in
  connectionsTo twoSenders handler1 = [2; 0]
  ∧ length (conns σ') = 5
  ∧ signal (getC σ' 4) = Some twoSignal ∧ callback (getC σ' 4) = Some onTwo
  ∧ thisArg (getC σ' 4) = VObj handler1
  ∧ receiverMap σ' !! handler1 = Some 4
  ∧ connectionsTo σ' handler1 = 4 :: connectionsTo twoSenders handler1
  ∧ (∀ o', o' ≠ handler1 → connectionsTo σ' o' = connectionsTo twoSenders o')
  ∧ (∀ s', s' ≠ obj1 → connectionsOf σ' s' = connectionsOf twoSenders s')
  ∧ (∀ c, c < 4 → keptL (getC twoSenders c) (getC σ' c))
  ∧ (∀ l, l < length (lists twoSenders) →
       refs (getL σ' l) = refs (getL twoSenders l)).
Proof.
  intros σ'. split; [vm_compute; reflexivity|].
  apply (connect_frame twoSenders obj1 twoSignal onTwo (VObj handler1) σ').
  - apply run_wf_init. vm_compute. congruence.
  - vm_compute. reflexivity.
Defined.

(** ** Emissions of callbacks that keep to themselves, by sender *)

Lemma emit_quiet_sender {U} (body : Obj → JsVal → Obj → Args → Prog U)
    cn fuel d σ u s sig args :
  wf σ → wellBehaved body cn sig s args σ (connectionsOf σ s) →
  length (connectionsOf σ s) < fuel →
  res_out (emit body fuel d σ u s sig args) = Normal tt
  ∧ res_trace (emit body fuel d σ u s sig args)
    = invocationOf d s args σ <$> snapshot sig σ (connectionsOf σ s)
  ∧ wf (res_state (emit body fuel d σ u s sig args))
  ∧ (cn = false → ¬ (anyDead σ (connectionsOf σ s) = true
                      ∧ refs (getL σ (default 0 (senderMap σ !! s))) = 0%Z) →
       res_state (emit body fuel d σ u s sig args) = σ).
Proof.
  intros Hwf Hwb Hf. unfold connectionsOf in *.
  destruct (senderMap σ !! s) as [l|] eqn:Hs.
  - destruct (emit_quiet body cn fuel d σ u s sig args l _ Hwf Hs
                (chain_chainOf σ s l Hwf Hs) Hwb Hf) as (Ho & Ht & Hwf' & _ & _ & Hst).
    split_and!; try done. intros Hcn Hno. specialize (Hst Hcn). simpl in Hno.
    destruct (anyDead σ (chainOf σ l)); simpl in Hst; [|by injection Hst].
    case_bool_decide as Hr; [|by injection Hst]. by destruct Hno.
  - destruct fuel; [simpl in Hf; lia|]. rewrite emit_None by done. done.
Qed.

(** ** Connecting and disconnecting at once *)

(** X6 (a connection made and broken at once).  After a [connect] that
    returned [true], the [disconnect] for the same sender, signal, callback
    and context returns [true], and the receiver side of the registry is
    back where it was: [receiverMap] is the map it was and every chain is
    the chain it was.  On the sender side the dead connection stays at
    the tail of the list, every other connection carries what it carried,
    and an emission of callbacks that return and at most connect, on any
    sender and signal, makes the calls it would have made before the
    two. *)
Theorem connect_disconnect_round_trip {U} (body : Obj → JsVal → Obj → Args → Prog U)
    σ s sig cb this0 σ1 :
  wf σ → connect σ s sig cb this0 = Some (σ1, true) →
  ∃ σ2, disconnect σ1 s sig cb this0 = Some (σ2, true)
    ∧ wf σ2
    ∧ receiverMap σ2 = receiverMap σ
    ∧ (∀ o, connectionsTo σ2 o = connectionsTo σ o)
    ∧ connectionsOf σ2 s = connectionsOf σ s ++ [length (conns σ)]
    ∧ liveb (getC σ2 (length (conns σ))) = false
    ∧ (∀ c, c < length (conns σ) → keptL (getC σ c) (getC σ2 c))
    ∧ ∀ s' sig' fuel d u args,
        wellBehaved body true sig' s' args σ (connectionsOf σ s') →
        length (connectionsOf σ2 s') < fuel →
        res_out (emit body fuel d σ2 u s' sig' args) = Normal tt
        ∧ res_trace (emit body fuel d σ2 u s' sig' args)
          = res_trace (emit body fuel d σ u s' sig' args).
Proof.
  intros Hwf Hc. set (n := length (conns σ)).
  set (o := receiverId (orUndefined this0) cb).
  pose proof (connect_keeps_wf _ _ _ _ _ _ _ Hwf Hc) as Hwf1.
  pose proof (connect_connectionsOf _ _ _ _ _ _ Hwf Hc) as Hco1. fold n in Hco1.
  destruct (connect_true _ _ _ _ _ _ Hwf Hc) as [Hno Hσ1].
  assert (conns σ1 !! n
          = Some (set_nextSender (receiverMap σ !! o) (freshConn sig cb (orUndefined this0)))
          ∧ length (conns σ1) = S n
          ∧ receiverMap σ1 = <[o := n]> (receiverMap σ)) as (Hrn & Hlen1 & Hrm1).
  { rewrite Hσ1. by destruct (connected_lookup σ s sig cb this0 Hwf) as (_ & _ & _ & ? & ? & ?). }
  pose proof (getC_lookup _ _ _ Hrn) as Hgn.
  assert (n ∈ connectionsOf σ1 s) as Hin1.
  { rewrite Hco1. apply elem_of_app. right. left. }
  destruct (connectionsOf_elem _ _ _ Hin1) as (l & Hs1 & Hcl1).
  assert (disconnect σ1 s sig cb this0
          = Some (kill n (removeFromSendersList n σ1), true)) as Hd.
  { apply (disconnect_live σ1 s l n sig cb this0 Hwf1 Hs1 Hcl1); by rewrite Hgn. }
  destruct (disconnect_true _ _ _ _ _ _ _ Hwf1 Hs1 Hd)
    as (c & _ & _ & _ & _ & Hσ2 & Hwf2 & Hsame & _ & _ & _ & _ & _).
  set (σ2 := kill n (removeFromSendersList n σ1)) in *.
  assert (nokill σ σ1) as Hnk by (rewrite Hσ1; by apply connected_nokill).
  assert (callback (getC σ2 n) = None) as Hdead.
  { assert (is_Some (conns (removeFromSendersList n σ1) !! n)) as [r1 Hr1].
    { apply lookup_lt_is_Some.
      destruct (unlink_sameS σ1 n) as (_ & _ & HF). apply Forall2_length in HF.
      unfold kill in HF. simpl in HF. rewrite !length_alter in HF. lia. }
    unfold σ2. erewrite getC_lookup; [|rewrite kill_lookup, Hr1; done].
    unfold killRec. by rewrite decide_True. }
  assert (∀ x, x < n → keptL (getC σ x) (getC σ2 x)) as Hkept.
  { intros x Hx. etrans; [exact (nokill_getC _ _ _ Hnk Hx)|].
    assert (x < length (conns σ1)) as Hx1 by lia.
    destruct (lookup_lt_is_Some_2 _ _ Hx1) as [r Hr].
    destruct (unlink_keptL n σ1 x r ltac:(lia) Hr) as (r' & Hr' & Hk).
    by rewrite (getC_lookup _ _ _ Hr), (getC_lookup σ2 x r'). }
  assert (receiverOf (getC σ1 n) = Some o) as Ho.
  { rewrite Hgn. apply freshConn_receiverOf. }
  assert (connectionsOf σ2 s = connectionsOf σ s ++ [n]) as Hco2.
  { rewrite <- Hco1. by apply sameS_connectionsOf. }
  exists σ2. split_and!; try done.
  - unfold σ2. simpl. rewrite (removeFromSendersList_receiverMap n σ1 o Ho), Hgn. simpl.
    rewrite Hrm1. destruct (receiverMap σ !! o) as [hd|] eqn:Hhd.
    + by rewrite insert_insert_eq, insert_id.
    + by rewrite delete_insert_id.
  - intros o'.
    pose proof (unlink_rchain_all σ1 n o' _ (proj2 Hwf1) (connectionsTo_rchain σ1 o' Hwf1))
      as Hch.
    fold σ2 in Hch. rewrite (rchain_connectionsTo _ _ _ Hch).
    pose proof (connected_rchain σ s sig cb this0 o' Hwf) as Hch1. rewrite <- Hσ1 in Hch1.
    rewrite (rchain_connectionsTo _ _ _ Hch1). fold o.
    assert (filter (λ x, x ≠ n) (connectionsTo σ o') = connectionsTo σ o') as Hfl.
    { rewrite (filter_ext_in _ (λ _, True)).
      - clear. induction (connectionsTo σ o') as [|a xs IH]; [done|].
        by rewrite filter_cons_True, IH.
      - intros x Hx. split; [done|]. intros _ ->.
        apply (rchain_valid _ _ _ _ (connectionsTo_rchain σ o' Hwf)) in Hx. lia. }
    destruct (decide (o' = o)); [|exact Hfl].
    rewrite filter_cons_False by (by intros ?). exact Hfl.
  - unfold liveb. by rewrite Hdead.
  - intros s' sig' fuel d u args Hwb Hf.
    assert (∀ x, x ∈ connectionsOf σ s' → x < n) as Hlt.
    { intros x Hx. by eapply connectionsOf_lt. }
    assert (connectionsOf σ2 s'
            = connectionsOf σ s' ++ if decide (s' = s) then [n] else []) as Hco.
    { destruct (decide (s' = s)) as [->|Hne]; [done|].
      rewrite app_nil_r. rewrite (sameS_connectionsOf σ1 σ2 s' Hwf1 Hwf2 Hsame).
      unfold connectionsOf. rewrite Hσ1, connected_senderMap_ne by done.
      destruct (senderMap σ !! s') as [l'|] eqn:Hs'; [|done].
      pose proof (chain_chainOf σ s' l' Hwf Hs') as Hch.
      apply (connected_chain σ s sig cb this0 Hwf) in Hch.
      rewrite decide_False in Hch.
      - rewrite app_nil_r in Hch. rewrite <- Hσ1 in Hch |- *. by apply chainOf_wf.
      - intros Hs. apply Hne. exact (wfS_inj σ (proj1 Hwf) s' s l' Hs' Hs). }
    assert (∀ x, x ∈ connectionsOf σ s' → keptL (getC σ x) (getC σ2 x)) as Hk'.
    { intros x Hx. apply Hkept. by apply Hlt. }
    destruct (kept_snapshot body sig' σ σ2 _ Hk') as (Hsnap & Hinv & Hwb').
    assert (snapshot sig' σ2 (connectionsOf σ2 s') = snapshot sig' σ (connectionsOf σ s'))
      as Hsnap2.
    { rewrite Hco, snapshot_app, Hsnap. case_decide; [|by rewrite app_nil_r].
      unfold snapshot at 2. rewrite filter_cons_False, filter_nil, app_nil_r; [done|].
      unfold invokedb, liveb. by rewrite Hdead. }
    assert (wellBehaved body true sig' s' args σ2 (connectionsOf σ2 s')) as Hwb2.
    { intros x cb' Hc' Hinv' Hcb'. rewrite Hco in Hc'.
      apply elem_of_app in Hc' as [Hc'|Hc'].
      - by apply (Hwb' true s' args Hwb x cb').
      - case_decide; [|by apply elem_of_nil in Hc'].
        apply list_elem_of_singleton in Hc' as ->. congruence. }
    assert (length (connectionsOf σ s') < fuel) as Hf0.
    { rewrite Hco, length_app in Hf. lia. }
    destruct (emit_quiet_sender body true fuel d σ2 u s' sig' args Hwf2 Hwb2 Hf)
      as (Ho2 & Ht2 & _).
    destruct (emit_quiet_sender body true fuel d σ u s' sig' args Hwf Hwb Hf0)
      as (_ & Ht0 & _).
    split; [done|]. rewrite Ht2, Ht0, Hsnap2.
    apply Forall_fmap_ext_1, Forall_forall. intros x [_ Hc']%snapshot_elem.
    by apply Hinv.
Qed.

Lemma connect_disconnect_round_trip_witness :
  let σ1 := connected twoSenders obj1 twoSignal onTwo (VObj handler1) in
  connect twoSenders obj1 twoSignal onTwo (VObj handler1) = Some (σ1, true)
  ∧ ∃ σ2, disconnect σ1 obj1 twoSignal onTwo (VObj handler1) = Some (σ2, true)
      ∧ receiverMap σ2 = receiverMap twoSenders
      ∧ (∀ o, connectionsTo σ2 o = connectionsTo twoSenders o)
      ∧ connectionsOf σ2 obj1 = connectionsOf twoSenders obj1 ++ [4]
      ∧ liveb (getC σ2 4) = false
      ∧ res_trace (emit testBody 16 0 σ2 tt obj1 oneSignal 0)
        = res_trace (emit testBody 16 0 twoSenders tt obj1 oneSignal 0).
Proof.
  intros σ1.
  assert (wf twoSenders) as Hwf by (apply run_wf_init; vm_compute; congruence).
  assert (connect twoSenders obj1 twoSignal onTwo (VObj handler1) = Some (σ1, true))
    as Hc by (vm_compute; reflexivity).
  split; [exact Hc|].
  destruct (connect_disconnect_round_trip testBody twoSenders obj1 twoSignal onTwo
              (VObj handler1) σ1 Hwf Hc)
    as (σ2 & Hd & _ & Hrm & Hto & Hof & Hdead & _ & He).
  exists σ2. split; [exact Hd|]. split; [exact Hrm|]. split; [exact Hto|].
  split; [exact Hof|]. split; [exact Hdead|].
  apply (He obj1 oneSignal 16 0 tt 0).
  - solve_wellBehaved.
  - rewrite Hof. vm_compute. lia.
Defined.

(** ** Changes that an emission does not see *)

(** The list of the sender has grown by connections that a pass for the
    signal skips, and the connections it held either carry what they
    carried or are skipped before and after: an emission of callbacks that
    keep to themselves makes the same calls. *)
Lemma emit_same {U} (body : Obj → JsVal → Obj → Args → Prog U) σ σ' s sig ext :
  wf σ → wf σ' → connectionsOf σ' s = connectionsOf σ s ++ ext →
  (∀ c, c ∈ connectionsOf σ s →
     keptL (getC σ c) (getC σ' c)
     ∨ (invokedb sig (getC σ c) = false ∧ invokedb sig (getC σ' c) = false)) →
  (∀ c, c ∈ ext → invokedb sig (getC σ' c) = false) →
  ∀ fuel d u args,
    wellBehaved body true sig s args σ (connectionsOf σ s) →
    length (connectionsOf σ' s) < fuel →
    res_out (emit body fuel d σ' u s sig args) = Normal tt
    ∧ res_trace (emit body fuel d σ' u s sig args)
      = res_trace (emit body fuel d σ u s sig args).
Proof.
  intros Hwf Hwf' Hco Hold Hnew fuel d u args Hwb Hf.
  assert (∀ c, c ∈ connectionsOf σ s → invokedb sig (getC σ' c) = true →
            keptL (getC σ c) (getC σ' c)) as Hk.
  { intros c Hc Hi. destruct (Hold c Hc) as [?|[_ ?]]; [done | congruence]. }
  assert (snapshot sig σ' (connectionsOf σ' s) = snapshot sig σ (connectionsOf σ s))
    as Hsnap.
  { rewrite Hco, snapshot_app.
    assert (snapshot sig σ' ext = []) as ->.
    { apply filter_None. intros c Hc. by rewrite (Hnew c Hc). }
    rewrite app_nil_r. apply filter_ext_in. intros c Hc.
    destruct (Hold c Hc) as [(Hs & Hcb & _)|[H1 H2]]; [|by rewrite H1, H2].
    unfold invokedb, liveb. by rewrite Hs, Hcb. }
  assert (wellBehaved body true sig s args σ' (connectionsOf σ' s)) as Hwb'.
  { intros c cb Hc Hi Hcb. rewrite Hco in Hc. apply elem_of_app in Hc as [Hc|Hc].
    - destruct (Hk c Hc Hi) as (Hs & Hcb' & Hth). rewrite Hth.
      apply Hwb; [done | | congruence].
      unfold invokedb, liveb in *. by rewrite <- Hs, <- Hcb'.
    - by rewrite (Hnew c Hc) in Hi. }
  assert (length (connectionsOf σ s) < fuel) as Hf0.
  { rewrite Hco, length_app in Hf. lia. }
  destruct (emit_quiet_sender body true fuel d σ' u s sig args Hwf' Hwb' Hf)
    as (Ho' & Ht' & _).
  destruct (emit_quiet_sender body true fuel d σ u s sig args Hwf Hwb Hf0)
    as (_ & Ht & _).
  split; [done|]. rewrite Ht', Ht, Hsnap.
  apply Forall_fmap_ext_1, Forall_forall. intros c [Hi Hc]%snapshot_elem.
  assert (invokedb sig (getC σ' c) = true) as Hi'.
  { assert (c ∈ snapshot sig σ' (connectionsOf σ' s)) as Hin.
    { rewrite Hsnap. by apply snapshot_elem. }
    by apply snapshot_elem in Hin as [? _]. }
  destruct (Hk c Hc Hi') as (_ & Hcb & Hth).
  unfold invocationOf. by rewrite Hcb, Hth.
Qed.

Lemma disconnect_false σ s sig cb this0 σ' :
  wf σ → disconnect σ s sig cb this0 = Some (σ', false) → σ' = σ.
Proof.
  intros Hwf Hd. destruct (senderMap σ !! s) as [l|] eqn:Hs.
  - pose proof (chain_chainOf σ s l Hwf Hs) as Hch.
    rewrite (disconnect_Some σ s l _ sig cb this0 Hs Hch (chain_NoDup _ _ _ Hwf Hch)) in Hd.
    destruct (head _); by simplify_eq.
  - rewrite (disconnect_None _ _ _ _ _ Hs) in Hd. by simplify_eq.
Qed.

Lemma connect_false σ s sig cb this0 σ' :
  wf σ → connect σ s sig cb this0 = Some (σ', false) → σ' = σ.
Proof.
  intros Hwf Hc.
  destruct (connect_cases σ s sig cb this0 (proj1 Hwf)) as [[H _]|[H _]];
    rewrite H in Hc; by simplify_eq.
Qed.

(** X7 (signals and senders do not interfere).  A [connect] or a
    [disconnect] for another signal, or for another sender, whatever it
    returns, leaves the emissions of a signal on a sender as they were:
    for callbacks that return and at most connect, the emission makes the
    same calls after it as before it. *)
Theorem signal_isolation {U} (body : Obj → JsVal → Obj → Args → Prog U)
    σ s sig s' sig' cb this0 σ' b :
  wf σ → (s' ≠ s ∨ sig' ≠ sig) →
  (connect σ s' sig' cb this0 = Some (σ', b)
   ∨ disconnect σ s' sig' cb this0 = Some (σ', b)) →
  ∀ fuel d u args,
    wellBehaved body true sig s args σ (connectionsOf σ s) →
    length (connectionsOf σ' s) < fuel →
    res_out (emit body fuel d σ' u s sig args) = Normal tt
    ∧ res_trace (emit body fuel d σ' u s sig args)
      = res_trace (emit body fuel d σ u s sig args).
Proof.
  intros Hwf Hne [Hc|Hd].
  - pose proof (connect_keeps_wf _ _ _ _ _ _ _ Hwf Hc) as Hwf'.
    destruct b.
    + pose proof (connect_connectionsOf _ _ _ _ _ _ Hwf Hc) as Hco.
      destruct (connect_true _ _ _ _ _ _ Hwf Hc) as [Hno Hσ'].
      destruct (connected_new σ s' sig' cb this0 Hwf) as (r & Hr & Hsig & _).
      rewrite <- Hσ' in Hr.
      assert (nokill σ σ') as Hnk by (rewrite Hσ'; by apply connected_nokill).
      apply (emit_same body σ σ' s sig
               (if decide (s' = s) then [length (conns σ)] else [])); try done.
      * destruct (decide (s' = s)) as [->|Hs]; [done|]. rewrite app_nil_r.
        unfold connectionsOf. rewrite Hσ', connected_senderMap_ne by done.
        destruct (senderMap σ !! s) as [l|] eqn:Hsl; [|done].
        pose proof (chain_chainOf σ s l Hwf Hsl) as Hch.
        apply (connected_chain σ s' sig' cb this0 Hwf) in Hch.
        rewrite decide_False in Hch.
        -- rewrite app_nil_r in Hch. rewrite <- Hσ' in Hch |- *. by apply chainOf_wf.
        -- intros Hs'. apply Hs. exact (wfS_inj σ (proj1 Hwf) s' s l Hs' Hsl).
      * intros c Hc'. left. apply nokill_getC; [done|]. by eapply connectionsOf_lt.
      * intros c Hc'. destruct (decide (s' = s)) as [->|Hs]; [|by apply elem_of_nil in Hc'].
        apply list_elem_of_singleton in Hc' as ->.
        rewrite (getC_lookup _ _ _ Hr). unfold invokedb. rewrite Hsig.
        destruct Hne as [?|Hne]; [done|].
        rewrite bool_decide_eq_false_2; [apply andb_false_r | congruence].
    + rewrite (connect_false _ _ _ _ _ _ Hwf Hc).
      intros fuel d u args Hwb Hf.
      by destruct (emit_quiet_sender body true fuel d σ u s sig args Hwf Hwb Hf).
  - destruct b.
    + destruct (senderMap σ !! s') as [l'|] eqn:Hs'.
      2: { rewrite (disconnect_None _ _ _ _ _ Hs') in Hd. by simplify_eq. }
      destruct (disconnect_true _ _ _ _ _ _ _ Hwf Hs' Hd)
        as (c & Hc & Hsig & Hcb & _ & Hσ' & Hwf' & Hsame & _ & Hdead & _ & _ & Hkept).
      apply (emit_same body σ σ' s sig []); try done.
      * rewrite app_nil_r. by apply sameS_connectionsOf.
      * intros x Hx. destruct (decide (x = c)) as [->|Hxc].
        -- right.
           assert (s' = s) as <-.
           { apply (connectionsOf_disj σ s' s c Hwf); [|done].
             by rewrite (connectionsOf_Some _ _ _ Hs'). }
           destruct Hne as [?|Hne]; [done|]. unfold invokedb, liveb.
           rewrite Hdead, Hsig, Hcb. simpl.
           by rewrite bool_decide_eq_false_2 by congruence.
        -- left. apply Hkept; [done|]. by eapply connectionsOf_lt.
      * by intros x ?%elem_of_nil.
    + rewrite (disconnect_false _ _ _ _ _ _ Hwf Hd).
      intros fuel d u args Hwb Hf.
      by destruct (emit_quiet_sender body true fuel d σ u s sig args Hwf Hwb Hf).
Qed.

Lemma signal_isolation_witness :
  ∃ σ', disconnect twoSenders obj2 oneSignal onOne (VObj handler1) = Some (σ', true)
    ∧ res_out (emit testBody 16 0 σ' tt obj1 oneSignal 0) = Normal tt
    ∧ res_trace (emit testBody 16 0 σ' tt obj1 oneSignal 0)
      = res_trace (emit testBody 16 0 twoSenders tt obj1 oneSignal 0).
Proof.
  assert (wf twoSenders) as Hwf by (apply run_wf_init; vm_compute; congruence).
  exists (kill 2 (removeFromSendersList 2 twoSenders)).
  assert (disconnect twoSenders obj2 oneSignal onOne (VObj handler1)
          = Some (kill 2 (removeFromSendersList 2 twoSenders), true)) as Hd
    by (vm_compute; reflexivity).
  split; [exact Hd|].
  apply (signal_isolation testBody twoSenders obj1 oneSignal obj2 oneSignal onOne
           (VObj handler1) _ true Hwf).
  - left. vm_compute. congruence.
  - right. exact Hd.
  - solve_wellBehaved.
  - vm_compute. lia.
Defined.

(** ** Emitting twice *)

Lemma anyDead_false σ xs :
  (∀ c, c ∈ xs → liveb (getC σ c) = true) → anyDead σ xs = false.
Proof.
  intros Hl. unfold anyDead. induction xs as [|x xs IH]; [done|]. simpl.
  rewrite (Hl x) by left. simpl. apply IH. intros c Hc. apply Hl. by right.
Qed.

Lemma anyDead_cases σ xs :
  anyDead σ xs = false → ∀ c, c ∈ xs → liveb (getC σ c) = true.
Proof.
  intros Ha c Hc. destruct (liveb (getC σ c)) eqn:Hl; [done|].
  by rewrite (anyDead_elem σ xs c Hc Hl) in Ha.
Qed.

Lemma snapshot_live sig σ xs :
  snapshot sig σ (filter (λ x, liveb (getC σ x) = true) xs) = snapshot sig σ xs.
Proof.
  unfold snapshot. rewrite list_filter_filter. apply list_filter_iff. intros x.
  split; [by intros [? _]|]. intros Hi. split; [done|].
  unfold invokedb in Hi. by apply andb_true_iff in Hi as [? _].
Qed.

(** What an emission of callbacks that leave the engine alone does to the
    registry: it compacts the list of the sender when the list holds a dead
    connection and no other emission is running on it, and does nothing
    otherwise. *)
Lemma emit_passive_state {U} (body : Obj → JsVal → Obj → Args → Prog U)
    σ s sig fuel d u args :
  wf σ → wellBehaved body false sig s args σ (connectionsOf σ s) →
  length (connectionsOf σ s) < fuel →
  (senderMap σ !! s = None → res_state (emit body fuel d σ u s sig args) = σ)
  ∧ ∀ l, senderMap σ !! s = Some l →
      ((∃ c, c ∈ connectionsOf σ s ∧ liveb (getC σ c) = false) →
       refs (getL σ l) = 0%Z →
       cleanList l σ = Some (res_state (emit body fuel d σ u s sig args))
       ∧ connectionsOf (res_state (emit body fuel d σ u s sig args)) s
         = filter (λ x, liveb (getC σ x) = true) (connectionsOf σ s))
      ∧ ((∀ c, c ∈ connectionsOf σ s → liveb (getC σ c) = true)
         ∨ refs (getL σ l) ≠ 0%Z →
         res_state (emit body fuel d σ u s sig args) = σ).
Proof.
  intros Hwf Hwb Hf. split.
  - intros Hs. rewrite emit_None; [done | done | lia].
  - intros l Hs. rewrite (connectionsOf_Some _ _ _ Hs) in *.
    pose proof (chain_chainOf σ s l Hwf Hs) as Hch.
    destruct (emit_quiet body false fuel d σ u s sig args l _ Hwf Hs Hch Hwb Hf)
      as (_ & _ & _ & _ & _ & Hst).
    specialize (Hst eq_refl). split.
    + intros (c & Hc & Hdead) Hrefs. split.
      * rewrite (anyDead_elem σ _ c Hc Hdead), Hrefs in Hst.
        by rewrite bool_decide_eq_true_2 in Hst.
      * by apply (emit_compacts body fuel d σ u s sig args l c).
    + intros [Hlive|Hrefs].
      * rewrite (anyDead_false σ _ Hlive) in Hst. by injection Hst.
      * rewrite (bool_decide_eq_false_2 _ Hrefs), andb_false_r in Hst.
        by injection Hst.
Qed.

(** X8 (emitting twice).  When the callbacks of a signal leave the engine
    alone, [emit] returns, and a second [emit] in a row returns too, makes
    the calls that the first made and leaves the registry as the first left
    it.  When the list of the sender holds a dead connection and no other
    emission is running on it, the first [emit] runs [cleanList] on it and
    leaves it with its live connections only, in their order.  When every
    connection of the list is live, when another emission is running on the
    list, and when the sender has no list, the first [emit] leaves the
    registry as it was. *)
Theorem emit_repeatable {U} (body : Obj → JsVal → Obj → Args → Prog U)
    σ s sig fuel d u u' args :
  wf σ → wellBehaved body false sig s args σ (connectionsOf σ s) →
  length (connectionsOf σ s) < fuel →
  let r1 := emit body fuel d σ u s sig args in
  let r2 := emit body fuel d (res_state r1) u' s sig args in
  res_out r1 = Normal tt ∧ res_out r2 = Normal tt
  ∧ res_trace r2 = res_trace r1
  ∧ res_state r2 = res_state r1
  ∧ (∀ l, senderMap σ !! s = Some l →
       (∃ c, c ∈ connectionsOf σ s ∧ liveb (getC σ c) = false) →
       refs (getL σ l) = 0%Z →
       cleanList l σ = Some (res_state r1)
       ∧ connectionsOf (res_state r1) s
         = filter (λ x, liveb (getC σ x) = true) (connectionsOf σ s))
  ∧ (∀ l, senderMap σ !! s = Some l →
       (∀ c, c ∈ connectionsOf σ s → liveb (getC σ c) = true)
       ∨ refs (getL σ l) ≠ 0%Z →
       res_state r1 = σ)
  ∧ (senderMap σ !! s = None → res_state r1 = σ).
Proof.
  intros Hwf Hwb Hf r1 r2.
  destruct (emit_passive_state body σ s sig fuel d u args Hwf Hwb Hf) as [HN HS].
  fold r1 in HN, HS.
  assert (res_out r1 = Normal tt ∧ res_out r2 = Normal tt
          ∧ res_trace r2 = res_trace r1 ∧ res_state r2 = res_state r1) as H4.
  { clear HN HS. unfold connectionsOf in *.
    destruct (senderMap σ !! s) as [l|] eqn:Hs.
    2: { destruct fuel; [simpl in Hf; lia|]. unfold r2, r1.
         rewrite (emit_None body (S fuel) d σ u s sig args Hs) by done.
         cbn [res_state res_user res_trace res_out].
         rewrite (emit_None body (S fuel) d σ u' s sig args Hs) by done.
         cbn [res_state res_user res_trace res_out].
         by split_and!. }
    pose proof (chain_chainOf σ s l Hwf Hs) as Hch.
    pose proof (chain_NoDup _ _ _ Hwf Hch) as Hnd.
    destruct (emit_quiet body false fuel d σ u s sig args l _ Hwf Hs Hch Hwb Hf)
      as (Ho1 & Ht1 & Hwf1 & _ & Hsm & Hst).
    fold r1 in Ho1, Ht1, Hwf1, Hsm, Hst. specialize (Hst eq_refl).
    specialize (Hsm s l Hs).
    destruct (anyDead σ (chainOf σ l) && bool_decide (refs (getL σ l) = 0%Z)) eqn:Hcond.
    - apply andb_true_iff in Hcond as [Hany Hrefs].
      destruct (cleanList_spec σ l _ Hch Hnd)
        as (σ1 & Hcl & Hch1 & HR & _ & _ & _ & Hrefs1).
      rewrite Hcl in Hst. injection Hst as Hst. rewrite <- Hst in Hch1, HR, Hrefs1.
      set (ys := filter (λ x, liveb (getC σ x) = true) (chainOf σ l)) in *.
      assert (∀ c, c ∈ ys → keptL (getC σ c) (getC (res_state r1) c)) as Hk.
      { intros c _. by destruct (sameR_getC σ (res_state r1) c HR). }
      destruct (kept_snapshot body sig σ (res_state r1) ys Hk) as (Hsnap & Hinv & Hwb').
      assert (wellBehaved body false sig s args (res_state r1) ys) as Hwb1.
      { apply Hwb'. intros c cb Hc. apply Hwb.
        by apply list_elem_of_filter in Hc as [_ ?]. }
      assert (length ys < fuel) as Hf1.
      { pose proof (length_filter (λ x, liveb (getC σ x) = true) (chainOf σ l)).
        unfold ys. lia. }
      destruct (emit_quiet body false fuel d (res_state r1) u' s sig args l _ Hwf1 Hsm
                  Hch1 Hwb1 Hf1) as (Ho2 & Ht2 & _ & _ & _ & Hst2).
      fold r2 in Ho2, Ht2, Hst2. specialize (Hst2 eq_refl).
      rewrite anyDead_false in Hst2.
      2: { intros c Hc. destruct (Hk c Hc) as (_ & Hcb & _). unfold liveb. rewrite Hcb.
           by apply list_elem_of_filter in Hc as [? _]. }
      simpl in Hst2. injection Hst2 as Hst2.
      split_and!; try done.
      rewrite Ht2, Ht1, Hsnap. unfold ys. rewrite snapshot_live.
      apply Forall_fmap_ext_1, Forall_forall. intros c [Hi Hc]%snapshot_elem.
      apply Hinv. apply list_elem_of_filter. split; [|done].
      unfold invokedb in Hi. by apply andb_true_iff in Hi as [? _].
    - injection Hst as Hst.
      assert (r2 = emit body fuel d σ u' s sig args) as Hr2 by (unfold r2; by rewrite Hst).
      destruct (emit_quiet body false fuel d σ u' s sig args l _ Hwf Hs Hch Hwb Hf)
        as (Ho2 & Ht2 & _ & _ & _ & Hst2).
      rewrite <- Hr2 in Ho2, Ht2, Hst2. specialize (Hst2 eq_refl).
      rewrite Hcond in Hst2. injection Hst2 as Hst2.
      split_and!; try done; congruence. }
  destruct H4 as (H1 & H2 & H3 & H4).
  split; [exact H1|]. split; [exact H2|]. split; [exact H3|]. split; [exact H4|].
  split; [|split; [|exact HN]].
  - intros l Hs. exact (proj1 (HS l Hs)).
  - intros l Hs. exact (proj2 (HS l Hs)).
Qed.

Lemma emit_repeatable_witness :
  let r1 := emit testBody 16 0 withDead tt obj1 oneSignal 0 in
  let r2 := emit testBody 16 0 (res_state r1) tt obj1 oneSignal 0 in
  let q1 := emit testBody 16 0 twoSenders tt obj1 oneSignal 0 in
  connectionsOf withDead obj1 = [0]
  ∧ res_out r1 = Normal tt ∧ res_out r2 = Normal tt
  ∧ res_trace r2 = res_trace r1
  ∧ res_state r2 = res_state r1
  ∧ cleanList 0 withDead = Some (res_state r1)
  ∧ connectionsOf (res_state r1) obj1
    = filter (λ x, liveb (getC withDead x) = true) (connectionsOf withDead obj1)
  ∧ connectionsOf (res_state r1) obj1 = []
  ∧ res_trace q1 ≠ []
  ∧ res_state q1 = twoSenders.
Proof.
  intros r1 r2 q1. split; [vm_compute; reflexivity|].
  assert (wf withDead) as Hwf by (apply run_wf_init; vm_compute; congruence).
  assert (wellBehaved testBody false oneSignal obj1 0 withDead
            (connectionsOf withDead obj1)) as Hwb by solve_wellBehaved.
  assert (length (connectionsOf withDead obj1) < 16) as Hf by (vm_compute; lia).
  destruct (emit_repeatable testBody withDead obj1 oneSignal 16 0 tt tt 0 Hwf Hwb Hf)
    as (H1 & H2 & H3 & H4 & H5 & _).
  split; [exact H1|]. split; [exact H2|]. split; [exact H3|]. split; [exact H4|].
  assert (senderMap withDead !! obj1 = Some 0) as Hs by (vm_compute; reflexivity).
  assert (∃ c, c ∈ connectionsOf withDead obj1 ∧ liveb (getC withDead c) = false) as Hd.
  { exists 0. split; [|vm_compute; reflexivity].
    replace (connectionsOf withDead obj1) with [0] by (vm_compute; reflexivity).
    apply list_elem_of_here. }
  assert (refs (getL withDead 0) = 0%Z) as Hr by (vm_compute; reflexivity).
  destruct (H5 0 Hs Hd Hr) as [H6 H7].
  split; [exact H6|]. split; [exact H7|]. split; [vm_compute; reflexivity|].
  split; [vm_compute; congruence|].
  assert (wf twoSenders) as Hwf2 by (apply run_wf_init; vm_compute; congruence).
  assert (wellBehaved testBody false oneSignal obj1 0 twoSenders
            (connectionsOf twoSenders obj1)) as Hwb2 by solve_wellBehaved.
  assert (length (connectionsOf twoSenders obj1) < 16) as Hf2 by (vm_compute; lia).
  destruct (emit_repeatable testBody twoSenders obj1 oneSignal 16 0 tt tt 0 Hwf2 Hwb2 Hf2)
    as (_ & _ & _ & _ & _ & H8 & _).
  assert (senderMap twoSenders !! obj1 = Some 0) as Hs2 by (vm_compute; reflexivity).
  apply (H8 0 Hs2). left.
  intros c Hc. each_member Hc; vm_compute; reflexivity.
Defined.

(** ** Compaction *)

(** X9 ([cleanList]).  On the list of a sender of a well-formed registry,
    [cleanList] returns; afterwards the list holds the connections it held
    that are live, in their order, [first] and [last] are the first and
    the last of them, and both are [null] when none is live.  The
    emission count of the list, the other lists, the two maps, the
    connections outside the list, and the signal, callback, context and
    receiver links of every connection are as they were, and the registry
    is well formed. *)
Theorem cleanList_compaction σ s l :
  wf σ → senderMap σ !! s = Some l →
  let live := filter (λ x, liveb (getC σ x) = true) (chainOf σ l) in
  ∃ σ', cleanList l σ = Some σ'
    ∧ wf σ'
    ∧ chainOf σ' l = live
    ∧ first (getL σ' l) = head live ∧ last (getL σ' l) = list_last live
    ∧ refs (getL σ' l) = refs (getL σ l)
    ∧ senderMap σ' = senderMap σ ∧ receiverMap σ' = receiverMap σ
    ∧ length (conns σ') = length (conns σ)
    ∧ (∀ c, keptR (getC σ c) (getC σ' c))
    ∧ (∀ c, c ∉ chainOf σ l → getC σ' c = getC σ c)
    ∧ (∀ l', l' ≠ l → getL σ' l' = getL σ l').
Proof.
  intros Hwf Hs live.
  pose proof (chain_chainOf σ s l Hwf Hs) as Hch.
  destruct (cleanList_spec σ l _ Hch (chain_NoDup _ _ _ Hwf Hch))
    as (σ' & Hcl & Hch' & HR & Hsm & Hfr & Hls & Hrefs).
  fold live in Hch'.
  assert (wf σ') as Hwf'.
  { split; [|exact (sameR_wfR _ _ (proj2 Hwf) HR)].
    by destruct (cleanList_wfS σ l _ σ' (proj1 Hwf) Hch Hcl). }
  assert (senderMap σ' !! s = Some l) as Hs' by by rewrite Hsm.
  exists σ'. split_and!; try done.
  - by apply chainOf_wf.
  - destruct Hch' as (L' & HL' & Hseg & _). rewrite (getL_lookup _ _ _ HL').
    by apply lseg_head_None in Hseg.
  - destruct Hch' as (L' & HL' & _ & Hlast). by rewrite (getL_lookup _ _ _ HL').
  - by destruct HR.
  - destruct HR as [_ HF]. by rewrite (Forall2_length _ _ _ HF).
  - intros c. by apply sameR_getC.
  - intros c Hc. unfold getC. by rewrite (Hfr c Hc).
  - intros l' Hne. unfold getL. by rewrite (Hls l' Hne).
Qed.

Lemma cleanList_compaction_witness :
  chainOf withGaps 0 = [0; 1; 2]
  ∧ filter (λ x, liveb (getC withGaps x) = true) (chainOf withGaps 0) = [1]
  ∧ ∃ σ', cleanList 0 withGaps = Some σ'
      ∧ wf σ'
      ∧ chainOf σ' 0 = filter (λ x, liveb (getC withGaps x) = true) (chainOf withGaps 0)
      ∧ first (getL σ' 0)
        = head (filter (λ x, liveb (getC withGaps x) = true) (chainOf withGaps 0))
      ∧ last (getL σ' 0)
        = list_last (filter (λ x, liveb (getC withGaps x) = true) (chainOf withGaps 0))
      ∧ refs (getL σ' 0) = refs (getL withGaps 0)
      ∧ senderMap σ' = senderMap withGaps ∧ receiverMap σ' = receiverMap withGaps
      ∧ length (conns σ') = length (conns withGaps)
      ∧ (∀ c, keptR (getC withGaps c) (getC σ' c))
      ∧ (∀ c, c ∉ chainOf withGaps 0 → getC σ' c = getC withGaps c)
      ∧ (∀ l', l' ≠ 0 → getL σ' l' = getL withGaps l').
Proof.
  split; [vm_compute; reflexivity|]. split; [vm_compute; reflexivity|].
  apply (cleanList_compaction withGaps obj1 0).
  - apply run_wf_init. vm_compute. congruence.
  - vm_compute. reflexivity.
Defined.

(** ** [clearSignalData] *)

Lemma keptL_receiverOf r r' : keptL r r' → receiverOf r' = receiverOf r.
Proof. intros (_ & Hcb & Hth). unfold receiverOf. by rewrite Hcb, Hth. Qed.

Lemma disconnectSender_others σ s :
  wf σ →
  ∃ σ', disconnectSender s σ = Some σ' ∧ wf σ'
    ∧ senderMap σ' !! s = None
    ∧ length (conns σ') = length (conns σ)
    ∧ (∀ c, c ∈ connectionsOf σ s → callback (getC σ' c) = None)
    ∧ (∀ c, c ∉ connectionsOf σ s → c < length (conns σ) →
         keptL (getC σ c) (getC σ' c))
    ∧ (∀ s', s' ≠ s → connectionsOf σ' s' = connectionsOf σ s').
Proof.
  intros Hwf.
  destruct (disconnectSender_frame σ s Hwf)
    as (σ' & Hd & Hwf' & Hnone & Hlen & Hdead & Hother).
  exists σ'. split_and!; try done.
  - intros c Hc Hlt. destruct (lookup_lt_is_Some_2 _ _ Hlt) as [r Hr].
    destruct (senderMap σ !! s) as [l|] eqn:Hs.
    + pose proof (chain_chainOf σ s l Hwf Hs) as Hch.
      destruct (disconnectSender_Some σ s l _ Hwf Hs Hch) as (σ1 & Hd1 & _ & _ & _ & Hk).
      rewrite Hd in Hd1. injection Hd1 as ->.
      rewrite (connectionsOf_Some _ _ _ Hs) in Hc.
      destruct (Hk c r Hc Hr) as (r' & Hr' & Hkept).
      rewrite (getC_lookup _ _ _ Hr).
      by rewrite (getC_lookup (setSenderMap (delete s (senderMap σ)) σ1) c r').
    + rewrite (disconnectSender_None _ _ Hs) in Hd. injection Hd as <-. reflexivity.
  - intros s' Hne. by destruct (Hother s' Hne) as (_ & ? & _).
Qed.

Lemma disconnectReceiver_entry σ o σ' :
  disconnectReceiver o σ = Some σ' → receiverMap σ' !! o = None.
Proof.
  unfold disconnectReceiver. destruct (receiverMap σ !! o) as [hd|] eqn:Ho.
  - destruct (disconnectReceiver_loop _ _ _) as [σ1|]; [|done]. simpl.
    intros [= <-]. simpl. apply lookup_delete_eq.
  - by intros [= <-].
Qed.

Lemma disconnectReceiver_None σ o :
  receiverMap σ !! o = None → disconnectReceiver o σ = Some σ.
Proof. intros Ho. unfold disconnectReceiver. by rewrite Ho. Qed.

(** X10 ([clearSignalData]).  On a well-formed registry
    [clearSignalData(obj)] returns, and afterwards [obj] has no entry in
    either map: an emission on [obj] calls nothing and changes nothing.
    Every connection that was in the list of [obj], and every connection
    whose receiver was [obj], is dead, and none of them is called again,
    whatever is run.  Every other connection carries what it carried, and
    the lists of the other senders are as they were.  Clearing [obj] once
    more changes nothing. *)
Theorem clearSignalData_spec {U} (body : Obj → JsVal → Obj → Args → Prog U) σ obj :
  wf σ →
  ∃ σ', clearSignalData obj σ = Some σ' ∧ wf σ'
    ∧ senderMap σ' !! obj = None ∧ receiverMap σ' !! obj = None
    ∧ (∀ fuel d u sig args,
         emit body (S fuel) d σ' u obj sig args = mkResult σ' u [] (Normal tt))
    ∧ (∀ c, c < length (conns σ) →
         (c ∈ connectionsOf σ obj ∨ receiverOf (getC σ c) = Some obj) →
         liveb (getC σ' c) = false)
    ∧ (∀ c, c < length (conns σ) →
         c ∉ connectionsOf σ obj → receiverOf (getC σ c) ≠ Some obj →
         keptL (getC σ c) (getC σ' c))
    ∧ (∀ s, s ≠ obj → connectionsOf σ' s = connectionsOf σ s)
    ∧ (∀ fuel d p u i,
         res_out (runProg (emit body fuel) d p σ' u) ≠ Diverged →
         i ∈ res_trace (runProg (emit body fuel) d p σ' u) →
         inv_conn i < length (conns σ) →
         (inv_conn i ∉ connectionsOf σ obj) ∧ inv_receiver i ≠ obj)
    ∧ clearSignalData obj σ' = Some σ'.
Proof.
  intros Hwf.
  destruct (disconnectSender_others σ obj Hwf)
    as (σ1 & Hd1 & Hwf1 & Hnone1 & Hlen1 & Hdead1 & Hkept1 & Hof1).
  destruct (disconnectReceiver_frame σ1 obj Hwf1) as (σ' & Hd2 & Hwf' & Hlen2 & Hof2 & Hget).
  destruct (disconnectReceiver_wf σ1 obj Hwf1) as (σ2 & Hd2' & _ & Hsame & Hno).
  rewrite Hd2 in Hd2'. injection Hd2' as <-.
  assert (senderMap σ' !! obj = None) as Hs' by by rewrite (proj1 (proj2 Hsame)).
  pose proof (disconnectReceiver_entry _ _ _ Hd2) as Hr'.
  assert (∀ c, c < length (conns σ) →
            (c ∈ connectionsOf σ obj ∨ receiverOf (getC σ c) = Some obj) →
            liveb (getC σ' c) = false) as Hdead.
  { intros c Hlt Hc. rewrite Hget by lia. unfold liveb.
    case_decide as Ho; [done|].
    destruct Hc as [Hc|Hc]; [by rewrite (Hdead1 c Hc)|].
    destruct (decide (c ∈ connectionsOf σ obj)) as [Hin|Hin]; [by rewrite (Hdead1 c Hin)|].
    exfalso. apply Ho. by rewrite (keptL_receiverOf _ _ (Hkept1 c Hin Hlt)). }
  exists σ'. split_and!; try done.
  - unfold clearSignalData. rewrite Hd1. simpl. exact Hd2.
  - intros fuel d u sig args. by apply emit_None.
  - intros c Hlt Hc Ho. rewrite Hget by lia.
    pose proof (Hkept1 c Hc Hlt) as Hk.
    rewrite decide_False; [done|]. by rewrite (keptL_receiverOf _ _ Hk).
  - intros s Hne. by rewrite Hof2, Hof1.
  - intros fuel d p u i Hout Hi Hlt. split.
    + intros Hc.
      apply (dead_never_called body σ' (inv_conn i) fuel d p u Hwf') with (i := i);
        try done; [lia|].
      pose proof (Hdead _ Hlt (or_introl Hc)) as Hl. unfold liveb in Hl.
      by destruct (callback _).
    + intros Ho. assert (inv_conn i < length (conns σ')) as Hlt' by lia.
      destruct (lookup_lt_is_Some_2 _ _ Hlt') as [r Hr].
      pose proof (called_receiver body σ' fuel d p u i r Hwf' Hout Hi Hr) as Hrec.
      fold (inv_receiver i) in Hrec. rewrite Ho in Hrec. exact (Hno _ _ Hr Hrec).
  - unfold clearSignalData. rewrite (disconnectSender_None _ _ Hs'). simpl.
    by apply disconnectReceiver_None.
Qed.

Lemma clearSignalData_spec_witness :
  connectionsOf withExtended ext1 = [0; 1; 2]
  ∧ connectionsTo withExtended ext1 = [3; 0]
  ∧ ∃ σ', clearSignalData ext1 withExtended = Some σ' ∧ wf σ'
      ∧ senderMap σ' !! ext1 = None ∧ receiverMap σ' !! ext1 = None
      ∧ (∀ c, c < length (conns withExtended) →
           (c ∈ connectionsOf withExtended ext1
            ∨ receiverOf (getC withExtended c) = Some ext1) →
           liveb (getC σ' c) = false)
      ∧ (∀ c, c < length (conns withExtended) →
           c ∉ connectionsOf withExtended ext1 →
           receiverOf (getC withExtended c) ≠ Some ext1 →
           keptL (getC withExtended c) (getC σ' c))
      ∧ (∀ s, s ≠ ext1 → connectionsOf σ' s = connectionsOf withExtended s)
      ∧ clearSignalData ext1 σ' = Some σ'.
Proof.
  split; [vm_compute; reflexivity|]. split; [vm_compute; reflexivity|].
  assert (wf withExtended) as Hwf by (apply run_wf_init; vm_compute; congruence).
  destruct (clearSignalData_spec testBody withExtended ext1 Hwf)
    as (σ' & H1 & H2 & H3 & H4 & _ & H6 & H7 & H8 & _ & H10).
  exists σ'.
  exact (conj H1 (conj H2 (conj H3 (conj H4 (conj H6 (conj H7 (conj H8 H10))))))).
Defined.

(** ** The entries of [receiverMap] *)

(** X11 (the entry of a receiver).  In a well-formed registry
    [receiverMap] holds the head of the chain of each receiver, and holds
    nothing for an object that is the receiver of no connection: the
    entry goes with the last connection.  So [disconnectReceiver] for such
    an object changes nothing; in every case it returns, leaves no
    connection with that receiver, and changes nothing when it is called
    once more. *)
Theorem receiver_entry_tight σ o :
  wf σ →
  receiverMap σ !! o = head (connectionsTo σ o)
  ∧ (receiverMap σ !! o = None
     ↔ ∀ c, c < length (conns σ) → receiverOf (getC σ c) ≠ Some o)
  ∧ (receiverMap σ !! o = None → disconnectReceiver o σ = Some σ)
  ∧ ∃ σ', disconnectReceiver o σ = Some σ' ∧ wf σ'
      ∧ connectionsTo σ' o = []
      ∧ (∀ c, c < length (conns σ') → receiverOf (getC σ' c) ≠ Some o)
      ∧ disconnectReceiver o σ' = Some σ'.
Proof.
  intros Hwf.
  pose proof (connectionsTo_rchain σ o Hwf) as (Hseg & _).
  pose proof (lseg_head_None _ _ _ _ Hseg) as Hhead.
  split_and!.
  - done.
  - rewrite Hhead. split.
    + intros Hnil c Hlt Ho.
      assert (c ∈ connectionsTo σ o) as Hc by by apply connectionsTo_elem.
      destruct (connectionsTo σ o); [by apply elem_of_nil in Hc | done].
    + intros Hno. destruct (connectionsTo σ o) as [|c xs] eqn:E; [done|]. exfalso.
      assert (c ∈ connectionsTo σ o) as Hc by (rewrite E; left).
      apply connectionsTo_elem in Hc as [Hlt Ho]; [|done]. exact (Hno c Hlt Ho).
  - apply disconnectReceiver_None.
  - destruct (disconnectReceiver_wf σ o Hwf) as (σ' & Hd & Hwf' & _ & Hno).
    pose proof (disconnectReceiver_entry _ _ _ Hd) as Hnone.
    exists σ'. split_and!; try done.
    + pose proof (connectionsTo_rchain σ' o Hwf') as (Hseg' & _).
      rewrite Hnone in Hseg'. by apply lseg_None_inv in Hseg' as [? _].
    + intros c Hlt. destruct (lookup_lt_is_Some_2 _ _ Hlt) as [r Hr].
      rewrite (getC_lookup _ _ _ Hr). exact (Hno c r Hr).
    + by apply disconnectReceiver_None.
Qed.

Lemma receiver_entry_tight_witness :
  receiverMap twoSenders !! handler1 = head (connectionsTo twoSenders handler1)
  ∧ receiverMap twoSenders !! handler1 = Some 2
  ∧ receiverMap twoSenders !! handler3 = None
  ∧ disconnectReceiver handler3 twoSenders = Some twoSenders
  ∧ ∃ σ', disconnectReceiver handler1 twoSenders = Some σ' ∧ wf σ'
      ∧ connectionsTo σ' handler1 = []
      ∧ (∀ c, c < length (conns σ') → receiverOf (getC σ' c) ≠ Some handler1)
      ∧ disconnectReceiver handler1 σ' = Some σ'.
Proof.
  assert (wf twoSenders) as Hwf by (apply run_wf_init; vm_compute; congruence).
  destruct (receiver_entry_tight twoSenders handler1 Hwf) as (H1 & _ & _ & H4).
  destruct (receiver_entry_tight twoSenders handler3 Hwf) as (_ & _ & H3 & _).
  split; [exact H1|]. split; [vm_compute; reflexivity|].
  split; [vm_compute; reflexivity|]. split; [apply H3; vm_compute; reflexivity|].
  exact H4.
Defined.

(** ** Bound signals *)

(** X12 (the contract of a bound signal).  Bind a signal to a sender.
    After a [connect] through the bound signal that returned [true], an
    [emit] through it, of callbacks that return and at most connect,
    returns and calls the callback once, with the context given
    ([undefined] for a falsy one), the sender and the arguments of the
    [emit].  The [disconnect] through any binding of the signal to the
    sender then returns [true], and after it such an [emit] does not call
    the callback with that context. *)
Theorem bound_signal_contract {U} (body : Obj → JsVal → Obj → Args → Prog U)
    σ signal sender cb this0 σ1 :
  wf σ → bound_connect (bind signal sender) σ cb this0 = Some (σ1, true) →
  (∀ fuel d u args,
     wellBehaved body true signal sender args σ1 (connectionsOf σ1 sender) →
     length (connectionsOf σ1 sender) < fuel →
     res_out (bound_emit body fuel d (bind signal sender) σ1 u args) = Normal tt
     ∧ callsTo cb (orUndefined this0)
         (res_trace (bound_emit body fuel d (bind signal sender) σ1 u args))
       = [mkInvocation d (length (conns σ)) cb (orUndefined this0) sender args])
  ∧ ∃ σ2, bound_disconnect (bind signal sender) σ1 cb this0 = Some (σ2, true)
      ∧ wf σ2
      ∧ ∀ fuel d u args,
          wellBehaved body true signal sender args σ2 (connectionsOf σ2 sender) →
          length (connectionsOf σ2 sender) < fuel →
          res_out (bound_emit body fuel d (bind signal sender) σ2 u args) = Normal tt
          ∧ callsTo cb (orUndefined this0)
              (res_trace (bound_emit body fuel d (bind signal sender) σ2 u args))
            = [].
Proof.
  unfold bound_connect, bound_disconnect, bound_emit, bind. simpl.
  intros Hwf Hc. set (n := length (conns σ)).
  pose proof (connect_keeps_wf _ _ _ _ _ _ _ Hwf Hc) as Hwf1.
  pose proof (connect_connectionsOf _ _ _ _ _ _ Hwf Hc) as Hco1. fold n in Hco1.
  destruct (connect_true _ _ _ _ _ _ Hwf Hc) as [Hno Hσ1].
  destruct (connected_new σ sender signal cb this0 Hwf) as (r & Hr & Hsig & Hcb & Hth & _).
  rewrite <- Hσ1 in Hr. fold n in Hr. pose proof (getC_lookup _ _ _ Hr) as Hgn.
  assert (n ∈ connectionsOf σ1 sender) as Hin1.
  { rewrite Hco1. apply elem_of_app. right. left. }
  destruct (connectionsOf_elem _ _ _ Hin1) as (l & Hs1 & Hcl1).
  pose proof (chain_chainOf σ1 sender l Hwf1 Hs1) as Hch1.
  split.
  - intros fuel d u args Hwb Hf.
    destruct (emit_quiet_sender body true fuel d σ1 u sender signal args Hwf1 Hwb Hf)
      as (Ho & Ht & _).
    split; [done|]. rewrite Ht, (connectionsOf_Some _ _ _ Hs1).
    rewrite (callsTo_snapshot σ1 l d sender args signal cb (orUndefined this0) n);
      try done; try (by rewrite Hgn).
    unfold invocationOf. by rewrite Hgn, Hcb, Hth.
  - assert (disconnect σ1 sender signal cb this0
            = Some (kill n (removeFromSendersList n σ1), true)) as Hd.
    { apply (disconnect_live σ1 sender l n signal cb this0 Hwf1 Hs1 Hcl1); by rewrite Hgn. }
    pose proof (disconnect_keeps_wf _ _ _ _ _ _ _ Hwf1 Hd) as Hwf2.
    pose proof (disconnect_noMatch _ _ _ _ _ _ Hwf1 Hd) as Hno2.
    eexists. split; [exact Hd|]. split; [done|].
    intros fuel d u args Hwb Hf.
    destruct (emit_quiet_sender body true fuel d _ u sender signal args Hwf2 Hwb Hf)
      as (Ho & Ht & _).
    split; [done|]. rewrite Ht. unfold callsTo. rewrite filter_fmap_comm.
    rewrite filter_None; [done|].
    intros x [Hi Hx]%snapshot_elem [Hxcb Hxth]. simpl in Hxcb, Hxth.
    destruct (connectionsOf_elem _ _ _ Hx) as (l2 & Hs2 & Hxl).
    pose proof (Hno2 l2 _ x Hs2 (chain_chainOf _ sender l2 Hwf2 Hs2) Hxl) as Hm.
    apply not_true_iff_false in Hm. apply Hm. apply matchesConn_spec.
    unfold invokedb, liveb in Hi. apply andb_true_iff in Hi as [Hlive Hsigx].
    apply bool_decide_eq_true in Hsigx.
    destruct (callback (getC _ x)) as [cbx|] eqn:Hcbx; [|done]. simpl in Hxcb.
    split_and!; [done | by rewrite <- Hxcb | done].
Qed.

Lemma bound_signal_contract_witness :
  let b := bind twoSignal obj1 in
  let σ1 := connected twoSenders obj1 twoSignal onTwo (VObj handler1) in
  bound_connect b twoSenders onTwo (VObj handler1) = Some (σ1, true)
  ∧ res_out (bound_emit testBody 16 0 b σ1 tt 42) = Normal tt
  ∧ callsTo onTwo (VObj handler1) (res_trace (bound_emit testBody 16 0 b σ1 tt 42))
    = [mkInvocation 0 4 onTwo (VObj handler1) obj1 42]
  ∧ ∃ σ2, bound_disconnect b σ1 onTwo (VObj handler1) = Some (σ2, true)
      ∧ res_out (bound_emit testBody 16 0 b σ2 tt 42) = Normal tt
      ∧ callsTo onTwo (VObj handler1) (res_trace (bound_emit testBody 16 0 b σ2 tt 42))
        = [].
Proof.
  intros b σ1.
  assert (wf twoSenders) as Hwf by (apply run_wf_init; vm_compute; congruence).
  assert (bound_connect b twoSenders onTwo (VObj handler1) = Some (σ1, true)) as Hc
    by (vm_compute; reflexivity).
  destruct (bound_signal_contract testBody twoSenders twoSignal obj1 onTwo
              (VObj handler1) σ1 Hwf Hc) as (He & σ2 & Hd & Hwf2 & He2).
  split; [exact Hc|].
  assert (wellBehaved testBody true twoSignal obj1 42 σ1 (connectionsOf σ1 obj1)) as Hwb
    by solve_wellBehaved.
  assert (length (connectionsOf σ1 obj1) < 16) as Hf by (vm_compute; lia).
  destruct (He 16 0 tt 42 Hwb Hf) as [H1 H2].
  split; [exact H1|]. split; [exact H2|].
  assert (σ2 = kill 4 (removeFromSendersList 4 σ1)) as ->.
  { assert (bound_disconnect b σ1 onTwo (VObj handler1)
            = Some (kill 4 (removeFromSendersList 4 σ1), true)) as Hd'
      by (vm_compute; reflexivity).
    pose proof (eq_trans (eq_sym Hd) Hd') as E. injection E as E. exact E. }
  eexists. split; [exact Hd|]. apply (He2 16 0 tt 42).
  - solve_wellBehaved.
  - vm_compute. lia.
Defined.

(** ** What a call is passed *)

Lemma tagged_deeper d s args t : tagged d s args t → deeper d t.
Proof. intros H. eapply Forall_impl; [exact H|]. by intros i [? _]. Qed.

Lemma deeper_tagged d s args t : deeper (S d) t → tagged d s args t.
Proof.
  intros H. eapply Forall_impl; [exact H|]. unfold deeper.
  intros i Hi. simpl in Hi. split; lia.
Qed.

Lemma runProg_deeper {U} (emit_rec : nat → State → U → Obj → Sig → Args → Result U unit) d :
  (∀ σ u s sig args, deeper d (res_trace (emit_rec d σ u s sig args))) →
  ∀ p σ u, deeper d (res_trace (runProg emit_rec d p σ u)).
Proof.
  intros Hemit p. induction p as [| |k IH|u' k IH|s sig cb this k IH
    |s sig cb this k IH|s sig args k IH|s k IH|o k IH|o k IH]; intros σ u; simpl;
    try (by constructor); try apply IH.
  - destruct (connect σ s sig cb this) as [[σ1 b]|]; [apply IH | constructor].
  - destruct (disconnect σ s sig cb this) as [[σ1 b]|]; [apply IH | constructor].
  - destruct (res_out (emit_rec d σ u s sig args)); [| |apply Hemit];
      unfold after; simpl; apply Forall_app; split; (apply Hemit || apply IH).
  - destruct (disconnectSender s σ) as [σ1|]; [apply IH | constructor].
  - destruct (disconnectReceiver o σ) as [σ1|]; [apply IH | constructor].
  - destruct (clearSignalData o σ) as [σ1|]; [apply IH | constructor].
Qed.

Lemma emit_tagged {U} (body : Obj → JsVal → Obj → Args → Prog U) fuel :
  (∀ d σ u s sig args, tagged d s args (res_trace (emit body fuel d σ u s sig args)))
  ∧ (∀ d s sig args lastc dirty conn σ u,
       tagged d s args
         (res_trace (invokeLoop body fuel d s sig args lastc dirty conn σ u))).
Proof.
  induction fuel as [|f [IHe IHl]].
  - split; [intros; constructor|]. intros d s sig args lastc dirty [c|] σ u; constructor.
  - split.
    + intros d σ u s sig args. rewrite emit_S.
      destruct (senderMap σ !! s) as [l|]; [|constructor]. cbv zeta.
      destruct (res_out _) as [dirty| |]; try apply IHl.
      destruct (_ && _); [destruct (cleanList _ _)|]; apply IHl.
    + intros d s sig args lastc dirty [c|] σ u; [|constructor].
      rewrite invokeLoop_S. cbv zeta.
      assert (tagged d s args (res_trace (invokeStep body f d s sig args dirty c σ u)))
        as Hstep.
      { unfold invokeStep. destruct (callback (getC σ c)) as [cb|]; [|constructor].
        case_bool_decide; [|constructor]. simpl. constructor; [done|].
        apply deeper_tagged. apply runProg_deeper.
        intros σ' u' s' sig' args'. eapply tagged_deeper, IHe. }
      destruct (res_out (invokeStep body f d s sig args dirty c σ u)); try done.
      case_bool_decide; [done|]. unfold after. simpl.
      apply Forall_app. split; [done | apply IHl].
Qed.

Lemma sorted_sublist (xs ys : list nat) :
  sublist xs ys → StronglySorted lt ys → StronglySorted lt xs.
Proof.
  induction 1 as [|x xs ys Hsub IH|y xs ys Hsub IH]; intros Hs; [done|..].
  - apply StronglySorted_inv in Hs as [Hs Hall]. constructor; [by apply IH|].
    rewrite Forall_forall in Hall |- *. intros z Hz. apply Hall.
    by eapply elem_of_sublist.
  - apply StronglySorted_inv in Hs as [Hs _]. by apply IH.
Qed.

(** X13 (what a call is passed).  Whatever the callbacks do, when [emit]
    returns or throws, every call that it made itself went to a
    connection of the list of the sender that was live and connected to
    the signal when [emit] began, and passed to the callback of that
    connection its context, the sender and the arguments of the [emit];
    and the calls went in the order of the list. *)
Theorem emit_calls {U} (body : Obj → JsVal → Obj → Args → Prog U)
    fuel d σ u s sig args :
  wf σ → res_out (emit body fuel d σ u s sig args) ≠ Diverged →
  (∀ i, i ∈ res_trace (emit body fuel d σ u s sig args) → inv_depth i = d →
     inv_conn i ∈ connectionsOf σ s
     ∧ signal (getC σ (inv_conn i)) = Some sig
     ∧ callback (getC σ (inv_conn i)) = Some (inv_callback i)
     ∧ thisArg (getC σ (inv_conn i)) = inv_this i
     ∧ inv_sender i = s ∧ inv_args i = args)
  ∧ StronglySorted lt (ownConns d (res_trace (emit body fuel d σ u s sig args))).
Proof.
  intros Hwf Hout.
  assert (sublist (ownConns d (res_trace (emit body fuel d σ u s sig args)))
            (snapshot sig σ (connectionsOf σ s))) as Hsub.
  { unfold connectionsOf. destruct (senderMap σ !! s) as [l|] eqn:Hs.
    - exact (emit_own body fuel d σ u s sig args l _ Hwf Hs
               (chain_chainOf σ s l Hwf Hs) Hout).
    - destruct fuel; [done|]. by rewrite emit_None. }
  split.
  - intros i Hi Hd.
    destruct (emit_good body fuel d σ u s sig args Hwf Hout) as (_ & _ & _ & Hsound).
    unfold sound in Hsound. rewrite Forall_forall in Hsound.
    pose proof (proj1 (emit_tagged body fuel) d σ u s sig args) as Htag.
    unfold tagged in Htag. rewrite Forall_forall in Htag.
    destruct (Htag i Hi) as [_ Hsa]. destruct (Hsa Hd) as [Hse Har].
    assert (inv_conn i ∈ ownConns d (res_trace (emit body fuel d σ u s sig args))) as Hin.
    { unfold ownConns, own. apply list_elem_of_fmap_2. by apply list_elem_of_filter. }
    apply (elem_of_sublist _ _ _ Hin) in Hsub.
    apply snapshot_elem in Hsub as [Hinv Hc].
    pose proof (connectionsOf_lt _ _ _ Hwf Hc) as Hlt.
    destruct (lookup_lt_is_Some_2 _ _ Hlt) as [r Hr].
    destruct (Hsound i Hi r Hr) as [Hcb Hth].
    rewrite (getC_lookup _ _ _ Hr) in Hinv |- *.
    split_and!; try done.
    unfold invokedb in Hinv. apply andb_true_iff in Hinv as [_ Hsig].
    by apply bool_decide_eq_true in Hsig.
  - apply (sorted_sublist _ _ Hsub). apply sorted_filter.
    unfold connectionsOf. destruct (senderMap σ !! s) as [l|] eqn:Hs; [|constructor].
    exact (chain_sorted σ l _ Hwf (chain_chainOf σ s l Hwf Hs)).
Qed.

Lemma emit_calls_witness :
  (∀ i, i ∈ res_trace (emit testBody 16 0 withRemover tt obj1 threeSignal 7) →
     inv_depth i = 0 →
     inv_conn i ∈ connectionsOf withRemover obj1
     ∧ signal (getC withRemover (inv_conn i)) = Some threeSignal
     ∧ callback (getC withRemover (inv_conn i)) = Some (inv_callback i)
     ∧ thisArg (getC withRemover (inv_conn i)) = inv_this i
     ∧ inv_sender i = obj1 ∧ inv_args i = 7)
  ∧ StronglySorted lt
      (ownConns 0 (res_trace (emit testBody 16 0 withRemover tt obj1 threeSignal 7))).
Proof.
  apply (emit_calls testBody 16 0 withRemover tt obj1 threeSignal 7).
  - apply run_wf_init. vm_compute. congruence.
  - vm_compute. congruence.
Defined.

(** ** The emission counts *)

Lemma sameCounts_refl σ : sameCounts σ σ.
Proof. by split_and!. Qed.

Lemma sameCounts_trans σ1 σ2 σ3 :
  sameCounts σ1 σ2 → sameCounts σ2 σ3 → sameCounts σ1 σ3.
Proof.
  intros (H1 & H2 & H3) (H4 & H5 & H6). split_and!; [congruence..|].
  intros l. by rewrite H6, H3.
Qed.

Lemma sameS_sameCounts σ σ' : sameS σ σ' → sameCounts σ σ'.
Proof. intros (Hl & Hs & _). split_and!; [by rewrite Hl | done |]. intros l. unfold getL. by rewrite Hl. Qed.

Lemma updC_sameCounts c f σ : sameCounts σ (updC c f σ).
Proof. by split_and!. Qed.

Lemma updL_sameCounts l f σ :
  (∀ L, refs (f L) = refs L) → sameCounts σ (updL l f σ).
Proof.
  intros Hf. split_and!; [simpl; by rewrite length_alter | done |].
  intros l'. unfold getL. simpl. rewrite list_lookup_alter.
  case_decide; [subst|done]. destruct (lists σ !! l'); simpl; [apply Hf | done].
Qed.

Lemma sameCounts_settled σ σ' : smapOK σ → sameCounts σ σ' → settled σ σ'.
Proof.
  intros Hok (Hlen & Hsm & Hrefs). split_and!; [|lia|done].
  intros s l. rewrite Hsm, Hlen. apply Hok.
Qed.

Lemma settled_refl σ : smapOK σ → settled σ σ.
Proof. intros Hok. by split_and!. Qed.

Lemma settled_trans σ1 σ2 σ3 : settled σ1 σ2 → settled σ2 σ3 → settled σ1 σ3.
Proof.
  intros (H1 & H2 & H3) (H4 & H5 & H6). split_and!; [done | lia |].
  intros l. by rewrite H6, H3.
Qed.

Lemma disconnectSender_loop_sameS n : ∀ p σ σ',
  disconnectSender_loop n p σ = Some σ' → sameS σ σ'.
Proof.
  induction n as [|n IH]; intros [c|] σ σ' H; simpl in H; simplify_eq; try reflexivity.
  etrans; [apply (unlink_sameS σ c)|]. by apply IH in H.
Qed.

Lemma disconnectReceiver_loop_sameS n : ∀ p σ σ',
  disconnectReceiver_loop n p σ = Some σ' → sameS σ σ'.
Proof.
  induction n as [|n IH]; intros [c|] σ σ' H; simpl in H; simplify_eq; try reflexivity.
  etrans; [apply (clear_sameS c σ)|]. by apply IH in H.
Qed.

Lemma cleanList_loop_sameCounts n : ∀ l prev conn σ σ' q,
  cleanList_loop n l prev conn σ = Some (σ', q) → sameCounts σ σ'.
Proof.
  induction n as [|n IH]; intros l prev [c|] σ σ' q H; simpl in H; simplify_eq;
    try apply sameCounts_refl.
  destruct (callback (getC σ c)); [destruct prev|]; apply IH in H;
    (eapply sameCounts_trans; [|exact H]);
    first [apply updC_sameCounts | by apply updL_sameCounts].
Qed.

Lemma cleanList_sameCounts l σ σ' : cleanList l σ = Some σ' → sameCounts σ σ'.
Proof.
  unfold cleanList. intros H.
  destruct (cleanList_loop _ _ _ _ _) as [[σ1 prev]|] eqn:Hloop; [|done].
  simpl in H. injection H as <-. apply cleanList_loop_sameCounts in Hloop.
  eapply sameCounts_trans; [exact Hloop|].
  destruct prev.
  - eapply sameCounts_trans; [apply updC_sameCounts | by apply updL_sameCounts].
  - eapply sameCounts_trans; by apply updL_sameCounts.
Qed.

Lemma disconnect_sameCounts σ s sig cb this0 σ' b :
  disconnect σ s sig cb this0 = Some (σ', b) → sameCounts σ σ'.
Proof.
  unfold disconnect. destruct (senderMap σ !! s); [|intros [= <- _]; apply sameCounts_refl].
  destruct (findConnection _ _ _ _ _) as [[c|]|]; simpl; [| |done].
  - intros [= <- _]. apply sameS_sameCounts, unlink_sameS.
  - intros [= <- _]. apply sameCounts_refl.
Qed.

Lemma connect_settled σ s sig cb this0 σ' b :
  smapOK σ → connect σ s sig cb this0 = Some (σ', b) → settled σ σ'.
Proof.
  intros Hok. rewrite connect_unfold.
  destruct (match senderMap σ !! s with Some l => _ | None => _ end) as [[c|]|];
    simpl; [| |done].
  { intros [= <- _]. by apply settled_refl. }
  intros [= <- _].
  set (σ2 := addToList _ _ _ _).
  assert (settled σ σ2) as H2.
  { unfold σ2, addToList. destruct (senderMap σ !! s) as [l|] eqn:Hs.
    - apply sameCounts_settled; [done|].
      assert (sameCounts σ (allocC (freshConn sig cb (orUndefined this0)) σ)) as Ha
        by by split_and!.
      eapply sameCounts_trans; [exact Ha|].
      destruct (last (getL _ l)).
      + eapply sameCounts_trans; [apply updC_sameCounts | by apply updL_sameCounts].
      + eapply sameCounts_trans; by apply updL_sameCounts.
    - split_and!.
      + intros s' l'. simpl. rewrite length_app. simpl.
        destruct (decide (s' = s)) as [->|Hne].
        * rewrite lookup_insert_eq. intros [= <-]. lia.
        * rewrite lookup_insert_ne by done. intros Hs'. apply Hok in Hs'. lia.
      + simpl. rewrite length_app. lia.
      + intros l'. unfold getL. simpl.
        destruct (decide (l' < length (lists σ))) as [Hlt|Hge].
        * by rewrite lookup_app_l.
        * rewrite lookup_app_r by lia. rewrite (lookup_ge_None_2 (lists σ)) by lia.
          by destruct (l' - length (lists σ)) as [|[|?]]. }
  eapply settled_trans; [exact H2|].
  apply sameCounts_settled; [by destruct H2|]. apply sameS_sameCounts, addToChain_sameS.
Qed.

Lemma disconnectSender_settled σ s σ' :
  smapOK σ → disconnectSender s σ = Some σ' → settled σ σ'.
Proof.
  intros Hok. unfold disconnectSender.
  destruct (senderMap σ !! s) as [l|]; [|intros [= <-]; by apply settled_refl].
  destruct (disconnectSender_loop _ _ _) as [σ1|] eqn:Hloop; [|done]. simpl.
  intros [= <-]. apply disconnectSender_loop_sameS in Hloop as (Hl & Hs & _).
  split_and!; simpl.
  - intros s' l'. simpl. rewrite lookup_delete_Some, Hs, Hl. intros [_ ?]. by eapply Hok.
  - by rewrite Hl.
  - intros l'. unfold getL. simpl. by rewrite Hl.
Qed.

Lemma disconnectReceiver_sameCounts σ o σ' :
  disconnectReceiver o σ = Some σ' → sameCounts σ σ'.
Proof.
  unfold disconnectReceiver.
  destruct (receiverMap σ !! o) as [hd|]; [|intros [= <-]; apply sameCounts_refl].
  destruct (disconnectReceiver_loop _ _ _) as [σ1|] eqn:Hloop; [|done]. simpl.
  intros [= <-]. apply disconnectReceiver_loop_sameS, sameS_sameCounts in Hloop.
  eapply sameCounts_trans; [exact Hloop|]. by split_and!.
Qed.

Lemma runProg_settled {U}
    (emit_rec : nat → State → U → Obj → Sig → Args → Result U unit) d :
  (∀ σ u s sig args, smapOK σ →
     res_out (emit_rec d σ u s sig args) ≠ Diverged →
     settled σ (res_state (emit_rec d σ u s sig args))) →
  ∀ p σ u, smapOK σ → res_out (runProg emit_rec d p σ u) ≠ Diverged →
    settled σ (res_state (runProg emit_rec d p σ u)).
Proof.
  intros Hemit p. induction p as [| |k IH|u' k IH|s sig cb this k IH
    |s sig cb this k IH|s sig args k IH|s k IH|o k IH|o k IH]; intros σ u Hok; simpl.
  - intros _. by apply settled_refl.
  - intros _. by apply settled_refl.
  - by apply IH.
  - by apply IH.
  - destruct (connect σ s sig cb this) as [[σ1 b]|] eqn:Hc; [|done].
    intros Hout. pose proof (connect_settled _ _ _ _ _ _ _ Hok Hc) as H1.
    eapply settled_trans; [exact H1|]. apply IH; [by destruct H1 | done].
  - destruct (disconnect σ s sig cb this) as [[σ1 b]|] eqn:Hc; [|done].
    intros Hout.
    pose proof (sameCounts_settled _ _ Hok (disconnect_sameCounts _ _ _ _ _ _ _ Hc)) as H1.
    eapply settled_trans; [exact H1|]. apply IH; [by destruct H1 | done].
  - pose proof (Hemit σ u s sig args Hok) as Hr.
    destruct (res_out (emit_rec d σ u s sig args)) eqn:Hout; [| |done].
    + specialize (Hr ltac:(done)). unfold after. simpl. intros Hout'.
      eapply settled_trans; [exact Hr|]. apply IH; [by destruct Hr | done].
    + specialize (Hr ltac:(done)). unfold after. simpl. intros Hout'.
      eapply settled_trans; [exact Hr|]. apply IH; [by destruct Hr | done].
  - destruct (disconnectSender s σ) as [σ1|] eqn:Hc; [|done].
    intros Hout. pose proof (disconnectSender_settled _ _ _ Hok Hc) as H1.
    eapply settled_trans; [exact H1|]. apply IH; [by destruct H1 | done].
  - destruct (disconnectReceiver o σ) as [σ1|] eqn:Hc; [|done].
    intros Hout.
    pose proof (sameCounts_settled _ _ Hok (disconnectReceiver_sameCounts _ _ _ Hc)) as H1.
    eapply settled_trans; [exact H1|]. apply IH; [by destruct H1 | done].
  - destruct (clearSignalData o σ) as [σ1|] eqn:Hc; [|done].
    intros Hout. unfold clearSignalData in Hc.
    destruct (disconnectSender o σ) as [σ0|] eqn:Hc0; [|done]. simpl in Hc.
    pose proof (disconnectSender_settled _ _ _ Hok Hc0) as H0.
    pose proof (sameCounts_settled _ _ (proj1 H0)
                  (disconnectReceiver_sameCounts _ _ _ Hc)) as H1.
    eapply settled_trans; [exact H0|]. eapply settled_trans; [exact H1|].
    apply IH; [by destruct H1 | done].
Qed.

Lemma incdec_settled σ l σ2 :
  smapOK σ → l < length (lists σ) → settled (incRefs l σ) σ2 →
  settled σ (decRefs l σ2).
Proof.
  intros Hok Hl (Hok2 & Hlen & Hrefs).
  assert (length (lists (incRefs l σ)) = length (lists σ)) as Hli
    by (simpl; by rewrite length_alter).
  rewrite Hli in Hlen.
  split_and!.
  - intros s' l'. simpl. rewrite length_alter. apply Hok2.
  - simpl. rewrite length_alter. lia.
  - intros l'. destruct (decide (l' = l)) as [->|Hne].
    + unfold decRefs. rewrite updL_getL_eq by (apply lookup_lt_is_Some; lia). simpl.
      rewrite Hrefs. unfold incRefs.
      rewrite updL_getL_eq by (by apply lookup_lt_is_Some). simpl. lia.
    + unfold decRefs, getL. rewrite updL_lookup_ne by done.
      specialize (Hrefs l'). unfold getL in Hrefs. rewrite Hrefs.
      unfold incRefs. by rewrite updL_lookup_ne.
Qed.

Lemma emit_settled {U} (body : Obj → JsVal → Obj → Args → Prog U) fuel :
  (∀ d σ u s sig args, smapOK σ →
     res_out (emit body fuel d σ u s sig args) ≠ Diverged →
     settled σ (res_state (emit body fuel d σ u s sig args)))
  ∧ (∀ d s sig args lastc dirty conn σ u, smapOK σ →
       res_out (invokeLoop body fuel d s sig args lastc dirty conn σ u) ≠ Diverged →
       settled σ (res_state (invokeLoop body fuel d s sig args lastc dirty conn σ u))).
Proof.
  induction fuel as [|f [IHe IHl]].
  - split; [done|]. intros d s sig args lastc dirty [c|] σ u Hok; [done|].
    intros _. by apply settled_refl.
  - split.
    + intros d σ u s sig args Hok. rewrite emit_S.
      destruct (senderMap σ !! s) as [l|] eqn:Hs; [|intros _; by apply settled_refl].
      cbv zeta.
      assert (smapOK (incRefs l σ)) as Hok1.
      { intros s' l'. simpl. rewrite length_alter. apply Hok. }
      pose proof (IHl d s sig args (last (getL (incRefs l σ) l)) false
                    (first (getL (incRefs l σ) l)) (incRefs l σ) u Hok1) as Hloop.
      destruct (res_out (invokeLoop _ _ _ _ _ _ _ _ _ _ _)) as [dirty| |]; [| |done].
      * specialize (Hloop ltac:(done)).
        pose proof (incdec_settled σ l _ Hok (Hok s l Hs) Hloop) as H3.
        destruct (_ && _); [|by intros _].
        destruct (cleanList _ _) as [σ4|] eqn:Hcl; [|done]. intros _. simpl.
        eapply settled_trans; [exact H3|].
        apply sameCounts_settled; [by destruct H3|]. by eapply cleanList_sameCounts.
      * specialize (Hloop ltac:(done)). intros _. simpl.
        exact (incdec_settled σ l _ Hok (Hok s l Hs) Hloop).
    + intros d s sig args lastc dirty [c|] σ u Hok; [|intros _; by apply settled_refl].
      rewrite invokeLoop_S. cbv zeta.
      assert (res_out (invokeStep body f d s sig args dirty c σ u) ≠ Diverged →
              settled σ (res_state (invokeStep body f d s sig args dirty c σ u)))
        as Hstep.
      { unfold invokeStep. destruct (callback (getC σ c)) as [cb|];
          [|intros _; by apply settled_refl].
        case_bool_decide; [|intros _; by apply settled_refl]. simpl.
        intros Hout. apply runProg_settled; [|done|].
        - intros σ' u' s' sig' args'. apply IHe.
        - by destruct (res_out (runProg _ _ _ _ _)). }
      destruct (res_out (invokeStep body f d s sig args dirty c σ u)) eqn:Hout;
        [| |done].
      * specialize (Hstep ltac:(done)).
        case_bool_decide; [by intros _|]. unfold after. simpl. intros Hout'.
        eapply settled_trans; [exact Hstep|]. apply IHl; [by destruct Hstep | done].
      * intros _. by apply Hstep.
Qed.

Lemma wf_smapOK σ : wf σ → smapOK σ.
Proof. intros [HS _] s l. apply (wfS_smap σ HS). Qed.

(** After an emission of callbacks that leave the engine alone, on a list
    that no other emission is walking, every connection of the list is
    live. *)
Lemma emit_leaves_live {U} (body : Obj → JsVal → Obj → Args → Prog U)
    fuel d σ u s sig args :
  wf σ → refs (getL σ (default 0 (senderMap σ !! s))) = 0%Z →
  wellBehaved body false sig s args σ (connectionsOf σ s) →
  length (connectionsOf σ s) < fuel →
  connectionsOf (res_state (emit body fuel d σ u s sig args)) s
  = filter (λ x, liveb (getC σ x) = true) (connectionsOf σ s)
  ∧ ∀ c, c ∈ connectionsOf (res_state (emit body fuel d σ u s sig args)) s →
      liveb (getC (res_state (emit body fuel d σ u s sig args)) c) = true.
Proof.
  intros Hwf Hrefs Hwb Hf.
  destruct (decide (anyDead σ (connectionsOf σ s) = true)) as [Hany|Hany].
  - unfold connectionsOf in Hany, Hwb, Hf |- *.
    destruct (senderMap σ !! s) as [l|] eqn:Hs; [|done]. simpl in Hrefs.
    pose proof (chain_chainOf σ s l Hwf Hs) as Hch.
    destruct (emit_quiet body false fuel d σ u s sig args l _ Hwf Hs Hch Hwb Hf)
      as (_ & _ & Hwf' & _ & Hsm & Hst).
    specialize (Hst eq_refl). specialize (Hsm s l Hs). rewrite Hany, Hrefs in Hst.
    rewrite bool_decide_eq_true_2 in Hst by done. simpl in Hst.
    destruct (cleanList_spec σ l _ Hch (chain_NoDup _ _ _ Hwf Hch))
      as (σ1 & Hcl & Hch1 & HR & _).
    rewrite Hcl in Hst. injection Hst as Hst. rewrite <- Hst in Hch1, HR.
    rewrite Hsm. rewrite (chainOf_wf _ _ _ Hwf' Hch1). split; [done|].
    intros c [Hl _]%list_elem_of_filter.
    destruct (sameR_getC σ _ c HR) as ((_ & Hcb & _) & _). unfold liveb in *.
    by rewrite Hcb.
  - apply not_true_is_false in Hany.
    destruct (emit_quiet_sender body false fuel d σ u s sig args Hwf Hwb Hf)
      as (_ & _ & _ & Hst).
    rewrite Hst; [|done|by rewrite Hany; intros [? _]].
    pose proof (anyDead_cases _ _ Hany) as Hlive. split; [|done].
    symmetry. rewrite (filter_ext_in _ (λ _, True)).
    + clear. induction (connectionsOf σ s) as [|a xs IH]; [done|].
      by rewrite filter_cons_True, IH.
    + intros x Hx. split; [done|]. intros _. by apply Hlive.
Qed.

(** X14 (the emission counts settle).  Whatever is run from the empty
    registry, when the run comes back every list has the emission count
    zero: each [emit] has brought the count of its list back, also when a
    callback threw.  So an [emit] that follows, of callbacks that leave
    the engine alone, is not held back from compacting: it leaves the list
    of the sender with its live connections, in their order, and with no
    dead one. *)
Theorem emission_counts_settle {U} (body : Obj → JsVal → Obj → Args → Prog U)
    fuel d p u :
  res_out (runProg (emit body fuel) d p initState u) ≠ Diverged →
  let σ := res_state (runProg (emit body fuel) d p initState u) in
  (∀ l, refs (getL σ l) = 0%Z)
  ∧ ∀ s sig fuel' d' u' args,
      wellBehaved body false sig s args σ (connectionsOf σ s) →
      length (connectionsOf σ s) < fuel' →
      let σ' := res_state (emit body fuel' d' σ u' s sig args) in
      connectionsOf σ' s = filter (λ x, liveb (getC σ x) = true) (connectionsOf σ s)
      ∧ ∀ c, c ∈ connectionsOf σ' s → liveb (getC σ' c) = true.
Proof.
  intros Hout σ.
  assert (wf σ) as Hwf by exact (run_wf body fuel d p initState u wf_initState Hout).
  assert (∀ l, refs (getL σ l) = 0%Z) as Hrefs.
  { intros l.
    destruct (runProg_settled (emit body fuel) d
                (λ σ0 u0 s sig args, proj1 (emit_settled body fuel) d σ0 u0 s sig args)
                p initState u) as (_ & _ & Hr); [done | done |].
    unfold σ. rewrite (Hr l). unfold getL. by destruct l. }
  split; [done|].
  intros s sig fuel' d' u' args Hwb Hf σ'.
  by apply emit_leaves_live.
Qed.

Lemma emission_counts_settle_witness :
  let σ := res_state (runProg (emit testBody 16) 0 unsweptRun initState tt) in
  let σ' := res_state (emit testBody 16 0 σ tt obj1 threeSignal 0) in
  (∀ l, refs (getL σ l) = 0%Z)
  ∧ connectionsOf σ obj1 = [0; 1; 3]
  ∧ connectionsOf σ' obj1 = [0; 3]
  ∧ connectionsOf σ' obj1
    = filter (λ x, liveb (getC σ x) = true) (connectionsOf σ obj1)
  ∧ ∀ c, c ∈ connectionsOf σ' obj1 → liveb (getC σ' c) = true.
Proof.
  intros σ σ'.
  assert (res_out (runProg (emit testBody 16) 0 unsweptRun initState tt) ≠ Diverged)
    as Hout by (vm_compute; congruence).
  destruct (emission_counts_settle testBody 16 0 unsweptRun tt Hout) as [H1 H2].
  split; [exact H1|]. split; [vm_compute; reflexivity|].
  split; [vm_compute; reflexivity|].
  apply (H2 obj1 threeSignal 16 0 tt 0).
  - solve_wellBehaved.
  - vm_compute. lia.
Defined.

(** ** The entries of [senderMap], operation by operation *)

Lemma connect_senderMap σ s sig cb this0 σ' b :
  connect σ s sig cb this0 = Some (σ', b) →
  senderMap σ' = match senderMap σ !! s with
                 | Some _ => senderMap σ
                 | None => <[s := length (lists σ)]> (senderMap σ)
                 end.
Proof.
  rewrite connect_unfold.
  destruct (senderMap σ !! s) as [l|] eqn:Hs.
  - destruct (findConnection σ l sig cb (orUndefined this0)) as [[c|]|]; simpl; [| |done].
    + by intros [= <- <-].
    + intros [= <- <-]. unfold addToChain, addToList.
      destruct (receiverMap _ !! _); destruct (last _); reflexivity.
  - simpl. intros [= <- <-]. unfold addToChain, addToList.
    destruct (receiverMap _ !! _); reflexivity.
Qed.

Lemma connect_entry σ s sig cb this0 σ' b s0 l :
  connect σ s sig cb this0 = Some (σ', b) →
  senderMap σ !! s0 = Some l → senderMap σ' !! s0 = Some l.
Proof.
  intros Hc Hs0. rewrite (connect_senderMap _ _ _ _ _ _ _ Hc).
  destruct (senderMap σ !! s) as [l'|] eqn:Hs; [done|].
  rewrite lookup_insert_ne; [done|]. intros ->. congruence.
Qed.

Lemma disconnectSender_senderMap σ s σ' :
  disconnectSender s σ = Some σ' → senderMap σ' = delete s (senderMap σ).
Proof.
  unfold disconnectSender. destruct (senderMap σ !! s) as [l|] eqn:Hs.
  - destruct (disconnectSender_loop _ _ _) as [σ1|] eqn:Hloop; [|done]. simpl.
    intros [= <-]. apply disconnectSender_loop_sameS in Hloop as (_ & Hsm & _).
    simpl. by rewrite Hsm.
  - intros [= <-]. symmetry. by apply delete_id.
Qed.

Lemma clearSignalData_senderMap σ o σ' :
  clearSignalData o σ = Some σ' → senderMap σ' = delete o (senderMap σ).
Proof.
  unfold clearSignalData. destruct (disconnectSender o σ) as [σ1|] eqn:Hd; [|done].
  simpl. intros Hr. apply disconnectReceiver_sameCounts in Hr as (_ & Hsm & _).
  rewrite Hsm. by apply disconnectSender_senderMap.
Qed.

(** ** The entry of a sender through a run *)

Lemma runProg_entry {U}
    (emit_rec : nat → State → U → Obj → Sig → Args → Result U unit) d s l :
  (∀ σ u s' sig args, senderMap σ !! s = Some l →
     res_out (emit_rec d σ u s' sig args) ≠ Diverged →
     senderMap (res_state (emit_rec d σ u s' sig args)) !! s = Some l) →
  ∀ p σ u, spares s p → senderMap σ !! s = Some l →
    res_out (runProg emit_rec d p σ u) ≠ Diverged →
    senderMap (res_state (runProg emit_rec d p σ u)) !! s = Some l.
Proof.
  intros Hemit p σ u Hsp. revert σ u.
  induction Hsp as [| |k _ IH|u' k _ IH|s' sig cb this k _ IH|s' sig cb this k _ IH
    |s' sig args k _ IH|s' k Hne _ IH|o k _ IH|o k Hne _ IH]; intros σ u Hs; simpl.
  - done.
  - done.
  - by apply IH.
  - by apply IH.
  - destruct (connect σ s' sig cb this) as [[σ1 b]|] eqn:Hc; [|done].
    apply IH. by eapply connect_entry.
  - destruct (disconnect σ s' sig cb this) as [[σ1 b]|] eqn:Hc; [|done].
    apply IH. apply disconnect_sameCounts in Hc as (_ & Hsm & _). by rewrite Hsm.
  - pose proof (Hemit σ u s' sig args Hs) as Hr.
    destruct (res_out (emit_rec d σ u s' sig args)) eqn:Hout; [| |done].
    + specialize (Hr ltac:(done)). unfold after. simpl. by apply IH.
    + specialize (Hr ltac:(done)). unfold after. simpl. by apply IH.
  - destruct (disconnectSender s' σ) as [σ1|] eqn:Hc; [|done].
    apply IH. rewrite (disconnectSender_senderMap _ _ _ Hc).
    by rewrite lookup_delete_ne.
  - destruct (disconnectReceiver o σ) as [σ1|] eqn:Hc; [|done].
    apply IH. apply disconnectReceiver_sameCounts in Hc as (_ & Hsm & _). by rewrite Hsm.
  - destruct (clearSignalData o σ) as [σ1|] eqn:Hc; [|done].
    apply IH. rewrite (clearSignalData_senderMap _ _ _ Hc).
    by rewrite lookup_delete_ne.
Qed.

Lemma emit_entry {U} (body : Obj → JsVal → Obj → Args → Prog U) s l fuel :
  (∀ cb this s' args, spares s (body cb this s' args)) →
  (∀ d σ u s' sig args, senderMap σ !! s = Some l →
     res_out (emit body fuel d σ u s' sig args) ≠ Diverged →
     senderMap (res_state (emit body fuel d σ u s' sig args)) !! s = Some l)
  ∧ (∀ d s' sig args lastc dirty conn σ u, senderMap σ !! s = Some l →
       res_out (invokeLoop body fuel d s' sig args lastc dirty conn σ u) ≠ Diverged →
       senderMap (res_state (invokeLoop body fuel d s' sig args lastc dirty conn σ u))
         !! s = Some l).
Proof.
  intros Hbody. induction fuel as [|f [IHe IHl]].
  - split; [done|]. by intros d s' sig args lastc dirty [c|] σ u Hs.
  - split.
    + intros d σ u s' sig args Hs. rewrite emit_S.
      destruct (senderMap σ !! s') as [l'|] eqn:Hs'; [|done]. cbv zeta.
      pose proof (IHl d s' sig args (last (getL (incRefs l' σ) l')) false
                    (first (getL (incRefs l' σ) l')) (incRefs l' σ) u Hs) as Hloop.
      destruct (res_out (invokeLoop _ _ _ _ _ _ _ _ _ _ _)) as [dirty| |]; [| |done].
      * specialize (Hloop ltac:(done)).
        destruct (_ && _); [|by intros _].
        destruct (cleanList _ _) as [σ4|] eqn:Hcl; [|done]. intros _. simpl.
        apply cleanList_sameCounts in Hcl as (_ & Hsm & _). by rewrite Hsm.
      * specialize (Hloop ltac:(done)). by intros _.
    + intros d s' sig args lastc dirty [c|] σ u Hs; [|done].
      rewrite invokeLoop_S. cbv zeta.
      assert (res_out (invokeStep body f d s' sig args dirty c σ u) ≠ Diverged →
              senderMap (res_state (invokeStep body f d s' sig args dirty c σ u)) !! s
              = Some l) as Hstep.
      { unfold invokeStep. destruct (callback (getC σ c)) as [cb|]; [|done].
        case_bool_decide; [|done]. simpl.
        intros Hout. apply runProg_entry; [|done|done|].
        - intros σ' u' s0 sig' args'. apply IHe.
        - by destruct (res_out (runProg _ _ _ _ _)). }
      destruct (res_out (invokeStep body f d s' sig args dirty c σ u)) eqn:Hout;
        [| |done].
      * specialize (Hstep ltac:(done)).
        case_bool_decide; [by intros _|]. unfold after. simpl. by apply IHl.
      * intros _. by apply Hstep.
Qed.

Lemma testBody_spares s cb this s' args : spares s (testBody cb this s' args).
Proof. unfold testBody. repeat case_decide; repeat constructor. Qed.

(** C6.  The entry of a sender in [senderMap], from its creation to its
    removal, on a well-formed registry.
    - Creation: for a sender with no entry, an emission does nothing, and
      every [connect] returns [true] and maps the sender to a new list that
      holds the new connection.
    - No operation other than [disconnectSender] and [clearSignalData]
      takes an entry out: [connect] keeps every entry as it is,
      [disconnect] and [disconnectReceiver] leave [senderMap] as it is,
      and [disconnectSender] and [clearSignalData] for an object take out
      the entry of that object and no other.  So the entry of a sender
      is still there, for the same list, after every emission and every
      run that comes back, whatever the callbacks do, unless the run or
      a callback calls [disconnectSender] or [clearSignalData] for that
      sender.
    - In particular an emission on a list that holds no live connection
      calls nothing, empties the list when no other emission is running on
      it ([first] and [last] become [null]), and keeps the entry: the
      sender stays mapped to its list, now empty, and the next [connect]
      for the sender puts its connection in that same list. *)
Theorem sender_entry_lifecycle {U} (body : Obj → JsVal → Obj → Args → Prog U) σ :
  wf σ →
  (∀ s, senderMap σ !! s = None →
     (∀ fuel d u sig args,
        emit body (S fuel) d σ u s sig args = mkResult σ u [] (Normal tt))
     ∧ ∀ sig cb this0, ∃ σ',
         connect σ s sig cb this0 = Some (σ', true)
         ∧ senderMap σ' = <[s := length (lists σ)]> (senderMap σ)
         ∧ length (lists σ') = S (length (lists σ))
         ∧ chainOf σ' (length (lists σ)) = [length (conns σ)])
  ∧ (∀ s sig cb this0, ∃ σ' b,
       connect σ s sig cb this0 = Some (σ', b)
       ∧ ∀ s0 l, senderMap σ !! s0 = Some l → senderMap σ' !! s0 = Some l)
  ∧ (∀ s sig cb this0, ∃ σ' b,
       disconnect σ s sig cb this0 = Some (σ', b) ∧ senderMap σ' = senderMap σ)
  ∧ (∀ o, ∃ σ', disconnectReceiver o σ = Some σ' ∧ senderMap σ' = senderMap σ)
  ∧ (∀ s, ∃ σ', disconnectSender s σ = Some σ'
       ∧ senderMap σ' = delete s (senderMap σ))
  ∧ (∀ o, ∃ σ', clearSignalData o σ = Some σ'
       ∧ senderMap σ' = delete o (senderMap σ))
  ∧ (∀ s l, senderMap σ !! s = Some l →
       (∀ cb this s' args, spares s (body cb this s' args)) →
       (∀ fuel d u s' sig args,
          res_out (emit body fuel d σ u s' sig args) ≠ Diverged →
          senderMap (res_state (emit body fuel d σ u s' sig args)) !! s = Some l)
       ∧ (∀ fuel d p u, spares s p →
            res_out (runProg (emit body fuel) d p σ u) ≠ Diverged →
            senderMap (res_state (runProg (emit body fuel) d p σ u)) !! s = Some l))
  ∧ (∀ s l, senderMap σ !! s = Some l →
       ∀ sig fuel d u args,
         (∀ c, c ∈ chainOf σ l → liveb (getC σ c) = false) →
         refs (getL σ l) = 0%Z → length (chainOf σ l) < fuel →
         let σ' := res_state (emit body fuel d σ u s sig args) in
         res_out (emit body fuel d σ u s sig args) = Normal tt
         ∧ res_trace (emit body fuel d σ u s sig args) = []
         ∧ senderMap σ' = senderMap σ
         ∧ senderMap σ' !! s = Some l
         ∧ chainOf σ' l = []
         ∧ first (getL σ' l) = None ∧ last (getL σ' l) = None
         ∧ ∀ sig' cb this0, ∃ σ2,
             connect σ' s sig' cb this0 = Some (σ2, true)
             ∧ senderMap σ2 !! s = Some l
             ∧ chainOf σ2 l = [length (conns σ')]).
Proof.
  intros Hwf. split_and!.
  - intros s Hs. split.
    { intros fuel d u sig args. by apply emit_None. }
    intros sig cb this0.
    destruct (connect_cases σ s sig cb this0 (proj1 Hwf))
      as [(_ & l0 & _ & _ & Hs0 & _)|[Hc Hno]]; [congruence|].
    exists (connected σ s sig cb this0). split; [done|].
    pose proof (connect_senderMap _ _ _ _ _ _ _ Hc) as Hsm. rewrite Hs in Hsm.
    split; [done|]. split.
    { unfold connected, addToChain, addToList. rewrite Hs.
      destruct (receiverMap _ !! _); simpl;
        rewrite ?length_alter, length_app; simpl; lia. }
    destruct (connected_chainOf σ s sig cb this0 Hwf Hno) as (l & Hl & Hor & Hch).
    rewrite Hsm, lookup_insert_eq in Hl. injection Hl as <-.
    by rewrite Hch, chainOf_fresh.
  - intros s sig cb this0.
    destruct (connect_wf σ s sig cb this0 Hwf) as (σ' & b & Hc & _).
    exists σ', b. split; [done|]. intros s0 l. by eapply connect_entry.
  - intros s sig cb this0.
    destruct (disconnect_wf σ s sig cb this0 Hwf) as (σ' & b & Hd & _).
    exists σ', b. split; [done|].
    by apply disconnect_sameCounts in Hd as (_ & Hsm & _).
  - intros o. destruct (disconnectReceiver_wf σ o Hwf) as (σ' & Hd & _).
    exists σ'. split; [done|].
    by apply disconnectReceiver_sameCounts in Hd as (_ & Hsm & _).
  - intros s. destruct (disconnectSender_wf σ s Hwf) as (σ' & Hd & _).
    exists σ'. split; [done|]. by apply disconnectSender_senderMap.
  - intros o. destruct (clearSignalData_wf σ o Hwf) as (σ' & Hd & _).
    exists σ'. split; [done|]. by apply clearSignalData_senderMap.
  - intros s l Hs Hbody. split.
    + intros fuel d u s' sig args. by apply (proj1 (emit_entry body s l fuel Hbody)).
    + intros fuel d p u Hsp. apply runProg_entry; [|done|done].
      intros σ0 u0 s' sig args. apply (proj1 (emit_entry body s l fuel Hbody)).
  - intros s l Hs sig fuel d u args Hdead Hrefs Hf σ'.
    pose proof (chain_chainOf σ s l Hwf Hs) as Hch.
    assert (wellBehaved body false sig s args σ (chainOf σ l)) as Hwb.
    { intros c cb Hc Hinv _. unfold invokedb in Hinv. by rewrite (Hdead c Hc) in Hinv. }
    destruct (emit_quiet body false fuel d σ u s sig args l _ Hwf Hs Hch Hwb Hf)
      as (Ho & Ht & Hwf' & _ & Hsm & Hst).
    fold σ' in Hwf', Hsm, Hst. specialize (Hst eq_refl).
    assert (snapshot sig σ (chainOf σ l) = []) as Hsnap.
    { apply filter_None. intros c Hc Hinv. unfold invokedb in Hinv.
      by rewrite (Hdead c Hc) in Hinv. }
    rewrite Hsnap in Ht.
    assert (senderMap σ' = senderMap σ) as Hmap.
    { destruct (anyDead σ (chainOf σ l) && bool_decide (refs (getL σ l) = 0%Z)).
      - symmetry in Hst. by apply cleanList_sameCounts in Hst as (_ & ? & _).
      - by injection Hst as ->. }
    specialize (Hsm s l Hs).
    assert (chain σ' l []) as Hch'.
    { destruct (decide (chainOf σ l = [])) as [Hnil|Hne].
      - assert (anyDead σ (chainOf σ l) = false) as Ha by by rewrite Hnil.
        rewrite Ha in Hst. simpl in Hst. injection Hst as ->. by rewrite <- Hnil.
      - rewrite (anyDead_true σ _ Hne Hdead), Hrefs in Hst.
        rewrite bool_decide_eq_true_2 in Hst by done. simpl in Hst.
        destruct (cleanList_spec σ l _ Hch (chain_NoDup _ _ _ Hwf Hch))
          as (σ2 & Hcl & Hch2 & _).
        rewrite Hcl in Hst. injection Hst as ->.
        rewrite filter_None in Hch2; [done|].
        intros c Hc. by rewrite (Hdead c Hc). }
    pose proof (chainOf_wf _ _ _ Hwf' Hch') as Hnil'.
    destruct (wf_first_last σ' s l Hwf' Hsm) as [Hfst Hlst].
    rewrite (connectionsOf_Some _ _ _ Hsm), Hnil' in Hfst, Hlst.
    split_and!; try done.
    intros sig' cb this0.
    destruct (connect_cases σ' s sig' cb this0 (proj1 Hwf'))
      as [(_ & l0 & xs & c & Hs0 & Hch0 & Hc0 & _)|[Hc Hno]].
    + exfalso. rewrite Hsm in Hs0. injection Hs0 as <-.
      rewrite <- (chain_func _ _ _ _ Hch' Hch0) in Hc0. by apply elem_of_nil in Hc0.
    + exists (connected σ' s sig' cb this0). split; [done|].
      pose proof (connect_connectionsOf _ _ _ _ _ _ Hwf' Hc) as Hco.
      assert (senderMap (connected σ' s sig' cb this0) !! s = Some l) as Hs2.
      { by rewrite (connected_senderMap σ' s sig' cb this0 l Hsm). }
      split; [done|].
      rewrite (connectionsOf_Some _ _ _ Hs2), (connectionsOf_Some _ _ _ Hsm) in Hco.
      by rewrite Hco, Hnil'.
Qed.

Lemma sender_entry_lifecycle_witness :
  let σ' := res_state (emit testBody 16 0 withDead tt obj1 oneSignal 0) in
  let σ3 := res_state (runProg (emit testBody 16) 0 aroundRun withDead tt) in
  senderMap withDead !! obj2 = None
  ∧ (∃ σ1, connect withDead obj2 oneSignal onOne (VObj handler1) = Some (σ1, true)
       ∧ senderMap σ1 = <[obj2 := length (lists withDead)]> (senderMap withDead)
       ∧ length (lists σ1) = S (length (lists withDead))
       ∧ chainOf σ1 (length (lists withDead)) = [length (conns withDead)])
  ∧ senderMap withDead !! obj1 = Some 0
  ∧ (res_out (emit testBody 16 0 withDead tt obj1 oneSignal 0) = Normal tt
     ∧ res_trace (emit testBody 16 0 withDead tt obj1 oneSignal 0) = []
     ∧ senderMap σ' = senderMap withDead
     ∧ senderMap σ' !! obj1 = Some 0
     ∧ chainOf σ' 0 = []
     ∧ first (getL σ' 0) = None ∧ last (getL σ' 0) = None
     ∧ ∀ sig' cb this0, ∃ σ2,
         connect σ' obj1 sig' cb this0 = Some (σ2, true)
         ∧ senderMap σ2 !! obj1 = Some 0
         ∧ chainOf σ2 0 = [length (conns σ')])
  ∧ senderMap σ3 !! obj1 = Some 0
  ∧ senderMap σ3 !! obj2 = None
  ∧ (∃ σ4, disconnectSender obj1 withDead = Some σ4
       ∧ senderMap σ4 = delete obj1 (senderMap withDead))
  ∧ (∃ σ5, clearSignalData obj1 withDead = Some σ5
       ∧ senderMap σ5 = delete obj1 (senderMap withDead)).
Proof.
  intros σ' σ3.
  assert (wf withDead) as Hwf by (apply run_wf_init; vm_compute; congruence).
  assert (senderMap withDead !! obj1 = Some 0) as Hs by (vm_compute; reflexivity).
  assert (senderMap withDead !! obj2 = None) as Hs2 by (vm_compute; reflexivity).
  destruct (sender_entry_lifecycle testBody withDead Hwf)
    as (Hnew & _ & _ & _ & Hds & Hcl & Hrun & Hdead).
  split; [exact Hs2|].
  split; [exact (proj2 (Hnew obj2 Hs2) oneSignal onOne (VObj handler1))|].
  split; [exact Hs|].
  split.
  { apply (Hdead obj1 0 Hs oneSignal 16 0 tt 0).
    - intros c Hc. each_member Hc. vm_compute. reflexivity.
    - vm_compute. reflexivity.
    - vm_compute. lia. }
  split.
  { apply (proj2 (Hrun obj1 0 Hs (testBody_spares obj1)) 16 0 aroundRun tt).
    - unfold aroundRun. repeat constructor; vm_compute; congruence.
    - vm_compute. congruence. }
  split; [vm_compute; reflexivity|].
  split; [exact (Hds obj1) | exact (Hcl obj1)].
Defined.

(** The test for issue 5, up to its [emit]: the one connection of the
    sender is disconnected, the emission finds no live connection and
    empties the list, and the sender is still mapped to its list. *)
Lemma emit_cleanup_keeps_sender_entry :
  let r := emit testBody 16 0 withDead tt obj1 oneSignal 0 in
  senderMap withDead !! obj1 = Some 0
  ∧ chainOf withDead 0 = [0] ∧ liveb (getC withDead 0) = false
  ∧ refs (getL withDead 0) = 0%Z
  ∧ res_out r = Normal tt
  ∧ first (getL (res_state r) 0) = None ∧ last (getL (res_state r) 0) = None
  ∧ senderMap (res_state r) !! obj1 = Some 0
  ∧ senderMap (res_state r) !! obj1 ≠ None.
Proof. vm_compute. repeat split; congruence. Qed.
